(** * jembadb: row storage engine, sharded table coordinator, database directory

    A shallow embedding of the parts of [src/TableRowsFile.js],
    [src/ShardedTable.js] and [JembaDb.js] that the stated properties are
    about, and the proofs of those properties.

    Conventions of the embedding:
    - JavaScript numbers that the code uses as counters, sizes, ids and block
      indexes are integers; they are modelled by [Z].  A number id is read
      from the files as it is, so [load], which adds 1 to it, adds as doubles
      do ([Js.numSucc]): exactly up to [2^53], rounded beyond.
    - A [Buffer] and the string obtained from it by [toString()] are both
      modelled by Rocq's [string], a sequence of 8-bit characters; decoding is
      the identity (the framing bytes the code inspects are all ASCII).
    - A JavaScript [Map] is a [gmap], a [Set] is a [gset]; where the code
      iterates over one of them the model iterates over its enumeration
      ([map_to_list], [elements]).  Arrays are lists.
    - Objects held by reference (a block of [blockList], a delta of [deltas],
      a lock record) are addressed by the key they are registered under.
    - An [async] method runs to completion as one step; the per-file and
      per-table lock queues, which only order such steps, are left out.
    - Code that throws returns [Throw] together with the state reached at the
      point of the throw, so that states left behind by a failed call are
      states of the model too. *)

From Stdlib Require Import ZArith Lia Ascii String List Bool.
From stdpp Require Import base option list gmap strings.

Local Open Scope Z_scope.
Set Warnings "-clear-no-such-hyp".
Set Warnings "-unexpected-implicit-declaration".

(** ** JavaScript number and string helpers *)

Module Js.

(** [Number.MAX_SAFE_INTEGER], that is [2^53 - 1].  Every integer up to
    [2^53] in absolute value is a double; beyond, a double has 53
    significant bits. *)
Definition maxSafeInteger : Z := 9007199254740991.

(** The double nearest to the integer [m], the one with the even
    significand when two are as near: what an operation on doubles returns
    when its exact result is [m]. *)
Definition roundToDouble (m : Z) : Z :=
  let a := Z.abs m in
  if a <=? maxSafeInteger + 1 then m
  else
    let ulp := 2 ^ (Z.log2 a - 52) in
    let q := a / ulp in
    let r := a mod ulp in
    let q' := if 2 * r <? ulp then q
              else if ulp <? 2 * r then q + 1
              else if Z.even q then q else q + 1 in
    Z.sgn m * (q' * ulp).

(** [x + 1] for a number [x] with an integer value. *)
Definition numSucc (x : Z) : Z := roundToDouble (x + 1).

(** The decimal digit [d] (0..9) as a character. *)
Definition digitChar (d : Z) : ascii := ascii_of_nat (48 + Z.to_nat d).

(** The [w] low decimal digits of [n], most significant first. *)
Fixpoint fixedDigits (w : nat) (n : Z) : string :=
  match w with
  | O => EmptyString
  | S w' => String.append (fixedDigits w' (n / 10)) (String (digitChar (n mod 10)) EmptyString)
  end.

Fixpoint numDigits_fuel (fuel : nat) (n : Z) : nat :=
  match fuel with
  | O => 1%nat
  | S f => if n <? 10 then 1%nat else S (numDigits_fuel f (n / 10))
  end.

(** Number of decimal digits of a non-negative integer (1 for 0). *)
Definition numDigits (n : Z) : nat := numDigits_fuel (Z.to_nat (Z.log2 n)) n.

(** [Number.prototype.toString()] on an integer. *)
Definition toString (n : Z) : string :=
  if n <? 0 then String "-" (fixedDigits (numDigits (- n)) (- n))
  else fixedDigits (numDigits n) n.

Fixpoint repeatChar (k : nat) (c : ascii) : string :=
  match k with
  | O => EmptyString
  | S k' => String c (repeatChar k' c)
  end.

(** [String.prototype.padStart(target, c)] for a one-character filler. *)
Definition padStart (target : nat) (c : ascii) (s : string) : string :=
  String.append (repeatChar (target - String.length s) c) s.

(** [a < b] on strings: comparison by code units. *)
Definition strLt (a b : string) : Prop := String.compare a b = Lt.

(** [s[s.length - 1]], when there is one. *)
Fixpoint lastChar (s : string) : option ascii :=
  match s with
  | EmptyString => None
  | String c EmptyString => Some c
  | String _ rest => lastChar rest
  end.

(** [s[s.length - 1] = c] on a buffer. *)
Fixpoint setLastChar (c : ascii) (s : string) : string :=
  match s with
  | EmptyString => EmptyString
  | String _ EmptyString => String c EmptyString
  | String d rest => String d (setLastChar c rest)
  end.

(** [s.lastIndexOf(c)]: [None] stands for -1. *)
Fixpoint lastIndexOf (c : ascii) (s : string) : option nat :=
  match s with
  | EmptyString => None
  | String d rest =>
      match lastIndexOf c rest with
      | Some i => Some (S i)
      | None => if Ascii.eqb d c then Some O else None
      end
  end.

(** [new Map(entries)]: entries are set in order, a later one replaces an
    earlier one with the same key. *)
Definition newMap {K V} `{Countable K} (entries : list (K * V)) : gmap K V :=
  fold_left (fun m kv => <[kv.1 := kv.2]> m) entries ∅.

(** [arr.join(',')]. *)
Fixpoint join (sep : string) (l : list string) : string :=
  match l with
  | [] => EmptyString
  | [x] => x
  | x :: rest => String.append x (String.append sep (join sep rest))
  end.

End Js.

(** ** Code that changes a state and may throw *)

Module Exec.

Inductive Res (S A : Type) : Type :=
| Ok (a : A) (s : S)
| Throw (msg : string) (s : S).
Arguments Ok {S A} a s.
Arguments Throw {S A} msg s.

Definition M (S A : Type) : Type := S -> Res S A.

Definition ret {S A} (a : A) : M S A := fun s => Ok a s.

Definition bind {S A B} (m : M S A) (k : A -> M S B) : M S B :=
  fun s => match m s with
           | Ok a s' => k a s'
           | Throw e s' => Throw e s'
           end.

Definition gets {S A} (f : S -> A) : M S A := fun s => Ok (f s) s.
Definition modify {S} (f : S -> S) : M S unit := fun s => Ok tt (f s).
Definition throw {S A} (msg : string) : M S A := fun s => Throw msg s.

(** The state a call leaves behind, whether it returned or threw. *)
Definition final {S A} (r : Res S A) : S :=
  match r with
  | Ok _ s => s
  | Throw _ s => s
  end.

Definition returned {S A} (r : Res S A) : option A :=
  match r with
  | Ok a _ => Some a
  | Throw _ _ => None
  end.

Notation "x <- m ;; k" := (bind m (fun x => k))
  (at level 100, m at next level, right associativity).
Notation "m ;; k" := (bind m (fun _ => k))
  (at level 100, right associativity).

(** [for (const x of l) body(x)]. *)
Fixpoint forEach {S A} (l : list A) (body : A -> M S unit) : M S unit :=
  match l with
  | [] => ret tt
  | x :: rest => body x ;; forEach rest body
  end.

(** A loop whose body may leave it: the body returns [false] for [break]
    (or [return]) and [true] to go on. *)
Fixpoint forEachWhile {S A} (l : list A) (body : A -> M S bool) : M S unit :=
  match l with
  | [] => ret tt
  | x :: rest => go <- body x ;; if go : bool then forEachWhile rest body else ret tt
  end.

Definition when {S} (c : bool) (m : M S unit) : M S unit :=
  if c then m else ret tt.

(** [try { m } finally { fin }]. *)
Definition tryFinally {S A} (m : M S A) (fin : M S unit) : M S A :=
  fun s => match m s with
           | Ok a s' =>
               match fin s' with
               | Ok _ s'' => Ok a s''
               | Throw e s'' => Throw e s''
               end
           | Throw e s' =>
               match fin s' with
               | Ok _ s'' => Throw e s''
               | Throw e' s'' => Throw e' s''
               end
           end.

End Exec.

(** ** The row storage engine ([src/TableRowsFile.js]) *)

Module TableRowsFile.
Import Exec.

Definition maxBlockSize : Z := 1024 * 1024.
Definition minFileDumpSize : Z := 100 * 1024.
Definition maxFileDumpSize : Z := 50 * 1024 * 1024.

(** A row id: a number, which has an integer value, or a string
    ([typeof(id) === 'number'] tells them apart in [load]). *)
Inductive RowId : Type :=
| IdNum (n : Z)
| IdStr (s : string).

#[global] Instance RowId_eq_dec : EqDecision RowId.
Proof. solve_decision. Defined.

Definition RowId_to_sum (i : RowId) : Z + string :=
  match i with
  | IdNum n => inl n
  | IdStr s => inr s
  end.

Definition RowId_of_sum (x : Z + string) : RowId :=
  match x with
  | inl n => IdNum n
  | inr s => IdStr s
  end.

#[global] Instance RowId_countable : Countable RowId.
Proof. refine (inj_countable' RowId_to_sum RowId_of_sum _). intros []; reflexivity. Defined.

Section Types.
Context {Row : Type}.

(** A block as [createNewBlock] builds it.  [b_rows = None] is
    [rows: null], an unloaded block. *)
Record Block : Type := mkBlock {
  b_index : Z;
  b_delCount : Z;
  b_addCount : Z;
  b_size : Z;
  b_rows : option (gmap RowId Row);
  b_rowsLength : Z;
  b_final : bool
}.

(** A record of the block list files: a block, or [{index, deleted: 1}]. *)
Inductive BlockRec : Type :=
| RecDeleted (index : Z)
| RecBlock (b : Block).

(** A delta as [getDelta] builds it; [d_delFiles] is empty as long as
    [delta.delFiles] is undefined. *)
Record Delta : Type := mkDelta {
  d_blockIndex : list (RowId * Z);
  d_blockList : list (Z * Z);
  d_blockRows : list (Z * RowId * Row);
  d_delFiles : list string
}.

End Types.
Arguments Block Row : clear implicits.
Arguments BlockRec Row : clear implicits.
Arguments Delta Row : clear implicits.

Inductive FdName : Type := FdBlockIndex | FdBlockList | FdBlockRows.

(** [this.fd]: an open descriptor is modelled by the path it was opened on. *)
Record Fd : Type := mkFd {
  fd_blockIndex : option string;
  fd_blockList : option string;
  fd_blockRows : option string;
  fd_blockRowsIndex : option Z
}.

(** JSON encoding and decoding of the values the engine stores, and the
    compression codec of [utils]; the engine relies on none of their
    properties. *)
Class Codec (Row : Type) : Type := {
  JSON_stringify_id : RowId -> string;
  JSON_stringify_row : Row -> string;
  JSON_stringify_indexRec : RowId * Z -> string;
  JSON_stringify_rowRec : RowId * Row -> string;
  JSON_stringify_block : Block Row -> string;
  JSON_stringify_deleted : Z -> string;
  JSON_stringify_rows : list (RowId * Row) -> string;
  JSON_stringify_index : list (RowId * Z) -> string;
  JSON_stringify_blocks : list (Block Row) -> string;
  JSON_parse_rows : string -> option (list (RowId * Row));
  JSON_parse_index : string -> option (list (RowId * Z));
  JSON_parse_blocks : string -> option (list (BlockRec Row));
  inflate : string -> option string;
  deflate : Z -> string -> string
}.

Section Engine.
Context {Row : Type} {codec : Codec Row}.

(** The engine object together with the files of its directory
    ([disk]: path to content). *)
Record State : Type := mkState {
  tablePath : string;
  loadedBlocksCount : Z;
  compressed : Z;
  blockIndex : gmap RowId Z;
  currentBlockIndex : Z;
  lastSavedBlockIndex : Z;
  blockList : gmap Z (Block Row);
  blockSetDefrag : gset Z;
  blocksNotFinalized : gset Z;
  loadedBlocks : list Z;
  newBlocks : list Z;
  deltas : gmap Z (Delta Row);
  destroyed : bool;
  blockindex0Size : Z;
  blocklist0Size : Z;
  fd : Fd;
  unloadTimer : bool;
  allowCorrupted : bool;
  defragCandidates : list Z;
  disk : gmap string string
}.

Definition set_blockIndex (f : gmap RowId Z -> gmap RowId Z) (s : State) : State :=
  {| tablePath := tablePath s; loadedBlocksCount := loadedBlocksCount s;
     compressed := compressed s; blockIndex := f (blockIndex s);
     currentBlockIndex := currentBlockIndex s; lastSavedBlockIndex := lastSavedBlockIndex s;
     blockList := blockList s; blockSetDefrag := blockSetDefrag s;
     blocksNotFinalized := blocksNotFinalized s; loadedBlocks := loadedBlocks s;
     newBlocks := newBlocks s; deltas := deltas s; destroyed := destroyed s;
     blockindex0Size := blockindex0Size s; blocklist0Size := blocklist0Size s; fd := fd s;
     unloadTimer := unloadTimer s; allowCorrupted := allowCorrupted s;
     defragCandidates := defragCandidates s; disk := disk s |}.

Definition set_currentBlockIndex (f : Z -> Z) (s : State) : State :=
  {| tablePath := tablePath s; loadedBlocksCount := loadedBlocksCount s;
     compressed := compressed s; blockIndex := blockIndex s;
     currentBlockIndex := f (currentBlockIndex s);
     lastSavedBlockIndex := lastSavedBlockIndex s; blockList := blockList s;
     blockSetDefrag := blockSetDefrag s; blocksNotFinalized := blocksNotFinalized s;
     loadedBlocks := loadedBlocks s; newBlocks := newBlocks s; deltas := deltas s;
     destroyed := destroyed s; blockindex0Size := blockindex0Size s;
     blocklist0Size := blocklist0Size s; fd := fd s; unloadTimer := unloadTimer s;
     allowCorrupted := allowCorrupted s; defragCandidates := defragCandidates s;
     disk := disk s |}.

Definition set_lastSavedBlockIndex (f : Z -> Z) (s : State) : State :=
  {| tablePath := tablePath s; loadedBlocksCount := loadedBlocksCount s;
     compressed := compressed s; blockIndex := blockIndex s;
     currentBlockIndex := currentBlockIndex s;
     lastSavedBlockIndex := f (lastSavedBlockIndex s); blockList := blockList s;
     blockSetDefrag := blockSetDefrag s; blocksNotFinalized := blocksNotFinalized s;
     loadedBlocks := loadedBlocks s; newBlocks := newBlocks s; deltas := deltas s;
     destroyed := destroyed s; blockindex0Size := blockindex0Size s;
     blocklist0Size := blocklist0Size s; fd := fd s; unloadTimer := unloadTimer s;
     allowCorrupted := allowCorrupted s; defragCandidates := defragCandidates s;
     disk := disk s |}.

Definition set_blockList (f : gmap Z (Block Row) -> gmap Z (Block Row)) (s : State) : State :=
  {| tablePath := tablePath s; loadedBlocksCount := loadedBlocksCount s;
     compressed := compressed s; blockIndex := blockIndex s;
     currentBlockIndex := currentBlockIndex s; lastSavedBlockIndex := lastSavedBlockIndex s;
     blockList := f (blockList s); blockSetDefrag := blockSetDefrag s;
     blocksNotFinalized := blocksNotFinalized s; loadedBlocks := loadedBlocks s;
     newBlocks := newBlocks s; deltas := deltas s; destroyed := destroyed s;
     blockindex0Size := blockindex0Size s; blocklist0Size := blocklist0Size s; fd := fd s;
     unloadTimer := unloadTimer s; allowCorrupted := allowCorrupted s;
     defragCandidates := defragCandidates s; disk := disk s |}.

Definition set_blockSetDefrag (f : gset Z -> gset Z) (s : State) : State :=
  {| tablePath := tablePath s; loadedBlocksCount := loadedBlocksCount s;
     compressed := compressed s; blockIndex := blockIndex s;
     currentBlockIndex := currentBlockIndex s; lastSavedBlockIndex := lastSavedBlockIndex s;
     blockList := blockList s; blockSetDefrag := f (blockSetDefrag s);
     blocksNotFinalized := blocksNotFinalized s; loadedBlocks := loadedBlocks s;
     newBlocks := newBlocks s; deltas := deltas s; destroyed := destroyed s;
     blockindex0Size := blockindex0Size s; blocklist0Size := blocklist0Size s; fd := fd s;
     unloadTimer := unloadTimer s; allowCorrupted := allowCorrupted s;
     defragCandidates := defragCandidates s; disk := disk s |}.

Definition set_blocksNotFinalized (f : gset Z -> gset Z) (s : State) : State :=
  {| tablePath := tablePath s; loadedBlocksCount := loadedBlocksCount s;
     compressed := compressed s; blockIndex := blockIndex s;
     currentBlockIndex := currentBlockIndex s; lastSavedBlockIndex := lastSavedBlockIndex s;
     blockList := blockList s; blockSetDefrag := blockSetDefrag s;
     blocksNotFinalized := f (blocksNotFinalized s); loadedBlocks := loadedBlocks s;
     newBlocks := newBlocks s; deltas := deltas s; destroyed := destroyed s;
     blockindex0Size := blockindex0Size s; blocklist0Size := blocklist0Size s; fd := fd s;
     unloadTimer := unloadTimer s; allowCorrupted := allowCorrupted s;
     defragCandidates := defragCandidates s; disk := disk s |}.

Definition set_loadedBlocks (f : list Z -> list Z) (s : State) : State :=
  {| tablePath := tablePath s; loadedBlocksCount := loadedBlocksCount s;
     compressed := compressed s; blockIndex := blockIndex s;
     currentBlockIndex := currentBlockIndex s; lastSavedBlockIndex := lastSavedBlockIndex s;
     blockList := blockList s; blockSetDefrag := blockSetDefrag s;
     blocksNotFinalized := blocksNotFinalized s; loadedBlocks := f (loadedBlocks s);
     newBlocks := newBlocks s; deltas := deltas s; destroyed := destroyed s;
     blockindex0Size := blockindex0Size s; blocklist0Size := blocklist0Size s; fd := fd s;
     unloadTimer := unloadTimer s; allowCorrupted := allowCorrupted s;
     defragCandidates := defragCandidates s; disk := disk s |}.

Definition set_newBlocks (f : list Z -> list Z) (s : State) : State :=
  {| tablePath := tablePath s; loadedBlocksCount := loadedBlocksCount s;
     compressed := compressed s; blockIndex := blockIndex s;
     currentBlockIndex := currentBlockIndex s; lastSavedBlockIndex := lastSavedBlockIndex s;
     blockList := blockList s; blockSetDefrag := blockSetDefrag s;
     blocksNotFinalized := blocksNotFinalized s; loadedBlocks := loadedBlocks s;
     newBlocks := f (newBlocks s); deltas := deltas s; destroyed := destroyed s;
     blockindex0Size := blockindex0Size s; blocklist0Size := blocklist0Size s; fd := fd s;
     unloadTimer := unloadTimer s; allowCorrupted := allowCorrupted s;
     defragCandidates := defragCandidates s; disk := disk s |}.

Definition set_deltas (f : gmap Z (Delta Row) -> gmap Z (Delta Row)) (s : State) : State :=
  {| tablePath := tablePath s; loadedBlocksCount := loadedBlocksCount s;
     compressed := compressed s; blockIndex := blockIndex s;
     currentBlockIndex := currentBlockIndex s; lastSavedBlockIndex := lastSavedBlockIndex s;
     blockList := blockList s; blockSetDefrag := blockSetDefrag s;
     blocksNotFinalized := blocksNotFinalized s; loadedBlocks := loadedBlocks s;
     newBlocks := newBlocks s; deltas := f (deltas s); destroyed := destroyed s;
     blockindex0Size := blockindex0Size s; blocklist0Size := blocklist0Size s; fd := fd s;
     unloadTimer := unloadTimer s; allowCorrupted := allowCorrupted s;
     defragCandidates := defragCandidates s; disk := disk s |}.

Definition set_destroyed (f : bool -> bool) (s : State) : State :=
  {| tablePath := tablePath s; loadedBlocksCount := loadedBlocksCount s;
     compressed := compressed s; blockIndex := blockIndex s;
     currentBlockIndex := currentBlockIndex s; lastSavedBlockIndex := lastSavedBlockIndex s;
     blockList := blockList s; blockSetDefrag := blockSetDefrag s;
     blocksNotFinalized := blocksNotFinalized s; loadedBlocks := loadedBlocks s;
     newBlocks := newBlocks s; deltas := deltas s; destroyed := f (destroyed s);
     blockindex0Size := blockindex0Size s; blocklist0Size := blocklist0Size s; fd := fd s;
     unloadTimer := unloadTimer s; allowCorrupted := allowCorrupted s;
     defragCandidates := defragCandidates s; disk := disk s |}.

Definition set_blockindex0Size (f : Z -> Z) (s : State) : State :=
  {| tablePath := tablePath s; loadedBlocksCount := loadedBlocksCount s;
     compressed := compressed s; blockIndex := blockIndex s;
     currentBlockIndex := currentBlockIndex s; lastSavedBlockIndex := lastSavedBlockIndex s;
     blockList := blockList s; blockSetDefrag := blockSetDefrag s;
     blocksNotFinalized := blocksNotFinalized s; loadedBlocks := loadedBlocks s;
     newBlocks := newBlocks s; deltas := deltas s; destroyed := destroyed s;
     blockindex0Size := f (blockindex0Size s); blocklist0Size := blocklist0Size s; fd := fd s;
     unloadTimer := unloadTimer s; allowCorrupted := allowCorrupted s;
     defragCandidates := defragCandidates s; disk := disk s |}.

Definition set_blocklist0Size (f : Z -> Z) (s : State) : State :=
  {| tablePath := tablePath s; loadedBlocksCount := loadedBlocksCount s;
     compressed := compressed s; blockIndex := blockIndex s;
     currentBlockIndex := currentBlockIndex s; lastSavedBlockIndex := lastSavedBlockIndex s;
     blockList := blockList s; blockSetDefrag := blockSetDefrag s;
     blocksNotFinalized := blocksNotFinalized s; loadedBlocks := loadedBlocks s;
     newBlocks := newBlocks s; deltas := deltas s; destroyed := destroyed s;
     blockindex0Size := blockindex0Size s; blocklist0Size := f (blocklist0Size s); fd := fd s;
     unloadTimer := unloadTimer s; allowCorrupted := allowCorrupted s;
     defragCandidates := defragCandidates s; disk := disk s |}.

Definition set_fd (f : Fd -> Fd) (s : State) : State :=
  {| tablePath := tablePath s; loadedBlocksCount := loadedBlocksCount s;
     compressed := compressed s; blockIndex := blockIndex s;
     currentBlockIndex := currentBlockIndex s; lastSavedBlockIndex := lastSavedBlockIndex s;
     blockList := blockList s; blockSetDefrag := blockSetDefrag s;
     blocksNotFinalized := blocksNotFinalized s; loadedBlocks := loadedBlocks s;
     newBlocks := newBlocks s; deltas := deltas s; destroyed := destroyed s;
     blockindex0Size := blockindex0Size s; blocklist0Size := blocklist0Size s; fd := f (fd s);
     unloadTimer := unloadTimer s; allowCorrupted := allowCorrupted s;
     defragCandidates := defragCandidates s; disk := disk s |}.

Definition set_unloadTimer (f : bool -> bool) (s : State) : State :=
  {| tablePath := tablePath s; loadedBlocksCount := loadedBlocksCount s;
     compressed := compressed s; blockIndex := blockIndex s;
     currentBlockIndex := currentBlockIndex s; lastSavedBlockIndex := lastSavedBlockIndex s;
     blockList := blockList s; blockSetDefrag := blockSetDefrag s;
     blocksNotFinalized := blocksNotFinalized s; loadedBlocks := loadedBlocks s;
     newBlocks := newBlocks s; deltas := deltas s; destroyed := destroyed s;
     blockindex0Size := blockindex0Size s; blocklist0Size := blocklist0Size s; fd := fd s;
     unloadTimer := f (unloadTimer s); allowCorrupted := allowCorrupted s;
     defragCandidates := defragCandidates s; disk := disk s |}.

Definition set_allowCorrupted (f : bool -> bool) (s : State) : State :=
  {| tablePath := tablePath s; loadedBlocksCount := loadedBlocksCount s;
     compressed := compressed s; blockIndex := blockIndex s;
     currentBlockIndex := currentBlockIndex s; lastSavedBlockIndex := lastSavedBlockIndex s;
     blockList := blockList s; blockSetDefrag := blockSetDefrag s;
     blocksNotFinalized := blocksNotFinalized s; loadedBlocks := loadedBlocks s;
     newBlocks := newBlocks s; deltas := deltas s; destroyed := destroyed s;
     blockindex0Size := blockindex0Size s; blocklist0Size := blocklist0Size s; fd := fd s;
     unloadTimer := unloadTimer s; allowCorrupted := f (allowCorrupted s);
     defragCandidates := defragCandidates s; disk := disk s |}.

Definition set_defragCandidates (f : list Z -> list Z) (s : State) : State :=
  {| tablePath := tablePath s; loadedBlocksCount := loadedBlocksCount s;
     compressed := compressed s; blockIndex := blockIndex s;
     currentBlockIndex := currentBlockIndex s; lastSavedBlockIndex := lastSavedBlockIndex s;
     blockList := blockList s; blockSetDefrag := blockSetDefrag s;
     blocksNotFinalized := blocksNotFinalized s; loadedBlocks := loadedBlocks s;
     newBlocks := newBlocks s; deltas := deltas s; destroyed := destroyed s;
     blockindex0Size := blockindex0Size s; blocklist0Size := blocklist0Size s; fd := fd s;
     unloadTimer := unloadTimer s; allowCorrupted := allowCorrupted s;
     defragCandidates := f (defragCandidates s); disk := disk s |}.

Definition set_disk (f : gmap string string -> gmap string string) (s : State) : State :=
  {| tablePath := tablePath s; loadedBlocksCount := loadedBlocksCount s;
     compressed := compressed s; blockIndex := blockIndex s;
     currentBlockIndex := currentBlockIndex s; lastSavedBlockIndex := lastSavedBlockIndex s;
     blockList := blockList s; blockSetDefrag := blockSetDefrag s;
     blocksNotFinalized := blocksNotFinalized s; loadedBlocks := loadedBlocks s;
     newBlocks := newBlocks s; deltas := deltas s; destroyed := destroyed s;
     blockindex0Size := blockindex0Size s; blocklist0Size := blocklist0Size s; fd := fd s;
     unloadTimer := unloadTimer s; allowCorrupted := allowCorrupted s;
     defragCandidates := defragCandidates s; disk := f (disk s) |}.

Definition set_b_rows (r : option (gmap RowId Row)) (b : Block Row) : Block Row :=
  {| b_index := b_index b; b_delCount := b_delCount b; b_addCount := b_addCount b;
     b_size := b_size b; b_rows := r; b_rowsLength := b_rowsLength b; b_final := b_final b |}.

(** [constructor(tablePath, cacheSize, compressed)], over the files [files]. *)
Definition constructor (path : string) (cacheSize compr : Z) (files : gmap string string)
  : State :=
  let lbc := if cacheSize =? 0 then 5 else cacheSize in
  {| tablePath := path;
     loadedBlocksCount := if lbc <=? 0 then 0 else lbc;
     compressed := compr;
     blockIndex := ∅; currentBlockIndex := 0; lastSavedBlockIndex := 0;
     blockList := ∅; blockSetDefrag := ∅; blocksNotFinalized := ∅;
     loadedBlocks := []; newBlocks := []; deltas := ∅;
     destroyed := false; blockindex0Size := 0; blocklist0Size := 0;
     fd := mkFd None None None None;
     unloadTimer := false; allowCorrupted := false; defragCandidates := [];
     disk := files |}.

(** *** Rows interface *)

Definition hasRow (id : RowId) (s : State) : bool := bool_decide (is_Some (blockIndex s !! id)).

Definition getAllIds (s : State) : list RowId := (map_to_list (blockIndex s)).*1.

Definition getAllIdsSize (s : State) : Z := Z.of_nat (size (blockIndex s)).

Definition emptyDelta : Delta Row := mkDelta [] [] [] [].

Definition getDelta (deltaStep : Z) : M State (Delta Row) :=
  od <- gets (fun s => deltas s !! deltaStep) ;;
  match od with
  | Some d => ret d
  | None => modify (set_deltas <[deltaStep := emptyDelta]>) ;; ret emptyDelta
  end.

(** [delta.blockIndex.push(x)] and its like, on the delta registered under
    [deltaStep]. *)
Definition push_d_blockIndex (x : RowId * Z) (d : Delta Row) : Delta Row :=
  mkDelta (d_blockIndex d ++ [x]) (d_blockList d) (d_blockRows d) (d_delFiles d).
Definition push_d_blockList (x : Z * Z) (d : Delta Row) : Delta Row :=
  mkDelta (d_blockIndex d) (d_blockList d ++ [x]) (d_blockRows d) (d_delFiles d).
Definition push_d_blockRows (x : Z * RowId * Row) (d : Delta Row) : Delta Row :=
  mkDelta (d_blockIndex d) (d_blockList d) (d_blockRows d ++ [x]) (d_delFiles d).
Definition push_d_delFiles (x : string) (d : Delta Row) : Delta Row :=
  mkDelta (d_blockIndex d) (d_blockList d) (d_blockRows d) (d_delFiles d ++ [x]).

Definition modifyDelta (deltaStep : Z) (f : Delta Row -> Delta Row) : M State unit :=
  modify (set_deltas (alter f deltaStep)).

(** A change to the block object registered under [key]. *)
Definition modifyBlock (key : Z) (f : Block Row -> Block Row) : M State unit :=
  modify (set_blockList (alter f key)).

Definition createNewBlock : M State (Block Row) :=
  modify (set_currentBlockIndex (fun i => i + 1)) ;;
  cur <- gets currentBlockIndex ;;
  let block := mkBlock cur 0 0 0 (Some ∅) 0 false in
  modify (set_blockList <[cur := block]>) ;;
  modify (set_newBlocks (fun l => l ++ [cur])) ;;
  modify (set_blocksNotFinalized (fun x => {[cur]} ∪ x)) ;;
  ret block.

(** [addToCurrentBlock(id, row, rowStr, deltaStep, delta)]; every caller
    passes [delta = getDelta(deltaStep)]. *)
Definition addToCurrentBlock (id : RowId) (row : Row) (rowStr : string) (deltaStep : Z)
  : M State Z :=
  getDelta deltaStep ;;
  cur <- gets currentBlockIndex ;;
  ob <- gets (fun s => blockList s !! cur) ;;
  block <- match ob with
           | Some b => ret b
           | None => createNewBlock
           end ;;
  block <- (if b_size block >? maxBlockSize then createNewBlock else ret block) ;;
  (* the block is now the one registered under the current block index *)
  key <- gets currentBlockIndex ;;
  match b_rows block with
  | None => throw "TableRowsFile: something has gone wrong"
  | Some rows =>
      let rows' := <[id := row]> rows in
      let block' :=
        mkBlock (b_index block) (b_delCount block) (b_addCount block + 1)
          (b_size block
           + Z.of_nat (String.length (JSON_stringify_id id))
           + Z.of_nat (String.length rowStr))
          (Some rows') (Z.of_nat (size rows')) (b_final block) in
      modify (set_blockList <[key := block']>) ;;
      modifyDelta deltaStep (push_d_blockList (b_index block', 1)) ;;
      modifyDelta deltaStep (push_d_blockRows (b_index block', id, row)) ;;
      ret (b_index block')
  end.

Definition deleteRow (id : RowId) (deltaStep : Z) : M State unit :=
  obi <- gets (fun s => blockIndex s !! id) ;;
  match obi with
  | None => ret tt
  | Some bi =>
      getDelta deltaStep ;;
      ob <- gets (fun s => blockList s !! bi) ;;
      match ob with
      | Some block =>
          modifyBlock bi (fun b =>
            mkBlock (b_index b) (b_delCount b + 1) (b_addCount b) (b_size b)
              (b_rows b) (b_rowsLength b) (b_final b)) ;;
          modify (set_blockSetDefrag (fun x => {[b_index block]} ∪ x)) ;;
          modifyDelta deltaStep (push_d_blockList (b_index block, 1))
      | None => ret tt
      end ;;
      modify (set_blockIndex (delete id)) ;;
      modifyDelta deltaStep (push_d_blockIndex (id, 0))
  end.

Definition setRow (id : RowId) (row : Row) (rowStr : string) (deltaStep : Z) : M State unit :=
  getDelta deltaStep ;;
  has <- gets (hasRow id) ;;
  when has (deleteRow id deltaStep) ;;
  index <- addToCurrentBlock id row rowStr deltaStep ;;
  modify (set_blockIndex <[id := index]>) ;;
  modifyDelta deltaStep (push_d_blockIndex (id, index)).

(** *** Cache eviction *)

(** The [while] loop of [unloadBlocksIfNeeded]: [shift] from [loadedBlocks]
    as long as it is longer than [loadedBlocksCount]. *)
Fixpoint unloadLoop (fuel : nat) (s : State) : State :=
  match fuel with
  | O => s
  | S fuel' =>
      match loadedBlocks s with
      | [] => s
      | index :: rest =>
          if Z.of_nat (length (loadedBlocks s)) >? loadedBlocksCount s then
            let s1 := set_loadedBlocks (fun _ => rest) s in
            if index >=? lastSavedBlockIndex s1 then unloadLoop fuel' s1
            else
              match blockList s1 !! index with
              | Some _ => unloadLoop fuel' (set_blockList (alter (set_b_rows None) index) s1)
              | None => unloadLoop fuel' s1
              end
          else s
      end
  end.

Definition unloadBlocksIfNeeded (fromTimer : bool) : M State unit :=
  if negb fromTimer then
    timer <- gets unloadTimer ;;
    if timer : bool then ret tt
    else modify (set_unloadTimer (fun _ => true))
  else
    modify (set_unloadTimer (fun _ => false)) ;;
    modify (fun s =>
      let saved := filter (fun index => index < lastSavedBlockIndex s) (newBlocks s) in
      let nb := filter (fun index => ¬ index < lastSavedBlockIndex s) (newBlocks s) in
      set_newBlocks (fun _ => nb) (set_loadedBlocks (fun l => l ++ saved) s)) ;;
    modify (fun s => unloadLoop (length (loadedBlocks s)) s).

(** *** Files *)

Definition blockRowsFilePath (path : string) (index : Z) : string :=
  if index <? 1000000 then
    String.append path
      (String.append "/" (String.append (Js.padStart 6 "0" (Js.toString index)) ".jem"))
  else
    String.append path
      (String.append "/" (String.append (Js.padStart 12 "0" (Js.toString index)) ".jem")).

(** The text [loadFile] hands to [JSON.parse], for a non-empty buffer whose
    first byte is [flag] and whose other bytes are [body].  [None]: [inflate]
    threw. *)
Definition loadFile_text (corrupted : bool) (flag : ascii) (body : string) : option string :=
  if Ascii.eqb flag "2" then inflate body
  else if Ascii.eqb flag "1" then Some (String " " body)
  else
    let buf := String " "%char body in
    if bool_decide (Js.lastChar buf = Some ","%char) then Some (Js.setLastChar "]" buf)
    else
      let text :=
        if corrupted then
          match Js.lastIndexOf "," buf with
          | Some lastComma => String.substring 0 lastComma buf
          | None => buf
          end
        else buf in
      Some (String.append text "]").

Definition loadFile {A} (parse : string -> option A) (filePath : string) : M State A :=
  obuf <- gets (fun s => disk s !! filePath) ;;
  match obuf with
  | None => throw "ENOENT: no such file"
  | Some EmptyString => throw "TableRowsFile: file is empty"
  | Some (String flag body) =>
      corrupted <- gets allowCorrupted ;;
      match loadFile_text corrupted flag body with
      | None => throw "inflate failed"
      | Some text =>
          match parse text with
          | Some result => ret result
          | None => throw "load failed"
          end
      end
  end.

Definition writeFinal (fileName : string) (data : string) : M State unit :=
  compr <- gets compressed ;;
  if compr =? 0 then modify (set_disk <[fileName := String "1" data]>)
  else modify (set_disk <[fileName := String "2" (deflate compr data)]>).

(** [loadBlock(block)] for the block object registered under [key]. *)
Definition loadBlock (key : Z) : M State unit :=
  ob <- gets (fun s => blockList s !! key) ;;
  match ob with
  | None => ret tt
  | Some block =>
      path <- gets tablePath ;;
      let fileName := blockRowsFilePath path (b_index block) in
      match b_rows block with
      | Some _ => ret tt
      | None =>
          arr <- loadFile JSON_parse_rows fileName ;;
          modifyBlock key (set_b_rows (Some (Js.newMap arr))) ;;
          modify (set_loadedBlocks (fun l => l ++ [b_index block]))
      end
  end.

Definition getRow (id : RowId) : M State (option Row) :=
  obi <- gets (fun s => blockIndex s !! id) ;;
  match obi with
  | None => ret None
  | Some bi =>
      ob <- gets (fun s => blockList s !! bi) ;;
      match ob with
      | None => ret None
      | Some block =>
          match b_rows block with
          | Some rows => ret (rows !! id)
          | None =>
              loadBlock bi ;;
              ob' <- gets (fun s => blockList s !! bi) ;;
              let result :=
                match ob' with
                | Some (mkBlock _ _ _ _ (Some rows) _ _) => rows !! id
                | _ => None
                end in
              unloadBlocksIfNeeded false ;;
              ret result
          end
      end
  end.

Definition getFd (name : FdName) (s : State) : option string :=
  match name with
  | FdBlockIndex => fd_blockIndex (fd s)
  | FdBlockList => fd_blockList (fd s)
  | FdBlockRows => fd_blockRows (fd s)
  end.

Definition setFd (name : FdName) (v : option string) (f : Fd) : Fd :=
  match name with
  | FdBlockIndex => mkFd v (fd_blockList f) (fd_blockRows f) (fd_blockRowsIndex f)
  | FdBlockList => mkFd (fd_blockIndex f) v (fd_blockRows f) (fd_blockRowsIndex f)
  | FdBlockRows => mkFd (fd_blockIndex f) (fd_blockList f) v (fd_blockRowsIndex f)
  end.

Definition set_fd_blockRowsIndex (v : option Z) (f : Fd) : Fd :=
  mkFd (fd_blockIndex f) (fd_blockList f) (fd_blockRows f) v.

Definition closeFd (name : FdName) : M State unit :=
  modify (set_fd (setFd name None)).

Definition openFd (name : FdName) (fileName : string) : M State unit :=
  cur <- gets (getFd name) ;;
  match cur with
  | Some _ => ret tt
  | None =>
      if bool_decide (fileName = EmptyString) then throw "TableRowsFile: fileName is empty"
      else
        exists_ <- gets (fun s => bool_decide (is_Some (disk s !! fileName))) ;;
        when (negb exists_) (modify (set_disk <[fileName := "0["%string]>)) ;;
        modify (set_fd (setFd name (Some fileName)))
  end.

(** [this.fd[name].write(str)]: appends to the file the descriptor was
    opened on; on a null descriptor the call throws. *)
Definition fdWrite (name : FdName) (str : string) : M State unit :=
  cur <- gets (getFd name) ;;
  match cur with
  | None => throw "TypeError: cannot read properties of null"
  | Some p => modify (set_disk (alter (fun c => String.append c str) p))
  end.

(** [(await this.fd[name].stat()).size]. *)
Definition fdSize (name : FdName) : M State Z :=
  cur <- gets (getFd name) ;;
  match cur with
  | None => throw "TypeError: cannot read properties of null"
  | Some p =>
      oc <- gets (fun s => disk s !! p) ;;
      ret (match oc with
           | Some c => Z.of_nat (String.length c)
           | None => 0
           end)
  end.

Definition fsRename (from to : string) : M State unit :=
  oc <- gets (fun s => disk s !! from) ;;
  match oc with
  | None => throw "ENOENT: no such file"
  | Some c => modify (set_disk (fun d => <[to := c]> (delete from d)))
  end.

Definition fsUnlink (p : string) : M State unit :=
  oc <- gets (fun s => disk s !! p) ;;
  match oc with
  | None => throw "ENOENT: no such file"
  | Some _ => modify (set_disk (delete p))
  end.

Definition fsStatSize (p : string) : M State Z :=
  oc <- gets (fun s => disk s !! p) ;;
  match oc with
  | None => throw "ENOENT: no such file"
  | Some c => ret (Z.of_nat (String.length c))
  end.

(** *** Finalization *)

Definition finalizeBlocks : M State unit :=
  todo <- gets (fun s => elements (blocksNotFinalized s)) ;;
  forEachWhile todo (fun index =>
    dead <- gets destroyed ;;
    if dead : bool then ret false
    else
      saved <- gets lastSavedBlockIndex ;;
      if index >=? saved then ret true
      else
        ob <- gets (fun s => blockList s !! index) ;;
        match ob with
        | Some block =>
            if b_final block then throw "finalizeBlocks: something wrong"
            else
              path <- gets tablePath ;;
              let blockPath := blockRowsFilePath path (b_index block) in
              arr <- loadFile JSON_parse_rows blockPath ;;
              let rows := Js.newMap arr in
              let finBlockPath := String.append blockPath ".tmp" in
              let rowsStr := JSON_stringify_rows (map_to_list rows) in
              writeFinal finBlockPath rowsStr ;;
              fsRename finBlockPath blockPath ;;
              let block' :=
                mkBlock (b_index block) (b_delCount block) (b_addCount block)
                  (Z.of_nat (String.length rowsStr) + 1)
                  (b_rows block) (Z.of_nat (size rows)) true in
              modify (set_blockList <[index := block']>) ;;
              fdWrite FdBlockList (String.append (JSON_stringify_block block') ",")
        | None => ret tt
        end ;;
        modify (set_blocksNotFinalized (fun x => x ∖ {[index]})) ;;
        modify (set_blockSetDefrag (fun x => {[index]} ∪ x)) ;;
        ret true).

(** *** Summary dumps *)

Definition dumpCondition (size1 size0 : Z) : bool :=
  ((size1 >? minFileDumpSize) && (size1 >? size0)) || (size1 >? maxFileDumpSize).

Definition dumpMaps : M State unit :=
  path <- gets tablePath ;;
  (* dumping blockIndex *)
  blockindex1Size <- fdSize FdBlockIndex ;;
  size0 <- gets blockindex0Size ;;
  when (dumpCondition blockindex1Size size0) (
    let blockindex0Path := String.append path "/blockindex.0" in
    let blockindex2Path := String.append path "/blockindex.2" in
    data <- gets (fun s => JSON_stringify_index (map_to_list (blockIndex s))) ;;
    writeFinal blockindex2Path data ;;
    fsRename blockindex2Path blockindex0Path ;;
    closeFd FdBlockIndex ;;
    fsUnlink (String.append path "/blockindex.1") ;;
    sz <- fsStatSize blockindex0Path ;;
    modify (set_blockindex0Size (fun _ => sz))) ;;
  (* dumping blockList *)
  blocklist1Size <- fdSize FdBlockList ;;
  size0 <- gets blocklist0Size ;;
  when (dumpCondition blocklist1Size size0) (
    let blocklist0Path := String.append path "/blocklist.0" in
    let blocklist2Path := String.append path "/blocklist.2" in
    data <- gets (fun s => JSON_stringify_blocks (map_to_list (blockList s)).*2) ;;
    writeFinal blocklist2Path data ;;
    fsRename blocklist2Path blocklist0Path ;;
    closeFd FdBlockList ;;
    fsUnlink (String.append path "/blocklist.1") ;;
    sz <- fsStatSize blocklist0Path ;;
    modify (set_blocklist0Size (fun _ => sz))).

(** *** Committing a delta *)

(** The pick condition of [saveDelta].  The counters are integers, and for
    integers [a] and [r] below [2^50] the floating-point test
    [a < r * 0.6] holds exactly when [5 * a < 3 * r]: the product is [3r/5]
    exactly when [r] is a multiple of 5, and is otherwise at least 0.2 away
    from every integer, far more than the rounding error.
    [maxBlockSize / 2] is 524288. *)
Definition defragCondition (block : Block Row) : bool :=
  ((b_delCount block >? 0)
   && (5 * (b_addCount block - b_delCount block) <? 3 * b_rowsLength block))
  || (b_size block <? maxBlockSize / 2).

(** The test applied to each index of [blockSetDefrag]. *)
Definition pickedForDefrag (s : State) (index : Z) : bool :=
  match blockList s !! index with
  | None => false
  | Some block => b_final block && defragCondition block
  end.

(** The scan of [blockSetDefrag] that fills [defragCandidates]. *)
Definition collectDefragCandidates : M State unit :=
  cands <- gets defragCandidates ;;
  marked <- gets blockSetDefrag ;;
  when (bool_decide (cands = []) && negb (bool_decide (size marked = 0%nat))) (
    modify (fun s =>
      set_defragCandidates
        (fun c => c ++ filter (fun index => pickedForDefrag s index = true) (elements marked)) s) ;;
    modify (set_blockSetDefrag (fun _ => ∅))).

(** The body of the defragmentation loop for the candidate registered under
    [key], once it is shifted from [defragCandidates]. *)
Definition defragBlock (deltaStep : Z) (key : Z) : M State unit :=
  ob <- gets (fun s => blockList s !! key) ;;
  match ob with
  | None => ret tt
  | Some block =>
      when (bool_decide (b_rows block = None)) (loadBlock key) ;;
      ob' <- gets (fun s => blockList s !! key) ;;
      match ob' ≫= b_rows with
      | None => throw "TypeError: cannot read properties of null"
      | Some rows =>
          (* move all active rows from fragmented block to current *)
          forEach (map_to_list rows) (fun entry =>
            let id := entry.1 in
            let row := entry.2 in
            obi <- gets (fun s => blockIndex s !! id) ;;
            if bool_decide (obi = Some (b_index block)) then
              newIndex <- addToCurrentBlock id row (JSON_stringify_row row) deltaStep ;;
              modify (set_blockIndex <[id := newIndex]>) ;;
              modifyDelta deltaStep (push_d_blockIndex (id, newIndex))
            else ret tt) ;;
          modify (set_blockList (delete (b_index block))) ;;
          modifyDelta deltaStep (push_d_blockList (b_index block, 0)) ;;
          path <- gets tablePath ;;
          modifyDelta deltaStep (push_d_delFiles (blockRowsFilePath path (b_index block)))
      end
  end.

Definition defragment (deltaStep : Z) : M State unit :=
  cands <- gets defragCandidates ;;
  forEachWhile cands (fun key =>
    dead <- gets destroyed ;;
    if dead : bool then ret false
    else
      modify (set_defragCandidates (drop 1)) ;;
      defragBlock deltaStep key ;;
      ret true).

(** The records appended to [blocklist.1] for [delta.blockList]; the pair is
    ([lastSaved], [buf]). *)
Definition blockListJournalStep (bl : gmap Z (Block Row)) (acc : Z * list string)
    (deltaRec : Z * Z) : Z * list string :=
  let index := deltaRec.1 in
  let exists_ := deltaRec.2 in
  if negb (exists_ =? 0) then
    if negb (acc.1 =? index) then
      match bl !! index with
      | Some block => (index, acc.2 ++ [JSON_stringify_block block])
      | None => (index, acc.2)
      end
    else acc
  else (acc.1, acc.2 ++ [JSON_stringify_deleted index]).

Definition blockListJournal (bl : gmap Z (Block Row)) (recs : list (Z * Z)) : list string :=
  (fold_left (blockListJournalStep bl) recs (0, [])).2.

Definition writeJoined (name : FdName) (buf : list string) : M State unit :=
  when (negb (bool_decide (buf = [])))
    (fdWrite name (String.append (Js.join "," buf) ",")).

(** The loop over [delta.blockRows]; [buf] is the pending records of the
    block rows file that is open. *)
Fixpoint writeBlockRows (recs : list (Z * RowId * Row)) (buf : list string)
  : M State (list string) :=
  match recs with
  | [] => ret buf
  | (index, id, row) :: rest =>
      openIndex <- gets (fun s => fd_blockRowsIndex (fd s)) ;;
      buf <- (if bool_decide (openIndex = Some index) then ret buf
              else
                writeJoined FdBlockRows buf ;;
                closeFd FdBlockRows ;;
                modify (set_fd (set_fd_blockRowsIndex None)) ;;
                ret []) ;;
      cur <- gets (getFd FdBlockRows) ;;
      when (bool_decide (cur = None)) (
        path <- gets tablePath ;;
        openFd FdBlockRows (blockRowsFilePath path index) ;;
        modify (set_fd (set_fd_blockRowsIndex (Some index)))) ;;
      writeBlockRows rest (buf ++ [JSON_stringify_rowRec (id, row)])
  end.

Definition lastBlockRowsIndex (d : Delta Row) : Z :=
  match last (d_blockRows d) with
  | Some (index, _, _) => index
  | None => 0
  end.

Definition saveDelta (deltaStep : Z) : M State unit :=
  delta <- getDelta deltaStep ;;
  path <- gets tablePath ;;
  (* lastSavedBlockIndex *)
  let lastSavedBI := lastBlockRowsIndex delta in
  (* check all blocks fragmentation & defragment if needed *)
  collectDefragCandidates ;;
  defragment deltaStep ;;
  (* blockIndex delta save *)
  openFd FdBlockIndex (String.append path "/blockindex.1") ;;
  delta <- getDelta deltaStep ;;
  writeJoined FdBlockIndex (map JSON_stringify_indexRec (d_blockIndex delta)) ;;
  (* blockList delta save *)
  openFd FdBlockList (String.append path "/blocklist.1") ;;
  bl <- gets blockList ;;
  writeJoined FdBlockList (blockListJournal bl (d_blockList delta)) ;;
  (* blockRows delta save *)
  buf <- writeBlockRows (d_blockRows delta) [] ;;
  writeJoined FdBlockRows buf ;;
  (* lastSavedBlockIndex *)
  when (negb (lastSavedBI =? 0)) (modify (set_lastSavedBlockIndex (fun _ => lastSavedBI))) ;;
  (* blocks finalization *)
  finalizeBlocks ;;
  unloadBlocksIfNeeded false ;;
  (* dumps if needed *)
  dumpMaps ;;
  (* delete files if needed *)
  forEach (d_delFiles delta) (fun fileName =>
    exists_ <- gets (fun s => bool_decide (is_Some (disk s !! fileName))) ;;
    when exists_ (fsUnlink fileName)) ;;
  modify (set_deltas (delete deltaStep)).

Definition cancelDelta (deltaStep : Z) : M State unit :=
  modify (set_deltas (delete deltaStep)).

(** *** Recovery *)

(** [if (typeof(id) === 'number' && id >= autoIncrement) autoIncrement = id + 1],
    the sum being one of doubles. *)
Definition bumpAutoIncrement (id : RowId) (autoIncrement : Z) : Z :=
  match id with
  | IdNum n => if n >=? autoIncrement then Js.numSucc n else autoIncrement
  | IdStr _ => autoIncrement
  end.

(** The closure [loadBlockIndex] of [load]; the local [autoIncrement] it
    updates is passed in and returned. *)
Definition loadBlockIndex (fileNum : Z) (data : list (RowId * Z)) (autoIncrement : Z)
  : M State Z :=
  if fileNum =? 0 then
    (* dumped data *)
    modify (set_blockIndex (fun _ => Js.newMap data)) ;;
    ids <- gets getAllIds ;;
    ret (fold_left (fun ai id => bumpAutoIncrement id ai) ids autoIncrement)
  else
    (fix go (recs : list (RowId * Z)) (ai : Z) : M State Z :=
       match recs with
       | [] => ret ai
       | (id, index) :: rest =>
           if index >? 0 then
             modify (set_blockIndex <[id := index]>) ;;
             go rest (bumpAutoIncrement id ai)
           else
             modify (set_blockIndex (delete id)) ;;
             go rest ai
       end) data autoIncrement.

(** The closure [loadBlockList] of [load]. *)
Definition loadBlockList (data : list (BlockRec Row)) : M State unit :=
  forEach data (fun rec =>
    match rec with
    | RecDeleted index => modify (set_blockList (delete index))
    | RecBlock block =>
        modify (set_blockList <[b_index block := set_b_rows None block]>) ;;
        cur <- gets currentBlockIndex ;;
        when (b_index block >? cur) (modify (set_currentBlockIndex (fun _ => b_index block)))
    end).

Definition pathExists (p : string) : M State bool :=
  gets (fun s => bool_decide (is_Some (disk s !! p))).

Definition load : M State Z :=
  path <- gets tablePath ;;
  let blockindex0Path := String.append path "/blockindex.0" in
  let blockindex1Path := String.append path "/blockindex.1" in
  let blocklist0Path := String.append path "/blocklist.0" in
  let blocklist1Path := String.append path "/blocklist.1" in
  modify (set_blockIndex (fun _ => ∅)) ;;
  e <- pathExists blockindex0Path ;;
  autoIncrement <- (if e : bool then
                      data <- loadFile JSON_parse_index blockindex0Path ;;
                      loadBlockIndex 0 data 0
                    else ret 0) ;;
  e <- pathExists blockindex1Path ;;
  autoIncrement <- (if e : bool then
                      data <- loadFile JSON_parse_index blockindex1Path ;;
                      loadBlockIndex 1 data autoIncrement
                    else ret autoIncrement) ;;
  e <- pathExists blockindex0Path ;;
  when e (sz <- fsStatSize blockindex0Path ;; modify (set_blockindex0Size (fun _ => sz))) ;;
  modify (set_currentBlockIndex (fun _ => 0)) ;;
  modify (set_blockList (fun _ => ∅)) ;;
  e <- pathExists blocklist0Path ;;
  when e (data <- loadFile JSON_parse_blocks blocklist0Path ;; loadBlockList data) ;;
  e <- pathExists blocklist1Path ;;
  when e (data <- loadFile JSON_parse_blocks blocklist1Path ;; loadBlockList data) ;;
  e <- pathExists blocklist0Path ;;
  when e (sz <- fsStatSize blocklist0Path ;; modify (set_blocklist0Size (fun _ => sz))) ;;
  modify (fun s => set_lastSavedBlockIndex (fun _ => currentBlockIndex s) s) ;;
  cur <- gets currentBlockIndex ;;
  currentBlock <- gets (fun s => blockList s !! cur) ;;
  match currentBlock with
  | Some _ =>
      loadBlock cur ;;
      modify (set_newBlocks (fun l => l ++ [cur])) ;;
      modify (set_loadedBlocks (fun _ => []))
  | None => ret tt
  end ;;
  modify (set_blocksNotFinalized (fun _ => ∅)) ;;
  blocks <- gets (fun s => (map_to_list (blockList s)).*2) ;;
  forEach blocks (fun block =>
    modify (set_blockSetDefrag (fun x => {[b_index block]} ∪ x)) ;;
    when (negb (b_final block))
      (modify (set_blocksNotFinalized (fun x => {[b_index block]} ∪ x)))) ;;
  ret autoIncrement.

Definition closeAllFiles : M State unit :=
  closeFd FdBlockIndex ;;
  closeFd FdBlockList ;;
  closeFd FdBlockRows.

Definition destroy : M State unit :=
  closeAllFiles ;;
  modify (set_unloadTimer (fun _ => false)) ;;
  modify (set_destroyed (fun _ => true)).

(** *** The engine as a transition system *)

Inductive Op : Type :=
| OpSetRow (id : RowId) (row : Row) (rowStr : string) (deltaStep : Z)
| OpDeleteRow (id : RowId) (deltaStep : Z)
| OpGetRow (id : RowId)
| OpSaveDelta (deltaStep : Z)
| OpCancelDelta (deltaStep : Z)
| OpTimer
| OpDestroy.

(** One call of the rows interface, or the unload timer firing (which it
    does only when it is set). *)
Definition runOp (o : Op) : M State unit :=
  match o with
  | OpSetRow id row rowStr deltaStep => setRow id row rowStr deltaStep
  | OpDeleteRow id deltaStep => deleteRow id deltaStep
  | OpGetRow id => getRow id ;; ret tt
  | OpSaveDelta deltaStep => saveDelta deltaStep
  | OpCancelDelta deltaStep => cancelDelta deltaStep
  | OpTimer =>
      timer <- gets unloadTimer ;;
      when timer (unloadBlocksIfNeeded true)
  | OpDestroy => destroy
  end.

(** The states of an engine: built by the constructor, optionally recovered
    by [load], then driven by calls. *)
Inductive reachable : State -> Prop :=
| reach_new path cacheSize compr files :
    reachable (constructor path cacheSize compr files)
| reach_load path cacheSize compr files :
    reachable (final (load (constructor path cacheSize compr files)))
| reach_step s o :
    reachable s -> reachable (final (runOp o s)).

End Engine.

End TableRowsFile.

(** ** The sharded table coordinator ([src/ShardedTable.js]) *)

Module ShardedTable.
Import Exec.

Definition shardCountStep : Z := 20 * 1000 * 1000.
Definition maxFreeShardNumsLength : nat := 100.
Definition maxAutoShardListLength : nat := 1000.
Definition autoShardName : string := "___auto".

(** The value of a field of a row: a string, a number, or anything else. *)
Inductive JsVal : Type :=
| VStr (s : string)
| VNum (n : Z)
| VOther.

(** A row handed to [insert]: [row_id] and [row_shard] are [None] when the
    row has no such property. *)
Record Row (Data : Type) : Type := mkRow {
  row_id : option JsVal;
  row_shard : option JsVal;
  row_data : Data
}.
Arguments mkRow {Data} _ _ _.
Arguments row_id {Data} _.
Arguments row_shard {Data} _.
Arguments row_data {Data} _.

(** A shard record [{id, num, count}].  The info shard ([id = ""]) has no
    [num]; 0 stands in for it. *)
Record ShardRec : Type := mkShardRec {
  sr_id : string;
  sr_num : Z;
  sr_count : Z
}.

(** A record of [shardLockList]. *)
Record LockRec : Type := mkLockRec {
  lock : Z;
  pers : Z
}.

(** An entry [{shard, count}] of [autoShard.list]. *)
Record AutoRec : Type := mkAutoRec {
  ar_shard : string;
  ar_count : Z
}.

(** Modelled from the spec: [LockQueue] is not among the sources.  A
    cooperative mutex; with no other task running it is its [freed] flag:
    [get] takes it, [ret] gives it back, [wait] goes on only when it is
    free. *)
Record LockQueue : Type := mkLockQueue {
  freed : bool
}.
Definition lq_get (q : LockQueue) : LockQueue := mkLockQueue false.
Definition lq_ret (q : LockQueue) : LockQueue := mkLockQueue true.

(** The message of the [Throw] that stands for a call suspended on the
    cached-shard gate with no other task to release it. *)
Definition suspended : string := "suspended on cachedShardLock".

(** What the coordinator uses of [BasicTable], which is not among the
    sources: a table is a value of [Table]; an operation that throws
    returns [None]. *)
Class BasicTable (Table Data : Type) : Type := {
  (** [new BasicTable().open(query)] on a directory holding the given table,
      or nothing *)
  bt_open : option Table -> option Table;
  (** [table.insert({rows})]: the table after it, and [inserted] *)
  bt_insert : list (Row Data) -> Table -> option (Table * Z);
  (** [table.rowsInterface.getAllIdsSize()] *)
  bt_getAllIdsSize : Table -> Z;
  (** [table.autoIncrement = n] *)
  bt_setAutoIncrement : Z -> Table -> Table;
  (** [table.close()] *)
  bt_close : Table -> Table
}.

Section Coordinator.
Context {Table Data : Type} {basicTable : BasicTable Table Data}.

(** The coordinator.  [tables] holds the per-shard basic tables by
    directory path, opened or not; [openedShardTables] maps a shard to the
    path of its opened table.  [shardListTable] is the rows of the [shards]
    table by id ([insert] with [replace: true] overwrites a row with the
    same id).  [closableShardNames] keeps its insertion order, which
    [_closeShards] follows. *)
Record State : Type := mkState {
  tablePath : string;
  fileError : string;
  opened : bool;
  closed : bool;
  cachedShardLock : LockQueue;
  infoShard : ShardRec;
  shardList : gmap string ShardRec;
  shardListTable : gmap string ShardRec;
  shardLockList : gmap string LockRec;
  tables : gmap string Table;
  openedShardTables : gmap string string;
  openedShardNames : gset string;
  closableShardNames : list string;
  cachedShardNames : gset string;
  freeShardNums : list Z;
  autoShard_step : Z;
  autoShard_list : list AutoRec;
  changedTables : list string;
  needCheckTables : bool;
  checkingTables : bool;
  cacheShards : Z;
  autoShardSize : Z
}.

Definition set_fileError (f : string -> string) (s : State) : State :=
  {| tablePath := tablePath s; fileError := f (fileError s); opened := opened s;
     closed := closed s; cachedShardLock := cachedShardLock s; infoShard := infoShard s;
     shardList := shardList s; shardListTable := shardListTable s;
     shardLockList := shardLockList s; tables := tables s;
     openedShardTables := openedShardTables s; openedShardNames := openedShardNames s;
     closableShardNames := closableShardNames s; cachedShardNames := cachedShardNames s;
     freeShardNums := freeShardNums s; autoShard_step := autoShard_step s;
     autoShard_list := autoShard_list s; changedTables := changedTables s;
     needCheckTables := needCheckTables s; checkingTables := checkingTables s;
     cacheShards := cacheShards s; autoShardSize := autoShardSize s |}.

Definition set_opened (f : bool -> bool) (s : State) : State :=
  {| tablePath := tablePath s; fileError := fileError s; opened := f (opened s);
     closed := closed s; cachedShardLock := cachedShardLock s; infoShard := infoShard s;
     shardList := shardList s; shardListTable := shardListTable s;
     shardLockList := shardLockList s; tables := tables s;
     openedShardTables := openedShardTables s; openedShardNames := openedShardNames s;
     closableShardNames := closableShardNames s; cachedShardNames := cachedShardNames s;
     freeShardNums := freeShardNums s; autoShard_step := autoShard_step s;
     autoShard_list := autoShard_list s; changedTables := changedTables s;
     needCheckTables := needCheckTables s; checkingTables := checkingTables s;
     cacheShards := cacheShards s; autoShardSize := autoShardSize s |}.

Definition set_closed (f : bool -> bool) (s : State) : State :=
  {| tablePath := tablePath s; fileError := fileError s; opened := opened s;
     closed := f (closed s); cachedShardLock := cachedShardLock s; infoShard := infoShard s;
     shardList := shardList s; shardListTable := shardListTable s;
     shardLockList := shardLockList s; tables := tables s;
     openedShardTables := openedShardTables s; openedShardNames := openedShardNames s;
     closableShardNames := closableShardNames s; cachedShardNames := cachedShardNames s;
     freeShardNums := freeShardNums s; autoShard_step := autoShard_step s;
     autoShard_list := autoShard_list s; changedTables := changedTables s;
     needCheckTables := needCheckTables s; checkingTables := checkingTables s;
     cacheShards := cacheShards s; autoShardSize := autoShardSize s |}.

Definition set_cachedShardLock (f : LockQueue -> LockQueue) (s : State) : State :=
  {| tablePath := tablePath s; fileError := fileError s; opened := opened s;
     closed := closed s; cachedShardLock := f (cachedShardLock s); infoShard := infoShard s;
     shardList := shardList s; shardListTable := shardListTable s;
     shardLockList := shardLockList s; tables := tables s;
     openedShardTables := openedShardTables s; openedShardNames := openedShardNames s;
     closableShardNames := closableShardNames s; cachedShardNames := cachedShardNames s;
     freeShardNums := freeShardNums s; autoShard_step := autoShard_step s;
     autoShard_list := autoShard_list s; changedTables := changedTables s;
     needCheckTables := needCheckTables s; checkingTables := checkingTables s;
     cacheShards := cacheShards s; autoShardSize := autoShardSize s |}.

Definition set_infoShard (f : ShardRec -> ShardRec) (s : State) : State :=
  {| tablePath := tablePath s; fileError := fileError s; opened := opened s;
     closed := closed s; cachedShardLock := cachedShardLock s; infoShard := f (infoShard s);
     shardList := shardList s; shardListTable := shardListTable s;
     shardLockList := shardLockList s; tables := tables s;
     openedShardTables := openedShardTables s; openedShardNames := openedShardNames s;
     closableShardNames := closableShardNames s; cachedShardNames := cachedShardNames s;
     freeShardNums := freeShardNums s; autoShard_step := autoShard_step s;
     autoShard_list := autoShard_list s; changedTables := changedTables s;
     needCheckTables := needCheckTables s; checkingTables := checkingTables s;
     cacheShards := cacheShards s; autoShardSize := autoShardSize s |}.

Definition set_shardList (f : gmap string ShardRec -> gmap string ShardRec) (s : State) : State :=
  {| tablePath := tablePath s; fileError := fileError s; opened := opened s;
     closed := closed s; cachedShardLock := cachedShardLock s; infoShard := infoShard s;
     shardList := f (shardList s); shardListTable := shardListTable s;
     shardLockList := shardLockList s; tables := tables s;
     openedShardTables := openedShardTables s; openedShardNames := openedShardNames s;
     closableShardNames := closableShardNames s; cachedShardNames := cachedShardNames s;
     freeShardNums := freeShardNums s; autoShard_step := autoShard_step s;
     autoShard_list := autoShard_list s; changedTables := changedTables s;
     needCheckTables := needCheckTables s; checkingTables := checkingTables s;
     cacheShards := cacheShards s; autoShardSize := autoShardSize s |}.

Definition set_shardListTable (f : gmap string ShardRec -> gmap string ShardRec) (s : State) : State :=
  {| tablePath := tablePath s; fileError := fileError s; opened := opened s;
     closed := closed s; cachedShardLock := cachedShardLock s; infoShard := infoShard s;
     shardList := shardList s; shardListTable := f (shardListTable s);
     shardLockList := shardLockList s; tables := tables s;
     openedShardTables := openedShardTables s; openedShardNames := openedShardNames s;
     closableShardNames := closableShardNames s; cachedShardNames := cachedShardNames s;
     freeShardNums := freeShardNums s; autoShard_step := autoShard_step s;
     autoShard_list := autoShard_list s; changedTables := changedTables s;
     needCheckTables := needCheckTables s; checkingTables := checkingTables s;
     cacheShards := cacheShards s; autoShardSize := autoShardSize s |}.

Definition set_shardLockList (f : gmap string LockRec -> gmap string LockRec) (s : State) : State :=
  {| tablePath := tablePath s; fileError := fileError s; opened := opened s;
     closed := closed s; cachedShardLock := cachedShardLock s; infoShard := infoShard s;
     shardList := shardList s; shardListTable := shardListTable s;
     shardLockList := f (shardLockList s); tables := tables s;
     openedShardTables := openedShardTables s; openedShardNames := openedShardNames s;
     closableShardNames := closableShardNames s; cachedShardNames := cachedShardNames s;
     freeShardNums := freeShardNums s; autoShard_step := autoShard_step s;
     autoShard_list := autoShard_list s; changedTables := changedTables s;
     needCheckTables := needCheckTables s; checkingTables := checkingTables s;
     cacheShards := cacheShards s; autoShardSize := autoShardSize s |}.

Definition set_tables (f : gmap string Table -> gmap string Table) (s : State) : State :=
  {| tablePath := tablePath s; fileError := fileError s; opened := opened s;
     closed := closed s; cachedShardLock := cachedShardLock s; infoShard := infoShard s;
     shardList := shardList s; shardListTable := shardListTable s;
     shardLockList := shardLockList s; tables := f (tables s);
     openedShardTables := openedShardTables s; openedShardNames := openedShardNames s;
     closableShardNames := closableShardNames s; cachedShardNames := cachedShardNames s;
     freeShardNums := freeShardNums s; autoShard_step := autoShard_step s;
     autoShard_list := autoShard_list s; changedTables := changedTables s;
     needCheckTables := needCheckTables s; checkingTables := checkingTables s;
     cacheShards := cacheShards s; autoShardSize := autoShardSize s |}.

Definition set_openedShardTables (f : gmap string string -> gmap string string) (s : State) : State :=
  {| tablePath := tablePath s; fileError := fileError s; opened := opened s;
     closed := closed s; cachedShardLock := cachedShardLock s; infoShard := infoShard s;
     shardList := shardList s; shardListTable := shardListTable s;
     shardLockList := shardLockList s; tables := tables s;
     openedShardTables := f (openedShardTables s); openedShardNames := openedShardNames s;
     closableShardNames := closableShardNames s; cachedShardNames := cachedShardNames s;
     freeShardNums := freeShardNums s; autoShard_step := autoShard_step s;
     autoShard_list := autoShard_list s; changedTables := changedTables s;
     needCheckTables := needCheckTables s; checkingTables := checkingTables s;
     cacheShards := cacheShards s; autoShardSize := autoShardSize s |}.

Definition set_openedShardNames (f : gset string -> gset string) (s : State) : State :=
  {| tablePath := tablePath s; fileError := fileError s; opened := opened s;
     closed := closed s; cachedShardLock := cachedShardLock s; infoShard := infoShard s;
     shardList := shardList s; shardListTable := shardListTable s;
     shardLockList := shardLockList s; tables := tables s;
     openedShardTables := openedShardTables s; openedShardNames := f (openedShardNames s);
     closableShardNames := closableShardNames s; cachedShardNames := cachedShardNames s;
     freeShardNums := freeShardNums s; autoShard_step := autoShard_step s;
     autoShard_list := autoShard_list s; changedTables := changedTables s;
     needCheckTables := needCheckTables s; checkingTables := checkingTables s;
     cacheShards := cacheShards s; autoShardSize := autoShardSize s |}.

Definition set_closableShardNames (f : list string -> list string) (s : State) : State :=
  {| tablePath := tablePath s; fileError := fileError s; opened := opened s;
     closed := closed s; cachedShardLock := cachedShardLock s; infoShard := infoShard s;
     shardList := shardList s; shardListTable := shardListTable s;
     shardLockList := shardLockList s; tables := tables s;
     openedShardTables := openedShardTables s; openedShardNames := openedShardNames s;
     closableShardNames := f (closableShardNames s); cachedShardNames := cachedShardNames s;
     freeShardNums := freeShardNums s; autoShard_step := autoShard_step s;
     autoShard_list := autoShard_list s; changedTables := changedTables s;
     needCheckTables := needCheckTables s; checkingTables := checkingTables s;
     cacheShards := cacheShards s; autoShardSize := autoShardSize s |}.

Definition set_cachedShardNames (f : gset string -> gset string) (s : State) : State :=
  {| tablePath := tablePath s; fileError := fileError s; opened := opened s;
     closed := closed s; cachedShardLock := cachedShardLock s; infoShard := infoShard s;
     shardList := shardList s; shardListTable := shardListTable s;
     shardLockList := shardLockList s; tables := tables s;
     openedShardTables := openedShardTables s; openedShardNames := openedShardNames s;
     closableShardNames := closableShardNames s; cachedShardNames := f (cachedShardNames s);
     freeShardNums := freeShardNums s; autoShard_step := autoShard_step s;
     autoShard_list := autoShard_list s; changedTables := changedTables s;
     needCheckTables := needCheckTables s; checkingTables := checkingTables s;
     cacheShards := cacheShards s; autoShardSize := autoShardSize s |}.

Definition set_freeShardNums (f : list Z -> list Z) (s : State) : State :=
  {| tablePath := tablePath s; fileError := fileError s; opened := opened s;
     closed := closed s; cachedShardLock := cachedShardLock s; infoShard := infoShard s;
     shardList := shardList s; shardListTable := shardListTable s;
     shardLockList := shardLockList s; tables := tables s;
     openedShardTables := openedShardTables s; openedShardNames := openedShardNames s;
     closableShardNames := closableShardNames s; cachedShardNames := cachedShardNames s;
     freeShardNums := f (freeShardNums s); autoShard_step := autoShard_step s;
     autoShard_list := autoShard_list s; changedTables := changedTables s;
     needCheckTables := needCheckTables s; checkingTables := checkingTables s;
     cacheShards := cacheShards s; autoShardSize := autoShardSize s |}.

Definition set_autoShard_step (f : Z -> Z) (s : State) : State :=
  {| tablePath := tablePath s; fileError := fileError s; opened := opened s;
     closed := closed s; cachedShardLock := cachedShardLock s; infoShard := infoShard s;
     shardList := shardList s; shardListTable := shardListTable s;
     shardLockList := shardLockList s; tables := tables s;
     openedShardTables := openedShardTables s; openedShardNames := openedShardNames s;
     closableShardNames := closableShardNames s; cachedShardNames := cachedShardNames s;
     freeShardNums := freeShardNums s; autoShard_step := f (autoShard_step s);
     autoShard_list := autoShard_list s; changedTables := changedTables s;
     needCheckTables := needCheckTables s; checkingTables := checkingTables s;
     cacheShards := cacheShards s; autoShardSize := autoShardSize s |}.

Definition set_autoShard_list (f : list AutoRec -> list AutoRec) (s : State) : State :=
  {| tablePath := tablePath s; fileError := fileError s; opened := opened s;
     closed := closed s; cachedShardLock := cachedShardLock s; infoShard := infoShard s;
     shardList := shardList s; shardListTable := shardListTable s;
     shardLockList := shardLockList s; tables := tables s;
     openedShardTables := openedShardTables s; openedShardNames := openedShardNames s;
     closableShardNames := closableShardNames s; cachedShardNames := cachedShardNames s;
     freeShardNums := freeShardNums s; autoShard_step := autoShard_step s;
     autoShard_list := f (autoShard_list s); changedTables := changedTables s;
     needCheckTables := needCheckTables s; checkingTables := checkingTables s;
     cacheShards := cacheShards s; autoShardSize := autoShardSize s |}.

Definition set_changedTables (f : list string -> list string) (s : State) : State :=
  {| tablePath := tablePath s; fileError := fileError s; opened := opened s;
     closed := closed s; cachedShardLock := cachedShardLock s; infoShard := infoShard s;
     shardList := shardList s; shardListTable := shardListTable s;
     shardLockList := shardLockList s; tables := tables s;
     openedShardTables := openedShardTables s; openedShardNames := openedShardNames s;
     closableShardNames := closableShardNames s; cachedShardNames := cachedShardNames s;
     freeShardNums := freeShardNums s; autoShard_step := autoShard_step s;
     autoShard_list := autoShard_list s; changedTables := f (changedTables s);
     needCheckTables := needCheckTables s; checkingTables := checkingTables s;
     cacheShards := cacheShards s; autoShardSize := autoShardSize s |}.

Definition set_needCheckTables (f : bool -> bool) (s : State) : State :=
  {| tablePath := tablePath s; fileError := fileError s; opened := opened s;
     closed := closed s; cachedShardLock := cachedShardLock s; infoShard := infoShard s;
     shardList := shardList s; shardListTable := shardListTable s;
     shardLockList := shardLockList s; tables := tables s;
     openedShardTables := openedShardTables s; openedShardNames := openedShardNames s;
     closableShardNames := closableShardNames s; cachedShardNames := cachedShardNames s;
     freeShardNums := freeShardNums s; autoShard_step := autoShard_step s;
     autoShard_list := autoShard_list s; changedTables := changedTables s;
     needCheckTables := f (needCheckTables s); checkingTables := checkingTables s;
     cacheShards := cacheShards s; autoShardSize := autoShardSize s |}.

Definition set_checkingTables (f : bool -> bool) (s : State) : State :=
  {| tablePath := tablePath s; fileError := fileError s; opened := opened s;
     closed := closed s; cachedShardLock := cachedShardLock s; infoShard := infoShard s;
     shardList := shardList s; shardListTable := shardListTable s;
     shardLockList := shardLockList s; tables := tables s;
     openedShardTables := openedShardTables s; openedShardNames := openedShardNames s;
     closableShardNames := closableShardNames s; cachedShardNames := cachedShardNames s;
     freeShardNums := freeShardNums s; autoShard_step := autoShard_step s;
     autoShard_list := autoShard_list s; changedTables := changedTables s;
     needCheckTables := needCheckTables s; checkingTables := f (checkingTables s);
     cacheShards := cacheShards s; autoShardSize := autoShardSize s |}.

(** The coordinator as the constructor leaves it, for a table at [path]. *)
Definition constructor (path : string) : State :=
  {| tablePath := path; fileError := EmptyString; opened := false; closed := false;
     cachedShardLock := mkLockQueue true;
     infoShard := mkShardRec EmptyString 0 0;
     shardList := ∅; shardListTable := ∅; shardLockList := ∅; tables := ∅;
     openedShardTables := ∅; openedShardNames := ∅; closableShardNames := [];
     cachedShardNames := ∅; freeShardNums := [];
     autoShard_step := 0; autoShard_list := [];
     changedTables := []; needCheckTables := false; checkingTables := false;
     cacheShards := 1; autoShardSize := 1000000 |}.

Definition _checkErrors : M State unit :=
  err <- gets fileError ;;
  if negb (bool_decide (err = EmptyString)) then throw err
  else
    c <- gets closed ;;
    if c : bool then throw "Table closed"
    else
      o <- gets opened ;;
      if negb o then throw "Table has not been opened yet" else ret tt.

(** The part of [_checkTables] that runs before its first [await]; the rest
    runs in the background and is not part of the calls below. *)
Definition _checkTables : M State unit :=
  modify (set_needCheckTables (fun _ => true)) ;;
  checking <- gets checkingTables ;;
  if checking : bool then ret tt
  else
    fun s => match _checkErrors s with
             | Ok _ s' => modify (set_checkingTables (fun _ => true)) s'
             | Throw _ s' => Ok tt s'
             end.

Definition shardsTablePath (s : State) : string := String.append (tablePath s) "/shards".

Definition _saveShardRec (shardRec : ShardRec) : M State unit :=
  modify (set_shardListTable <[sr_id shardRec := shardRec]>) ;;
  p <- gets shardsTablePath ;;
  modify (set_changedTables (fun l => l ++ [p])) ;;
  _checkTables.

Definition _shardTablePath (path : string) (num : Z) : string :=
  if num <? 1000000 then
    String.append path (String.append "/s" (Js.padStart 6 "0" (Js.toString num)))
  else
    String.append path (String.append "/s" (Js.padStart 12 "0" (Js.toString num))).

(** The first [maxFreeShardNumsLength] numbers from 0 on that no shard
    uses: what the [while] loop of [_getFreeShardNum] collects.  They lie
    below [maxFreeShardNumsLength] plus the number of shards. *)
Definition freeNums (used : gset Z) (shards : nat) : list Z :=
  take maxFreeShardNumsLength
    (filter (fun i => i ∉ used) (seqZ 0 (Z.of_nat (maxFreeShardNumsLength + shards)))).

Definition _getFreeShardNum : M State Z :=
  free <- gets freeShardNums ;;
  when (bool_decide (free = [])) (
    modify (fun s =>
      let nums : gset Z := list_to_set (map (fun e => sr_num e.2) (map_to_list (shardList s))) in
      set_freeShardNums (fun _ => freeNums nums (size (shardList s))) s)) ;;
  free <- gets freeShardNums ;;
  match free with
  | num :: rest => modify (set_freeShardNums (fun _ => rest)) ;; ret num
  | [] => throw "TypeError: no free shard number"
  end.

Definition _checkCachedShardLock : M State unit :=
  cached <- gets (fun s => Z.of_nat (size (cachedShardNames s))) ;;
  limit <- gets cacheShards ;;
  if cached <=? limit then modify (set_cachedShardLock lq_ret)
  else
    free <- gets (fun s => freed (cachedShardLock s)) ;;
    when free (modify (set_cachedShardLock lq_get)).

(** [set.add(x)] and [set.delete(x)] on a set that keeps insertion order. *)
Definition orderedAdd (x : string) (l : list string) : list string :=
  if bool_decide (x ∈ l) then l else l ++ [x].
Definition orderedDelete (x : string) (l : list string) : list string :=
  filter (fun y => y <> x) l.

Definition clampLow (n : Z) : Z := if n <? 0 then 0 else n.

Definition _updateShardLockList (shard : string) (lockN persN : Z) : M State unit :=
  olr <- gets (fun s => shardLockList s !! shard) ;;
  let lockRec := match olr with
                 | Some r => r
                 | None => mkLockRec 0 0
                 end in
  let lockRec := mkLockRec (clampLow (lock lockRec + lockN)) (clampLow (pers lockRec + persN)) in
  modify (set_shardLockList <[shard := lockRec]>) ;;
  if pers lockRec >? 0 then
    modify (set_closableShardNames (orderedDelete shard)) ;;
    modify (set_cachedShardNames (fun x => x ∖ {[shard]})) ;;
    _checkCachedShardLock
  else
    (if lock lockRec >? 0 then modify (set_closableShardNames (orderedDelete shard))
     else modify (set_closableShardNames (orderedAdd shard))) ;;
    modify (set_cachedShardNames (fun x => {[shard]} ∪ x)) ;;
    _checkCachedShardLock.

Definition closeTable (shard : string) : M State unit :=
  op <- gets (fun s => openedShardTables s !! shard) ;;
  match op with
  | None => throw "TypeError: cannot read properties of undefined"
  | Some p => modify (set_tables (alter bt_close p))
  end.

Definition _closeShards (closeAll : bool) : M State unit :=
  if closeAll then
    entries <- gets (fun s => map_to_list (openedShardTables s)) ;;
    forEach entries (fun entry =>
      modify (set_tables (alter bt_close entry.2)) ;;
      modify (set_openedShardTables (delete entry.1)) ;;
      modify (set_openedShardNames (fun x => x ∖ {[entry.1]})))
  else
    cached <- gets (fun s => Z.of_nat (size (cachedShardNames s))) ;;
    limit <- gets cacheShards ;;
    if cached <=? limit then ret tt
    else
      closable <- gets closableShardNames ;;
      forEachWhile closable (fun shard =>
        cached <- gets (fun s => Z.of_nat (size (cachedShardNames s))) ;;
        if cached >? limit then
          isClosable <- gets (fun s => bool_decide (shard ∈ closableShardNames s)) ;;
          isOpened <- gets (fun s => bool_decide (shard ∈ openedShardNames s)) ;;
          when (isClosable && isOpened) (
            closeTable shard ;;
            modify (set_openedShardTables (delete shard)) ;;
            modify (set_openedShardNames (fun x => x ∖ {[shard]})) ;;
            modify (set_cachedShardNames (fun x => x ∖ {[shard]})) ;;
            _checkCachedShardLock) ;;
          modify (set_closableShardNames (orderedDelete shard)) ;;
          ret true
        else ret false).

(** [_lockShard(shard)]: the path of the shard's opened table, [None] when
    [openedShardTables] has none for a shard named in [openedShardNames]. *)
Definition _lockShard (shard : string) : M State (option string) :=
  isOpened <- gets (fun s => bool_decide (shard ∈ openedShardNames s)) ;;
  if isOpened : bool then
    _updateShardLockList shard 1 0 ;;
    gets (fun s => openedShardTables s !! shard)
  else
    free <- gets (fun s => freed (cachedShardLock s)) ;;
    if negb free then throw suspended
    else
      known <- gets (fun s => shardList s !! shard) ;;
      shardRec <- match known with
                  | Some r => ret r
                  | None =>
                      num <- _getFreeShardNum ;;
                      let r := mkShardRec shard num 0 in
                      _saveShardRec r ;;
                      modify (set_shardList <[shard := r]>) ;;
                      ret r
                  end ;;
      path <- gets tablePath ;;
      let p := _shardTablePath path (sr_num shardRec) in
      onDisk <- gets (fun s => tables s !! p) ;;
      match bt_open onDisk with
      | None => throw "Open table failed"
      | Some newTable =>
          let newTable :=
            if bool_decide (known = None)
            then bt_setAutoIncrement (shardCountStep * sr_num shardRec) newTable
            else newTable in
          modify (set_tables <[p := newTable]>) ;;
          modify (set_openedShardTables <[shard := p]>) ;;
          modify (set_openedShardNames (fun x => {[shard]} ∪ x)) ;;
          _updateShardLockList shard 1 0 ;;
          ret (Some p)
      end.

Definition _unlockShard (shard : string) : M State unit :=
  _updateShardLockList shard (-1) 0 ;;
  _closeShards false.

Definition _getOpenedShardsFirst (shardsIter : list string) : M State (list string) :=
  names <- gets openedShardNames ;;
  ret (filter (fun shard => shard ∈ names) shardsIter
       ++ filter (fun shard => shard ∉ names) shardsIter).

(** *** Auto-sharding *)

(** The [while] loop at the head of [_genAutoShard], over [autoShard.list]
    from its end: the shard it returns, if any, and the list it leaves. *)
Fixpoint autoShardFromList (fuel : nat) (shards : gmap string ShardRec) (limit : Z)
    (l : list AutoRec) : option string * list AutoRec :=
  match fuel with
  | O => (None, l)
  | S fuel' =>
      match last l with
      | None => (None, l)
      | Some lastRec =>
          let count := ar_count lastRec - 1 in
          let init := take (length l - 1) l in
          let kept := if count <=? 0 then init
                      else init ++ [mkAutoRec (ar_shard lastRec) count] in
          match shards !! ar_shard lastRec with
          | None => (Some (ar_shard lastRec), kept)
          | Some shardRec =>
              if sr_count shardRec <? limit then (Some (ar_shard lastRec), kept)
              else autoShardFromList fuel' shards limit init
          end
      end
  end.

(** Step 0: the shards that are not full, those that are opened last. *)
Definition autoShardExisting (shards : gmap string ShardRec) (names : gset string)
    (limit : Z) : list AutoRec :=
  let notFull := filter (fun e => sr_count e.2 < limit) (map_to_list shards) in
  let rec := fun e : string * ShardRec => mkAutoRec e.1 (limit - sr_count e.2) in
  map rec (filter (fun e => e.1 ∉ names) notFull)
  ++ map rec (filter (fun e => e.1 ∈ names) notFull).

Definition autoName (i : Z) : string := String.append "auto_" (Js.toString i).

(** Step 1: the first [maxAutoShardListLength] names [auto_1], [auto_2], ...
    that no shard has, last first.  They lie among the first
    [maxAutoShardListLength] plus the number of shards. *)
Definition autoShardNew (shards : gmap string ShardRec) (limit : Z) : list AutoRec :=
  rev (map (fun i => mkAutoRec (autoName i) limit)
         (take maxAutoShardListLength
            (filter (fun i => shards !! autoName i = None)
               (seqZ 1 (Z.of_nat (maxAutoShardListLength + size shards)))))).

(** [_genAutoShard()]; [fuel] bounds the calls it makes to itself. *)
Fixpoint genAutoShard (fuel : nat) : M State string :=
  match fuel with
  | O => throw "RangeError: maximum call stack size exceeded"
  | S fuel' =>
      found <- (fun s =>
        let r := autoShardFromList (length (autoShard_list s)) (shardList s)
                   (autoShardSize s) (autoShard_list s) in
        Ok r.1 (set_autoShard_list (fun _ => r.2) s)) ;;
      match found with
      | Some shard => ret shard
      | None =>
          (* step 0 - check existing shards, opened shards to the end *)
          step <- gets autoShard_step ;;
          l <- gets autoShard_list ;;
          when ((step =? 0) && bool_decide (l = [])) (
            modify (fun s =>
              set_autoShard_list
                (fun l => l ++ autoShardExisting (shardList s) (openedShardNames s)
                                 (autoShardSize s)) s) ;;
            modify (set_autoShard_step (fun i => i + 1))) ;;
          (* step 1 - generate new shard name, all existing are full *)
          step <- gets autoShard_step ;;
          l <- gets autoShard_list ;;
          when ((step =? 1) && bool_decide (l = [])) (
            modify (fun s =>
              set_autoShard_list (fun _ => autoShardNew (shardList s) (autoShardSize s)) s)) ;;
          genAutoShard fuel'
      end
  end.

(** Three calls are enough when [autoShard.step] is 0 or 1. *)
Definition _genAutoShard : M State string := genAutoShard 3.

(** *** Insert *)

(** The query of [insert]: [q_rows] is [None] when [query.rows] is not an
    array; [q_shardGen] is the function of [query.shardGen]. *)
Record InsertQuery : Type := mkInsertQuery {
  q_rows : option (list (Row Data));
  q_shardGen : option (Row Data -> JsVal)
}.

Record InsertResult : Type := mkInsertResult {
  inserted : Z;
  replaced : Z
}.

(** [shardedRows]: rows by shard, in the order the shards first occur. *)
Fixpoint addShardedRow (shard : string) (row : Row Data)
    (m : list (string * list (Row Data))) : list (string * list (Row Data)) :=
  match m with
  | [] => [(shard, [row])]
  | (k, r) :: rest =>
      if bool_decide (k = shard) then (k, r ++ [row]) :: rest
      else (k, r) :: addShardedRow shard row rest
  end.

(** The checks of one row, and its place in [shardedRows]. *)
Definition checkRow (shardGen : option (Row Data -> JsVal)) (row : Row Data)
    (shardedRows : list (string * list (Row Data)))
  : M State (list (string * list (Row Data))) :=
  if bool_decide (is_Some (row_id row)) then
    throw "row.id use is not allowed for this table type (sharded) while insert"
  else
    row <- match row_shard row with
           | Some _ => ret row
           | None =>
               match shardGen with
               | Some gen => ret (mkRow (row_id row) (Some (gen row)) (row_data row))
               | None => throw "No row.shard field found for row"
               end
           end ;;
    match row_shard row with
    | Some (VStr shard) =>
        if bool_decide (shard = EmptyString) then throw "Wrong row.shard field value"
        else
          (* auto sharding *)
          shard <- (if bool_decide (shard = autoShardName) then _genAutoShard
                    else ret shard) ;;
          let row := mkRow (row_id row) (Some (VStr shard)) (row_data row) in
          ret (addShardedRow shard row shardedRows)
    | _ => throw "Wrong row.shard field value"
    end.

(** The loop [for (const row of rows)] of [insert]. *)
Fixpoint checkRows (shardGen : option (Row Data -> JsVal)) (rows : list (Row Data))
    (shardedRows : list (string * list (Row Data)))
  : M State (list (string * list (Row Data))) :=
  match rows with
  | [] => ret shardedRows
  | row :: rest =>
      shardedRows <- checkRow shardGen row shardedRows ;;
      checkRows shardGen rest shardedRows
  end.

(** The body of the loop [for (const shard of shards)] of [insert];
    [count] is [result.inserted]. *)
Definition insertIntoShard (shardedRows : list (string * list (Row Data)))
    (shard : string) (count : Z) : M State Z :=
  let rows := match list_find (fun e => e.1 = shard) shardedRows with
              | Some (_, e) => e.2
              | None => []
              end in
  table <- _lockShard shard ;;
  done <- tryFinally (
      match table with
      | None => throw "TypeError: cannot read properties of undefined"
      | Some p =>
          ot <- gets (fun s => tables s !! p) ;;
          match ot ≫= bt_insert rows with
          | None => throw "insert failed"
          | Some (t, n) =>
              modify (set_tables <[p := t]>) ;;
              modify (set_changedTables (fun l => l ++ [p])) ;;
              ret (count + n, bt_getAllIdsSize t)
          end
      end)
    (_unlockShard shard) ;;
  let shardCount := done.2 in
  known <- gets (fun s => shardList s !! shard) ;;
  match known with
  | None => throw "TypeError: cannot read properties of undefined"
  | Some shardRec =>
      modify (set_infoShard (fun i =>
        mkShardRec (sr_id i) (sr_num i) (sr_count i - sr_count shardRec))) ;;
      let shardRec := mkShardRec (sr_id shardRec) (sr_num shardRec) shardCount in
      modify (set_shardList <[shard := shardRec]>) ;;
      modify (set_infoShard (fun i =>
        mkShardRec (sr_id i) (sr_num i) (sr_count i + shardCount))) ;;
      _saveShardRec shardRec ;;
      info <- gets infoShard ;;
      _saveShardRec info ;;
      ret done.1
  end.

Fixpoint insertIntoShards (shardedRows : list (string * list (Row Data)))
    (shards : list string) (count : Z) : M State Z :=
  match shards with
  | [] => ret count
  | shard :: rest =>
      count <- insertIntoShard shardedRows shard count ;;
      insertIntoShards shardedRows rest count
  end.

Definition insert (query : InsertQuery) : M State InsertResult :=
  _checkErrors ;;
  tryFinally (
      match q_rows query with
      | None => throw "query.rows must be an array"
      | Some rows =>
          (* checks & shardedRows *)
          shardedRows <- checkRows (q_shardGen query) rows [] ;;
          (* opened shards first *)
          shards <- _getOpenedShardsFirst shardedRows.*1 ;;
          (* inserting *)
          count <- insertIntoShards shardedRows shards 0 ;;
          ret (mkInsertResult count 0)
      end)
    _checkTables.

End Coordinator.
End ShardedTable.
(** ** The database directory ([JembaDb], second version of the file) *)

Module JembaDb.
Import Exec.

(** The class [open] instantiates for a table. *)
Inductive TableClass : Type :=
| ClsMemory
| ClsSharded
| ClsBasic.

#[export] Instance TableClass_eq_dec : EqDecision TableClass.
Proof. solve_decision. Defined.

(** A path of the file system holds a directory or a file. *)
Inductive Node : Type :=
| Dir
| File (content : string).

(** A table instance of [this.table]: its class and its [opened] flag.
    What it holds besides is its own. *)
Record Instance : Type := mkInstance {
  cls : TableClass;
  inst_opened : bool
}.

(** The query of [open], [close] and [tableExists]: [q_table] is empty
    when [query.table] is missing (or empty: both are falsy), [q_type] is
    [None] when [query.type] is; [q_options] is the other fields. *)
Record Query (Options : Type) : Type := mkQuery {
  q_table : string;
  q_create : bool;
  q_type : option string;
  q_options : Options
}.
Arguments mkQuery {Options} _ _ _ _.
Arguments q_table {Options} _.
Arguments q_create {Options} _.
Arguments q_type {Options} _.
Arguments q_options {Options} _.

(** What the database uses of the three table classes, of which
    [ShardedTable] alone is among the sources: [table_open cls path defaults
    query disk] is [new cls().open(opts)] with [opts] made of the defaults,
    the query and the table path; it gives the error thrown, if any, and
    the disk it leaves.  [table_close cls path disk] is [close()] on an
    instance opened at [path]. *)
Class TableImpl (Options : Type) : Type := {
  table_open : TableClass -> string -> Options -> Query Options ->
               gmap string Node -> option string * gmap string Node;
  table_close : TableClass -> string -> gmap string Node -> gmap string Node
}.

Section Database.
Context {Options : Type} {tableImpl : TableImpl Options}.

Record State : Type := mkState {
  opened : bool;
  dbPath : string;
  table : gmap string Instance;
  tableOpenDefaults : Options;
  disk : gmap string Node
}.

Definition set_table (f : gmap string Instance -> gmap string Instance) (s : State) : State :=
  {| opened := opened s; dbPath := dbPath s; table := f (table s);
     tableOpenDefaults := tableOpenDefaults s; disk := disk s |}.

Definition set_disk (f : gmap string Node -> gmap string Node) (s : State) : State :=
  {| opened := opened s; dbPath := dbPath s; table := table s;
     tableOpenDefaults := tableOpenDefaults s; disk := f (disk s) |}.

Definition _checkOpened : M State unit :=
  o <- gets opened ;;
  if negb o then throw "Database closed. Use 'db.lock' to lock & open database."
  else ret tt.

(** [`${this.dbPath}/${table}`]. *)
Definition tableDir (s : State) (name : string) : string :=
  String.append (dbPath s) (String.append "/" name).

(** [utils.pathExists(path)]. *)
Definition pathExists (path : string) : M State bool :=
  gets (fun s => bool_decide (is_Some (disk s !! path))).

(** [fs.readFile(path, 'utf8')]. *)
Definition readFile (path : string) : M State string :=
  node <- gets (fun s => disk s !! path) ;;
  match node with
  | Some (File content) => ret content
  | Some Dir => throw "EISDIR: illegal operation on a directory, read"
  | None => throw "ENOENT: no such file or directory"
  end.

Definition tableExists (name : string) : M State bool :=
  _checkOpened ;;
  if bool_decide (name = EmptyString) then throw "'query.table' parameter is required"
  else
    known <- gets (fun s => bool_decide (is_Some (table s !! name))) ;;
    if known : bool then ret true
    else
      dir <- gets (fun s => tableDir s name) ;;
      onDisk <- pathExists dir ;;
      if onDisk : bool then ret true else ret false.

Definition _getTableType (name : string) : M State string :=
  typePath <- gets (fun s => String.append (tableDir s name) "/type") ;;
  found <- pathExists typePath ;;
  if found : bool then readFile typePath else ret "basic".

(** The class for a type: [MemoryTable] for ['memory'], [ShardedTable]
    for ['sharded'], [BasicTable] for anything else, [undefined] too. *)
Definition classOf (type : option string) : TableClass :=
  match type with
  | Some t =>
      if bool_decide (t = "memory") then ClsMemory
      else if bool_decide (t = "sharded") then ClsSharded
      else ClsBasic
  | None => ClsBasic
  end.

(** [tableInstance.open(opts)] for the instance of [name] in [this.table]:
    when it returns the instance is opened. *)
Definition instanceOpen (name : string) (query : Query Options) : M State unit :=
  inst <- gets (fun s => table s !! name) ;;
  match inst with
  | None => throw "TypeError: cannot read properties of undefined"
  | Some i =>
      fun s =>
        let r := table_open (cls i) (tableDir s name) (tableOpenDefaults s) query (disk s) in
        match r.1 with
        | Some msg => Throw msg (set_disk (fun _ => r.2) s)
        | None =>
            Ok tt (set_table <[name := mkInstance (cls i) true]> (set_disk (fun _ => r.2) s))
        end
  end.

Definition open (query : Query Options) : M State unit :=
  _checkOpened ;;
  if bool_decide (q_table query = EmptyString) then
    throw "'query.table' parameter is required"
  else
    exists_ <- tableExists (q_table query) ;;
    if exists_ || q_create query then
      tableInstance <- gets (fun s => table s !! q_table query) ;;
      if match tableInstance with
         | Some i => negb (inst_opened i)
         | None => true
         end
      then
        type <- (if exists_ : bool
                 then t <- _getTableType (q_table query) ;; ret (Some t)
                 else ret (q_type query)) ;;
        modify (set_table <[q_table query := mkInstance (classOf type) false]>) ;;
        instanceOpen (q_table query) query
      else ret tt
    else throw "Table does not exist".

(** [tableInstance.close()]: the instance is no longer opened. *)
Definition instanceClose (name : string) (i : Instance) : M State unit :=
  modify (fun s => set_disk (table_close (cls i) (tableDir s name)) s) ;;
  modify (set_table <[name := mkInstance (cls i) false]>).

Definition close (name : string) : M State unit :=
  _checkOpened ;;
  if bool_decide (name = EmptyString) then throw "'query.table' parameter is required"
  else
    exists_ <- tableExists name ;;
    if exists_ : bool then
      tableInstance <- gets (fun s => table s !! name) ;;
      match tableInstance with
      | Some i => instanceClose name i
      | None => ret tt
      end ;;
      modify (set_table (delete name))
    else throw "Table does not exist".

End Database.
End JembaDb.

(** *** Row operations of the database directory *)

Module JembaDbRows.
Import Exec JembaDb.

Section Rows.
Context {Options Result : Type} {tableImpl : TableImpl Options}.

(** [tableInstance.insert(query)], [update] and [delete]: the calls the
    database hands on to the table it finds.  The tables are not part of
    the directory; what a call does to the state is left open. *)
Variable instanceInsert : Instance -> Query Options -> M (@State Options) Result.
Variable instanceUpdate : Instance -> Query Options -> M (@State Options) Result.
Variable instanceDelete : Instance -> Query Options -> M (@State Options) Result.

Definition _checkTable {A} (name : string) : M (@State Options) A :=
  exists_ <- tableExists name ;;
  if exists_ : bool
  then throw (String.append "Table '" (String.append name "' closed"))
  else throw (String.append "Table '" (String.append name "' does not exist")).

Definition insert (query : Query Options) : M (@State Options) Result :=
  _checkOpened ;;
  if bool_decide (q_table query = EmptyString) then
    throw "'query.table' parameter is required"
  else
    tableInstance <- gets (fun s => table s !! q_table query) ;;
    match tableInstance with
    | Some i => instanceInsert i query
    | None => _checkTable (q_table query)
    end.

Definition update (query : Query Options) : M (@State Options) Result :=
  _checkOpened ;;
  if bool_decide (q_table query = EmptyString) then
    throw "'query.table' parameter is required"
  else
    tableInstance <- gets (fun s => table s !! q_table query) ;;
    match tableInstance with
    | Some i => instanceUpdate i query
    | None => _checkTable (q_table query)
    end.

Definition delete (query : Query Options) : M (@State Options) Result :=
  _checkOpened ;;
  if bool_decide (q_table query = EmptyString) then
    throw "'query.table' parameter is required"
  else
    tableInstance <- gets (fun s => table s !! q_table query) ;;
    match tableInstance with
    | Some i => instanceDelete i query
    | None => _checkTable (q_table query)
    end.

End Rows.
End JembaDbRows.


(** ** Facts about decimal rendering and string order *)

Module JsFacts.
Import Js.

Lemma append_nil_l (s : string) : String.append EmptyString s = s.
Proof. reflexivity. Qed.

Lemma append_cons (c : ascii) (s t : string) :
  String.append (String c s) t = String c (String.append s t).
Proof. reflexivity. Qed.

Lemma append_nil_r (s : string) : String.append s EmptyString = s.
Proof.
  induction s as [|c s IH]; [reflexivity|].
  now rewrite append_cons, IH.
Qed.

Lemma append_assoc (a b c : string) :
  String.append (String.append a b) c = String.append a (String.append b c).
Proof.
  induction a as [|x a IH]; [reflexivity|].
  now rewrite !append_cons, IH.
Qed.

Lemma length_append (a b : string) :
  String.length (String.append a b) = (String.length a + String.length b)%nat.
Proof.
  induction a as [|x a IH]; [reflexivity|].
  rewrite append_cons. simpl. now rewrite IH.
Qed.

Lemma ascii_compare_refl (c : ascii) : Ascii.compare c c = Eq.
Proof. unfold Ascii.compare. apply N.compare_refl. Qed.

Lemma compare_refl (s : string) : String.compare s s = Eq.
Proof.
  induction s as [|c s IH]; simpl; [reflexivity|].
  now rewrite ascii_compare_refl.
Qed.

(** Comparison skips a common prefix. *)
Lemma compare_app_prefix (p a b : string) :
  String.compare (String.append p a) (String.append p b) = String.compare a b.
Proof.
  induction p as [|c p IH]; [reflexivity|].
  rewrite !append_cons. simpl. now rewrite ascii_compare_refl.
Qed.

(** Two strings with heads of equal length compare by their heads first. *)
Lemma compare_app_same_length (a b x y : string) :
  String.length a = String.length b ->
  String.compare (String.append a x) (String.append b y) =
    match String.compare a b with
    | Eq => String.compare x y
    | c => c
    end.
Proof.
  revert b. induction a as [|c a IH]; intros [|d b] Hlen; simpl in Hlen; try discriminate.
  - reflexivity.
  - rewrite !append_cons. simpl.
    destruct (Ascii.compare c d); try reflexivity.
    apply IH. congruence.
Qed.

Lemma repeatChar_snoc (k : nat) (c : ascii) :
  String.append (repeatChar k c) (String c EmptyString) = String c (repeatChar k c).
Proof.
  induction k as [|k IH]; [reflexivity|].
  simpl repeatChar. now rewrite append_cons, IH.
Qed.

Lemma length_repeatChar (k : nat) (c : ascii) : String.length (repeatChar k c) = k.
Proof. induction k as [|k IH]; simpl; [reflexivity | now rewrite IH]. Qed.

Lemma length_fixedDigits (w : nat) (n : Z) : String.length (fixedDigits w n) = w.
Proof.
  revert n. induction w as [|w IH]; intros n; simpl; [reflexivity|].
  rewrite length_append, IH. simpl. lia.
Qed.

Lemma fixedDigits_zero (k : nat) : fixedDigits k 0 = repeatChar k "0".
Proof.
  induction k as [|k IH]; simpl; [reflexivity|].
  change (0 / 10) with 0. rewrite IH.
  change (digitChar (0 mod 10)) with "0"%char. apply repeatChar_snoc.
Qed.

(** Rendering with more digits than needed pads with zeros on the left. *)
Lemma fixedDigits_pad (w k : nat) (n : Z) :
  0 <= n < 10 ^ Z.of_nat w ->
  fixedDigits (k + w) n = String.append (repeatChar k "0") (fixedDigits w n).
Proof.
  revert n. induction w as [|w IH]; intros n Hn.
  - simpl in Hn. assert (n = 0) by lia. subst n.
    rewrite Nat.add_0_r. simpl. now rewrite append_nil_r, fixedDigits_zero.
  - replace (k + S w)%nat with (S (k + w)) by lia. simpl.
    rewrite IH, append_assoc; [reflexivity|].
    rewrite Nat2Z.inj_succ, Z.pow_succ_r in Hn by lia.
    split; [apply Z.div_pos; lia | apply Z.div_lt_upper_bound; lia].
Qed.

Lemma numDigits_fuel_upper (fuel : nat) (n : Z) :
  0 <= n < 2 ^ Z.of_nat (S fuel) ->
  n < 10 ^ Z.of_nat (numDigits_fuel fuel n).
Proof.
  revert n. induction fuel as [|fuel IH]; intros n Hn; simpl numDigits_fuel.
  - change (2 ^ Z.of_nat 1) with 2 in Hn. change (10 ^ Z.of_nat 1) with 10. lia.
  - destruct (Z.ltb_spec n 10) as [Hlt|Hge].
    + change (10 ^ Z.of_nat 1) with 10. lia.
    + rewrite Nat2Z.inj_succ, Z.pow_succ_r by lia.
      assert (Hq : n / 10 < 10 ^ Z.of_nat (numDigits_fuel fuel (n / 10))).
      { apply IH. split; [apply Z.div_pos; lia|].
        apply Z.div_lt_upper_bound; [lia|].
        rewrite (Nat2Z.inj_succ (S fuel)), Z.pow_succ_r in Hn by lia. lia. }
      pose proof (Z.div_mod n 10 ltac:(lia)) as Hdm.
      pose proof (Z.mod_pos_bound n 10 ltac:(lia)). lia.
Qed.

Lemma numDigits_fuel_lower (fuel : nat) (n : Z) :
  0 <= n ->
  numDigits_fuel fuel n = 1%nat \/
  10 ^ Z.of_nat (numDigits_fuel fuel n - 1) <= n.
Proof.
  revert n. induction fuel as [|fuel IH]; intros n Hn; simpl numDigits_fuel.
  - now left.
  - destruct (Z.ltb_spec n 10) as [Hlt|Hge]; [now left|]. right.
    replace (S (numDigits_fuel fuel (n / 10)) - 1)%nat
      with (numDigits_fuel fuel (n / 10)) by lia.
    pose proof (Z.div_mod n 10 ltac:(lia)) as Hdm.
    pose proof (Z.mod_pos_bound n 10 ltac:(lia)).
    destruct (IH (n / 10) ltac:(apply Z.div_pos; lia)) as [H1|Hlow].
    + rewrite H1. change (10 ^ Z.of_nat 1) with 10. lia.
    + assert (Hpos : (1 <= numDigits_fuel fuel (n / 10))%nat).
      { destruct fuel; simpl; [lia|]. destruct (n / 10 <? 10); lia. }
      replace (Z.of_nat (numDigits_fuel fuel (n / 10)))
        with (Z.succ (Z.of_nat (numDigits_fuel fuel (n / 10) - 1))) by lia.
      rewrite Z.pow_succ_r by lia. lia.
Qed.

Lemma numDigits_upper (n : Z) : 0 <= n -> n < 10 ^ Z.of_nat (numDigits n).
Proof.
  intros Hn. unfold numDigits. apply numDigits_fuel_upper. split; [assumption|].
  destruct (Z.eq_dec n 0) as [->|Hne]; [reflexivity|].
  rewrite Nat2Z.inj_succ, Z2Nat.id by apply Z.log2_nonneg.
  apply Z.log2_spec. lia.
Qed.

Lemma numDigits_le (w : nat) (n : Z) :
  (1 <= w)%nat -> 0 <= n < 10 ^ Z.of_nat w -> (numDigits n <= w)%nat.
Proof.
  intros Hw Hn. unfold numDigits.
  destruct (numDigits_fuel_lower (Z.to_nat (Z.log2 n)) n ltac:(lia)) as [H1|Hlow].
  - lia.
  - set (d := numDigits_fuel (Z.to_nat (Z.log2 n)) n) in *.
    destruct (Nat.le_gt_cases d w) as [Hle|Hgt]; [assumption|exfalso].
    assert (10 ^ Z.of_nat w <= 10 ^ Z.of_nat (d - 1)); [|lia].
    apply Z.pow_le_mono_r; lia.
Qed.

(** Below [10^w], zero padding to width [w] yields exactly [w] digits. *)
Lemma padStart_toString (w : nat) (n : Z) :
  (1 <= w)%nat -> 0 <= n < 10 ^ Z.of_nat w ->
  padStart w "0" (toString n) = fixedDigits w n.
Proof.
  intros Hw Hn. unfold padStart, toString.
  destruct (Z.ltb_spec n 0) as [Hneg|_]; [lia|].
  rewrite length_fixedDigits.
  pose proof (numDigits_le w n Hw Hn) as Hle.
  rewrite <- fixedDigits_pad by (split; [lia | apply numDigits_upper; lia]).
  f_equal. lia.
Qed.

(** From [10^w] on, padding to width [w] adds nothing. *)
Lemma padStart_toString_wide (w : nat) (n : Z) :
  10 ^ Z.of_nat w <= n -> padStart w "0" (toString n) = toString n.
Proof.
  intros Hn. unfold padStart.
  assert (Hlen : (w <= String.length (toString n))%nat).
  { unfold toString. assert (0 < 10 ^ Z.of_nat w) by (apply Z.pow_pos_nonneg; lia).
    destruct (Z.ltb_spec n 0) as [Hneg|_]; [lia|].
    rewrite length_fixedDigits.
    destruct (Nat.le_gt_cases w (numDigits n)) as [Hle|Hgt]; [assumption|exfalso].
    pose proof (numDigits_upper n ltac:(lia)).
    assert (10 ^ Z.of_nat (numDigits n) <= 10 ^ Z.of_nat w); [|lia].
    apply Z.pow_le_mono_r; lia. }
  replace (w - String.length (toString n))%nat with 0%nat by lia. reflexivity.
Qed.

Lemma N_of_digitChar (a : Z) :
  0 <= a < 10 -> N_of_ascii (digitChar a) = (48 + Z.to_N a)%N.
Proof.
  intros Ha. unfold digitChar, ascii_of_nat.
  replace (N.of_nat (48 + Z.to_nat a)) with (48 + Z.to_N a)%N.
  2:{ rewrite Nat2N.inj_add, Z_nat_N. reflexivity. }
  apply N_ascii_embedding.
  assert (Z.to_N a < 10)%N by (apply N2Z.inj_lt; rewrite Z2N.id; lia).
  apply N.lt_le_trans with (48 + 10)%N; [apply N.add_lt_mono_l; assumption|].
  apply N.leb_le. reflexivity.
Qed.

Lemma digitChar_compare (a b : Z) :
  0 <= a < 10 -> 0 <= b < 10 -> a < b ->
  Ascii.compare (digitChar a) (digitChar b) = Lt.
Proof.
  intros Ha Hb Hab. unfold Ascii.compare.
  rewrite !N_of_digitChar by assumption.
  apply N.compare_lt_iff, N.add_lt_mono_l, N2Z.inj_lt.
  rewrite !Z2N.id; lia.
Qed.

(** On fixed-width renderings the string order is the numeric order. *)
Lemma fixedDigits_lt (w : nat) (n m : Z) :
  0 <= n -> n < m -> m < 10 ^ Z.of_nat w ->
  String.compare (fixedDigits w n) (fixedDigits w m) = Lt.
Proof.
  revert n m. induction w as [|w IH]; intros n m Hn Hnm Hm.
  - simpl in Hm. lia.
  - cbn [fixedDigits].
    rewrite compare_app_same_length by now rewrite !length_fixedDigits.
    pose proof (Z.div_mod n 10 ltac:(lia)) as Hdn.
    pose proof (Z.div_mod m 10 ltac:(lia)) as Hdm.
    pose proof (Z.mod_pos_bound n 10 ltac:(lia)).
    pose proof (Z.mod_pos_bound m 10 ltac:(lia)).
    destruct (Z.eq_dec (n / 10) (m / 10)) as [Heq|Hne].
    + rewrite Heq, compare_refl. cbn [String.compare].
      rewrite digitChar_compare by lia. reflexivity.
    + rewrite IH; [reflexivity | apply Z.div_pos; lia | lia |].
      rewrite Nat2Z.inj_succ, Z.pow_succ_r in Hm by lia.
      apply Z.div_lt_upper_bound; lia.
Qed.

Lemma append_inj_l (p a b : string) : String.append p a = String.append p b -> a = b.
Proof.
  induction p as [|c p IH]; [auto|].
  rewrite !append_cons. intros H. injection H as H. now apply IH.
Qed.

(** *** The last character and the last comma *)

Lemma lastChar_cons (d : ascii) (s : string) :
  s <> EmptyString -> lastChar (String d s) = lastChar s.
Proof. destruct s; [congruence | reflexivity]. Qed.

Lemma lastChar_app (a b : string) :
  b <> EmptyString -> lastChar (String.append a b) = lastChar b.
Proof.
  intros Hb. induction a as [|d a IH]; [reflexivity|].
  rewrite append_cons, lastChar_cons; [exact IH|].
  destruct a; [rewrite append_nil_l; exact Hb | rewrite append_cons; discriminate].
Qed.

Lemma lastChar_snoc (s : string) (c : ascii) :
  lastChar (String.append s (String c EmptyString)) = Some c.
Proof.
  induction s as [|d s IH]; [reflexivity|].
  rewrite append_cons, lastChar_cons; [exact IH|].
  destruct s; discriminate.
Qed.

Lemma setLastChar_cons (c d : ascii) (s : string) :
  s <> EmptyString -> setLastChar c (String d s) = String d (setLastChar c s).
Proof. destruct s; [congruence | reflexivity]. Qed.

Lemma setLastChar_snoc (s : string) (c c' : ascii) :
  setLastChar c' (String.append s (String c EmptyString))
  = String.append s (String c' EmptyString).
Proof.
  induction s as [|d s IH]; [reflexivity|].
  rewrite !append_cons, setLastChar_cons, IH; [reflexivity|].
  destruct s; discriminate.
Qed.

Lemma lastIndexOf_none_lastChar (c : ascii) (s : string) :
  lastIndexOf c s = None -> lastChar s <> Some c.
Proof.
  induction s as [|d s IH]; [discriminate|].
  cbn [lastIndexOf]. destruct (lastIndexOf c s) eqn:Hl; [discriminate|].
  destruct (Ascii.eqb_spec d c) as [|Hne]; [discriminate|]. intros _.
  destruct s as [|e s]; [cbn; congruence|].
  rewrite lastChar_cons by discriminate. now apply IH.
Qed.

Lemma lastIndexOf_app (c : ascii) (pre post : string) :
  lastIndexOf c post = None ->
  lastIndexOf c (String.append pre (String c post)) = Some (String.length pre).
Proof.
  intros Hpost. induction pre as [|d pre IH].
  - rewrite append_nil_l. cbn [lastIndexOf String.length]. rewrite Hpost.
    now rewrite Ascii.eqb_refl.
  - rewrite append_cons. cbn [lastIndexOf String.length]. now rewrite IH.
Qed.

Lemma lastIndexOf_none_app (c : ascii) (a b : string) :
  lastIndexOf c a = None -> lastIndexOf c b = None ->
  lastIndexOf c (String.append a b) = None.
Proof.
  intros Ha Hb. induction a as [|d a IH]; [exact Hb|].
  rewrite append_cons. cbn [lastIndexOf] in *.
  destruct (lastIndexOf c a); [discriminate|].
  rewrite IH by reflexivity. exact Ha.
Qed.

Lemma substring_prefix (pre rest : string) :
  String.substring 0 (String.length pre) (String.append pre rest) = pre.
Proof.
  induction pre as [|d pre IH].
  - rewrite append_nil_l. destruct rest; reflexivity.
  - rewrite append_cons. cbn [String.length String.substring]. now rewrite IH.
Qed.

(** *** [new Map(entries)] *)

Lemma fold_insert_dom {K V} `{Countable K} (entries : list (K * V)) (m0 : gmap K V) :
  dom (fold_left (fun m kv => <[kv.1 := kv.2]> m) entries m0)
  = list_to_set entries.*1 ∪ dom m0.
Proof.
  revert m0. induction entries as [|[k v] l IH]; intros m0; simpl.
  - set_solver.
  - rewrite IH, dom_insert_L. set_solver.
Qed.

(** The keys of [new Map(entries)] are the keys of the entries. *)
Lemma newMap_dom {K V} `{Countable K} (entries : list (K * V)) :
  dom (newMap entries) = list_to_set entries.*1.
Proof. unfold newMap. rewrite fold_insert_dom. set_solver. Qed.

Lemma newMap_keys {K V} `{Countable K} (entries : list (K * V)) (k : K) :
  k ∈ (map_to_list (newMap entries)).*1 <-> k ∈ entries.*1.
Proof.
  rewrite <- (elem_of_list_to_set (C := gset K) k entries.*1), <- newMap_dom.
  rewrite elem_of_dom, list_elem_of_fmap. split.
  - intros ([k' v] & -> & Hin). apply elem_of_map_to_list in Hin. eauto.
  - intros [v Hv]. exists (k, v). split; [reflexivity|]. now apply elem_of_map_to_list.
Qed.

(** Up to [2^53] the sum of a number and 1 is exact. *)
Lemma numSucc_exact (x : Z) :
  - maxSafeInteger - 2 <= x <= maxSafeInteger -> numSucc x = x + 1.
Proof.
  intros Hx. unfold numSucc, roundToDouble. cbv zeta.
  destruct (Z.leb_spec (Z.abs (x + 1)) (maxSafeInteger + 1)) as [_|Hbig]; [reflexivity|].
  unfold maxSafeInteger in *. lia.
Qed.

(** At [2^53] it is not: [2^53 + 1] is no double, and the sum is [2^53]
    again; at [2^53 + 2] it is [2^53 + 4]. *)
Lemma numSucc_rounds :
  numSucc (maxSafeInteger + 1) = maxSafeInteger + 1
  /\ numSucc (maxSafeInteger + 3) = maxSafeInteger + 5.
Proof. split; vm_compute; reflexivity. Qed.

End JsFacts.

(** ** Reasoning about code that changes a state *)

Module ExecFacts.
Import Exec.

Section Triples.
Context {S : Type}.

(** [triple P m Q E]: from a state in [P], [m] returns [a] in a state in
    [Q a], or throws in a state in [E]. *)
Definition triple {A} (P : S -> Prop) (m : M S A) (Q : A -> S -> Prop) (E : S -> Prop)
  : Prop :=
  forall s, P s ->
    match m s with
    | Ok a s' => Q a s'
    | Throw _ s' => E s'
    end.

(** [m] keeps [I], whether it returns or throws. *)
Definition preserves {A} (I : S -> Prop) (m : M S A) : Prop :=
  triple I m (fun _ => I) I.

Lemma preserves_final {A} (I : S -> Prop) (m : M S A) (s : S) :
  preserves I m -> I s -> I (final (m s)).
Proof. intros Hm Hs. specialize (Hm s Hs). destruct (m s); exact Hm. Qed.

Lemma triple_conseq {A} (P P' : S -> Prop) (m : M S A) (Q Q' : A -> S -> Prop)
    (E E' : S -> Prop) :
  triple P' m Q' E' ->
  (forall s, P s -> P' s) -> (forall a s, Q' a s -> Q a s) -> (forall s, E' s -> E s) ->
  triple P m Q E.
Proof.
  intros Hm HP HQ HE s Hs. specialize (Hm s (HP s Hs)).
  destruct (m s); auto.
Qed.

Lemma triple_ret {A} (P : S -> Prop) (a : A) (E : S -> Prop) :
  triple P (ret a) (fun x s => x = a /\ P s) E.
Proof. intros s Hs. simpl. auto. Qed.

Lemma triple_gets {A} (P : S -> Prop) (f : S -> A) (E : S -> Prop) :
  triple P (gets f) (fun x s => x = f s /\ P s) E.
Proof. intros s Hs. simpl. auto. Qed.

Lemma triple_bind {A B} (P : S -> Prop) (m : M S A) (k : A -> M S B)
    (Q : A -> S -> Prop) (R : B -> S -> Prop) (E : S -> Prop) :
  triple P m Q E -> (forall a, triple (Q a) (k a) R E) -> triple P (bind m k) R E.
Proof.
  intros Hm Hk s Hs. unfold bind. specialize (Hm s Hs).
  destruct (m s) as [a s'|e s']; [apply (Hk a s' Hm) | exact Hm].
Qed.

Lemma preserves_ret {A} (I : S -> Prop) (a : A) : preserves I (ret a).
Proof. intros s Hs. exact Hs. Qed.

Lemma preserves_gets {A} (I : S -> Prop) (f : S -> A) : preserves I (gets f).
Proof. intros s Hs. exact Hs. Qed.

Lemma preserves_throw {A} (I : S -> Prop) (msg : string) : preserves I (@throw S A msg).
Proof. intros s Hs. exact Hs. Qed.

Lemma preserves_modify (I : S -> Prop) (f : S -> S) :
  (forall s, I s -> I (f s)) -> preserves I (modify f).
Proof. intros Hf s Hs. simpl. auto. Qed.

Lemma preserves_bind {A B} (I : S -> Prop) (m : M S A) (k : A -> M S B) :
  preserves I m -> (forall a, preserves I (k a)) -> preserves I (bind m k).
Proof. intros Hm Hk. eapply triple_bind; [exact Hm | exact Hk]. Qed.

(** The continuation may use what [gets] read. *)
Lemma preserves_bind_gets {A B} (I : S -> Prop) (f : S -> A) (k : A -> M S B) :
  (forall a, triple (fun s => I s /\ a = f s) (k a) (fun _ => I) I) ->
  preserves I (bind (gets f) k).
Proof. intros Hk s Hs. unfold bind, gets. apply (Hk (f s) s). auto. Qed.

Lemma preserves_when (I : S -> Prop) (c : bool) (m : M S unit) :
  preserves I m -> preserves I (when c m).
Proof. intros Hm. destruct c; [exact Hm | apply preserves_ret]. Qed.

Lemma preserves_forEach {A} (I : S -> Prop) (l : list A) (body : A -> M S unit) :
  (forall x, preserves I (body x)) -> preserves I (forEach l body).
Proof.
  intros Hb. induction l as [|x l IH]; simpl.
  - apply preserves_ret.
  - apply preserves_bind; [apply Hb | intros _; exact IH].
Qed.

Lemma preserves_forEachWhile {A} (I : S -> Prop) (l : list A) (body : A -> M S bool) :
  (forall x, preserves I (body x)) -> preserves I (forEachWhile l body).
Proof.
  intros Hb. induction l as [|x l IH]; simpl.
  - apply preserves_ret.
  - apply preserves_bind; [apply Hb|]. intros [|]; [exact IH | apply preserves_ret].
Qed.

Lemma bind_gets {A B} (f : S -> A) (k : A -> M S B) (s : S) :
  bind (gets f) k s = k (f s) s.
Proof. reflexivity. Qed.

(** What a returning [bind] went through. *)
Lemma bind_Ok {A B} (m : M S A) (k : A -> M S B) (s s' : S) (b : B) :
  bind m k s = Ok b s' -> exists a s1, m s = Ok a s1 /\ k a s1 = Ok b s'.
Proof.
  unfold bind. destruct (m s) as [a s1|e s1]; [|discriminate]. eauto.
Qed.

Lemma preserves_Ok {A} (I : S -> Prop) (m : M S A) (s s' : S) (a : A) :
  preserves I m -> I s -> m s = Ok a s' -> I s'.
Proof. intros Hm Hs Hr. specialize (Hm s Hs). now rewrite Hr in Hm. Qed.

(** Code that hands the state back as it got it keeps everything. *)
Lemma preserves_final_eq {A} (I : S -> Prop) (m : M S A) :
  (forall s, final (m s) = s) -> preserves I m.
Proof. intros Hm s Hs. specialize (Hm s). destruct (m s); simpl in Hm; now subst. Qed.

End Triples.

(** Splits a goal [preserves I m] along the shape of [m]. *)
Ltac preserves_step :=
  lazymatch goal with
  | |- preserves _ (bind _ _) => apply preserves_bind; [|intros ?]
  | |- preserves _ (ret _) => apply preserves_ret
  | |- preserves _ (gets _) => apply preserves_gets
  | |- preserves _ (throw _) => apply preserves_throw
  | |- preserves _ (when _ _) => apply preserves_when
  | |- preserves _ (forEach _ _) => apply preserves_forEach; intros ?
  | |- preserves _ (forEachWhile _ _) => apply preserves_forEachWhile; intros ?
  | |- preserves _ (if ?c then _ else _) => destruct c
  | |- preserves _ (match ?x with _ => _ end) => destruct x
  end.

End ExecFacts.

(** ** Properties of the row storage engine *)

Module TableRowsFileFacts.
Import Exec ExecFacts TableRowsFile.

Section Invariants.
Context {Row : Type} {codec : Codec Row}.
Abbreviation State := (@State Row).

(** Every block is registered under its own index. *)
Definition coherent (s : State) : Prop :=
  forall k b, blockList s !! k = Some b -> b_index b = k.

(** No pending delta mentions a block index that was not assigned yet. *)
Definition deltasBounded (s : State) : Prop :=
  forall step d rec,
    deltas s !! step = Some d -> rec ∈ d_blockRows d -> rec.1.1 <= currentBlockIndex s.

(** The invariant of the engine, with [c] a lower bound of the current
    block index (block indexes are never taken back). *)
Definition Inv (c : Z) (s : State) : Prop :=
  coherent s /\ lastSavedBlockIndex s <= currentBlockIndex s /\ deltasBounded s
  /\ c <= currentBlockIndex s.

(** The part of the state that [Inv] reads. *)
Definition core (s : State) : gmap Z (Block Row) * Z * Z * gmap Z (Delta Row) :=
  (blockList s, currentBlockIndex s, lastSavedBlockIndex s, deltas s).

Lemma Inv_core (c : Z) (s s' : State) : core s' = core s -> Inv c s -> Inv c s'.
Proof.
  unfold core, Inv, coherent, deltasBounded. intros Heq. injection Heq as -> -> -> ->. tauto.
Qed.

Lemma Inv_weaken (c c' : Z) (s : State) : c <= c' -> Inv c' s -> Inv c s.
Proof. unfold Inv. intros Hc (?&?&?&?). repeat split; try assumption. lia. Qed.

(** Code that leaves the core alone keeps the invariant. *)
Definition coreStable {A} (m : M State A) : Prop :=
  forall x, preserves (fun s => core s = x) m.

Lemma coreStable_Inv {A} (c : Z) (m : M State A) : coreStable m -> preserves (Inv c) m.
Proof.
  intros Hm s Hs. specialize (Hm (core s) s eq_refl).
  destruct (m s); eapply Inv_core; eauto.
Qed.

Lemma coreStable_final {A} (m : M State A) (s : State) :
  coreStable m -> core (final (m s)) = core s.
Proof. intros Hm. apply (preserves_final _ m s (Hm (core s))). reflexivity. Qed.

Ltac core_stable :=
  intros ?; repeat (first
    [ preserves_step
    | apply preserves_modify; let s := fresh "s" in intros s ?; destruct s; assumption
    | assumption ]).

Lemma loadFile_coreStable {A} (parse : string -> option A) (p : string) :
  coreStable (loadFile parse p).
Proof. unfold loadFile. core_stable. Qed.

Lemma writeFinal_coreStable (p data : string) : coreStable (writeFinal p data).
Proof. unfold writeFinal. core_stable. Qed.

Lemma closeFd_coreStable (name : FdName) : coreStable (closeFd name).
Proof. unfold closeFd. core_stable. Qed.

Lemma openFd_coreStable (name : FdName) (p : string) : coreStable (openFd name p).
Proof. unfold openFd. core_stable. Qed.

Lemma fdWrite_coreStable (name : FdName) (str : string) : coreStable (fdWrite name str).
Proof. unfold fdWrite. core_stable. Qed.

Lemma fdSize_coreStable (name : FdName) : coreStable (fdSize name).
Proof. unfold fdSize. core_stable. Qed.

Lemma fsRename_coreStable (a b : string) : coreStable (fsRename a b).
Proof. unfold fsRename. core_stable. Qed.

Lemma fsUnlink_coreStable (p : string) : coreStable (fsUnlink p).
Proof. unfold fsUnlink. core_stable. Qed.

Lemma fsStatSize_coreStable (p : string) : coreStable (fsStatSize p).
Proof. unfold fsStatSize. core_stable. Qed.

Lemma writeJoined_coreStable (name : FdName) (buf : list string) :
  coreStable (writeJoined name buf).
Proof. unfold writeJoined. intros x. apply preserves_when, fdWrite_coreStable. Qed.

Lemma dumpMaps_coreStable : coreStable (@dumpMaps Row codec).
Proof.
  unfold dumpMaps. intros x.
  repeat (first
    [ apply fdSize_coreStable | apply writeFinal_coreStable | apply fsRename_coreStable
    | apply closeFd_coreStable | apply fsUnlink_coreStable | apply fsStatSize_coreStable
    | preserves_step
    | apply preserves_modify; let s := fresh "s" in intros s ?; destruct s; assumption ]).
Qed.

(** *** The invariant is kept by every operation *)

Lemma getDelta_Inv (c step : Z) : preserves (Inv c) (@getDelta Row step).
Proof.
  intros s Hs. unfold getDelta, bind, gets. simpl.
  destruct (deltas s !! step) as [d|] eqn:Hd; simpl; [exact Hs|].
  destruct Hs as (Hc & Hl & Hb & Hcur). repeat split; try assumption.
  intros step' d' rec Hd' Hin. simpl in *.
  destruct (decide (step = step')) as [->|Hne].
  - rewrite lookup_insert_eq in Hd'. injection Hd' as <-. simpl in Hin.
    apply elem_of_nil in Hin. contradiction.
  - rewrite lookup_insert_ne in Hd' by assumption. eapply Hb; eauto.
Qed.

(** A change to a delta that leaves its [blockRows] list alone. *)
Lemma alter_delta_Inv (c step : Z) (f : Delta Row -> Delta Row) (s : State) :
  (forall d, d_blockRows (f d) = d_blockRows d) ->
  Inv c s -> Inv c (set_deltas (alter f step) s).
Proof.
  intros Hf (Hc & Hl & Hb & Hcur).
  repeat split; try assumption.
  intros step' d' rec Hd' Hin. simpl in *.
  destruct (decide (step = step')) as [->|Hne].
  - rewrite lookup_alter_eq in Hd'.
    destruct (deltas s !! step') as [d|] eqn:Hd; simpl in Hd'; [|discriminate].
    injection Hd' as <-. rewrite Hf in Hin. eapply Hb; eauto.
  - rewrite lookup_alter_ne in Hd' by assumption. eapply Hb; eauto.
Qed.

Lemma modifyDelta_Inv (c step : Z) (f : Delta Row -> Delta Row) :
  (forall d, d_blockRows (f d) = d_blockRows d) ->
  preserves (Inv c) (modifyDelta step f).
Proof. intros Hf. apply preserves_modify. intros s. now apply alter_delta_Inv. Qed.

(** Recording a row under a block index that is already assigned. *)
Lemma push_blockRows_Inv (c step i : Z) (id : RowId) (row : Row) (s : State) :
  Inv c s -> i <= currentBlockIndex s ->
  Inv c (set_deltas (alter (push_d_blockRows (i, id, row)) step) s).
Proof.
  intros (Hc & Hl & Hb & Hcur) Hi. repeat split; try assumption.
  intros step' d' rec Hd' Hin. simpl in *.
  destruct (decide (step = step')) as [->|Hne].
  - rewrite lookup_alter_eq in Hd'.
    destruct (deltas s !! step') as [d|] eqn:Hd; simpl in Hd'; [|discriminate].
    injection Hd' as <-. simpl in Hin. apply elem_of_app in Hin as [Hin|Hin].
    + eapply Hb; eauto.
    + apply list_elem_of_singleton in Hin. subst rec. exact Hi.
  - rewrite lookup_alter_ne in Hd' by assumption. eapply Hb; eauto.
Qed.

(** Replacing or changing a block without touching its index. *)
Lemma set_block_Inv (c key : Z) (b : Block Row) (s : State) :
  Inv c s -> b_index b = key -> Inv c (set_blockList <[key := b]> s).
Proof.
  intros (Hc & Hl & Hb & Hcur) Hk. repeat split; try assumption.
  intros k b' Hlk. simpl in Hlk.
  destruct (decide (key = k)) as [->|Hne].
  - rewrite lookup_insert_eq in Hlk. congruence.
  - rewrite lookup_insert_ne in Hlk by assumption. eauto.
Qed.

Lemma alter_block_Inv (c key : Z) (f : Block Row -> Block Row) (s : State) :
  (forall b, b_index (f b) = b_index b) ->
  Inv c s -> Inv c (set_blockList (alter f key) s).
Proof.
  intros Hf (Hc & Hl & Hb & Hcur). repeat split; try assumption.
  intros k b' Hlk. simpl in Hlk.
  destruct (decide (key = k)) as [->|Hne].
  - rewrite lookup_alter_eq in Hlk.
    destruct (blockList s !! k) as [b|] eqn:Hbk; simpl in Hlk; [|discriminate].
    injection Hlk as <-. rewrite Hf. eauto.
  - rewrite lookup_alter_ne in Hlk by assumption. eauto.
Qed.

Lemma delete_block_Inv (c key : Z) (s : State) :
  Inv c s -> Inv c (set_blockList (delete key) s).
Proof.
  intros (Hc & Hl & Hb & Hcur). repeat split; try assumption.
  intros k b' Hlk. simpl in Hlk.
  apply lookup_delete_Some in Hlk as [_ Hlk]. eauto.
Qed.

Lemma modifyBlock_Inv (c key : Z) (f : Block Row -> Block Row) :
  (forall b, b_index (f b) = b_index b) ->
  preserves (Inv c) (modifyBlock key f).
Proof. intros Hf. apply preserves_modify. intros s. now apply alter_block_Inv. Qed.

(** [createNewBlock] returns the block it registers under the new current
    block index. *)
Lemma createNewBlock_spec (c : Z) :
  triple (Inv c) (@createNewBlock Row)
    (fun b s => Inv c s /\ b_index b = currentBlockIndex s) (Inv c).
Proof.
  intros s (Hc & Hl & Hb & Hcur). unfold createNewBlock, bind, modify, gets, ret. simpl.
  split; [|reflexivity].
  repeat split; simpl; try lia.
  - intros k b Hlk. simpl in Hlk.
    destruct (decide (currentBlockIndex s + 1 = k)) as [<-|Hne].
    + rewrite lookup_insert_eq in Hlk. now injection Hlk as <-.
    + rewrite lookup_insert_ne in Hlk by assumption. eauto.
  - intros step d rec Hd Hin. simpl in *. specialize (Hb step d rec Hd Hin). lia.
Qed.

Lemma addToCurrentBlock_Inv (c : Z) (id : RowId) (row : Row) (rowStr : string) (step : Z) :
  preserves (Inv c) (addToCurrentBlock id row rowStr step).
Proof.
  unfold addToCurrentBlock.
  apply preserves_bind; [apply getDelta_Inv | intros _].
  apply preserves_bind_gets. intros cur.
  eapply triple_bind with (Q := fun ob s => Inv c s /\ cur = currentBlockIndex s
                                            /\ ob = blockList s !! cur).
  { intros s [Hs Hcur]. simpl. auto. }
  intros ob.
  eapply triple_bind with (Q := fun b s => Inv c s /\ b_index b = currentBlockIndex s).
  { destruct ob as [b|].
    - intros s (Hs & Hcur & Hob). simpl. split; [assumption|].
      destruct Hs as (Hc & _). symmetry in Hob. apply Hc in Hob. congruence.
    - eapply triple_conseq; [apply (createNewBlock_spec c) | | |]; simpl; tauto. }
  intros block.
  eapply triple_bind with (Q := fun b s => Inv c s /\ b_index b = currentBlockIndex s).
  { destruct (b_size block >? maxBlockSize).
    - eapply triple_conseq; [apply (createNewBlock_spec c) | | |]; simpl; tauto.
    - intros s Hs. simpl. exact Hs. }
  clear block. intros block s [Hs Hidx]. unfold bind, gets. simpl.
  destruct (b_rows block) as [rows|]; simpl; [|exact Hs].
  apply push_blockRows_Inv; [|simpl; lia].
  apply alter_delta_Inv; [reflexivity|].
  apply set_block_Inv; [assumption | simpl; congruence].
Qed.

(** A change of a field outside the core. *)
Ltac inv_frame :=
  apply preserves_modify;
  let s := fresh "s" in let Hs := fresh "Hs" in
  intros s Hs; apply (Inv_core _ s); [reflexivity | exact Hs].

Ltac inv_step :=
  first
    [ apply getDelta_Inv
    | apply addToCurrentBlock_Inv
    | apply modifyDelta_Inv; reflexivity
    | apply modifyBlock_Inv; reflexivity
    | apply coreStable_Inv;
      first [ apply loadFile_coreStable | apply writeFinal_coreStable
            | apply closeFd_coreStable | apply openFd_coreStable
            | apply fdWrite_coreStable | apply fdSize_coreStable
            | apply fsRename_coreStable | apply fsUnlink_coreStable
            | apply fsStatSize_coreStable | apply writeJoined_coreStable
            | apply dumpMaps_coreStable ]
    | inv_frame
    | apply preserves_modify; intros ? ?; apply delete_block_Inv; assumption
    | preserves_step ].

Lemma deleteRow_Inv (c : Z) (id : RowId) (step : Z) :
  preserves (Inv c) (@deleteRow Row id step).
Proof. unfold deleteRow. repeat inv_step. Qed.

Lemma setRow_Inv (c : Z) (id : RowId) (row : Row) (rowStr : string) (step : Z) :
  preserves (Inv c) (setRow id row rowStr step).
Proof.
  unfold setRow. repeat first [apply deleteRow_Inv | inv_step].
Qed.

Lemma loadBlock_Inv (c key : Z) : preserves (Inv c) (@loadBlock Row codec key).
Proof. unfold loadBlock. repeat inv_step. Qed.

Lemma unloadLoop_Inv (c : Z) (fuel : nat) (s : State) :
  Inv c s -> Inv c (unloadLoop fuel s).
Proof.
  revert s. induction fuel as [|fuel IH]; intros s Hs; simpl; [exact Hs|].
  destruct (loadedBlocks s) as [|index rest] eqn:Hlb; [exact Hs|].
  destruct (_ >? _); [|exact Hs].
  assert (Hs1 : Inv c (set_loadedBlocks (fun _ => rest) s))
    by (apply (Inv_core c s); [reflexivity | exact Hs]).
  destruct (_ >=? _); [now apply IH|].
  destruct (blockList _ !! index); apply IH; [|exact Hs1].
  apply alter_block_Inv; [reflexivity | exact Hs1].
Qed.

Lemma unloadBlocksIfNeeded_Inv (c : Z) (fromTimer : bool) :
  preserves (Inv c) (@unloadBlocksIfNeeded Row fromTimer).
Proof.
  unfold unloadBlocksIfNeeded. destruct fromTimer; simpl.
  - repeat first
      [ apply preserves_modify; intros ? ?; apply unloadLoop_Inv; assumption
      | inv_step ].
  - repeat inv_step.
Qed.

Lemma getRow_Inv (c : Z) (id : RowId) : preserves (Inv c) (@getRow Row codec id).
Proof.
  unfold getRow.
  repeat first [apply loadBlock_Inv | apply unloadBlocksIfNeeded_Inv | inv_step].
Qed.

Lemma finalizeBlocks_Inv (c : Z) : preserves (Inv c) (@finalizeBlocks Row codec).
Proof.
  unfold finalizeBlocks. apply preserves_bind; [apply preserves_gets | intros todo].
  apply preserves_forEachWhile. intros index.
  apply preserves_bind; [apply preserves_gets | intros dead].
  destruct dead; [apply preserves_ret|].
  apply preserves_bind; [apply preserves_gets | intros saved].
  destruct (index >=? saved); [apply preserves_ret|].
  apply preserves_bind_gets. intros ob.
  eapply triple_bind with (Q := fun _ => Inv c);
    [|intros ?; change (preserves (Inv c)
         (modify (set_blocksNotFinalized (fun x => x ∖ {[index]})) ;;
          modify (set_blockSetDefrag (fun x => {[index]} ∪ x)) ;; @ret State _ true));
      repeat inv_step].
  destruct ob as [block|]; [|intros s [Hs _]; exact Hs].
  destruct (b_final block); [intros s [Hs _]; exact Hs|].
  eapply triple_bind with (Q := fun _ s => Inv c s /\ Some block = blockList s !! index).
  { intros s Hs. simpl. exact Hs. }
  intros path.
  eapply triple_bind with (Q := fun _ s => Inv c s /\ b_index block = index) (E := Inv c).
  { intros s [Hs Hb].
    pose proof (coreStable_Inv c _ (loadFile_coreStable JSON_parse_rows
                 (blockRowsFilePath path (b_index block))) s Hs) as H.
    destruct (loadFile _ _ s); [|exact H]. split; [exact H|].
    destruct Hs as (Hc & _). symmetry in Hb. now apply Hc in Hb. }
  intros arr.
  eapply triple_bind with (Q := fun _ s => Inv c s /\ b_index block = index) (E := Inv c).
  { intros s [Hs Hb].
    pose proof (coreStable_Inv c _ (writeFinal_coreStable
      (String.append (blockRowsFilePath path (b_index block)) ".tmp")
      (JSON_stringify_rows (map_to_list (Js.newMap arr)))) s Hs) as H.
    destruct (writeFinal _ _ s); [split|]; assumption. }
  intros ?.
  eapply triple_bind with (Q := fun _ s => Inv c s /\ b_index block = index) (E := Inv c).
  { intros s [Hs Hb].
    pose proof (coreStable_Inv c _ (fsRename_coreStable
      (String.append (blockRowsFilePath path (b_index block)) ".tmp")
      (blockRowsFilePath path (b_index block))) s Hs) as H.
    destruct (fsRename _ _ s); [split|]; assumption. }
  intros ?.
  eapply triple_bind with (Q := fun _ s => Inv c s) (E := Inv c).
  { intros s [Hs Hb]. simpl. apply set_block_Inv; [exact Hs | exact Hb]. }
  intros ?. apply (coreStable_Inv c), fdWrite_coreStable.
Qed.

Lemma collectDefragCandidates_Inv (c : Z) :
  preserves (Inv c) (@collectDefragCandidates Row).
Proof. unfold collectDefragCandidates. repeat inv_step. Qed.

Lemma defragBlock_Inv (c step key : Z) : preserves (Inv c) (@defragBlock Row codec step key).
Proof.
  unfold defragBlock. repeat first [apply loadBlock_Inv | inv_step].
Qed.

Lemma defragment_Inv (c step : Z) : preserves (Inv c) (@defragment Row codec step).
Proof.
  unfold defragment. repeat first [apply defragBlock_Inv | inv_step].
Qed.

Lemma writeBlockRows_Inv (c : Z) (recs : list (Z * RowId * Row)) (buf : list string) :
  preserves (Inv c) (writeBlockRows recs buf).
Proof.
  revert buf. induction recs as [|[[index id] row] recs IH]; intros buf; simpl.
  - apply preserves_ret.
  - repeat first [apply IH | inv_step].
Qed.

Lemma delete_delta_Inv (c step : Z) (s : State) :
  Inv c s -> Inv c (set_deltas (delete step) s).
Proof.
  intros (Hc & Hl & Hb & Hcur). repeat split; try assumption.
  intros step' d rec Hd Hin. simpl in Hd.
  apply lookup_delete_Some in Hd as [_ Hd]. eapply Hb; eauto.
Qed.

Lemma lastBlockRowsIndex_elem (d : Delta Row) :
  lastBlockRowsIndex d <> 0 ->
  exists rec, rec ∈ d_blockRows d /\ rec.1.1 = lastBlockRowsIndex d.
Proof.
  unfold lastBlockRowsIndex. intros Hne.
  destruct (last (d_blockRows d)) as [[[i id] row]|] eqn:Hlast; [|congruence].
  exists (i, id, row). split; [|reflexivity].
  apply last_Some in Hlast as [l' ->]. apply elem_of_app. right. apply list_elem_of_singleton.
  reflexivity.
Qed.

(** The delta [getDelta] returns is the registered one. *)
Lemma getDelta_spec (c step : Z) :
  triple (Inv c) (@getDelta Row step)
    (fun d s => Inv c s /\ deltas s !! step = Some d) (Inv c).
Proof.
  intros s Hs. pose proof (getDelta_Inv c step s Hs) as H.
  unfold getDelta, bind, gets in *. simpl in *.
  destruct (deltas s !! step) as [d|] eqn:Hd; simpl in *; [auto|].
  split; [exact H|]. apply lookup_insert_eq.
Qed.

Lemma saveDelta_Inv (c step : Z) : preserves (Inv c) (@saveDelta Row codec step).
Proof.
  unfold saveDelta.
  eapply triple_bind; [apply getDelta_spec|]. intros delta.
  set (bi := lastBlockRowsIndex delta). intros s [Hs Hd].
  assert (Hbi : bi = 0 \/ bi <= currentBlockIndex s).
  { destruct (Z.eq_dec bi 0) as [|Hne]; [now left | right].
    destruct (lastBlockRowsIndex_elem delta Hne) as (rec & Hin & Heq).
    unfold bi. rewrite <- Heq.
    destruct Hs as (_ & _ & Hb & _). eapply Hb; eauto. }
  revert s Hs Hd Hbi.
  assert (Hkey : forall c', (bi = 0 \/ bi <= c') ->
            forall s, Inv c' s -> Inv c' (set_lastSavedBlockIndex (fun _ => bi) s)
                                  \/ bi = 0).
  { intros c' [H0|Hle] s (Hc & Hl & Hb & Hcur); [now right | left].
    repeat split; try assumption. simpl. lia. }
  intros s Hs _ Hbi.
  set (c' := if Z.eq_dec bi 0 then c else Z.max c bi).
  assert (Hc' : c <= c') by (unfold c'; destruct (Z.eq_dec bi 0); lia).
  assert (Hs' : Inv c' s).
  { destruct Hs as (Hc & Hl & Hb & Hcur). repeat split; try assumption.
    unfold c'. destruct (Z.eq_dec bi 0); lia. }
  assert (Hbi' : bi = 0 \/ bi <= c') by (unfold c'; destruct (Z.eq_dec bi 0); lia).
  clear Hs Hbi. revert s Hs'.
  eapply triple_conseq with (P' := Inv c') (Q' := fun _ => Inv c') (E' := Inv c');
    [| auto | intros ? ?; apply Inv_weaken | intros ?; apply Inv_weaken]; try exact Hc'.
  change (preserves (Inv c')
    (path <- gets tablePath ;;
     collectDefragCandidates ;;
     defragment step ;;
     openFd FdBlockIndex (String.append path "/blockindex.1") ;;
     delta <- getDelta step ;;
     writeJoined FdBlockIndex (map JSON_stringify_indexRec (d_blockIndex delta)) ;;
     openFd FdBlockList (String.append path "/blocklist.1") ;;
     bl <- gets blockList ;;
     writeJoined FdBlockList (blockListJournal bl (d_blockList delta)) ;;
     buf <- writeBlockRows (d_blockRows delta) [] ;;
     writeJoined FdBlockRows buf ;;
     when (negb (bi =? 0)) (modify (set_lastSavedBlockIndex (fun _ => bi))) ;;
     finalizeBlocks ;;
     unloadBlocksIfNeeded false ;;
     dumpMaps ;;
     forEach (d_delFiles delta) (fun fileName =>
       exists_ <- gets (fun s => bool_decide (is_Some (disk s !! fileName))) ;;
       when exists_ (fsUnlink fileName)) ;;
     modify (set_deltas (delete step)))).
  repeat first
    [ apply collectDefragCandidates_Inv | apply defragment_Inv | apply writeBlockRows_Inv
    | apply finalizeBlocks_Inv | apply unloadBlocksIfNeeded_Inv
    | apply preserves_modify; intros ? ?; apply delete_delta_Inv; assumption
    | lazymatch goal with
      | |- preserves _ (when (negb (bi =? 0)) _) =>
          destruct (Z.eqb_spec bi 0) as [Hz|Hnz]; simpl;
          [ apply preserves_ret
          | apply preserves_modify; intros s0 Hs0;
            destruct (Hkey c' Hbi' s0 Hs0); [assumption | contradiction] ]
      end
    | inv_step ].
Qed.

Lemma cancelDelta_Inv (c step : Z) : preserves (Inv c) (@cancelDelta Row step).
Proof. apply preserves_modify. intros s. apply delete_delta_Inv. Qed.

Lemma destroy_Inv (c : Z) : preserves (Inv c) (@destroy Row).
Proof. unfold destroy, closeAllFiles. repeat inv_step. Qed.

Lemma runOp_Inv (c : Z) (o : Op) : preserves (Inv c) (@runOp Row codec o).
Proof.
  destruct o; simpl.
  - apply setRow_Inv.
  - apply deleteRow_Inv.
  - apply preserves_bind; [apply getRow_Inv | intros ?; apply preserves_ret].
  - apply saveDelta_Inv.
  - apply cancelDelta_Inv.
  - apply preserves_bind; [apply preserves_gets | intros ?].
    apply preserves_when, unloadBlocksIfNeeded_Inv.
  - apply destroy_Inv.
Qed.

(** *** Recovery establishes the invariant *)

(** What holds while [load] rebuilds the maps of a new engine. *)
Definition Loading (s : State) : Prop :=
  coherent s /\ deltas s = ∅ /\ lastSavedBlockIndex s = 0 /\ 0 <= currentBlockIndex s.

Lemma Loading_core (s s' : State) : core s' = core s -> Loading s -> Loading s'.
Proof.
  unfold core, Loading, coherent. intros Heq. injection Heq as -> -> -> ->. tauto.
Qed.

Lemma Loading_Inv (s : State) : Loading s -> Inv 0 s.
Proof.
  intros (Hc & Hd & Hl & Hcur). repeat split; try assumption; try lia.
  intros step d rec Hlk. rewrite Hd, lookup_empty in Hlk. discriminate.
Qed.

Lemma coreStable_Loading {A} (m : M State A) : coreStable m -> preserves Loading m.
Proof.
  intros Hm s Hs. specialize (Hm (core s) s eq_refl).
  destruct (m s); eapply Loading_core; eauto.
Qed.

Lemma loadBlockIndex_coreStable (fileNum : Z) (data : list (RowId * Z)) (ai : Z) :
  coreStable (@loadBlockIndex Row fileNum data ai).
Proof.
  unfold loadBlockIndex. destruct (fileNum =? 0).
  - core_stable.
  - revert ai. induction data as [|[id index] data IH]; intros ai x.
    + apply preserves_ret.
    + destruct (index >? 0);
        (apply preserves_bind;
         [apply preserves_modify; intros s ?; destruct s; assumption | intros ?; apply IH]).
Qed.

Lemma loadBlockList_Loading (data : list (BlockRec Row)) :
  preserves Loading (@loadBlockList Row data).
Proof.
  unfold loadBlockList. apply preserves_forEach. intros [index|block].
  - apply preserves_modify. intros s (Hc & Hd & Hl & Hcur). repeat split; try assumption.
    intros k b Hlk. simpl in Hlk. apply lookup_delete_Some in Hlk as [_ Hlk]. eauto.
  - apply preserves_bind; [|intros ?].
    + apply preserves_modify. intros s (Hc & Hd & Hl & Hcur). repeat split; try assumption.
      intros k b Hlk. simpl in Hlk.
      destruct (decide (b_index block = k)) as [<-|Hne].
      * rewrite lookup_insert_eq in Hlk. now injection Hlk as <-.
      * rewrite lookup_insert_ne in Hlk by assumption. eauto.
    + apply preserves_bind_gets. intros cur.
      destruct (Z.gtb_spec (b_index block) cur) as [Hgt|Hle]; simpl.
      * intros s ((Hc & Hd & Hl & Hcur) & ->). simpl.
        repeat split; try assumption. simpl. lia.
      * intros s [Hs _]. exact Hs.
Qed.

Ltac loading_step :=
  first
    [ apply coreStable_Loading;
      first [ apply loadFile_coreStable | apply fsStatSize_coreStable
            | apply loadBlockIndex_coreStable ]
    | apply loadBlockList_Loading
    | apply preserves_modify;
      let s := fresh "s" in let Hs := fresh "Hs" in
      intros s Hs; apply (Loading_core s); [reflexivity | exact Hs]
    | apply preserves_modify;
      let s := fresh "s" in
      intros s (Hc & Hd & Hl & Hcur); repeat split; simpl; try assumption; try lia;
      intros k b Hlk; simpl in Hlk; rewrite lookup_empty in Hlk; discriminate
    | preserves_step ].

(** A step of the first phase of [load], inside a proof about all of it. *)
Ltac loading_phase :=
  eapply triple_bind with (Q := fun _ => Loading) (E := Inv 0);
  [ eapply triple_conseq with (P' := Loading) (Q' := fun _ => Loading) (E' := Loading);
    [ lazymatch goal with
      | |- triple Loading ?m _ _ => change (preserves Loading m)
      end
    | auto | auto | apply Loading_Inv ]
  | intros ? ].

Lemma load_Inv : triple Loading (@load Row codec) (fun _ => Inv 0) (Inv 0).
Proof.
  unfold load, pathExists.
  repeat (loading_phase; [solve [repeat loading_step]|]).
  (* lastSavedBlockIndex = currentBlockIndex *)
  eapply triple_bind with (Q := fun _ => Inv 0) (E := Inv 0).
  { intros s Hs. simpl. apply Loading_Inv in Hs. destruct Hs as (Hc & Hl & Hb & Hcur).
    repeat split; try assumption. simpl. lia. }
  intros ?.
  lazymatch goal with
  | |- triple _ (_ ;; _ ;; _ ;; _ ;; _ ;; _ ;; ret ?ai) _ _ => set (result := ai)
  end.
  change (preserves (Inv 0)
    (cur <- gets currentBlockIndex ;;
     currentBlock <- gets (fun s : State => blockList s !! cur) ;;
     match currentBlock with
     | Some _ =>
         loadBlock cur ;;
         modify (set_newBlocks (fun l => l ++ [cur])) ;;
         modify (set_loadedBlocks (fun _ => []))
     | None => ret tt
     end ;;
     modify (set_blocksNotFinalized (fun _ => ∅)) ;;
     blocks <- gets (fun s : State => (map_to_list (blockList s)).*2) ;;
     forEach blocks (fun block =>
       modify (set_blockSetDefrag (fun x => {[b_index block]} ∪ x)) ;;
       when (negb (b_final block))
         (modify (set_blocksNotFinalized (fun x => {[b_index block]} ∪ x)))) ;;
     ret result)).
  repeat first [apply loadBlock_Inv | inv_step].
Qed.

Lemma constructor_Loading (path : string) (cacheSize compr : Z) (files : gmap string string) :
  Loading (@constructor Row path cacheSize compr files).
Proof.
  repeat split; simpl; try lia.
  intros k b Hlk. simpl in Hlk. rewrite lookup_empty in Hlk. discriminate.
Qed.

(** Every state of an engine satisfies the invariant. *)
Lemma reachable_Inv (s : State) : reachable s -> Inv 0 s.
Proof.
  induction 1 as [path cacheSize compr files | path cacheSize compr files | s o _ IH].
  - apply Loading_Inv, constructor_Loading.
  - pose proof (load_Inv _ (constructor_Loading path cacheSize compr files)) as H.
    destruct (load _); exact H.
  - apply preserves_final; [apply runOp_Inv | exact IH].
Qed.

(** *** Rows stay in memory *)

(** The block registered under [k], if there is one, has its rows in
    memory. *)
Definition RowsLoaded (k : Z) (s : State) : Prop :=
  forall b, blockList s !! k = Some b -> is_Some (b_rows b).

Lemma coreStable_RowsLoaded {A} (k : Z) (m : M State A) :
  coreStable m -> preserves (RowsLoaded k) m.
Proof.
  intros Hm s Hs. specialize (Hm (core s) s eq_refl). unfold RowsLoaded.
  destruct (m s) as [a s'|e s']; unfold core in Hm; injection Hm as -> _ _ _; exact Hs.
Qed.

Lemma insert_RowsLoaded (k key : Z) (b : Block Row) (s : State) :
  is_Some (b_rows b) -> RowsLoaded k s -> RowsLoaded k (set_blockList <[key := b]> s).
Proof.
  intros Hb Hs b' Hlk. simpl in Hlk.
  destruct (decide (key = k)) as [->|Hne].
  - rewrite lookup_insert_eq in Hlk. now injection Hlk as <-.
  - rewrite lookup_insert_ne in Hlk by assumption. now apply Hs.
Qed.

Lemma alter_RowsLoaded (k key : Z) (f : Block Row -> Block Row) (s : State) :
  (forall b, is_Some (b_rows b) -> is_Some (b_rows (f b))) ->
  RowsLoaded k s -> RowsLoaded k (set_blockList (alter f key) s).
Proof.
  intros Hf Hs b' Hlk. simpl in Hlk.
  destruct (decide (key = k)) as [->|Hne].
  - rewrite lookup_alter_eq in Hlk.
    destruct (blockList s !! k) as [b|] eqn:Hbk; simpl in Hlk; [|discriminate].
    injection Hlk as <-. apply Hf, Hs, Hbk.
  - rewrite lookup_alter_ne in Hlk by assumption. now apply Hs.
Qed.

Lemma delete_RowsLoaded (k key : Z) (s : State) :
  RowsLoaded k s -> RowsLoaded k (set_blockList (delete key) s).
Proof.
  intros Hs b' Hlk. simpl in Hlk. apply lookup_delete_Some in Hlk as [_ Hlk]. now apply Hs.
Qed.

Ltac rl_frame :=
  apply preserves_modify;
  let s := fresh "s" in let Hs := fresh "Hs" in intros s Hs; exact Hs.

Ltac rl_step :=
  first
    [ apply coreStable_RowsLoaded;
      first [ apply loadFile_coreStable | apply writeFinal_coreStable
            | apply closeFd_coreStable | apply openFd_coreStable
            | apply fdWrite_coreStable | apply fdSize_coreStable
            | apply fsRename_coreStable | apply fsUnlink_coreStable
            | apply fsStatSize_coreStable | apply writeJoined_coreStable
            | apply dumpMaps_coreStable ]
    | rl_frame
    | apply preserves_modify; intros ? ?; apply delete_RowsLoaded; assumption
    | apply preserves_modify; intros ? ?; apply insert_RowsLoaded;
      [simpl; eauto | assumption]
    | apply preserves_modify; intros ? ?; apply alter_RowsLoaded;
      [intros ? ?; simpl; eauto | assumption]
    | preserves_step ].

Lemma getDelta_RowsLoaded (k step : Z) : preserves (RowsLoaded k) (@getDelta Row step).
Proof. unfold getDelta. repeat rl_step. Qed.

Lemma addToCurrentBlock_RowsLoaded (k : Z) (id : RowId) (row : Row) (rowStr : string)
    (step : Z) :
  preserves (RowsLoaded k) (addToCurrentBlock id row rowStr step).
Proof.
  unfold addToCurrentBlock, createNewBlock, modifyDelta.
  repeat first [apply getDelta_RowsLoaded | rl_step].
Qed.

Lemma deleteRow_RowsLoaded (k : Z) (id : RowId) (step : Z) :
  preserves (RowsLoaded k) (@deleteRow Row id step).
Proof.
  unfold deleteRow, modifyDelta, modifyBlock.
  repeat first [apply getDelta_RowsLoaded | rl_step].
Qed.

Lemma setRow_RowsLoaded (k : Z) (id : RowId) (row : Row) (rowStr : string) (step : Z) :
  preserves (RowsLoaded k) (setRow id row rowStr step).
Proof.
  unfold setRow, modifyDelta.
  repeat first [apply getDelta_RowsLoaded | apply deleteRow_RowsLoaded
               | apply addToCurrentBlock_RowsLoaded | rl_step].
Qed.

Lemma loadBlock_RowsLoaded (k key : Z) : preserves (RowsLoaded k) (@loadBlock Row codec key).
Proof. unfold loadBlock, modifyBlock. repeat rl_step. Qed.

Lemma getRow_RowsLoaded (k : Z) (id : RowId) : preserves (RowsLoaded k) (@getRow Row codec id).
Proof.
  unfold getRow, unloadBlocksIfNeeded. simpl.
  repeat first [apply loadBlock_RowsLoaded | rl_step].
Qed.

Lemma finalizeBlocks_RowsLoaded (k : Z) : preserves (RowsLoaded k) (@finalizeBlocks Row codec).
Proof.
  unfold finalizeBlocks. apply preserves_bind; [apply preserves_gets | intros todo].
  apply preserves_forEachWhile. intros index.
  apply preserves_bind; [apply preserves_gets | intros dead].
  destruct dead; [apply preserves_ret|].
  apply preserves_bind; [apply preserves_gets | intros saved].
  destruct (index >=? saved); [apply preserves_ret|].
  apply preserves_bind_gets. intros ob.
  eapply triple_bind with (Q := fun _ => RowsLoaded k);
    [|intros ?; change (preserves (RowsLoaded k)
         (modify (set_blocksNotFinalized (fun x => x ∖ {[index]})) ;;
          modify (set_blockSetDefrag (fun x => {[index]} ∪ x)) ;; @ret State _ true));
      repeat rl_step].
  destruct ob as [block|]; [|intros s [Hs _]; exact Hs].
  destruct (b_final block); [intros s [Hs _]; exact Hs|].
  assert (Hstable : forall {A} (m : M State A), coreStable m ->
            triple (fun s => RowsLoaded k s /\ Some block = blockList s !! index) m
              (fun _ s => RowsLoaded k s /\ Some block = blockList s !! index)
              (RowsLoaded k)).
  { intros A m Hm s [Hs Hb]. specialize (Hm (core s) s eq_refl).
    unfold RowsLoaded. destruct (m s) as [a s'|e s']; unfold core in Hm;
      injection Hm as -> _ _ _; auto. }
  eapply triple_bind; [apply Hstable; core_stable | intros path].
  eapply triple_bind; [apply Hstable, loadFile_coreStable | intros arr].
  eapply triple_bind; [apply Hstable, writeFinal_coreStable | intros ?].
  eapply triple_bind; [apply Hstable, fsRename_coreStable | intros ?].
  eapply triple_bind with (Q := fun _ => RowsLoaded k).
  { intros s [Hs Hb]. simpl. intros b' Hlk. simpl in Hlk.
    destruct (decide (index = k)) as [->|Hne].
    - rewrite lookup_insert_eq in Hlk. injection Hlk as <-. simpl. apply Hs. now symmetry.
    - rewrite lookup_insert_ne in Hlk by assumption. now apply Hs. }
  intros ?. apply coreStable_RowsLoaded, fdWrite_coreStable.
Qed.

Lemma defragBlock_RowsLoaded (k step key : Z) :
  preserves (RowsLoaded k) (@defragBlock Row codec step key).
Proof.
  unfold defragBlock, modifyDelta.
  repeat first [apply loadBlock_RowsLoaded | apply addToCurrentBlock_RowsLoaded | rl_step].
Qed.

Lemma writeBlockRows_RowsLoaded (k : Z) (recs : list (Z * RowId * Row)) (buf : list string) :
  preserves (RowsLoaded k) (writeBlockRows recs buf).
Proof.
  revert buf. induction recs as [|[[index id] row] recs IH]; intros buf; simpl.
  - apply preserves_ret.
  - repeat first [apply IH | rl_step].
Qed.

Lemma saveDelta_RowsLoaded (k step : Z) : preserves (RowsLoaded k) (@saveDelta Row codec step).
Proof.
  unfold saveDelta, collectDefragCandidates, defragment, unloadBlocksIfNeeded. simpl.
  repeat first
    [ apply getDelta_RowsLoaded | apply defragBlock_RowsLoaded
    | apply writeBlockRows_RowsLoaded | apply finalizeBlocks_RowsLoaded | rl_step ].
Qed.

(** The eviction loop leaves every block whose key is not below
    [lastSavedBlockIndex] as it is. *)
Lemma unloadLoop_blockList (fuel : nat) (s : State) (k : Z) :
  lastSavedBlockIndex s <= k ->
  blockList (unloadLoop fuel s) !! k = blockList s !! k.
Proof.
  revert s. induction fuel as [|fuel IH]; intros s Hk; simpl; [reflexivity|].
  destruct (loadedBlocks s) as [|index rest] eqn:Hlb; [reflexivity|].
  destruct (_ >? _); [|reflexivity]. simpl.
  destruct (Z.geb_spec index (lastSavedBlockIndex s)) as [Hge|Hlt].
  - rewrite IH by exact Hk. reflexivity.
  - destruct (blockList s !! index) eqn:Hbi; rewrite IH by exact Hk; [|reflexivity].
    simpl. apply lookup_alter_ne. lia.
Qed.

Lemma unloadLoop_lastSaved (fuel : nat) (s : State) :
  lastSavedBlockIndex (unloadLoop fuel s) = lastSavedBlockIndex s.
Proof.
  revert s. induction fuel as [|fuel IH]; intros s; simpl; [reflexivity|].
  destruct (loadedBlocks s) as [|index rest]; [reflexivity|].
  destruct (_ >? _); [|reflexivity]. simpl.
  destruct (index >=? lastSavedBlockIndex s); [now rewrite IH|].
  destruct (blockList s !! index); now rewrite IH.
Qed.

(** The eviction pass, from any state. *)
Lemma unloadBlocks_blockList (s : State) (k : Z) :
  lastSavedBlockIndex s <= k ->
  blockList (final (unloadBlocksIfNeeded true s)) !! k = blockList s !! k.
Proof.
  intros Hk. unfold unloadBlocksIfNeeded, bind, modify. simpl.
  now rewrite unloadLoop_blockList.
Qed.

Lemma runOp_RowsLoaded (k : Z) (o : Op) (s : State) :
  lastSavedBlockIndex s <= k ->
  RowsLoaded k s -> RowsLoaded k (final (@runOp Row codec o s)).
Proof.
  intros Hk Hs. destruct o; simpl.
  - apply preserves_final; [apply setRow_RowsLoaded | exact Hs].
  - apply preserves_final; [apply deleteRow_RowsLoaded | exact Hs].
  - apply preserves_final; [|exact Hs].
    apply preserves_bind; [apply getRow_RowsLoaded | intros ?; apply preserves_ret].
  - apply preserves_final; [apply saveDelta_RowsLoaded | exact Hs].
  - exact Hs.
  - unfold bind, gets. destruct (unloadTimer s); simpl; [|exact Hs].
    intros b Hb. rewrite unloadLoop_blockList in Hb by exact Hk. now apply Hs.
  - exact Hs.
Qed.

(** C1.  In every state of the engine the eviction pass leaves each block
    whose index is at least [lastSavedBlockIndex] exactly as it is (its rows
    are not set to null); the current block index is at least
    [lastSavedBlockIndex]; and no operation unloads the rows of the current
    block. *)
Theorem eviction_spares_unsaved_blocks (s : State) :
  reachable s ->
  (forall k b, blockList s !! k = Some b -> lastSavedBlockIndex s <= b_index b ->
     blockList (final (unloadBlocksIfNeeded true s)) !! k = Some b)
  /\ lastSavedBlockIndex s <= currentBlockIndex s
  /\ (forall o, RowsLoaded (currentBlockIndex s) s ->
        RowsLoaded (currentBlockIndex s) (final (runOp o s))).
Proof.
  intros Hr. destruct (reachable_Inv s Hr) as (Hc & Hl & _ & _).
  split; [|split].
  - intros k b Hb Hk. rewrite unloadBlocks_blockList; [exact Hb|].
    apply Hc in Hb. lia.
  - exact Hl.
  - intros o. now apply runOp_RowsLoaded.
Qed.

(** *** Which blocks are defragmented *)

Lemma collectDefragCandidates_candidates (s : State) :
  defragCandidates s = [] ->
  defragCandidates (final (@collectDefragCandidates Row s))
  = filter (fun index => pickedForDefrag s index = true) (elements (blockSetDefrag s)).
Proof.
  intros He. unfold collectDefragCandidates, bind, gets. simpl. rewrite He.
  rewrite bool_decide_eq_true_2 by reflexivity. simpl.
  destruct (decide (size (blockSetDefrag s) = 0%nat)) as [Hz|Hnz].
  - rewrite bool_decide_eq_true_2 by exact Hz. simpl. rewrite He.
    apply size_empty_inv in Hz. apply leibniz_equiv in Hz. rewrite Hz, elements_empty.
    reflexivity.
  - rewrite bool_decide_eq_false_2 by exact Hnz. simpl. rewrite He. reflexivity.
Qed.

(** C2, as the code has it.  When [saveDelta] scans [blockSetDefrag] (its
    list of candidates being empty), a marked index is picked exactly when
    its block is still registered, is finalized, and satisfies
    [delCount > 0] and [addCount - delCount < rowsLength * 0.6], or
    [size < maxBlockSize / 2]. *)
Theorem defrag_picks_final_blocks (s : State) (index : Z) :
  defragCandidates s = [] ->
  index ∈ blockSetDefrag s ->
  (index ∈ defragCandidates (final (collectDefragCandidates s))
   <-> exists block,
         blockList s !! index = Some block /\ b_final block = true
         /\ ((0 < b_delCount block
              /\ 5 * (b_addCount block - b_delCount block) < 3 * b_rowsLength block)
             \/ b_size block < 524288)).
Proof.
  intros He Hin. rewrite collectDefragCandidates_candidates by exact He.
  rewrite list_elem_of_filter, elem_of_elements. unfold pickedForDefrag, defragCondition.
  split.
  - intros [Hp _]. destruct (blockList s !! index) as [block|]; [|discriminate].
    exists block. apply andb_true_iff in Hp as [Hf Hc]. split; [reflexivity|]. split; [exact Hf|].
    apply orb_true_iff in Hc as [Hc|Hc].
    + left. apply andb_true_iff in Hc as [H1 H2].
      apply Z.gtb_lt in H1. apply Z.ltb_lt in H2. split; assumption.
    + right. change (maxBlockSize / 2) with 524288 in Hc. now apply Z.ltb_lt in Hc.
  - intros (block & -> & Hf & Hc). split; [|exact Hin].
    rewrite Hf. simpl. apply orb_true_iff. destruct Hc as [[H1 H2]|H3].
    + left. apply andb_true_iff. split; [now apply Z.gtb_lt | now apply Z.ltb_lt].
    + right. change (maxBlockSize / 2) with 524288. now apply Z.ltb_lt.
Qed.

(** *** Where [setRow] puts a row *)

(** [s1] has the blocks of [s], up to their deletion counters. *)
Definition sameBlocks (s s1 : State) : Prop :=
  currentBlockIndex s1 = currentBlockIndex s
  /\ forall k,
       match blockList s !! k, blockList s1 !! k with
       | Some b, Some b1 =>
           b_index b1 = b_index b /\ b_size b1 = b_size b /\ b_rows b1 = b_rows b
       | None, None => True
       | _, _ => False
       end.

Lemma sameBlocks_refl (s : State) : sameBlocks s s.
Proof. split; [reflexivity|]. intros k. destruct (blockList s !! k); auto. Qed.

Lemma sameBlocks_core (s s1 s2 : State) :
  blockList s2 = blockList s1 -> currentBlockIndex s2 = currentBlockIndex s1 ->
  sameBlocks s s1 -> sameBlocks s s2.
Proof. intros Hb Hc [H1 H2]. split; [congruence|]. now rewrite Hb. Qed.

Lemma sameBlocks_dom (s s1 : State) :
  sameBlocks s s1 -> dom (blockList s1) = dom (blockList s).
Proof.
  intros [_ H]. apply set_eq. intros k. rewrite !elem_of_dom. specialize (H k).
  destruct (blockList s !! k), (blockList s1 !! k); try contradiction;
    split; intros [? ?]; try discriminate; eauto.
Qed.

(** [getDelta] and [deleteRow] return, and keep the blocks. *)
Lemma getDelta_sameBlocks (step : Z) (s : State) :
  exists d s1, @getDelta Row step s = Ok d s1 /\ sameBlocks s s1
               /\ blockIndex s1 = blockIndex s /\ is_Some (deltas s1 !! step).
Proof.
  unfold getDelta, bind, gets. simpl.
  destruct (deltas s !! step) as [d|] eqn:Hd; simpl.
  - exists d, s. rewrite Hd. repeat split; eauto using sameBlocks_refl.
    apply sameBlocks_refl.
  - eexists _, _. split; [reflexivity|]. repeat split; simpl.
    + intros k. destruct (blockList s !! k); auto.
    + rewrite lookup_insert_eq. eauto.
Qed.

Lemma deleteRow_sameBlocks (id : RowId) (step : Z) (s : State) :
  exists s1, @deleteRow Row id step s = Ok tt s1 /\ sameBlocks s s1.
Proof.
  unfold deleteRow, bind, gets. simpl.
  destruct (blockIndex s !! id) as [bi|]; simpl;
    [|eexists; split; [reflexivity | apply sameBlocks_refl]].
  destruct (getDelta_sameBlocks step s) as (d & s1 & -> & Hs1 & _ & _). simpl.
  destruct (blockList s1 !! bi) as [block|] eqn:Hbi; simpl.
  - eexists. split; [reflexivity|]. destruct Hs1 as [Hc Hb]. split; [exact Hc|].
    intros k. simpl. specialize (Hb k).
    destruct (decide (bi = k)) as [->|Hne].
    + rewrite lookup_alter_eq, Hbi. rewrite Hbi in Hb. simpl.
      destruct (blockList s !! k); [exact Hb | contradiction].
    + rewrite lookup_alter_ne by assumption. exact Hb.
  - eexists. split; [reflexivity|]. eapply sameBlocks_core; [| |exact Hs1]; reflexivity.
Qed.

(** [addToCurrentBlock] when the current block is absent or over the
    ceiling: a block is created under the next index and receives the row. *)
Lemma addToCurrentBlock_new (id : RowId) (row : Row) (rowStr : string) (step : Z) (s : State) :
  (blockList s !! currentBlockIndex s = None
   \/ exists b, blockList s !! currentBlockIndex s = Some b /\ maxBlockSize < b_size b) ->
  exists s' b',
    addToCurrentBlock id row rowStr step s = Ok (currentBlockIndex s + 1) s'
    /\ currentBlockIndex s' = currentBlockIndex s + 1
    /\ blockList s' = <[currentBlockIndex s + 1 := b']> (blockList s)
    /\ b_index b' = currentBlockIndex s + 1 /\ b_rows b' = Some {[id := row]}.
Proof.
  intros Hcur. unfold addToCurrentBlock.
  destruct (getDelta_sameBlocks step s) as (d & s1 & Hg & [Hc1 Hb1] & _ & _).
  assert (Hbl : blockList s1 = blockList s).
  { clear -Hg. unfold getDelta, bind, gets in Hg. simpl in Hg.
    destruct (deltas s !! step); simpl in Hg; injection Hg as _ <-; reflexivity. }
  cbv beta iota delta [bind]. rewrite Hg. cbv beta iota delta [gets]. rewrite Hc1, Hbl.
  destruct Hcur as [Hnone|(b & Hsome & Hbig)].
  - rewrite Hnone. unfold createNewBlock, modifyDelta.
    cbv beta iota delta [bind modify gets ret]. simpl.
    rewrite ?Hc1, ?Hbl. eexists _, _. split; [reflexivity|]. simpl. rewrite ?Hc1, ?Hbl.
    rewrite insert_insert_eq. repeat split.
  - rewrite Hsome. cbv beta iota delta [ret].
    apply Z.gtb_lt in Hbig. rewrite Hbig.
    unfold createNewBlock, modifyDelta.
    cbv beta iota delta [bind modify gets ret]. simpl.
    rewrite ?Hc1, ?Hbl. eexists _, _. split; [reflexivity|]. simpl. rewrite ?Hc1, ?Hbl.
    rewrite insert_insert_eq. repeat split.
Qed.

(** [addToCurrentBlock] when the current block is loaded and not over the
    ceiling: the row goes into it. *)
Lemma addToCurrentBlock_append (id : RowId) (row : Row) (rowStr : string) (step : Z)
    (s : State) (b : Block Row) (rows : gmap RowId Row) :
  blockList s !! currentBlockIndex s = Some b -> b_size b <= maxBlockSize ->
  b_rows b = Some rows ->
  exists s' b',
    addToCurrentBlock id row rowStr step s = Ok (b_index b) s'
    /\ currentBlockIndex s' = currentBlockIndex s
    /\ blockList s' = <[currentBlockIndex s := b']> (blockList s)
    /\ b_index b' = b_index b /\ b_rows b' = Some (<[id := row]> rows).
Proof.
  intros Hsome Hsmall Hrows. unfold addToCurrentBlock.
  destruct (getDelta_sameBlocks step s) as (d & s1 & Hg & [Hc1 Hb1] & _ & _).
  assert (Hbl : blockList s1 = blockList s).
  { clear -Hg. unfold getDelta, bind, gets in Hg. simpl in Hg.
    destruct (deltas s !! step); simpl in Hg; injection Hg as _ <-; reflexivity. }
  assert (Hle : (b_size b >? maxBlockSize) = false) by (rewrite Z.gtb_ltb; apply Z.ltb_ge; lia).
  cbv beta iota delta [bind]. rewrite Hg. cbv beta iota delta [gets]. rewrite Hc1, Hbl, Hsome.
  cbv beta iota delta [ret]. rewrite Hle, Hrows. unfold modifyDelta.
  cbv beta iota delta [bind modify gets ret]. simpl.
  eexists _, _. split; [reflexivity|]. simpl. rewrite ?Hc1, ?Hbl. repeat split.
Qed.

Lemma setRow_prefix (id : RowId) (step : Z) (s : State) :
  exists s1,
    sameBlocks s s1
    /\ forall B (k : M State B),
         (getDelta step ;; has <- gets (hasRow id) ;; when has (@deleteRow Row id step) ;; k) s
         = k s1.
Proof.
  destruct (getDelta_sameBlocks step s) as (d & s0 & Hg & Hs0 & _ & _).
  destruct (hasRow id s0) eqn:Hhas.
  - destruct (deleteRow_sameBlocks id step s0) as (s1 & Hdel & Hs1).
    exists s1. split.
    + destruct Hs0 as [Hc0 Hb0], Hs1 as [Hc1 Hb1].
      split; [congruence|]. intros k. specialize (Hb0 k). specialize (Hb1 k).
      destruct (blockList s !! k), (blockList s0 !! k), (blockList s1 !! k);
        try contradiction; try exact I.
      destruct Hb0 as (?&?&?), Hb1 as (?&?&?). repeat split; congruence.
    + intros B k. cbv beta iota delta [bind]. rewrite Hg.
      cbv beta iota delta [gets]. rewrite Hhas. simpl. rewrite Hdel. reflexivity.
  - exists s0. split; [exact Hs0|].
    intros B k. cbv beta iota delta [bind]. rewrite Hg.
    cbv beta iota delta [gets]. rewrite Hhas. reflexivity.
Qed.

(** C3, as the code has it.  A [setRow] creates a block, with index
    [currentBlockIndex + 1], which becomes current and receives the row,
    when the current block is over the ceiling and also when there is no
    current block; when the current block is loaded and not over the
    ceiling the row is added to it and no block is created. *)
Theorem setRow_rolls_over (id : RowId) (row : Row) (rowStr : string) (step : Z) (s : State) :
  ((blockList s !! currentBlockIndex s = None
    \/ exists b, blockList s !! currentBlockIndex s = Some b /\ maxBlockSize < b_size b) ->
   exists s' b',
     setRow id row rowStr step s = Ok tt s'
     /\ currentBlockIndex s' = currentBlockIndex s + 1
     /\ blockIndex s' !! id = Some (currentBlockIndex s + 1)
     /\ dom (blockList s') = {[currentBlockIndex s + 1]} ∪ dom (blockList s)
     /\ blockList s' !! (currentBlockIndex s + 1) = Some b'
     /\ b_index b' = currentBlockIndex s + 1 /\ b_rows b' = Some {[id := row]})
  /\ (forall b rows,
        blockList s !! currentBlockIndex s = Some b -> b_size b <= maxBlockSize ->
        b_rows b = Some rows ->
        exists s' b',
          setRow id row rowStr step s = Ok tt s'
          /\ currentBlockIndex s' = currentBlockIndex s
          /\ blockIndex s' !! id = Some (b_index b)
          /\ dom (blockList s') = dom (blockList s)
          /\ blockList s' !! currentBlockIndex s = Some b'
          /\ b_index b' = b_index b /\ b_rows b' = Some (<[id := row]> rows)).
Proof.
  destruct (setRow_prefix id step s) as (s1 & Hs1 & Hpre).
  pose proof (sameBlocks_dom _ _ Hs1) as Hdom. destruct Hs1 as [Hc1 Hb1].
  assert (Hrun : forall index s2,
            addToCurrentBlock id row rowStr step s1 = Ok index s2 ->
            exists s', setRow id row rowStr step s = Ok tt s'
                       /\ currentBlockIndex s' = currentBlockIndex s2
                       /\ blockIndex s' !! id = Some index
                       /\ blockList s' = blockList s2).
  { intros index s2 Hadd. unfold setRow. rewrite Hpre.
    unfold bind at 1. rewrite Hadd.
    eexists. split; [reflexivity|]. simpl. rewrite lookup_insert_eq. auto. }
  split.
  - intros Hcur.
    destruct (addToCurrentBlock_new id row rowStr step s1) as (s2 & b' & Hadd & Hc2 & Hbl2 & Hi & Hr).
    { rewrite Hc1. specialize (Hb1 (currentBlockIndex s)).
      destruct Hcur as [Hnone|(b & Hsome & Hbig)].
      - rewrite Hnone in Hb1. left.
        destruct (blockList s1 !! currentBlockIndex s); [contradiction | reflexivity].
      - rewrite Hsome in Hb1. right.
        destruct (blockList s1 !! currentBlockIndex s) as [b1|]; [|contradiction].
        exists b1. split; [reflexivity|]. destruct Hb1 as (_ & -> & _). exact Hbig. }
    rewrite Hc1 in *.
    destruct (Hrun _ _ Hadd) as (s' & Hset & Hc' & Hbi' & Hbl').
    exists s', b'. split; [exact Hset|]. rewrite Hbl', Hbl2, dom_insert_L, Hdom, lookup_insert_eq.
    repeat split; congruence.
  - intros b rows Hsome Hsmall Hrows.
    specialize (Hb1 (currentBlockIndex s)). rewrite Hsome in Hb1.
    destruct (blockList s1 !! currentBlockIndex s) as [b1|] eqn:Hb1s; [|contradiction].
    destruct Hb1 as (Hi1 & Hsz1 & Hr1).
    destruct (addToCurrentBlock_append id row rowStr step s1 b1 rows)
      as (s2 & b' & Hadd & Hc2 & Hbl2 & Hi & Hr); try congruence.
    rewrite Hc1 in *.
    destruct (Hrun _ _ Hadd) as (s' & Hset & Hc' & Hbi' & Hbl').
    exists s', b'. split; [exact Hset|]. rewrite Hbl', Hbl2, dom_insert_L, Hdom, lookup_insert_eq.
    repeat split; try congruence.
    apply elem_of_dom_2 in Hsome. apply subseteq_union_1_L, singleton_subseteq_l, Hsome.
Qed.

(** *** Reading a framed file *)

(** [loadFile] on an existing, non-empty file: the text of [loadFile_text]
    is what gets parsed. *)
Lemma loadFile_parses {A} (parse : string -> option A) (p : string) (s : State)
    (flag : ascii) (body text : string) :
  disk s !! p = Some (String flag body) ->
  loadFile_text (allowCorrupted s) flag body = Some text ->
  loadFile parse p s
  = match parse text with
    | Some result => Ok result s
    | None => Throw "load failed" s
    end.
Proof.
  intros Hd Ht. unfold loadFile. cbv beta iota delta [bind gets]. rewrite Hd.
  cbv beta iota. rewrite Ht. destruct (parse text); reflexivity.
Qed.

(** C4.  For a file with flag '0': a trailing comma is replaced by ']';
    otherwise, in corruption-tolerant mode, the content is cut at the last
    comma (when there is one) and ']' is appended, and without that mode
    ']' is appended to all of it.  Flag '1' is taken as it is and flag '2'
    is inflated.  In each case the first byte is blanked and the resulting
    text is what [loadFile] parses. *)
Theorem loadFile_text_by_flag (corrupted : bool) (body : string) :
  (forall pre, body = String.append pre "," ->
     loadFile_text corrupted "0" body
     = Some (String " " (String.append pre "]")))
  /\ (forall pre post,
        body = String.append pre (String "," post) ->
        Js.lastIndexOf "," post = None -> post <> EmptyString ->
        loadFile_text true "0" body = Some (String " " (String.append pre "]")))
  /\ (Js.lastIndexOf "," body = None ->
      loadFile_text true "0" body = Some (String " " (String.append body "]")))
  /\ (Js.lastChar body <> Some ","%char ->
      loadFile_text false "0" body = Some (String " " (String.append body "]")))
  /\ loadFile_text corrupted "1" body = Some (String " " body)
  /\ loadFile_text corrupted "2" body = inflate body
  /\ (forall A (parse : string -> option A) (p : string) (s : State) flag text,
        disk s !! p = Some (String flag body) ->
        loadFile_text (allowCorrupted s) flag body = Some text ->
        returned (loadFile parse p s) = parse text).
Proof.
  assert (Hlast : forall b, b <> EmptyString ->
            Js.lastChar (String " " b) = Js.lastChar b)
    by (intros b Hb; now apply JsFacts.lastChar_cons).
  repeat split.
  - intros pre ->. unfold loadFile_text. cbn [Ascii.eqb Bool.eqb].
    rewrite <- JsFacts.append_cons, JsFacts.lastChar_snoc.
    rewrite bool_decide_eq_true_2 by reflexivity.
    now rewrite JsFacts.setLastChar_snoc.
  - intros pre post -> Hpost Hne. unfold loadFile_text. cbn [Ascii.eqb Bool.eqb].
    rewrite bool_decide_eq_false_2.
    + rewrite <- JsFacts.append_cons, JsFacts.lastIndexOf_app by exact Hpost.
      rewrite JsFacts.substring_prefix. reflexivity.
    + rewrite Hlast by (destruct pre; discriminate).
      rewrite JsFacts.lastChar_app by discriminate.
      rewrite JsFacts.lastChar_cons by exact Hne.
      now apply JsFacts.lastIndexOf_none_lastChar.
  - intros Hnone. unfold loadFile_text. cbn [Ascii.eqb Bool.eqb].
    assert (Hbuf : Js.lastIndexOf "," (String " " body) = None)
      by (cbn [Js.lastIndexOf]; rewrite Hnone; reflexivity).
    rewrite bool_decide_eq_false_2 by now apply JsFacts.lastIndexOf_none_lastChar.
    rewrite Hbuf. reflexivity.
  - intros Hne. unfold loadFile_text. cbn [Ascii.eqb Bool.eqb].
    rewrite bool_decide_eq_false_2; [reflexivity|].
    destruct body as [|e body]; [cbn; congruence|]. now rewrite Hlast.
  - intros A parse p s flag text Hd Ht.
    rewrite (loadFile_parses parse p s flag body text Hd Ht).
    destruct (parse text); reflexivity.
Qed.

(** *** What [load] recovers *)

(** The array [load] gets for the file [p]: empty when the file does not
    exist, otherwise what [loadFile] returns ([None] when it throws). *)
Definition fileData {A} (parse : string -> option (list A)) (p : string) (s : State)
  : option (list A) :=
  match disk s !! p with
  | None => Some []
  | Some _ => returned (loadFile parse p s)
  end.

(** [a] is the least non-negative integer above every numeric id in [ids]. *)
Definition isSeed (ids : RowId -> Prop) (a : Z) : Prop :=
  0 <= a /\ (forall n, ids (IdNum n) -> n < a) /\ (a = 0 \/ ids (IdNum (a - 1))).

(** The numeric ids in [ids] are at most [Number.MAX_SAFE_INTEGER]: adding
    1 to one of them is exact. *)
Definition safeIds (ids : RowId -> Prop) : Prop :=
  forall n, ids (IdNum n) -> n <= Js.maxSafeInteger.

(** [a] is the seed of [ids], when these are safe. *)
Definition seedWhenSafe (ids : RowId -> Prop) (a : Z) : Prop :=
  safeIds ids -> isSeed ids a.

(** [c] is the greatest index of the blocks in [blocks], and 0 when there
    is none above 0. *)
Definition isMaxIndex (blocks : Block Row -> Prop) (c : Z) : Prop :=
  0 <= c /\ (forall b, blocks b -> b_index b <= c)
  /\ (c = 0 \/ exists b, blocks b /\ b_index b = c).

Lemma isSeed_ext (P Q : RowId -> Prop) (a : Z) :
  (forall i, P i <-> Q i) -> isSeed P a -> isSeed Q a.
Proof.
  intros H (H0 & H1 & H2). repeat split; [exact H0 | |].
  - intros n Hn. apply H1, H, Hn.
  - destruct H2 as [|H2]; [now left | right; apply H, H2].
Qed.

Lemma seedWhenSafe_ext (P Q : RowId -> Prop) (a : Z) :
  (forall i, P i <-> Q i) -> seedWhenSafe P a -> seedWhenSafe Q a.
Proof.
  intros H Ha Hsafe. apply (isSeed_ext P Q a H), Ha.
  intros n Hn. apply Hsafe, H, Hn.
Qed.

Lemma isMaxIndex_ext (P Q : Block Row -> Prop) (c : Z) :
  (forall b, P b <-> Q b) -> isMaxIndex P c -> isMaxIndex Q c.
Proof.
  intros H (H0 & H1 & H2). repeat split; [exact H0 | |].
  - intros b Hb. apply H1, H, Hb.
  - destruct H2 as [|(b & Hb & Hi)]; [now left | right]. exists b. split; [apply H, Hb | exact Hi].
Qed.

Lemma bumpAutoIncrement_seed (P : RowId -> Prop) (id : RowId) (a : Z) :
  seedWhenSafe P a -> seedWhenSafe (fun i => P i \/ i = id) (bumpAutoIncrement id a).
Proof.
  intros Ha Hsafe.
  assert (HsafeP : safeIds P) by (intros n Hn; apply Hsafe; now left).
  destruct (Ha HsafeP) as (H0 & H1 & H2). clear Ha HsafeP.
  unfold bumpAutoIncrement. destruct id as [n|str].
  - destruct (Z.geb_spec n a) as [Hge|Hlt].
    + assert (Hn : n <= Js.maxSafeInteger) by (apply Hsafe; now right).
      rewrite JsFacts.numSucc_exact by (unfold Js.maxSafeInteger in *; lia).
      repeat split; [lia | |].
      * intros m [Hm|Hm]; [apply H1 in Hm; lia | injection Hm as ->; lia].
      * right. right. f_equal. lia.
    + repeat split; [exact H0 | |].
      * intros m [Hm|Hm]; [now apply H1 | injection Hm as ->; lia].
      * destruct H2 as [|H2]; [now left | right; now left].
  - repeat split; [exact H0 | |].
    + intros m [Hm|Hm]; [now apply H1 | discriminate].
    + destruct H2 as [|H2]; [now left | right; now left].
Qed.

Lemma fold_bump_seed (P : RowId -> Prop) (ids : list RowId) (a : Z) :
  seedWhenSafe P a ->
  seedWhenSafe (fun i => P i \/ i ∈ ids)
    (fold_left (fun ai id => bumpAutoIncrement id ai) ids a).
Proof.
  revert P a. induction ids as [|id ids IH]; intros P a Ha; simpl.
  - eapply seedWhenSafe_ext; [|exact Ha]. intros i. rewrite elem_of_nil. tauto.
  - eapply seedWhenSafe_ext; [|apply IH, bumpAutoIncrement_seed, Ha].
    intros i. cbn beta. rewrite elem_of_cons. tauto.
Qed.

(** What is fixed while [load] runs. *)
Definition Files (tp : string) (files : gmap string string) (ac : bool) (s : State) : Prop :=
  tablePath s = tp /\ disk s = files /\ allowCorrupted s = ac.

Lemma loadFile_state {A} (parse : string -> option A) (p : string) (s : State) :
  final (loadFile parse p s) = s.
Proof.
  unfold loadFile, bind, gets. simpl.
  destruct (disk s !! p) as [[|flag body]|]; try reflexivity. simpl.
  destruct (loadFile_text _ _ _); [|reflexivity]. destruct (parse _); reflexivity.
Qed.

Lemma fileData_Files {A} (parse : string -> option (list A)) (p tp : string)
    (files : gmap string string) (ac : bool) (s s' : State) :
  Files tp files ac s -> Files tp files ac s' -> fileData parse p s' = fileData parse p s.
Proof.
  intros (_ & Hd & Ha) (_ & Hd' & Ha'). unfold fileData, loadFile, bind, gets.
  rewrite Hd, Hd'. destruct (files !! p) as [[|flag body]|]; try reflexivity.
  cbv beta iota. rewrite Ha, Ha'.
  destruct (loadFile_text _ _ _); [|reflexivity]. destruct (parse _); reflexivity.
Qed.

Ltac files_frame :=
  apply preserves_modify;
  let s := fresh "s" in let Hs := fresh "Hs" in intros s Hs; exact Hs.

Lemma loadFile_Files {A} (parse : string -> option A) (p tp : string)
    (files : gmap string string) (ac : bool) :
  preserves (Files tp files ac) (loadFile parse p).
Proof.
  intros s Hs. pose proof (loadFile_state parse p s) as H.
  destruct (loadFile parse p s); simpl in H; now subst.
Qed.

Lemma loadBlockIndex_Files (fileNum : Z) (data : list (RowId * Z)) (a : Z) (tp : string)
    (files : gmap string string) (ac : bool) :
  preserves (Files tp files ac) (@loadBlockIndex Row fileNum data a).
Proof.
  unfold loadBlockIndex. destruct (fileNum =? 0).
  - repeat first [files_frame | preserves_step].
  - revert a. induction data as [|[id index] data IH]; intros a.
    + apply preserves_ret.
    + destruct (index >? 0); (apply preserves_bind; [files_frame | intros ?; apply IH]).
Qed.

Lemma loadBlockList_Files (data : list (BlockRec Row)) (tp : string)
    (files : gmap string string) (ac : bool) :
  preserves (Files tp files ac) (@loadBlockList Row data).
Proof. unfold loadBlockList. repeat first [files_frame | preserves_step]. Qed.

Lemma loadBlock_Files (key : Z) (tp : string) (files : gmap string string) (ac : bool) :
  preserves (Files tp files ac) (@loadBlock Row codec key).
Proof.
  unfold loadBlock, modifyBlock.
  repeat first [apply loadFile_Files | files_frame | preserves_step].
Qed.

(** The dump: [new Map(data)], then a scan of its keys. *)
Lemma loadBlockIndex_dump (data : list (RowId * Z)) (s s' : State) (a : Z) :
  @loadBlockIndex Row 0 data 0 s = Ok a s' -> seedWhenSafe (fun id => id ∈ data.*1) a.
Proof.
  unfold loadBlockIndex, bind, modify, gets, ret, getAllIds. simpl. intros H.
  injection H as <- _.
  eapply seedWhenSafe_ext; [|apply (fold_bump_seed (fun _ => False))].
  - intros id. simpl. rewrite JsFacts.newMap_keys. tauto.
  - intros _. repeat split; [lia | contradiction | now left].
Qed.

(** The journal: every record with a positive index counts. *)
Lemma loadBlockIndex_journal (P : RowId -> Prop) (data : list (RowId * Z))
    (s s' : State) (a a' : Z) :
  seedWhenSafe P a -> @loadBlockIndex Row 1 data a s = Ok a' s' ->
  seedWhenSafe (fun id => P id \/ exists index, (id, index) ∈ data /\ 0 < index) a'.
Proof.
  unfold loadBlockIndex. simpl. revert P s a.
  induction data as [|[id index] data IH]; intros P s a Ha H.
  - injection H as <- _. eapply seedWhenSafe_ext; [|exact Ha].
    intros i. split; [tauto|]. intros [?|(index & Hin & _)]; [assumption|].
    apply elem_of_nil in Hin. contradiction.
  - destruct (Z.gtb_spec index 0) as [Hpos|Hneg].
    + apply bind_Ok in H as (? & s1 & _ & H).
      eapply seedWhenSafe_ext; [|eapply IH; [apply bumpAutoIncrement_seed, Ha | exact H]].
      intros i. cbn beta. split.
      * intros [[Hp| ->]|(ix & Hin & Hix)]; [now left | |].
        -- right. exists index. split; [apply list_elem_of_here | lia].
        -- right. exists ix. split; [now apply list_elem_of_further | exact Hix].
      * intros [Hp|(ix & Hin & Hix)]; [now left; left|].
        apply elem_of_cons in Hin as [Heq|Hin].
        -- injection Heq as -> ->. left. now right.
        -- right. eauto.
    + apply bind_Ok in H as (? & s1 & _ & H).
      eapply seedWhenSafe_ext; [|eapply IH; [exact Ha | exact H]].
      intros i. cbn beta. split.
      * intros [Hp|(ix & Hin & Hix)]; [now left|].
        right. exists ix. split; [now apply list_elem_of_further | exact Hix].
      * intros [Hp|(ix & Hin & Hix)]; [now left|].
        apply elem_of_cons in Hin as [Heq|Hin].
        -- injection Heq as -> ->. lia.
        -- right. eauto.
Qed.

(** The block list files: the current block index follows the greatest
    index of the records that are not deletion marks. *)
Lemma loadBlockList_max (P : Block Row -> Prop) (data : list (BlockRec Row)) (s s' : State) :
  isMaxIndex P (currentBlockIndex s) ->
  @loadBlockList Row data s = Ok tt s' ->
  isMaxIndex (fun b => P b \/ RecBlock b ∈ data) (currentBlockIndex s')
  /\ lastSavedBlockIndex s' = lastSavedBlockIndex s.
Proof.
  unfold loadBlockList. revert P s.
  induction data as [|rec data IH]; intros P s Hmax H.
  - injection H as <-. split; [|reflexivity]. eapply isMaxIndex_ext; [|exact Hmax].
    intros b. rewrite elem_of_nil. tauto.
  - simpl in H. apply bind_Ok in H as ([] & s1 & H1 & H).
    assert (Hstep : isMaxIndex (fun b => P b \/ RecBlock b = rec) (currentBlockIndex s1)
                    /\ lastSavedBlockIndex s1 = lastSavedBlockIndex s).
    { destruct rec as [index|block].
      - injection H1 as <-. split; [|reflexivity]. eapply isMaxIndex_ext; [|exact Hmax].
        intros b. split; [tauto|]. intros [?|?]; [assumption | discriminate].
      - unfold bind, modify, gets, when in H1. simpl in H1.
        destruct Hmax as (H0 & Hle & Hex).
        destruct (Z.gtb_spec (b_index block) (currentBlockIndex s)) as [Hgt|Hngt];
          simpl in H1; injection H1 as <-; simpl; (split; [|reflexivity]).
        + repeat split; [lia | |].
          * intros b [Hb|Hb]; [apply Hle in Hb; lia | injection Hb as ->; lia].
          * right. exists block. auto.
        + repeat split; [exact H0 | |].
          * intros b [Hb|Hb]; [now apply Hle | injection Hb as ->; lia].
          * destruct Hex as [|(b & Hb & Hi)]; [now left | right; eauto]. }
    destruct Hstep as [Hstep Hl1].
    destruct (IH _ _ Hstep H) as [Hfin Hl]. split; [|congruence].
    eapply isMaxIndex_ext; [|exact Hfin].
    intros b. cbn beta. rewrite elem_of_cons. split.
    + intros [[?|?]|?]; auto.
    + intros [?|[?|?]]; auto.
Qed.

(** Reading the file [p], if it exists, and handing its array to [k]. *)
Lemma read_if_exists {A B} (parse : string -> option (list A)) (p : string)
    (k : list A -> M State B) (dflt : B) (s s' : State) (b : B) :
  (if bool_decide (is_Some (disk s !! p))
   then data <- loadFile parse p ;; k data else ret dflt) s = Ok b s' ->
  exists data,
    fileData parse p s = Some data
    /\ ((data = [] /\ b = dflt /\ s' = s) \/ k data s = Ok b s').
Proof.
  unfold fileData. destruct (disk s !! p) as [c|] eqn:Hd.
  - rewrite bool_decide_eq_true_2 by eauto. intros H.
    apply bind_Ok in H as (data & s1 & Hl & H).
    pose proof (loadFile_state parse p s) as Hst. rewrite Hl in Hst. simpl in Hst. subst s1.
    exists data. rewrite Hl. auto.
  - rewrite bool_decide_eq_false_2 by (intros [? ?]; discriminate).
    intros H. injection H as <- <-. exists []. auto.
Qed.

Lemma gets_Ok {A} (f : State -> A) (s s' : State) (a : A) :
  gets f s = Ok a s' -> a = f s /\ s' = s.
Proof. intros H. injection H as <- <-. auto. Qed.

Lemma modify_Ok (f : State -> State) (s s' : State) (u : unit) :
  modify f s = Ok u s' -> s' = f s.
Proof. intros H. now injection H as <-. Qed.

(** Take the first step off [H : (x <- m ;; k) s = Ok b s']. *)
Tactic Notation "peel" hyp(H) "as" ident(a) ident(s1) ident(Hm) :=
  apply bind_Ok in H as (a & s1 & Hm & H).

Tactic Notation "peel_gets" hyp(H) :=
  let a := fresh "a" in let s1 := fresh "s" in let Hm := fresh "Hm" in
  apply bind_Ok in H as (a & s1 & Hm & H);
  apply gets_Ok in Hm as [-> ->].

Tactic Notation "peel_modify" hyp(H) "as" ident(s1) ident(Hs) :=
  let a := fresh "a" in
  apply bind_Ok in H as (a & s1 & Hs & H);
  apply modify_Ok in Hs.

Lemma fsStatSize_Files (p tp : string) (files : gmap string string) (ac : bool) :
  preserves (Files tp files ac) (@fsStatSize Row p).
Proof. unfold fsStatSize. repeat first [files_frame | preserves_step]. Qed.

(** C5, as the code has it.  When [load] returns, [lastSavedBlockIndex]
    equals [currentBlockIndex], and [currentBlockIndex] is the greatest
    index among the block records (deletion marks apart) of [blocklist.0]
    and [blocklist.1], or 0; and when the numeric ids among the keys of the
    [blockindex.0] dump and the records with a positive index of the
    [blockindex.1] journal are integers below [2^53], the result of [load]
    is the least non-negative integer above every one of them.  (From
    [2^53] on, adding 1 to an id is not exact.) *)
Theorem load_recovers (s s' : State) (autoIncrement : Z) :
  load s = Ok autoIncrement s' ->
  exists dump journal blocks0 blocks1,
    fileData JSON_parse_index (String.append (tablePath s) "/blockindex.0") s = Some dump
    /\ fileData JSON_parse_index (String.append (tablePath s) "/blockindex.1") s
       = Some journal
    /\ fileData JSON_parse_blocks (String.append (tablePath s) "/blocklist.0") s
       = Some blocks0
    /\ fileData JSON_parse_blocks (String.append (tablePath s) "/blocklist.1") s
       = Some blocks1
    /\ (safeIds (fun id => id ∈ dump.*1
                      \/ exists index, (id, index) ∈ journal /\ 0 < index) ->
        isSeed (fun id => id ∈ dump.*1 \/ exists index, (id, index) ∈ journal /\ 0 < index)
          autoIncrement)
    /\ lastSavedBlockIndex s' = currentBlockIndex s'
    /\ isMaxIndex (fun b => RecBlock b ∈ blocks0 \/ RecBlock b ∈ blocks1)
         (currentBlockIndex s').
Proof.
  intros H. unfold load, pathExists in H.
  set (F := Files (tablePath s) (disk s) (allowCorrupted s)).
  assert (HF : F s) by (repeat split).
  assert (Hfd : forall A (parse : string -> option (list A)) p s1,
            F s1 -> fileData parse p s1 = fileData parse p s)
    by (intros A parse p s1 H1; eapply fileData_Files; [exact HF | exact H1]).
  peel_gets H. peel_modify H as s0 Hs0.
  assert (HF0 : F s0) by (rewrite Hs0; exact HF).
  (* blockindex.0 *)
  peel_gets H. peel H as a0 s1 Hm. apply read_if_exists in Hm as (dump & Hdump & Hm).
  rewrite Hfd in Hdump by exact HF0.
  assert (Hseed0 : seedWhenSafe (fun id => id ∈ dump.*1) a0 /\ F s1).
  { destruct Hm as [(-> & -> & ->)|Hm].
    - split; [|exact HF0]. intros _. repeat split; [lia | | now left].
      intros n Hn. apply elem_of_nil in Hn. contradiction.
    - split; [eapply loadBlockIndex_dump; exact Hm|].
      eapply preserves_Ok; [apply loadBlockIndex_Files | | exact Hm]. exact HF0. }
  clear Hm. destruct Hseed0 as [Hseed0 HF1].
  (* blockindex.1 *)
  peel_gets H. peel H as a1 s2 Hm. apply read_if_exists in Hm as (journal & Hjournal & Hm).
  rewrite Hfd in Hjournal by exact HF1.
  assert (Hseed1 : seedWhenSafe (fun id => id ∈ dump.*1
                             \/ exists index, (id, index) ∈ journal /\ 0 < index) a1
                   /\ F s2).
  { destruct Hm as [(-> & -> & ->)|Hm].
    - split; [|exact HF1]. eapply seedWhenSafe_ext; [|exact Hseed0].
      intros i. split; [tauto|]. intros [?|(ix & Hin & _)]; [assumption|].
      apply elem_of_nil in Hin. contradiction.
    - split; [eapply loadBlockIndex_journal; [exact Hseed0 | exact Hm]|].
      eapply preserves_Ok; [apply loadBlockIndex_Files | | exact Hm]. exact HF1. }
  clear Hm. destruct Hseed1 as [Hseed1 HF2].
  (* size of blockindex.0 *)
  peel_gets H. peel H as u3 s3 Hm.
  assert (HF3 : F s3).
  { eapply preserves_Ok; [| exact HF2 | exact Hm]. apply preserves_when.
    apply preserves_bind; [apply fsStatSize_Files | intros ?; files_frame]. }
  clear Hm.
  (* currentBlockIndex = 0; blockList.clear() *)
  peel_modify H as s4 Hs4. peel_modify H as s5 Hs5.
  assert (HF5 : F s5) by (rewrite Hs5, Hs4; exact HF3).
  assert (Hmax5 : isMaxIndex (fun _ => False) (currentBlockIndex s5))
    by (rewrite Hs5, Hs4; repeat split; [simpl; lia | contradiction | now left]).
  (* blocklist.0 *)
  peel_gets H. peel H as u6 s6 Hm. unfold when in Hm.
  apply read_if_exists in Hm as (blocks0 & Hb0 & Hm).
  rewrite Hfd in Hb0 by exact HF5.
  assert (Hmax6 : isMaxIndex (fun b => RecBlock b ∈ blocks0) (currentBlockIndex s6) /\ F s6).
  { destruct Hm as [(-> & _ & ->)|Hm].
    - split; [|exact HF5]. eapply isMaxIndex_ext; [|exact Hmax5].
      intros b. rewrite elem_of_nil. tauto.
    - destruct u6. split.
      + eapply isMaxIndex_ext; [|eapply loadBlockList_max; [exact Hmax5 | exact Hm]].
        intros b. cbn beta. tauto.
      + eapply preserves_Ok; [apply loadBlockList_Files | exact HF5 | exact Hm]. }
  clear Hm. destruct Hmax6 as [Hmax6 HF6].
  (* blocklist.1 *)
  peel_gets H. peel H as u7 s7 Hm. unfold when in Hm.
  apply read_if_exists in Hm as (blocks1 & Hb1 & Hm).
  rewrite Hfd in Hb1 by exact HF6.
  assert (Hmax7 : isMaxIndex (fun b => RecBlock b ∈ blocks0 \/ RecBlock b ∈ blocks1)
                    (currentBlockIndex s7) /\ F s7).
  { destruct Hm as [(-> & _ & ->)|Hm].
    - split; [|exact HF6]. eapply isMaxIndex_ext; [|exact Hmax6].
      intros b. rewrite elem_of_nil. tauto.
    - destruct u7. split.
      + eapply loadBlockList_max; [exact Hmax6 | exact Hm].
      + eapply preserves_Ok; [apply loadBlockList_Files | exact HF6 | exact Hm]. }
  clear Hm. destruct Hmax7 as [Hmax7 HF7].
  exists dump, journal, blocks0, blocks1. repeat (split; [assumption|]).
  (* size of blocklist.0 *)
  peel_gets H. peel H as u8 s8 Hm.
  assert (Hc8 : currentBlockIndex s8 = currentBlockIndex s7).
  { eapply (preserves_Ok (fun st => currentBlockIndex st = currentBlockIndex s7));
      [| reflexivity | exact Hm].
    unfold fsStatSize.
    repeat first
      [ apply preserves_modify; let st := fresh "st" in intros st Hst; exact Hst
      | preserves_step ]. }
  clear Hm.
  (* lastSavedBlockIndex = currentBlockIndex *)
  peel_modify H as s9 Hs9.
  set (I := fun st : State => currentBlockIndex st = currentBlockIndex s7
                              /\ lastSavedBlockIndex st = currentBlockIndex s7).
  assert (HI9 : I s9) by (rewrite Hs9; split; simpl; congruence).
  peel_gets H. peel_gets H. peel H as u10 s10 Hm.
  assert (HI10 : I s10).
  { eapply preserves_Ok; [| exact HI9 | exact Hm].
    unfold loadBlock, modifyBlock.
    repeat first
      [ apply preserves_modify; let st := fresh "st" in intros st Hst; exact Hst
      | apply (preserves_final_eq I); apply loadFile_state
      | preserves_step ]. }
  clear Hm.
  peel_modify H as s11 Hs11. peel_gets H. peel H as u12 s12 Hm.
  assert (HI12 : I s12).
  { eapply preserves_Ok; [| | exact Hm]; [|rewrite Hs11; exact HI10].
    repeat first
      [ apply preserves_modify; let st := fresh "st" in intros st Hst; exact Hst
      | preserves_step ]. }
  injection H as <- <-. destruct HI12 as [Hc Hl].
  split; [exact Hseed1|]. split; [congruence|]. rewrite Hc. exact Hmax7.
Qed.

(** *** When the summary maps are dumped *)

(** The content [writeFinal] gives a file. *)
Definition finalContent (compr : Z) (data : string) : string :=
  if compr =? 0 then String "1" data else String "2" (deflate compr data).

(** The state after one map was dumped: the [.2] file written and renamed
    to [.0], the descriptor closed, the [.1] journal unlinked. *)
Definition diskAfterDump (p0 p1 p2 content : string) (d : gmap string string)
  : gmap string string :=
  delete p1 (<[p0 := content]> (delete p2 (<[p2 := content]> d))).

Lemma diskAfterDump_lookup (p0 p1 p2 content q : string) (d : gmap string string) :
  p0 <> p1 ->
  diskAfterDump p0 p1 p2 content d !! q
  = if decide (q = p1) then None
    else if decide (q = p0) then Some content
    else if decide (q = p2) then None
    else d !! q.
Proof.
  intros H01. unfold diskAfterDump.
  destruct (decide (q = p1)) as [->|Hq1]; [apply lookup_delete_eq|].
  rewrite lookup_delete_ne by congruence.
  destruct (decide (q = p0)) as [->|Hq0]; [apply lookup_insert_eq|].
  rewrite lookup_insert_ne by congruence.
  destruct (decide (q = p2)) as [->|Hq2]; [apply lookup_delete_eq|].
  rewrite lookup_delete_ne, lookup_insert_ne by congruence. reflexivity.
Qed.

Definition dumpsWhen (size1 size0 : Z) : Prop :=
  (minFileDumpSize < size1 /\ size0 < size1) \/ maxFileDumpSize < size1.

Lemma dumpCondition_spec (size1 size0 : Z) :
  dumpCondition size1 size0 = true <-> dumpsWhen size1 size0.
Proof.
  unfold dumpCondition, dumpsWhen.
  rewrite orb_true_iff, andb_true_iff, !Z.gtb_ltb, !Z.ltb_lt. reflexivity.
Qed.

(** One half of [dumpMaps], for the journal open on [p1]. *)
Lemma dump_one (name : FdName) (p0 p1 p2 journal : string) (getData : State -> string)
    (size0 : State -> Z) (setSize0 : (Z -> Z) -> State -> State) (s : State) :
  p0 <> p1 -> p2 <> p1 ->
  getFd name s = Some p1 -> disk s !! p1 = Some journal ->
  (forall f st, disk (setSize0 f st) = disk st) ->
  exists s1,
    (forall B (k : M State B),
       (size1 <- fdSize name ;;
        sz0 <- gets size0 ;;
        when (dumpCondition size1 sz0) (
          data <- gets getData ;;
          writeFinal p2 data ;;
          fsRename p2 p0 ;;
          closeFd name ;;
          fsUnlink p1 ;;
          sz <- fsStatSize p0 ;;
          modify (setSize0 (fun _ => sz))) ;;
        k) s = k s1)
    /\ (size1 <- fdSize name ;;
        sz0 <- gets size0 ;;
        when (dumpCondition size1 sz0) (
          data <- gets getData ;;
          writeFinal p2 data ;;
          fsRename p2 p0 ;;
          closeFd name ;;
          fsUnlink p1 ;;
          sz <- fsStatSize p0 ;;
          modify (setSize0 (fun _ => sz)))) s = Ok tt s1
    /\ (if dumpCondition (Z.of_nat (String.length journal)) (size0 s)
        then s1 = setSize0 (fun _ => Z.of_nat (String.length
                                                 (finalContent (compressed s) (getData s))))
                    (set_disk (fun d => diskAfterDump p0 p1 p2
                                          (finalContent (compressed s) (getData s)) d)
                       (set_fd (setFd name None) s))
        else s1 = s).
Proof.
  intros H01 H21 Hfd Hj Hsz.
  destruct (dumpCondition (Z.of_nat (String.length journal)) (size0 s)) eqn:Hc.
  - eexists. split; [|split; [|reflexivity]]; [intros B k|];
      unfold fdSize, writeFinal, fsRename, closeFd, fsUnlink, fsStatSize;
      cbv beta iota delta [bind gets]; rewrite Hfd; cbv beta iota; rewrite Hj;
      cbv beta iota delta [ret]; rewrite Hc; cbv beta iota delta [when bind gets];
      unfold finalContent;
      (destruct (compressed s =? 0) eqn:Hcomp;
       cbv beta iota delta [modify]; simpl;
       rewrite lookup_insert_eq; simpl;
       rewrite lookup_insert_ne, lookup_delete_ne, lookup_insert_ne, Hj by congruence;
       simpl; rewrite lookup_delete_ne, lookup_insert_eq by congruence; simpl;
       do 2 f_equal; destruct s; reflexivity).
  - exists s. split; [|split; [|reflexivity]]; [intros B k|];
      unfold fdSize; cbv beta iota delta [bind gets]; rewrite Hfd; cbv beta iota; rewrite Hj;
      cbv beta iota delta [ret]; rewrite Hc; reflexivity.
Qed.

Lemma paths_differ (tp a b : string) : a <> b -> String.append tp a <> String.append tp b.
Proof. intros Hne Heq. apply Hne. eapply JsFacts.append_inj_l, Heq. Qed.

(** C6.  With both journals open, [dumpMaps] returns, and for each of
    [blockindex] and [blocklist]: when the size of the [.1] journal exceeds
    [minFileDumpSize] and the recorded size of the [.0] file, or exceeds
    [maxFileDumpSize], the [.0] file is rewritten from the map, the [.1]
    journal is unlinked and the new size of [.0] is recorded; otherwise
    both files and the recorded size are unchanged. *)
Theorem dumpMaps_trigger (s : State) (journalI journalL : string) :
  let tp := tablePath s in
  let index0 := String.append tp "/blockindex.0" in
  let index1 := String.append tp "/blockindex.1" in
  let list0 := String.append tp "/blocklist.0" in
  let list1 := String.append tp "/blocklist.1" in
  let dumpI := finalContent (compressed s) (JSON_stringify_index (map_to_list (blockIndex s))) in
  let dumpL := finalContent (compressed s)
                 (JSON_stringify_blocks (map_to_list (blockList s)).*2) in
  fd_blockIndex (fd s) = Some index1 -> fd_blockList (fd s) = Some list1 ->
  disk s !! index1 = Some journalI -> disk s !! list1 = Some journalL ->
  exists s',
    dumpMaps s = Ok tt s'
    /\ (dumpsWhen (Z.of_nat (String.length journalI)) (blockindex0Size s) ->
        disk s' !! index0 = Some dumpI /\ disk s' !! index1 = None
        /\ blockindex0Size s' = Z.of_nat (String.length dumpI))
    /\ (~ dumpsWhen (Z.of_nat (String.length journalI)) (blockindex0Size s) ->
        disk s' !! index0 = disk s !! index0 /\ disk s' !! index1 = Some journalI
        /\ blockindex0Size s' = blockindex0Size s)
    /\ (dumpsWhen (Z.of_nat (String.length journalL)) (blocklist0Size s) ->
        disk s' !! list0 = Some dumpL /\ disk s' !! list1 = None
        /\ blocklist0Size s' = Z.of_nat (String.length dumpL))
    /\ (~ dumpsWhen (Z.of_nat (String.length journalL)) (blocklist0Size s) ->
        disk s' !! list0 = disk s !! list0 /\ disk s' !! list1 = Some journalL
        /\ blocklist0Size s' = blocklist0Size s).
Proof.
  intros tp index0 index1 list0 list1 dumpI dumpL HfdI HfdL HjI HjL.
  set (index2 := String.append tp "/blockindex.2").
  set (list2 := String.append tp "/blocklist.2").
  assert (Hne : forall a b, a <> b -> String.append tp a <> String.append tp b)
    by (intros a b; apply paths_differ).
  destruct (dump_one FdBlockIndex index0 index1 index2 journalI
              (fun st => JSON_stringify_index (map_to_list (blockIndex st)))
              blockindex0Size set_blockindex0Size s)
    as (s1 & Hrun1 & _ & Hs1); try (apply Hne; discriminate); try assumption; [reflexivity|].
  assert (Hkeep : tablePath s1 = tp /\ compressed s1 = compressed s
                  /\ blockList s1 = blockList s /\ blocklist0Size s1 = blocklist0Size s
                  /\ fd_blockList (fd s1) = Some list1 /\ disk s1 !! list1 = Some journalL
                  /\ disk s1 !! list0 = disk s !! list0).
  { destruct (dumpCondition _ _) in Hs1; subst s1; simpl; [|tauto].
    rewrite !diskAfterDump_lookup by (apply Hne; discriminate).
    repeat (rewrite decide_False by (apply Hne; discriminate)). tauto. }
  destruct Hkeep as (Htp1 & Hcomp1 & Hbl1 & Hsz1 & Hfd1 & Hj1 & Hl01).
  destruct (dump_one FdBlockList list0 list1 list2 journalL
              (fun st => JSON_stringify_blocks (map_to_list (blockList st)).*2)
              blocklist0Size set_blocklist0Size s1)
    as (s2 & _ & Hrun2 & Hs2); try (apply Hne; discriminate); try assumption; [reflexivity|].
  exists s2. split.
  { unfold dumpMaps. rewrite bind_gets. cbv beta zeta.
    fold tp. fold index0 index1 index2 list0 list1 list2.
    rewrite Hrun1. rewrite <- Hrun2. reflexivity. }
  assert (HcI := dumpCondition_spec (Z.of_nat (String.length journalI)) (blockindex0Size s)).
  assert (HcL := dumpCondition_spec (Z.of_nat (String.length journalL)) (blocklist0Size s)).
  rewrite Hsz1 in Hs2.
  assert (Hpaths : forall q, q = index0 \/ q = index1 ->
            disk s2 !! q = disk s1 !! q /\ blockindex0Size s2 = blockindex0Size s1).
  { intros q Hq. destruct (dumpCondition _ _) in Hs2; subst s2; simpl; [|tauto].
    rewrite diskAfterDump_lookup by (apply Hne; discriminate).
    destruct Hq as [-> | ->]; repeat (rewrite decide_False by (apply Hne; discriminate)); tauto. }
  destruct (Hpaths index0 (or_introl eq_refl)) as [Hi0 Hsz].
  destruct (Hpaths index1 (or_intror eq_refl)) as [Hi1 _].
  rewrite Hi0, Hi1, Hsz. clear Hpaths Hi0 Hi1 Hsz.
  split; [|split; [|split]].
  - intros Hd. apply HcI in Hd. rewrite Hd in Hs1. subst s1. simpl.
    rewrite !diskAfterDump_lookup by (apply Hne; discriminate).
    rewrite decide_False by (apply Hne; discriminate).
    rewrite !decide_True by reflexivity. auto.
  - intros Hd. destruct (dumpCondition _ _) in Hs1, HcI; [exfalso; tauto|]. subst s1. auto.
  - intros Hd. apply HcL in Hd. rewrite Hd in Hs2. subst s2. simpl.
    rewrite !diskAfterDump_lookup by (apply Hne; discriminate).
    rewrite decide_False by (apply Hne; discriminate).
    rewrite !decide_True by reflexivity. unfold dumpL. rewrite Hcomp1, Hbl1. auto.
  - intros Hd. destruct (dumpCondition _ _) in Hs2, HcL; [exfalso; tauto|]. subst s2. auto.
Qed.

End Invariants.

(** *** A small instance, for concrete runs *)

(** Rows kept as text; the decoder knows the few texts used below. *)
Definition demoCodec : Codec string :=
  {| JSON_stringify_id := fun id => match id with
                                    | IdNum n => Js.toString n
                                    | IdStr s => s
                                    end;
     JSON_stringify_row := fun row => row;
     JSON_stringify_indexRec := fun _ => "[]"%string;
     JSON_stringify_rowRec := fun rec => rec.2;
     JSON_stringify_block := fun _ => "{}"%string;
     JSON_stringify_deleted := fun _ => "{}"%string;
     JSON_stringify_rows := fun _ => "[]"%string;
     JSON_stringify_index := fun _ => "[]"%string;
     JSON_stringify_blocks := fun _ => "[]"%string;
     JSON_parse_rows := fun text =>
       if String.eqb text " []" then Some [] else None;
     JSON_parse_index := fun text =>
       if String.eqb text " [[-5,1]]" then Some [(IdNum (-5), 1)]
       else if String.eqb text " [[7,1]]" then Some [(IdNum 7, 1)]
       else if String.eqb text " []" then Some []
       else None;
     JSON_parse_blocks := fun text =>
       if String.eqb text " []" then Some [] else None;
     inflate := fun packed => Some packed;
     deflate := fun _ data => data |}.

#[local] Existing Instance demoCodec.

(** A new engine on an empty directory. *)
Definition demoNew : @State string := constructor "t" 0 0 ∅.

(** The same engine after a row was set and then deleted. *)
Definition demoDeleted : @State string :=
  final (@deleteRow string (IdNum 1) 1
           (final (@setRow string demoCodec (IdNum 1) "{}" "{}" 1 demoNew))).

Lemma eviction_spares_unsaved_blocks_witness :
  (forall k b, blockList demoDeleted !! k = Some b ->
     lastSavedBlockIndex demoDeleted <= b_index b ->
     blockList (final (unloadBlocksIfNeeded true demoDeleted)) !! k = Some b)
  /\ lastSavedBlockIndex demoDeleted <= currentBlockIndex demoDeleted
  /\ (forall o, RowsLoaded (currentBlockIndex demoDeleted) demoDeleted ->
        RowsLoaded (currentBlockIndex demoDeleted)
          (final (@runOp string demoCodec o demoDeleted))).
Proof.
  apply (@eviction_spares_unsaved_blocks string demoCodec).
  apply (@reach_step string demoCodec _ (OpDeleteRow (IdNum 1) 1)).
  apply (@reach_step string demoCodec _ (OpSetRow (IdNum 1) "{}" "{}" 1)).
  apply reach_new.
Defined.

(** C2 as stated fails: after a set and a delete, block 1 is marked for
    defragmentation and is small ([size < maxBlockSize / 2]), but it is not
    finalized and [saveDelta] does not pick it. *)
Lemma defrag_skips_unfinalized_block :
  ~ (forall (s : @State string) (index : Z) (block : Block string),
       defragCandidates s = [] -> index ∈ blockSetDefrag s ->
       blockList s !! index = Some block ->
       (index ∈ defragCandidates (final (collectDefragCandidates s))
        <-> ((0 < b_delCount block
              /\ 5 * (b_addCount block - b_delCount block) < 3 * b_rowsLength block)
             \/ b_size block < maxBlockSize / 2))).
Proof.
  intros H.
  assert (Hb : blockList demoDeleted !! 1
               = Some (mkBlock 1 1 1 3 (Some {[IdNum 1 := "{}"%string]}) 1 false))
    by (vm_compute; reflexivity).
  specialize (H demoDeleted 1 _ eq_refl ltac:(vm_compute; set_solver) Hb).
  destruct H as [_ H].
  assert (Hin : 1 ∈ defragCandidates (final (collectDefragCandidates demoDeleted))).
  { apply H. right. reflexivity. }
  vm_compute in Hin. inversion Hin.
Qed.

Lemma defrag_picks_final_blocks_witness :
  1 ∈ defragCandidates (final (collectDefragCandidates demoDeleted))
  <-> exists block,
        blockList demoDeleted !! 1 = Some block /\ b_final block = true
        /\ ((0 < b_delCount block
             /\ 5 * (b_addCount block - b_delCount block) < 3 * b_rowsLength block)
            \/ b_size block < 524288).
Proof.
  apply (@defrag_picks_final_blocks string demoDeleted 1).
  - reflexivity.
  - vm_compute. set_solver.
Defined.

(** C3 as stated fails: a new engine has no current block, so no current
    block is over the ceiling, and yet the first [setRow] creates block 1. *)
Lemma first_setRow_creates_block :
  ~ (forall (s : @State string) (id : RowId) (row rowStr : string) (step : Z),
       (forall b, blockList s !! currentBlockIndex s = Some b -> b_size b <= maxBlockSize) ->
       dom (blockList (final (@setRow string demoCodec id row rowStr step s)))
       = dom (blockList s)).
Proof.
  intros H. specialize (H demoNew (IdNum 1) "{}"%string "{}"%string 1).
  assert (Hin : 1 ∈ dom (blockList (final (@setRow string demoCodec (IdNum 1) "{}" "{}" 1 demoNew)))).
  { apply elem_of_dom. vm_compute. eauto. }
  rewrite H in Hin.
  - apply elem_of_dom in Hin. destruct Hin as [b Hb]. vm_compute in Hb. discriminate.
  - intros b Hb. vm_compute in Hb. discriminate.
Qed.

Lemma setRow_rolls_over_witness :
  exists s' b',
    @setRow string demoCodec (IdNum 1) "{}" "{}" 1 demoNew = Ok tt s'
    /\ currentBlockIndex s' = currentBlockIndex demoNew + 1
    /\ blockIndex s' !! IdNum 1 = Some (currentBlockIndex demoNew + 1)
    /\ dom (blockList s') = {[currentBlockIndex demoNew + 1]} ∪ dom (blockList demoNew)
    /\ blockList s' !! (currentBlockIndex demoNew + 1) = Some b'
    /\ b_index b' = currentBlockIndex demoNew + 1
    /\ b_rows b' = Some {[IdNum 1 := "{}"%string]}.
Proof.
  apply (proj1 (@setRow_rolls_over string demoCodec (IdNum 1) "{}" "{}" 1 demoNew)).
  left. reflexivity.
Defined.

(** A directory whose index journal holds the single record [[-5,1]]. *)
Definition demoNegative : @State string :=
  constructor "t" 0 0 {[ "t/blockindex.1"%string := "0[[-5,1],"%string ]}.

(** A directory whose index journal holds the single record [[7,1]]. *)
Definition demoSeven : @State string :=
  constructor "t" 0 0 {[ "t/blockindex.1"%string := "0[[7,1],"%string ]}.

(** C5 as stated fails: with -5 the only id on disk, [load] returns 0 and
    not -5 + 1. *)
Lemma load_negative_id :
  ~ (forall (s s' : @State string) (autoIncrement : Z) dump journal m,
       @load string demoCodec s = Ok autoIncrement s' ->
       @fileData string demoCodec _ JSON_parse_index
         (String.append (tablePath s) "/blockindex.0") s = Some dump ->
       @fileData string demoCodec _ JSON_parse_index
         (String.append (tablePath s) "/blockindex.1") s = Some journal ->
       IdNum m ∈ dump.*1 ++ journal.*1 ->
       (forall n, IdNum n ∈ dump.*1 ++ journal.*1 -> n <= m) ->
       autoIncrement = m + 1).
Proof.
  intros H.
  specialize (H demoNegative (final (@load string demoCodec demoNegative)) 0
                [] [(IdNum (-5), 1)] (-5)).
  assert (Hbad : 0 = -5 + 1); [|discriminate].
  apply H.
  - vm_compute. reflexivity.
  - vm_compute. reflexivity.
  - vm_compute. reflexivity.
  - simpl. apply list_elem_of_here.
  - intros n Hn. simpl in Hn. apply list_elem_of_singleton in Hn. injection Hn as ->. lia.
Qed.

(** From [2^53] on the result is not above the id: with the id [2^53] in
    the journal, the closure of [load] leaves [autoIncrement] at [2^53]. *)
Lemma loadBlockIndex_at_two53 :
  returned (@loadBlockIndex string 1 [(IdNum (Js.maxSafeInteger + 1), 1)] 0 demoNew)
  = Some (Js.maxSafeInteger + 1).
Proof. vm_compute. reflexivity. Qed.

Lemma load_recovers_witness :
  exists dump journal blocks0 blocks1,
    @fileData string demoCodec _ JSON_parse_index
      (String.append (tablePath demoSeven) "/blockindex.0") demoSeven = Some dump
    /\ @fileData string demoCodec _ JSON_parse_index
         (String.append (tablePath demoSeven) "/blockindex.1") demoSeven = Some journal
    /\ @fileData string demoCodec _ JSON_parse_blocks
         (String.append (tablePath demoSeven) "/blocklist.0") demoSeven = Some blocks0
    /\ @fileData string demoCodec _ JSON_parse_blocks
         (String.append (tablePath demoSeven) "/blocklist.1") demoSeven = Some blocks1
    /\ isSeed (fun id => id ∈ dump.*1 \/ exists index, (id, index) ∈ journal /\ 0 < index) 8
    /\ lastSavedBlockIndex (final (@load string demoCodec demoSeven))
       = currentBlockIndex (final (@load string demoCodec demoSeven))
    /\ isMaxIndex (fun b => RecBlock b ∈ blocks0 \/ RecBlock b ∈ blocks1)
         (currentBlockIndex (final (@load string demoCodec demoSeven))).
Proof.
  destruct (@load_recovers string demoCodec demoSeven
              (final (@load string demoCodec demoSeven)) 8)
    as (dump & journal & blocks0 & blocks1 & Hd & Hj & Hb0 & Hb1 & Hseed & Hl & Hmax).
  { vm_compute. reflexivity. }
  exists dump, journal, blocks0, blocks1.
  split; [exact Hd|]. split; [exact Hj|]. split; [exact Hb0|]. split; [exact Hb1|].
  split; [|split; [exact Hl | exact Hmax]].
  apply Hseed. vm_compute in Hd, Hj. injection Hd as <-. injection Hj as <-.
  intros n [Hn|(index & Hin & _)].
  - apply elem_of_nil in Hn. contradiction.
  - apply list_elem_of_singleton in Hin. injection Hin as -> _.
    unfold Js.maxSafeInteger. lia.
Defined.

(** An engine with both journals open, as [saveDelta] has it when it calls
    [dumpMaps]. *)
Definition demoOpen : @State string :=
  final (@openFd string FdBlockList "t/blocklist.1"
           (final (@openFd string FdBlockIndex "t/blockindex.1" demoNew))).

Lemma dumpMaps_trigger_witness :
  exists s',
    @dumpMaps string demoCodec demoOpen = Ok tt s'
    /\ (dumpsWhen 2 (blockindex0Size demoOpen) ->
        disk s' !! "t/blockindex.0"%string = Some "1[]"%string
        /\ disk s' !! "t/blockindex.1"%string = None
        /\ blockindex0Size s' = 3)
    /\ (~ dumpsWhen 2 (blockindex0Size demoOpen) ->
        disk s' !! "t/blockindex.0"%string = disk demoOpen !! "t/blockindex.0"%string
        /\ disk s' !! "t/blockindex.1"%string = Some "0["%string
        /\ blockindex0Size s' = blockindex0Size demoOpen)
    /\ (dumpsWhen 2 (blocklist0Size demoOpen) ->
        disk s' !! "t/blocklist.0"%string = Some "1[]"%string
        /\ disk s' !! "t/blocklist.1"%string = None
        /\ blocklist0Size s' = 3)
    /\ (~ dumpsWhen 2 (blocklist0Size demoOpen) ->
        disk s' !! "t/blocklist.0"%string = disk demoOpen !! "t/blocklist.0"%string
        /\ disk s' !! "t/blocklist.1"%string = Some "0["%string
        /\ blocklist0Size s' = blocklist0Size demoOpen).
Proof.
  apply (@dumpMaps_trigger string demoCodec demoOpen "0[" "0["); reflexivity.
Defined.

(** *** Block file names *)

Lemma blockRowsFilePath_small (tp : string) (i : Z) :
  0 <= i < 1000000 ->
  blockRowsFilePath tp i
  = String.append tp (String.append "/" (String.append (Js.fixedDigits 6 i) ".jem")).
Proof.
  intros Hi. unfold blockRowsFilePath.
  destruct (Z.ltb_spec i 1000000) as [_|Hge]; [|lia].
  rewrite JsFacts.padStart_toString; [reflexivity | lia |].
  change (10 ^ Z.of_nat 6) with 1000000. exact Hi.
Qed.

Lemma blockRowsFilePath_large (tp : string) (i : Z) :
  1000000 <= i < 1000000000000 ->
  blockRowsFilePath tp i
  = String.append tp (String.append "/" (String.append (Js.fixedDigits 12 i) ".jem")).
Proof.
  intros Hi. unfold blockRowsFilePath.
  destruct (Z.ltb_spec i 1000000) as [Hlt|_]; [lia|].
  rewrite JsFacts.padStart_toString; [reflexivity | lia |].
  change (10 ^ Z.of_nat 12) with 1000000000000. lia.
Qed.

Lemma fixed_names_order (tp : string) (w : nat) (i j : Z) :
  0 <= i -> i < j -> j < 10 ^ Z.of_nat w ->
  Js.strLt
    (String.append tp (String.append "/" (String.append (Js.fixedDigits w i) ".jem")))
    (String.append tp (String.append "/" (String.append (Js.fixedDigits w j) ".jem"))).
Proof.
  intros H0 Hij Hj. unfold Js.strLt.
  rewrite !JsFacts.compare_app_prefix.
  rewrite JsFacts.compare_app_same_length by now rewrite !JsFacts.length_fixedDigits.
  now rewrite JsFacts.fixedDigits_lt.
Qed.

(** C9, as the code has it.  The name of a block file is the table path,
    "/", the index in decimal padded with zeros to 6 digits below one
    million and to 12 digits from one million up to 10^12, and ".jem"; and
    among indexes below one million, and among indexes from one million up
    to 10^12, the file name of the smaller index comes first. *)
Theorem blockRowsFilePath_order (tp : string) (i j : Z) :
  (0 <= i < 1000000 ->
   blockRowsFilePath tp i
   = String.append tp (String.append "/" (String.append (Js.fixedDigits 6 i) ".jem")))
  /\ (1000000 <= i < 1000000000000 ->
      blockRowsFilePath tp i
      = String.append tp (String.append "/" (String.append (Js.fixedDigits 12 i) ".jem")))
  /\ (0 <= i -> i < j -> j < 1000000 \/ (1000000 <= i /\ j < 1000000000000) ->
      Js.strLt (blockRowsFilePath tp i) (blockRowsFilePath tp j)).
Proof.
  split; [apply blockRowsFilePath_small|]. split; [apply blockRowsFilePath_large|].
  intros H0 Hij [Hsmall|[Hi Hj]].
  - rewrite !blockRowsFilePath_small by lia.
    apply fixed_names_order; [lia | lia |]. change (10 ^ Z.of_nat 6) with 1000000. lia.
  - rewrite !blockRowsFilePath_large by lia.
    apply fixed_names_order; [lia | lia |].
    change (10 ^ Z.of_nat 12) with 1000000000000. lia.
Qed.

(** C9 as stated fails across one million: "999999.jem" comes after
    "000001000000.jem". *)
Lemma blockRowsFilePath_unordered :
  ~ (forall (tp : string) (i j : Z),
       0 <= i -> i < j -> Js.strLt (blockRowsFilePath tp i) (blockRowsFilePath tp j)).
Proof.
  intros H. specialize (H "t"%string 999999 1000000 ltac:(lia) ltac:(lia)).
  vm_compute in H. discriminate.
Qed.

Lemma blockRowsFilePath_order_witness :
  Js.strLt (blockRowsFilePath "t" 9) (blockRowsFilePath "t" 10).
Proof.
  apply (proj2 (proj2 (blockRowsFilePath_order "t" 9 10))); [lia | lia | left; lia].
Defined.

End TableRowsFileFacts.

(** ** Properties of the sharded table coordinator *)

Module ShardedTableFacts.
Import Exec ExecFacts ShardedTable.

Section Facts.
Context {Table Data : Type} {basicTable : BasicTable Table Data}.
Abbreviation State := (@State Table).

(** *** Closable shards *)

Lemma elem_of_orderedAdd (x y : string) (l : list string) :
  y ∈ orderedAdd x l <-> y = x \/ y ∈ l.
Proof.
  unfold orderedAdd. destruct (decide (x ∈ l)) as [Hin|Hnin].
  - rewrite (bool_decide_eq_true_2 _ Hin). split; [auto|].
    intros [Heq|?]; [now subst | assumption].
  - rewrite (bool_decide_eq_false_2 _ Hnin).
    rewrite elem_of_app, list_elem_of_singleton. tauto.
Qed.

Lemma elem_of_orderedDelete (x y : string) (l : list string) :
  y ∈ orderedDelete x l <-> y <> x /\ y ∈ l.
Proof. unfold orderedDelete. apply (list_elem_of_filter (fun z => z <> x)). Qed.

(** [_checkCachedShardLock] touches the gate only. *)
Lemma checkCachedShardLock_final (s : State) :
  exists q, final (_checkCachedShardLock s) = set_cachedShardLock (fun _ => q) s.
Proof.
  unfold _checkCachedShardLock, bind, gets, when. simpl.
  destruct (_ <=? _); simpl.
  - exists (lq_ret (cachedShardLock s)). destruct s; reflexivity.
  - destruct (freed (cachedShardLock s)); simpl.
    + exists (lq_get (cachedShardLock s)). destruct s; reflexivity.
    + exists (cachedShardLock s). destruct s; reflexivity.
Qed.

(** The counters after an update, and the set of closable shards. *)
Lemma updateShardLockList_final (shard : string) (lockN persN : Z) (s : State) :
  let old := default (mkLockRec 0 0) (shardLockList s !! shard) in
  let rec := mkLockRec (clampLow (lock old + lockN)) (clampLow (pers old + persN)) in
  let s' := final (_updateShardLockList shard lockN persN s) in
  shardLockList s' = <[shard := rec]> (shardLockList s)
  /\ closableShardNames s'
     = if (pers rec =? 0) && (lock rec =? 0)
       then orderedAdd shard (closableShardNames s)
       else orderedDelete shard (closableShardNames s).
Proof.
  intros old rec s'. subst s'. unfold _updateShardLockList.
  cbv beta iota zeta delta [bind gets modify].
  change (match shardLockList s !! shard with
          | Some r => r
          | None => mkLockRec 0 0
          end) with old.
  change (mkLockRec (clampLow (lock old + lockN)) (clampLow (pers old + persN))) with rec.
  assert (Hl : 0 <= lock rec) by (simpl; unfold clampLow; destruct (_ <? _) eqn:E; lia).
  assert (Hp : 0 <= pers rec) by (simpl; unfold clampLow; destruct (_ <? _) eqn:E; lia).
  clearbody rec. clear old.
  destruct (Z.gtb_spec (pers rec) 0) as [Hpos|Hzero].
  - match goal with |- context [_checkCachedShardLock ?st] =>
      destruct (checkCachedShardLock_final st) as (q & Hq) end.
    destruct (_checkCachedShardLock _); simpl in Hq; subst; simpl.
    all: destruct (Z.eqb_spec (pers rec) 0); [lia|]; simpl; auto.
  - assert (Hp0 : pers rec = 0) by lia.
    destruct (Z.gtb_spec (lock rec) 0) as [Hlpos|Hlzero].
    + match goal with |- context [_checkCachedShardLock ?st] =>
        destruct (checkCachedShardLock_final st) as (q & Hq) end.
      destruct (_checkCachedShardLock _); simpl in Hq; subst; simpl.
      all: rewrite Hp0; destruct (Z.eqb_spec (lock rec) 0); [lia|]; simpl; auto.
    + match goal with |- context [_checkCachedShardLock ?st] =>
        destruct (checkCachedShardLock_final st) as (q & Hq) end.
      destruct (_checkCachedShardLock _); simpl in Hq; subst; simpl.
      all: rewrite Hp0; destruct (Z.eqb_spec (lock rec) 0); [|lia]; simpl; auto.
Qed.

(** A sequence of lock, unlock and pin operations. *)
Definition runUpdates (ops : list (string * Z * Z)) : M State unit :=
  forEach ops (fun op => _updateShardLockList op.1.1 op.1.2 op.2).

(** Every shard with counters is closable exactly when both are 0, and a
    shard without counters is not closable. *)
Definition ClosableInv (s : State) : Prop :=
  forall shard,
    match shardLockList s !! shard with
    | Some rec => shard ∈ closableShardNames s <-> lock rec = 0 /\ pers rec = 0
    | None => shard ∉ closableShardNames s
    end.

Lemma updateShardLockList_ClosableInv (shard : string) (lockN persN : Z) :
  preserves ClosableInv (_updateShardLockList shard lockN persN).
Proof.
  intros s Hs.
  destruct (updateShardLockList_final shard lockN persN s) as [Hl Hc].
  assert (Hfin : ClosableInv (final (_updateShardLockList shard lockN persN s))).
  { intros sh. rewrite Hl, Hc. destruct (decide (shard = sh)) as [->|Hne].
    - rewrite lookup_insert_eq.
      set (rec := mkLockRec _ _).
      destruct (Z.eqb_spec (pers rec) 0) as [Hp|Hp], (Z.eqb_spec (lock rec) 0) as [Hk|Hk];
        simpl andb; cbv iota; rewrite ?elem_of_orderedAdd, ?elem_of_orderedDelete;
        split; try tauto; intros [? ?]; try contradiction; auto.
    - rewrite lookup_insert_ne by assumption. specialize (Hs sh).
      destruct (shardLockList s !! sh) as [r|];
        destruct (_ && _); rewrite ?elem_of_orderedAdd, ?elem_of_orderedDelete;
        (split || idtac); try tauto; intros; intuition congruence. }
  destruct (_updateShardLockList shard lockN persN s); exact Hfin.
Qed.

(** C7.  Right after [_updateShardLockList] the shard is in
    [closableShardNames] exactly when its [lock] and [pers] counters are
    both 0, from any state; and after any sequence of such updates on a new
    coordinator this holds for every shard that has counters. *)
Theorem closable_iff_unpinned (shard : string) (lockN persN : Z) (s : State)
    (ops : list (string * Z * Z)) (path : string) :
  (exists rec,
     shardLockList (final (_updateShardLockList shard lockN persN s)) !! shard = Some rec
     /\ (shard ∈ closableShardNames (final (_updateShardLockList shard lockN persN s))
         <-> lock rec = 0 /\ pers rec = 0))
  /\ (forall rec,
        shardLockList (final (runUpdates ops (constructor path))) !! shard = Some rec ->
        shard ∈ closableShardNames (final (runUpdates ops (constructor path)))
        <-> lock rec = 0 /\ pers rec = 0).
Proof.
  split.
  - destruct (updateShardLockList_final shard lockN persN s) as [Hl Hc].
    eexists. rewrite Hl, Hc, lookup_insert_eq. split; [reflexivity|].
    set (rec := mkLockRec _ _).
    destruct (Z.eqb_spec (pers rec) 0) as [Hp|Hp], (Z.eqb_spec (lock rec) 0) as [Hk|Hk];
      simpl andb; cbv iota; rewrite ?elem_of_orderedAdd, ?elem_of_orderedDelete;
      split; try tauto; intros [? ?]; try contradiction; auto.
  - intros rec Hrec.
    assert (Hinv : ClosableInv (final (runUpdates ops (constructor path)))).
    { apply preserves_final.
      - apply preserves_forEach. intros op. apply updateShardLockList_ClosableInv.
      - intros sh. simpl. rewrite lookup_empty. apply not_elem_of_nil. }
    specialize (Hinv shard). now rewrite Hrec in Hinv.
Qed.

(** *** Validation in [insert] *)

(** What [insert] stores rows in and counts them by: the per-shard tables,
    which of them are open, the shard records in memory and in the [shards]
    table, and the info shard. *)
Definition sameShardData (s0 s : State) : Prop :=
  tables s = tables s0
  /\ openedShardTables s = openedShardTables s0
  /\ shardList s = shardList s0
  /\ shardListTable s = shardListTable s0
  /\ infoShard s = infoShard s0.

Lemma sameShardData_refl (s : State) : sameShardData s s.
Proof. repeat split. Qed.

Lemma checkErrors_state (s : State) : final (_checkErrors s) = s.
Proof.
  unfold _checkErrors, bind, gets, throw, ret.
  destruct (negb _); [reflexivity|]. destruct (closed s); [reflexivity|].
  destruct (negb _); reflexivity.
Qed.

Lemma checkTables_sameShardData (s0 : State) :
  triple (sameShardData s0) _checkTables (fun _ => sameShardData s0) (fun _ => False).
Proof.
  intros s Hs. unfold _checkTables, bind, modify, gets, ret.
  cbn [checkingTables set_needCheckTables].
  destruct (checkingTables s); [exact Hs|].
  pose proof (checkErrors_state (set_needCheckTables (fun _ => true) s)) as Hc.
  destruct (_checkErrors _) as [[] s1|e s1]; simpl in Hc; subst s1; exact Hs.
Qed.

Lemma genAutoShard_sameShardData (s0 : State) (fuel : nat) :
  preserves (sameShardData s0) (genAutoShard fuel).
Proof.
  induction fuel as [|fuel IH]; simpl.
  - apply preserves_throw.
  - apply preserves_bind.
    + intros s Hs. exact Hs.
    + intros [shard|]; [apply preserves_ret|].
      repeat (preserves_step; try (apply preserves_modify; intros s Hs; exact Hs));
        exact IH.
Qed.

Lemma checkRow_sameShardData (s0 : State) shardGen (row : Row Data) shardedRows :
  preserves (sameShardData s0) (checkRow shardGen row shardedRows).
Proof.
  unfold checkRow. destruct (bool_decide _); [apply preserves_throw|].
  apply preserves_bind.
  - destruct (row_shard row); [apply preserves_ret|].
    destruct shardGen; [apply preserves_ret | apply preserves_throw].
  - intros row'. destruct (row_shard row') as [[shard| |]|]; try apply preserves_throw.
    destruct (bool_decide (shard = EmptyString)); [apply preserves_throw|].
    apply preserves_bind; [|intros ?; apply preserves_ret].
    destruct (bool_decide _); [apply genAutoShard_sameShardData | apply preserves_ret].
Qed.

(** The loop over the rows throws when a row has an [id], however many
    rows come before it, and touches none of the shard data. *)
Lemma checkRows_rejects_id (s0 : State) shardGen (rows : list (Row Data)) :
  (exists row, row ∈ rows /\ is_Some (row_id row)) ->
  forall shardedRows,
    triple (sameShardData s0) (checkRows shardGen rows shardedRows)
      (fun _ _ => False) (sameShardData s0).
Proof.
  intros (bad & Hin & Hid). induction rows as [|row rows IH]; [inversion Hin|].
  intros shardedRows. simpl.
  destruct (decide (is_Some (row_id row))) as [Hrow|Hrow].
  - intros s Hs. unfold bind, checkRow.
    rewrite (bool_decide_eq_true_2 _ Hrow). exact Hs.
  - apply elem_of_cons in Hin as [->|Hin]; [contradiction|].
    eapply triple_bind; [apply checkRow_sameShardData|].
    intros acc. apply (IH Hin).
Qed.

(** C8.  An [insert] whose rows hold a row with an [id] throws, and leaves
    the per-shard tables, the opened tables, the shard records (in memory
    and in the [shards] table) and the info shard as they were. *)
Theorem insert_rejects_id (query : InsertQuery) (rows : list (Row Data)) (s : State) :
  q_rows query = Some rows ->
  (exists row, row ∈ rows /\ is_Some (row_id row)) ->
  exists msg s',
    insert query s = Throw msg s'
    /\ tables s' = tables s
    /\ openedShardTables s' = openedShardTables s
    /\ shardList s' = shardList s
    /\ shardListTable s' = shardListTable s
    /\ infoShard s' = infoShard s.
Proof.
  intros Hq Hbad. unfold insert, bind.
  pose proof (checkErrors_state s) as Hc.
  destruct (_checkErrors s) as [[] s1|e s1]; simpl in Hc; subst s1.
  2: { exists e, s. repeat split. }
  unfold tryFinally. rewrite Hq.
  pose proof (checkRows_rejects_id s (q_shardGen query) rows Hbad [] s
                (sameShardData_refl s)) as Hrows.
  destruct (checkRows _ _ _ s) as [acc s1|e s1]; [contradiction|].
  pose proof (checkTables_sameShardData s s1 Hrows) as Hfin.
  destruct (_checkTables s1) as [[] s2|e2 s2]; [|contradiction].
  exists e, s2. split; [reflexivity | exact Hfin].
Qed.

End Facts.

(** *** Examples *)

(** A basic table for the examples: the rows it holds, newest first, and
    its auto-increment; [insert] takes any rows. *)
Definition demoTable : BasicTable (list (Row unit) * Z) unit :=
  {| bt_open := fun onDisk => Some (default ([], 0) onDisk);
     bt_insert := fun rows t => Some ((rev rows ++ t.1, t.2), Z.of_nat (length rows));
     bt_getAllIdsSize := fun t => Z.of_nat (length t.1);
     bt_setAutoIncrement := fun n t => (t.1, n);
     bt_close := fun t => t |}.
#[local] Existing Instance demoTable.

(** An opened sharded table with no shard. *)
Definition demoSharded : @State (list (Row unit) * Z) :=
  set_opened (fun _ => true) (constructor "t").

(** [insert({rows: [{shard: 'a'}, {id: 1, shard: 'a'}]})]. *)
Definition demoInsert : InsertQuery (Data := unit) :=
  mkInsertQuery (Some [mkRow None (Some (VStr "a")) tt;
                       mkRow (Some (VNum 1)) (Some (VStr "a")) tt]) None.

Lemma insert_rejects_id_witness :
  exists msg s',
    insert demoInsert demoSharded = Throw msg s'
    /\ tables s' = tables demoSharded
    /\ openedShardTables s' = openedShardTables demoSharded
    /\ shardList s' = shardList demoSharded
    /\ shardListTable s' = shardListTable demoSharded
    /\ infoShard s' = infoShard demoSharded.
Proof.
  apply (@insert_rejects_id _ unit demoTable demoInsert
           [mkRow None (Some (VStr "a")) tt; mkRow (Some (VNum 1)) (Some (VStr "a")) tt]
           demoSharded).
  - reflexivity.
  - exists (mkRow (Some (VNum 1)) (Some (VStr "a")) tt).
    split; [apply list_elem_of_further, list_elem_of_here | eexists; reflexivity].
Defined.

End ShardedTableFacts.

(** ** Facts about the database directory *)

Module JembaDbFacts.
Import Exec ExecFacts JembaDb.

Section Facts.
Context {Options : Type} {tableImpl : TableImpl Options}.

Abbreviation State := (@State Options).

(** The table is in the table map or has a directory. *)
Definition existsNow (name : string) (s : State) : bool :=
  bool_decide (is_Some (table s !! name))
  || bool_decide (is_Some (disk s !! tableDir s name)).

(** The type the [type] file of the table gives: its content, ["basic"]
    when there is none, nothing when the path is a directory. *)
Definition typeOnDisk (name : string) (s : State) : option string :=
  match disk s !! String.append (tableDir s name) "/type" with
  | None => Some "basic"%string
  | Some (File content) => Some content
  | Some Dir => None
  end.

(** The class of the instance of a table, if it has one. *)
Definition classIn (name : string) (s : State) : option TableClass :=
  cls <$> table s !! name.

Lemma checkOpened_Ok (s : State) : opened s = true -> _checkOpened s = Ok tt s.
Proof. intros Ho. unfold _checkOpened, bind, gets. now rewrite Ho. Qed.

Lemma checkOpened_closed (s : State) :
  opened s = false -> exists msg, _checkOpened s = Throw msg s.
Proof. intros Ho. unfold _checkOpened, bind, gets. rewrite Ho. simpl. eauto. Qed.

Lemma tableExists_Ok (name : string) (s : State) :
  opened s = true -> name <> EmptyString ->
  tableExists name s = Ok (existsNow name s) s.
Proof.
  intros Ho Hname. unfold tableExists, bind. rewrite (checkOpened_Ok s Ho).
  rewrite (bool_decide_eq_false_2 _ Hname).
  cbv beta iota delta [bind gets pathExists existsNow].
  destruct (bool_decide (is_Some (table s !! name))); [reflexivity|].
  simpl. destruct (bool_decide _); reflexivity.
Qed.

Lemma getTableType_Ok (name : string) (s : State) (type : string) :
  typeOnDisk name s = Some type -> _getTableType name s = Ok type s.
Proof.
  unfold typeOnDisk. cbv beta iota delta [_getTableType bind gets pathExists readFile].
  destruct (disk s !! _) as [[|content]|] eqn:E.
  - discriminate.
  - intros [= ->]. rewrite bool_decide_eq_true_2 by eauto. now rewrite E.
  - intros [= <-]. rewrite bool_decide_eq_false_2; [reflexivity|].
    intros [? ?]; discriminate.
Qed.

Lemma getTableType_Throw (name : string) (s : State) :
  typeOnDisk name s = None -> exists msg, _getTableType name s = Throw msg s.
Proof.
  unfold typeOnDisk. cbv beta iota delta [_getTableType bind gets pathExists readFile].
  destruct (disk s !! _) as [[|content]|] eqn:E; try discriminate.
  intros _. rewrite bool_decide_eq_true_2 by eauto. rewrite E. unfold throw. eauto.
Qed.

(** Opening an instance does not change its class, whether it throws or
    not. *)
Lemma instanceOpen_class (name : string) (query : Query Options) (s : State)
    (i : Instance) :
  table s !! name = Some i ->
  classIn name (final (instanceOpen name query s)) = Some (cls i).
Proof.
  intros Hi. unfold instanceOpen, bind, gets, classIn. rewrite Hi.
  destruct (table_open _ _ _ _ _) as [[msg|] d]; simpl.
  - now rewrite Hi.
  - now rewrite lookup_insert_eq.
Qed.

Lemma instanceOpen_new_class (name : string) (query : Query Options) (s : State)
    (c : TableClass) :
  classIn name
    (final (instanceOpen name query (set_table <[name := mkInstance c false]> s)))
  = Some c.
Proof.
  apply (instanceOpen_class name query _ (mkInstance c false)).
  simpl. apply lookup_insert_eq.
Qed.

(** The instance a call of [open] has to make. *)
Definition needsInstance (name : string) (s : State) : bool :=
  match table s !! name with
  | Some i => negb (inst_opened i)
  | None => true
  end.

(** [open] on a table that exists: nothing when its instance is opened;
    otherwise an instance of the class of the type on disk, which is then
    opened. *)
Lemma open_existing_eq (query : Query Options) (s : State) :
  opened s = true -> q_table query <> EmptyString ->
  existsNow (q_table query) s = true ->
  open query s
  = if needsInstance (q_table query) s then
      match _getTableType (q_table query) s with
      | Ok type s' =>
          instanceOpen (q_table query) query
            (set_table <[q_table query := mkInstance (classOf (Some type)) false]> s')
      | Throw msg s' => Throw msg s'
      end
    else Ok tt s.
Proof.
  intros Ho Hname Hex. unfold open. unfold bind at 1.
  rewrite (checkOpened_Ok s Ho), (bool_decide_eq_false_2 _ Hname).
  unfold bind at 1. rewrite (tableExists_Ok _ s Ho Hname), Hex.
  cbn [orb]. unfold bind at 1, gets at 1. unfold needsInstance.
  destruct (table s !! q_table query) as [[c [|]]|]; cbn [negb inst_opened];
    [reflexivity| |].
  all: unfold bind at 1, bind at 1.
  all: destruct (_getTableType (q_table query) s); reflexivity.
Qed.

Lemma open_existing (query : Query Options) (s : State) :
  opened s = true -> q_table query <> EmptyString ->
  existsNow (q_table query) s = true ->
  if needsInstance (q_table query) s then
    match typeOnDisk (q_table query) s with
    | Some type =>
        open query s
        = instanceOpen (q_table query) query
            (set_table <[q_table query := mkInstance (classOf (Some type)) false]> s)
    | None => exists msg, open query s = Throw msg s
    end
  else open query s = Ok tt s.
Proof.
  intros Ho Hname Hex. rewrite (open_existing_eq query s Ho Hname Hex).
  destruct (needsInstance (q_table query) s); [|reflexivity].
  destruct (typeOnDisk (q_table query) s) as [type|] eqn:Ht.
  - now rewrite (getTableType_Ok _ s type Ht).
  - destruct (getTableType_Throw _ s Ht) as (msg & ->). eauto.
Qed.

(** [open] on a table that does not exist. *)
Lemma open_new_eq (query : Query Options) (s : State) :
  opened s = true -> q_table query <> EmptyString ->
  existsNow (q_table query) s = false ->
  open query s
  = if q_create query then
      instanceOpen (q_table query) query
        (set_table <[q_table query := mkInstance (classOf (q_type query)) false]> s)
    else Throw "Table does not exist" s.
Proof.
  intros Ho Hname Hex. unfold open. unfold bind at 1.
  rewrite (checkOpened_Ok s Ho), (bool_decide_eq_false_2 _ Hname).
  unfold bind at 1. rewrite (tableExists_Ok _ s Ho Hname), Hex.
  cbn [orb].
  destruct (q_create query); [|reflexivity].
  unfold bind at 1, gets at 1.
  assert (Hnone : table s !! q_table query = None).
  { unfold existsNow in Hex. apply orb_false_iff in Hex as [Hex _].
    apply bool_decide_eq_false_1 in Hex.
    destruct (table s !! q_table query); [exfalso; eauto | reflexivity]. }
  rewrite Hnone. reflexivity.
Qed.

(** C10.  [open] on a database that is opened, for a table that exists
    (in the table map or on disk): when the table has an opened instance
    the call returns and changes nothing; when it has none, or one that is
    not opened, and its [type] file can be read (["basic"] standing for a
    missing file), the table gets an instance of the class of that type;
    and in every case the class of the instance after the call is the same
    whatever [type] the query gives.  Only for a table that does not exist,
    with [create], the instance is of the class of the query's [type];
    without [create] the call throws and changes nothing. *)
Theorem open_class_of_existing (query : Query Options) (s : State) :
  opened s = true -> q_table query <> EmptyString ->
  (existsNow (q_table query) s = true ->
     (needsInstance (q_table query) s = false -> open query s = Ok tt s)
     /\ (forall type, needsInstance (q_table query) s = true ->
           typeOnDisk (q_table query) s = Some type ->
           classIn (q_table query) (final (open query s)) = Some (classOf (Some type)))
     /\ (forall type',
           classIn (q_table query)
             (final (open (mkQuery (q_table query) (q_create query) type'
                             (q_options query)) s))
           = classIn (q_table query) (final (open query s))))
  /\ (existsNow (q_table query) s = false -> q_create query = true ->
        classIn (q_table query) (final (open query s)) = Some (classOf (q_type query)))
  /\ (existsNow (q_table query) s = false -> q_create query = false ->
        exists msg, open query s = Throw msg s).
Proof.
  intros Ho Hname. split; [|split].
  - intros Hex. pose proof (open_existing query s Ho Hname Hex) as Hopen.
    split; [|split].
    + intros Hn. now rewrite Hn in Hopen.
    + intros type Hn Ht. rewrite Hn, Ht in Hopen. rewrite Hopen.
      apply instanceOpen_new_class.
    + intros type'.
      pose proof (open_existing
                    (mkQuery (q_table query) (q_create query) type' (q_options query))
                    s Ho Hname Hex) as Hopen'.
      cbn [q_table] in Hopen'.
      destruct (needsInstance (q_table query) s).
      * destruct (typeOnDisk (q_table query) s) as [type|].
        -- rewrite Hopen, Hopen'. now rewrite !instanceOpen_new_class.
        -- destruct Hopen as (msg & ->), Hopen' as (msg' & ->). reflexivity.
      * now rewrite Hopen, Hopen'.
  - intros Hex Hc. rewrite (open_new_eq query s Ho Hname Hex), Hc.
    apply instanceOpen_new_class.
  - intros Hex Hc. rewrite (open_new_eq query s Ho Hname Hex), Hc. eauto.
Qed.

End Facts.

(** *** Examples *)

Definition typeName (c : TableClass) : string :=
  match c with
  | ClsMemory => "memory"
  | ClsSharded => "sharded"
  | ClsBasic => "basic"
  end.

(** Tables for the examples.  A memory table keeps off the disk; the
    others make their directory with its [type] and [state] files when it
    is not there, and refuse a directory of another type or without a
    [type] file, the way [ShardedTable.open] does. *)
Definition demoOpen (c : TableClass) (path : string) (disk : gmap string Node)
  : option string * gmap string Node :=
  match c with
  | ClsMemory => (None, disk)
  | _ =>
      match disk !! path with
      | None =>
          (None,
           <[String.append path "/state" := File "1"]>
             (<[String.append path "/type" := File (typeName c)]>
                (<[path := Dir]> disk)))
      | Some _ =>
          match disk !! String.append path "/type" with
          | Some (File type) =>
              if bool_decide (type = typeName c) then (None, disk)
              else (Some "Wrong table type"%string, disk)
          | _ => (Some "Table type file not found"%string, disk)
          end
      end
  end.

Definition demoImpl : TableImpl unit :=
  {| table_open := fun c path _ _ disk => demoOpen c path disk;
     table_close := fun _ _ disk => disk |}.
#[local] Existing Instance demoImpl.

(** An opened database with no table. *)
Definition demoDb : @State unit :=
  mkState true "db" ∅ tt {[ "db"%string := Dir ]}.

(** The database after [open({table: 't', create: true, type: 'memory'})]. *)
Definition demoMemory : @State unit :=
  final (open (mkQuery "t" true (Some "memory"%string) tt) demoDb).

(** The database with a sharded table [t] on disk that is not opened. *)
Definition demoOnDisk : @State unit :=
  mkState true "db" ∅ tt
    {[ "db"%string := Dir; "db/t"%string := Dir;
       "db/t/type"%string := File "sharded"; "db/t/state"%string := File "1" ]}.

(** C10 as stated fails for a table that is opened: the memory table [t]
    has no [type] file, which reads as a basic table, and [open] leaves
    its instance, a memory table, where it is. *)
Lemma open_keeps_opened_instance :
  ~ (forall (s : @State unit) (query : Query unit) (type : string),
       opened s = true -> q_table query <> EmptyString ->
       existsNow (q_table query) s = true ->
       typeOnDisk (q_table query) s = Some type ->
       classIn (q_table query) (final (open query s)) = Some (classOf (Some type))).
Proof.
  intros H.
  specialize (H demoMemory (mkQuery "t" false (Some "sharded"%string) tt) "basic"%string).
  assert (Hbad : Some ClsMemory = Some ClsBasic); [|discriminate].
  apply H.
  - reflexivity.
  - discriminate.
  - vm_compute. reflexivity.
  - vm_compute. reflexivity.
Qed.

(** [open({table: 't', type: 'memory'})]. *)
Definition demoQuery : Query unit := mkQuery "t" false (Some "memory"%string) tt.

Lemma open_class_of_existing_witness :
  (existsNow "t" demoOnDisk = true ->
     (needsInstance "t" demoOnDisk = false -> open demoQuery demoOnDisk = Ok tt demoOnDisk)
     /\ (forall type, needsInstance "t" demoOnDisk = true ->
           typeOnDisk "t" demoOnDisk = Some type ->
           classIn "t" (final (open demoQuery demoOnDisk)) = Some (classOf (Some type)))
     /\ (forall type',
           classIn "t" (final (open (mkQuery "t" false type' tt) demoOnDisk))
           = classIn "t" (final (open demoQuery demoOnDisk))))
  /\ (existsNow "t" demoOnDisk = false -> false = true ->
        classIn "t" (final (open demoQuery demoOnDisk)) = Some (classOf (Some "memory"%string)))
  /\ (existsNow "t" demoOnDisk = false -> false = false ->
        exists msg, open demoQuery demoOnDisk = Throw msg demoOnDisk).
Proof.
  apply (@open_class_of_existing unit demoImpl demoQuery demoOnDisk).
  - reflexivity.
  - discriminate.
Defined.

End JembaDbFacts.

(** ** Decimal names are distinct *)

Module JsNames.
Import Js JsFacts.

Lemma append_inj_r (a b s : string) :
  String.append a s = String.append b s -> a = b.
Proof.
  revert b. induction a as [|c a IH]; intros [|d b] H.
  - reflexivity.
  - apply (f_equal String.length) in H.
    rewrite append_nil_l, length_append in H. simpl in H. lia.
  - apply (f_equal String.length) in H.
    rewrite append_nil_l, length_append in H. simpl in H. lia.
  - rewrite !append_cons in H. injection H as -> H. f_equal. now apply IH.
Qed.

Lemma compare_eq_refl (a b : string) : a = b -> String.compare a b = Eq.
Proof. intros ->. apply compare_refl. Qed.

Lemma fixedDigits_inj (w : nat) (n m : Z) :
  0 <= n < 10 ^ Z.of_nat w -> 0 <= m < 10 ^ Z.of_nat w ->
  fixedDigits w n = fixedDigits w m -> n = m.
Proof.
  intros Hn Hm Heq.
  destruct (Z.lt_trichotomy n m) as [Hlt|[Heq'|Hgt]]; [|exact Heq'|].
  - pose proof (fixedDigits_lt w n m ltac:(lia) Hlt ltac:(lia)) as Hc.
    rewrite (compare_eq_refl _ _ Heq) in Hc. discriminate.
  - pose proof (fixedDigits_lt w m n ltac:(lia) Hgt ltac:(lia)) as Hc.
    rewrite (compare_eq_refl _ _ (eq_sym Heq)) in Hc. discriminate.
Qed.

Lemma toString_nonneg (n : Z) : 0 <= n -> toString n = fixedDigits (numDigits n) n.
Proof. intros Hn. unfold toString. destruct (Z.ltb_spec n 0); [lia | reflexivity]. Qed.

Lemma length_toString (n : Z) : 0 <= n -> String.length (toString n) = numDigits n.
Proof. intros Hn. rewrite toString_nonneg by assumption. apply length_fixedDigits. Qed.

(** [toString] gives different integers different texts. *)
Lemma toString_inj (n m : Z) : 0 <= n -> 0 <= m -> toString n = toString m -> n = m.
Proof.
  intros Hn Hm Heq.
  pose proof (f_equal String.length Heq) as Hlen.
  rewrite !length_toString in Hlen by assumption.
  rewrite !toString_nonneg in Heq by assumption. rewrite Hlen in Heq.
  apply (fixedDigits_inj (numDigits m)); [|split; [lia | now apply numDigits_upper]|exact Heq].
  split; [lia|]. rewrite <- Hlen. now apply numDigits_upper.
Qed.

Lemma length_padStart (w : nat) (c : ascii) (s : string) :
  String.length (padStart w c s) = Nat.max w (String.length s).
Proof. unfold padStart. rewrite length_append, length_repeatChar. lia. Qed.

(** More digits than [w] are needed from [10 ^ w] on. *)
Lemma numDigits_wide (w : nat) (n : Z) : 10 ^ Z.of_nat w <= n -> (w < numDigits n)%nat.
Proof.
  intros Hn.
  assert (0 < 10 ^ Z.of_nat w) by (apply Z.pow_pos_nonneg; lia).
  pose proof (numDigits_upper n ltac:(lia)) as Hup.
  destruct (Nat.lt_ge_cases w (numDigits n)) as [|Hle]; [assumption|].
  assert (10 ^ Z.of_nat (numDigits n) <= 10 ^ Z.of_nat w)
    by (apply Z.pow_le_mono_r; lia).
  lia.
Qed.

(** Zero-padded decimal names of different non-negative integers differ,
    whatever the width. *)
Lemma padStart_toString_inj (w : nat) (n m : Z) :
  (1 <= w)%nat -> 0 <= n -> 0 <= m ->
  padStart w "0" (toString n) = padStart w "0" (toString m) -> n = m.
Proof.
  intros Hw Hn Hm Heq.
  pose proof (f_equal String.length Heq) as Hlen.
  rewrite !length_padStart, !length_toString in Hlen by assumption.
  destruct (Z.lt_ge_cases n (10 ^ Z.of_nat w)) as [Hnw|Hnw],
           (Z.lt_ge_cases m (10 ^ Z.of_nat w)) as [Hmw|Hmw].
  - rewrite !padStart_toString in Heq by (try assumption; lia).
    apply (fixedDigits_inj w); [lia | lia | exact Heq].
  - pose proof (numDigits_wide w m Hmw).
    pose proof (numDigits_le w n Hw ltac:(lia)). lia.
  - pose proof (numDigits_wide w n Hnw).
    pose proof (numDigits_le w m Hw ltac:(lia)). lia.
  - rewrite !padStart_toString_wide in Heq by assumption.
    now apply toString_inj.
Qed.

End JsNames.

(** ** More about the row storage engine *)

Module EngineProps.
Import Exec ExecFacts TableRowsFile TableRowsFileFacts.

Section Props.
Context {Row : Type} {codec : Codec Row}.
Abbreviation State := (@State Row).

(** Code built from changes to other fields keeps a field as it is. *)
Ltac stable :=
  repeat (first
    [ preserves_step
    | apply preserves_modify; let s := fresh "s" in intros s ?; destruct s; assumption
    | assumption ]).

(** *** The rows interface *)

Lemma getDelta_blockIndex (step : Z) (m : gmap RowId Z) :
  preserves (fun s : State => blockIndex s = m) (getDelta step).
Proof. unfold getDelta. stable. Qed.

Lemma addToCurrentBlock_blockIndex (id : RowId) (row : Row) (rowStr : string) (step : Z)
    (m : gmap RowId Z) :
  preserves (fun s : State => blockIndex s = m) (addToCurrentBlock id row rowStr step).
Proof.
  unfold addToCurrentBlock, getDelta, createNewBlock, modifyDelta. stable.
Qed.

(** [deleteRow] returns; it takes the id out of the index and keeps the
    blocks up to their deletion counters. *)
Lemma deleteRow_index (id : RowId) (step : Z) (s : State) :
  exists s1,
    deleteRow id step s = Ok tt s1 /\ sameBlocks s s1
    /\ blockIndex s1 = delete id (blockIndex s)
    /\ (blockIndex s !! id = None -> s1 = s).
Proof.
  destruct (deleteRow_sameBlocks id step s) as (s1 & Hdel & Hsame).
  exists s1. split; [exact Hdel|]. split; [exact Hsame|].
  revert Hdel. unfold deleteRow. unfold bind at 1, gets at 1.
  destruct (blockIndex s !! id) as [bi|] eqn:Hbi.
  - intros Hdel. split; [|discriminate].
    destruct (getDelta_sameBlocks step s) as (d & s0 & Hg & _ & Hbi0 & _).
    unfold bind at 1 in Hdel. rewrite Hg in Hdel.
    unfold bind at 1, gets at 1 in Hdel.
    destruct (blockList s0 !! bi) as [block|];
      cbv beta iota delta [bind modify modifyBlock modifyDelta ret] in Hdel;
      injection Hdel as <-; simpl; now rewrite Hbi0.
  - intros [= <-]. split; [|reflexivity].
    symmetry. now apply delete_id.
Qed.

(** The part of [setRow] before [addToCurrentBlock]: the blocks are kept,
    the id is out of the index. *)
Lemma setRow_clears (id : RowId) (step : Z) (s : State) :
  exists s1,
    sameBlocks s s1 /\ blockIndex s1 = delete id (blockIndex s)
    /\ forall B (k : M State B),
         (getDelta step ;; has <- gets (hasRow id) ;; when has (@deleteRow Row id step) ;; k) s
         = k s1.
Proof.
  destruct (getDelta_sameBlocks step s) as (d & s0 & Hg & Hs0 & Hbi0 & _).
  destruct (hasRow id s0) eqn:Hhas.
  - destruct (deleteRow_index id step s0) as (s1 & Hdel & Hs1 & Hbi1 & _).
    exists s1. split; [|split].
    + destruct Hs0 as [Hc0 Hb0], Hs1 as [Hc1 Hb1].
      split; [congruence|]. intros k. specialize (Hb0 k). specialize (Hb1 k).
      destruct (blockList s !! k), (blockList s0 !! k), (blockList s1 !! k);
        try contradiction; try exact I.
      destruct Hb0 as (?&?&?), Hb1 as (?&?&?). repeat split; congruence.
    + congruence.
    + intros B k. cbv beta iota delta [bind]. rewrite Hg.
      cbv beta iota delta [gets]. rewrite Hhas. simpl. rewrite Hdel. reflexivity.
  - exists s0. split; [exact Hs0|]. split.
    + rewrite Hbi0. symmetry. apply delete_id.
      unfold hasRow in Hhas. apply bool_decide_eq_false_1 in Hhas.
      rewrite Hbi0 in Hhas. destruct (blockIndex s !! id); [exfalso; eauto | reflexivity].
    + intros B k. cbv beta iota delta [bind]. rewrite Hg.
      cbv beta iota delta [gets]. rewrite Hhas. reflexivity.
Qed.

(** What [setRow] leaves when [addToCurrentBlock] returns. *)
Lemma setRow_finish (id : RowId) (row : Row) (rowStr : string) (step : Z)
    (s s1 s2 : State) (index : Z) :
  (forall B (k : M State B),
     (getDelta step ;; has <- gets (hasRow id) ;; when has (@deleteRow Row id step) ;; k) s
     = k s1) ->
  addToCurrentBlock id row rowStr step s1 = Ok index s2 ->
  exists s',
    setRow id row rowStr step s = Ok tt s'
    /\ blockIndex s' = <[id := index]> (blockIndex s1)
    /\ blockList s' = blockList s2
    /\ currentBlockIndex s' = currentBlockIndex s2.
Proof.
  intros Hpre Hadd. unfold setRow. rewrite Hpre. unfold bind at 1. rewrite Hadd.
  eexists. split; [reflexivity|]. simpl.
  pose proof (addToCurrentBlock_blockIndex id row rowStr step (blockIndex s1) s1 eq_refl)
    as Hbi.
  rewrite Hadd in Hbi. rewrite Hbi. auto.
Qed.

(** [getRow] on a row whose block is loaded. *)
Lemma getRow_loaded (id : RowId) (s : State) (bi : Z) (b : Block Row)
    (rows : gmap RowId Row) :
  blockIndex s !! id = Some bi -> blockList s !! bi = Some b -> b_rows b = Some rows ->
  getRow id s = Ok (rows !! id) s.
Proof.
  intros Hbi Hb Hrows. unfold getRow, bind, gets. rewrite Hbi, Hb, Hrows. reflexivity.
Qed.

(** The outcome of [setRow] when the current block is missing, over the
    ceiling, or loaded. *)
Lemma setRow_outcome (id : RowId) (row : Row) (rowStr : string) (step : Z) (s : State) :
  coherent s ->
  (forall b, blockList s !! currentBlockIndex s = Some b -> b_size b <= maxBlockSize ->
             is_Some (b_rows b)) ->
  exists s' index b' rows,
    setRow id row rowStr step s = Ok tt s'
    /\ blockIndex s' = <[id := index]> (blockIndex s)
    /\ blockList s' !! index = Some b' /\ b_rows b' = Some rows /\ rows !! id = Some row.
Proof.
  intros Hcoh Hloaded.
  destruct (setRow_clears id step s) as (s1 & [Hc1 Hb1] & Hbi1 & Hpre).
  pose proof (Hb1 (currentBlockIndex s)) as Hcur.
  destruct (blockList s !! currentBlockIndex s) as [b|] eqn:Hb.
  - destruct (blockList s1 !! currentBlockIndex s) as [b1|] eqn:Hb1s; [|contradiction].
    destruct Hcur as (Hi1 & Hsz1 & Hr1).
    destruct (Z.le_gt_cases (b_size b) maxBlockSize) as [Hsmall|Hbig].
    + destruct (Hloaded b eq_refl Hsmall) as [rows Hrows].
      destruct (addToCurrentBlock_append id row rowStr step s1 b1 rows)
        as (s2 & b' & Hadd & Hc2 & Hbl2 & Hi & Hr); try congruence.
      destruct (setRow_finish id row rowStr step s s1 s2 _ Hpre Hadd)
        as (s' & Hset & Hbi' & Hbl' & Hc').
      exists s', (b_index b1), b', (<[id := row]> rows).
      split; [exact Hset|]. split; [now rewrite Hbi', Hbi1, insert_delete_eq|].
      rewrite Hbl', Hbl2, Hc1, Hi1, (Hcoh _ _ Hb), lookup_insert_eq, lookup_insert_eq.
      auto.
    + destruct (addToCurrentBlock_new id row rowStr step s1)
        as (s2 & b' & Hadd & Hc2 & Hbl2 & Hi & Hr).
      { right. exists b1. rewrite Hc1. split; [exact Hb1s | lia]. }
      destruct (setRow_finish id row rowStr step s s1 s2 _ Hpre Hadd)
        as (s' & Hset & Hbi' & Hbl' & Hc').
      exists s', (currentBlockIndex s1 + 1), b', {[id := row]}.
      split; [exact Hset|]. split; [now rewrite Hbi', Hbi1, insert_delete_eq|].
      rewrite Hbl', Hbl2, lookup_insert_eq, lookup_singleton_eq. auto.
  - destruct (blockList s1 !! currentBlockIndex s) as [b1|] eqn:Hb1s; [contradiction|].
    destruct (addToCurrentBlock_new id row rowStr step s1)
      as (s2 & b' & Hadd & Hc2 & Hbl2 & Hi & Hr).
    { left. now rewrite Hc1. }
    destruct (setRow_finish id row rowStr step s s1 s2 _ Hpre Hadd)
      as (s' & Hset & Hbi' & Hbl' & Hc').
    exists s', (currentBlockIndex s1 + 1), b', {[id := row]}.
    split; [exact Hset|]. split; [now rewrite Hbi', Hbi1, insert_delete_eq|].
    rewrite Hbl', Hbl2, lookup_insert_eq, lookup_singleton_eq. auto.
Qed.

(** X1.  A row that was set can be read back: when every block is
    registered under its own index and the current block, if it is within
    the ceiling, is loaded, [setRow] returns, and then the id is known and
    [getRow] returns the row, without changing the state. *)
Theorem setRow_then_getRow (id : RowId) (row : Row) (rowStr : string) (step : Z)
    (s : State) :
  coherent s ->
  (forall b, blockList s !! currentBlockIndex s = Some b -> b_size b <= maxBlockSize ->
             is_Some (b_rows b)) ->
  exists s',
    setRow id row rowStr step s = Ok tt s'
    /\ hasRow id s' = true
    /\ getRow id s' = Ok (Some row) s'.
Proof.
  intros Hcoh Hloaded.
  destruct (setRow_outcome id row rowStr step s Hcoh Hloaded)
    as (s' & index & b' & rows & Hset & Hbi & Hb & Hrows & Hrow).
  assert (Hid : blockIndex s' !! id = Some index) by (rewrite Hbi; apply lookup_insert_eq).
  exists s'. split; [exact Hset|]. split.
  - unfold hasRow. apply bool_decide_eq_true_2. rewrite Hid. eauto.
  - rewrite (getRow_loaded id s' index b' rows Hid Hb Hrows). now rewrite Hrow.
Qed.

(** X2.  [setRow] moves no other row to another block, and the number of
    ids grows by one exactly when the id is new. *)
Theorem setRow_other_rows (id : RowId) (row : Row) (rowStr : string) (step : Z)
    (s s' : State) :
  setRow id row rowStr step s = Ok tt s' ->
  (forall id', id' <> id -> blockIndex s' !! id' = blockIndex s !! id')
  /\ getAllIdsSize s' = (if hasRow id s then getAllIdsSize s else getAllIdsSize s + 1).
Proof.
  intros Hset.
  destruct (setRow_clears id step s) as (s1 & _ & Hbi1 & Hpre).
  unfold setRow in Hset. rewrite Hpre in Hset. unfold bind at 1 in Hset.
  pose proof (addToCurrentBlock_blockIndex id row rowStr step (blockIndex s1) s1 eq_refl)
    as Hbi.
  destruct (addToCurrentBlock id row rowStr step s1) as [index s2|e s2]; [|discriminate].
  assert (Hnew : blockIndex s' = <[id := index]> (blockIndex s)).
  { cbv beta iota delta [bind modify modifyDelta] in Hset. injection Hset as <-.
    simpl. now rewrite Hbi, Hbi1, insert_delete_eq. }
  clear Hset.
  split.
  - intros id' Hne. rewrite Hnew. now apply lookup_insert_ne.
  - unfold getAllIdsSize, hasRow. rewrite Hnew.
    destruct (blockIndex s !! id) as [bi|] eqn:Hid.
    + rewrite bool_decide_eq_true_2 by eauto.
      rewrite <- (insert_delete_id (blockIndex s) id bi Hid) at 2.
      rewrite <- insert_delete_eq.
      rewrite !map_size_insert_None by apply lookup_delete_eq. reflexivity.
    + rewrite bool_decide_eq_false_2 by (intros [? ?]; discriminate).
      rewrite map_size_insert_None by assumption. lia.
Qed.

(** X3.  [deleteRow] returns; afterwards the id is unknown and [getRow]
    returns nothing for it, the other ids keep their blocks, and deleting an
    id that is unknown changes nothing at all. *)
Theorem deleteRow_forgets (id : RowId) (step : Z) (s : State) :
  exists s',
    deleteRow id step s = Ok tt s'
    /\ hasRow id s' = false
    /\ getRow id s' = Ok None s'
    /\ (forall id', id' <> id -> blockIndex s' !! id' = blockIndex s !! id')
    /\ (hasRow id s = false -> s' = s).
Proof.
  destruct (deleteRow_index id step s) as (s' & Hdel & _ & Hbi & Hsame).
  assert (Hid : blockIndex s' !! id = None) by (rewrite Hbi; apply lookup_delete_eq).
  exists s'. split; [exact Hdel|]. repeat split.
  - unfold hasRow. apply bool_decide_eq_false_2. rewrite Hid. intros [? ?]; discriminate.
  - unfold getRow, bind, gets. now rewrite Hid.
  - intros id' Hne. rewrite Hbi. now apply lookup_delete_ne.
  - intros Hhas. apply Hsame. unfold hasRow in Hhas.
    apply bool_decide_eq_false_1 in Hhas.
    destruct (blockIndex s !! id); [exfalso; eauto | reflexivity].
Qed.

(** *** Block indexes are not taken twice *)

(** No block is registered above the current block index. *)
Definition keysBounded (s : State) : Prop :=
  forall k, is_Some (blockList s !! k) -> k <= currentBlockIndex s.

Lemma coreStable_keysBounded {A} (i : Z) (m : M State A) :
  coreStable m ->
  preserves (fun s => keysBounded s /\ i <= currentBlockIndex s) m.
Proof.
  intros Hm s Hs. specialize (Hm (core s) s eq_refl).
  assert (Hgo : forall s', core s' = core s ->
                  keysBounded s' /\ i <= currentBlockIndex s').
  { unfold core, keysBounded. intros s' Heq. injection Heq as -> -> _ _. exact Hs. }
  destruct (m s); apply Hgo, Hm.
Qed.

Lemma coreStable_bounded {A} (m : M State A) : coreStable m -> preserves keysBounded m.
Proof.
  intros Hm s Hs.
  pose proof (coreStable_keysBounded (currentBlockIndex s) m Hm s (conj Hs (Z.le_refl _)))
    as H.
  destruct (m s); destruct H as [H _]; exact H.
Qed.

Lemma alter_keysBounded (key : Z) (f : Block Row -> Block Row) (s : State) :
  keysBounded s -> keysBounded (set_blockList (alter f key) s).
Proof.
  intros Hs k [b Hk]. simpl in Hk. apply Hs.
  destruct (decide (key = k)) as [->|Hne].
  - rewrite lookup_alter_eq in Hk. destruct (blockList s !! k); [eauto | discriminate].
  - rewrite lookup_alter_ne in Hk by assumption. eauto.
Qed.

Lemma delete_keysBounded (key : Z) (s : State) :
  keysBounded s -> keysBounded (set_blockList (delete key) s).
Proof.
  intros Hs k [b Hk]. simpl in Hk. apply lookup_delete_Some in Hk as [_ Hk].
  apply Hs. eauto.
Qed.

Lemma insert_keysBounded (key : Z) (b : Block Row) (s : State) :
  keysBounded s -> key <= currentBlockIndex s -> keysBounded (set_blockList <[key := b]> s).
Proof.
  intros Hs Hkey k [b' Hk]. simpl in *.
  destruct (decide (key = k)) as [->|Hne]; [exact Hkey|].
  rewrite lookup_insert_ne in Hk by assumption. apply Hs. eauto.
Qed.

(** A step of a proof that [keysBounded] is kept. *)
Ltac kb_step :=
  first
    [ apply preserves_modify; let s := fresh "s" in intros s ?; destruct s; assumption
    | apply preserves_modify; intros ? ?; apply alter_keysBounded; assumption
    | apply preserves_modify; intros ? ?; apply delete_keysBounded; assumption
    | preserves_step ].

Lemma createNewBlock_keysBounded :
  triple keysBounded (@createNewBlock Row) (fun _ => keysBounded) keysBounded.
Proof.
  intros s Hs. unfold createNewBlock, bind, modify, gets, ret. simpl.
  intros k [b Hk]. simpl in *.
  destruct (decide (currentBlockIndex s + 1 = k)) as [<-|Hne]; [lia|].
  rewrite lookup_insert_ne in Hk by assumption.
  assert (k <= currentBlockIndex s) by (apply Hs; eauto). lia.
Qed.

Lemma addToCurrentBlock_keysBounded (id : RowId) (row : Row) (rowStr : string) (step : Z) :
  preserves keysBounded (addToCurrentBlock id row rowStr step).
Proof.
  unfold addToCurrentBlock.
  apply preserves_bind; [unfold getDelta; repeat kb_step | intros _].
  apply preserves_bind; [apply preserves_gets | intros cur].
  apply preserves_bind; [apply preserves_gets | intros ob].
  apply preserves_bind;
    [destruct ob; [apply preserves_ret | apply createNewBlock_keysBounded] | intros block].
  apply preserves_bind;
    [destruct (_ >? _); [apply createNewBlock_keysBounded | apply preserves_ret]
    | intros block'].
  apply preserves_bind_gets. intros key.
  destruct (b_rows block') as [rows|]; [|intros s [Hs _]; exact Hs].
  intros s [Hs ->]. unfold bind, modify, modifyDelta, ret. simpl.
  intros k [b Hk]. simpl in *.
  destruct (decide (currentBlockIndex s = k)) as [<-|Hne]; [lia|].
  rewrite lookup_insert_ne in Hk by assumption. apply Hs. eauto.
Qed.

Lemma deleteRow_keysBounded (id : RowId) (step : Z) :
  preserves keysBounded (@deleteRow Row id step).
Proof. unfold deleteRow, getDelta, modifyBlock, modifyDelta. repeat kb_step. Qed.

Lemma setRow_keysBounded (id : RowId) (row : Row) (rowStr : string) (step : Z) :
  preserves keysBounded (setRow id row rowStr step).
Proof.
  unfold setRow, modifyDelta.
  repeat first
    [ apply deleteRow_keysBounded | apply addToCurrentBlock_keysBounded
    | progress unfold getDelta | kb_step ].
Qed.

Lemma loadBlock_keysBounded (key : Z) : preserves keysBounded (@loadBlock Row codec key).
Proof. unfold loadBlock, loadFile, modifyBlock. repeat kb_step. Qed.

Lemma unloadLoop_keysBounded (fuel : nat) (s : State) :
  keysBounded s -> keysBounded (unloadLoop fuel s).
Proof.
  revert s. induction fuel as [|fuel IH]; intros s Hs; simpl; [exact Hs|].
  destruct (loadedBlocks s) as [|index rest] eqn:Hlb; [exact Hs|].
  destruct (_ >? _); [|exact Hs].
  destruct (_ >=? _); [now apply IH|].
  destruct (blockList _ !! index); apply IH; [|exact Hs].
  apply (alter_keysBounded index (set_b_rows None) (set_loadedBlocks (fun _ => rest) s)).
  exact Hs.
Qed.

Lemma unloadBlocksIfNeeded_keysBounded (fromTimer : bool) :
  preserves keysBounded (@unloadBlocksIfNeeded Row fromTimer).
Proof.
  unfold unloadBlocksIfNeeded. destruct fromTimer; simpl.
  - repeat first
      [ apply preserves_modify; intros ? ?; apply unloadLoop_keysBounded; assumption
      | kb_step ].
  - repeat kb_step.
Qed.

Lemma getRow_keysBounded (id : RowId) : preserves keysBounded (@getRow Row codec id).
Proof.
  unfold getRow.
  repeat first [apply loadBlock_keysBounded | apply unloadBlocksIfNeeded_keysBounded | kb_step].
Qed.

Lemma finalizeBlocks_keysBounded : preserves keysBounded (@finalizeBlocks Row codec).
Proof.
  unfold finalizeBlocks. apply preserves_bind; [apply preserves_gets | intros todo].
  apply preserves_forEachWhile. intros index.
  apply preserves_bind; [apply preserves_gets | intros dead].
  destruct dead; [apply preserves_ret|].
  apply preserves_bind; [apply preserves_gets | intros saved].
  destruct (index >=? saved); [apply preserves_ret|].
  apply preserves_bind_gets. intros ob.
  eapply triple_bind with (Q := fun _ => keysBounded);
    [|intros ?; change (preserves keysBounded
         (modify (set_blocksNotFinalized (fun x => x ∖ {[index]})) ;;
          modify (set_blockSetDefrag (fun x => {[index]} ∪ x)) ;; @ret State _ true));
      repeat kb_step].
  destruct ob as [block|]; [|intros s [Hs _]; exact Hs].
  destruct (b_final block); [intros s [Hs _]; exact Hs|].
  eapply triple_bind
    with (Q := fun _ s => keysBounded s /\ index <= currentBlockIndex s).
  { intros s [Hs Hb]. simpl. split; [exact Hs|]. apply Hs. rewrite <- Hb. eauto. }
  intros path.
  eapply triple_bind
    with (Q := fun _ s => keysBounded s /\ index <= currentBlockIndex s)
         (E := keysBounded).
  { eapply triple_conseq;
      [apply (coreStable_keysBounded index), loadFile_coreStable
      | intros ? H; exact H | intros ? ? H; exact H | intros ? [H _]; exact H ]. }
  intros arr.
  eapply triple_bind
    with (Q := fun _ s => keysBounded s /\ index <= currentBlockIndex s)
         (E := keysBounded).
  { eapply triple_conseq;
      [apply (coreStable_keysBounded index), writeFinal_coreStable
      | intros ? H; exact H | intros ? ? H; exact H | intros ? [H _]; exact H ]. }
  intros ?.
  eapply triple_bind
    with (Q := fun _ s => keysBounded s /\ index <= currentBlockIndex s)
         (E := keysBounded).
  { eapply triple_conseq;
      [apply (coreStable_keysBounded index), fsRename_coreStable
      | intros ? H; exact H | intros ? ? H; exact H | intros ? [H _]; exact H ]. }
  intros ?.
  eapply triple_bind with (Q := fun _ => keysBounded) (E := keysBounded).
  { intros s [Hs Hb]. simpl. now apply insert_keysBounded. }
  intros ?. apply coreStable_bounded, fdWrite_coreStable.
Qed.

Lemma defragBlock_keysBounded (step key : Z) :
  preserves keysBounded (@defragBlock Row codec step key).
Proof.
  unfold defragBlock, modifyDelta.
  repeat first
    [ apply loadBlock_keysBounded | apply addToCurrentBlock_keysBounded | kb_step ].
Qed.

Lemma defragment_keysBounded (step : Z) :
  preserves keysBounded (@defragment Row codec step).
Proof.
  unfold defragment. repeat first [apply defragBlock_keysBounded | kb_step].
Qed.

Lemma writeJoined_keysBounded (name : FdName) (buf : list string) :
  preserves keysBounded (@writeJoined Row name buf).
Proof. unfold writeJoined, fdWrite. repeat kb_step. Qed.

Lemma openFd_keysBounded (name : FdName) (p : string) :
  preserves keysBounded (@openFd Row name p).
Proof. unfold openFd. repeat kb_step. Qed.

Lemma writeBlockRows_keysBounded (recs : list (Z * RowId * Row)) (buf : list string) :
  preserves keysBounded (writeBlockRows recs buf).
Proof.
  revert buf. induction recs as [|[[index id] row] recs IH]; intros buf; simpl.
  - apply preserves_ret.
  - unfold closeFd.
    repeat first
      [ apply IH | apply writeJoined_keysBounded | apply openFd_keysBounded | kb_step ].
Qed.

Lemma dumpMaps_keysBounded : preserves keysBounded (@dumpMaps Row codec).
Proof. apply coreStable_bounded, dumpMaps_coreStable. Qed.

Lemma saveDelta_keysBounded (step : Z) : preserves keysBounded (@saveDelta Row codec step).
Proof.
  unfold saveDelta, collectDefragCandidates, fsUnlink.
  repeat first
    [ apply defragment_keysBounded | apply writeBlockRows_keysBounded
    | apply finalizeBlocks_keysBounded | apply unloadBlocksIfNeeded_keysBounded
    | apply dumpMaps_keysBounded | apply writeJoined_keysBounded
    | apply openFd_keysBounded | progress unfold getDelta | kb_step ].
Qed.

Lemma runOp_keysBounded (o : Op) : preserves keysBounded (@runOp Row codec o).
Proof.
  destruct o; simpl.
  - apply setRow_keysBounded.
  - apply deleteRow_keysBounded.
  - apply preserves_bind; [apply getRow_keysBounded | intros ?; apply preserves_ret].
  - apply saveDelta_keysBounded.
  - unfold cancelDelta. kb_step.
  - apply preserves_bind; [apply preserves_gets | intros ?].
    apply preserves_when, unloadBlocksIfNeeded_keysBounded.
  - unfold destroy, closeAllFiles, closeFd. repeat kb_step.
Qed.

Lemma loadBlockList_keysBounded (data : list (BlockRec Row)) :
  preserves keysBounded (@loadBlockList Row data).
Proof.
  unfold loadBlockList. apply preserves_forEach. intros [index|block].
  - kb_step.
  - intros s Hs. unfold bind, modify, gets, when. simpl.
    destruct (Z.gtb_spec (b_index block) (currentBlockIndex s)) as [Hgt|Hle]; simpl.
    + intros k [b Hk]. simpl in *.
      destruct (decide (b_index block = k)) as [<-|Hne]; [lia|].
      rewrite lookup_insert_ne in Hk by assumption.
      assert (k <= currentBlockIndex s) by (apply Hs; eauto). lia.
    + now apply insert_keysBounded.
Qed.

(** While [load] reads the index files no block is registered. *)
Definition NoBlocks (s : State) : Prop := blockList s = ∅.

Lemma NoBlocks_keysBounded (s : State) : NoBlocks s -> keysBounded s.
Proof. intros Hs k [b Hk]. rewrite Hs, lookup_empty in Hk. discriminate. Qed.

Lemma coreStable_NoBlocks {A} (m : M State A) : coreStable m -> preserves NoBlocks m.
Proof.
  intros Hm s Hs. specialize (Hm (core s) s eq_refl).
  assert (Hgo : forall s', core s' = core s -> NoBlocks s').
  { unfold core, NoBlocks. intros s' Heq. injection Heq as -> _ _ _. exact Hs. }
  destruct (m s); apply Hgo, Hm.
Qed.

Ltac noblocks_step :=
  first
    [ apply coreStable_NoBlocks;
      first [ apply loadFile_coreStable | apply fsStatSize_coreStable
            | apply loadBlockIndex_coreStable ]
    | apply preserves_modify; let s := fresh "s" in intros s ?; destruct s; assumption
    | apply preserves_modify; intros ? ?; reflexivity
    | preserves_step ].

Ltac noblocks_phase :=
  eapply triple_bind with (Q := fun _ => NoBlocks) (E := keysBounded);
  [ eapply triple_conseq with (P' := NoBlocks) (Q' := fun _ => NoBlocks) (E' := NoBlocks);
    [ lazymatch goal with
      | |- triple NoBlocks ?m _ _ => change (preserves NoBlocks m)
      end
    | auto | auto | apply NoBlocks_keysBounded ]
  | intros ? ].

Lemma load_keysBounded :
  triple NoBlocks (@load Row codec) (fun _ => keysBounded) keysBounded.
Proof.
  unfold load, pathExists.
  repeat (noblocks_phase; [solve [repeat noblocks_step]|]).
  eapply triple_conseq with (P' := keysBounded) (Q' := fun _ => keysBounded)
                            (E' := keysBounded);
    [| apply NoBlocks_keysBounded | auto | auto].
  lazymatch goal with
  | |- triple keysBounded ?m _ _ => change (preserves keysBounded m)
  end.
  repeat first
    [ apply loadBlockList_keysBounded | apply loadBlock_keysBounded
    | progress unfold loadFile, fsStatSize | kb_step ].
Qed.

(** X4.  In every state of an engine a block is registered under its own
    index, which is at most the current block index, and the last saved
    block index is at most the current one; so the index
    [currentBlockIndex + 1] that [createNewBlock] takes belongs to no
    registered block. *)
Theorem reachable_block_indexes (s : State) :
  reachable s ->
  (forall k b, blockList s !! k = Some b -> b_index b = k /\ k <= currentBlockIndex s)
  /\ lastSavedBlockIndex s <= currentBlockIndex s
  /\ 0 <= currentBlockIndex s
  /\ blockList s !! (currentBlockIndex s + 1) = None.
Proof.
  intros Hr.
  assert (Hkb : keysBounded s).
  { induction Hr as [path cacheSize compr files | path cacheSize compr files | s o _ IH].
    - apply NoBlocks_keysBounded. reflexivity.
    - pose proof (load_keysBounded (constructor path cacheSize compr files) eq_refl) as H.
      destruct (load _); exact H.
    - apply preserves_final; [apply runOp_keysBounded | exact IH]. }
  destruct (reachable_Inv s Hr) as (Hcoh & Hsaved & _ & Hcur).
  repeat split; try assumption.
  - eapply Hcoh; eauto.
  - apply Hkb. eauto.
  - destruct (blockList s !! (currentBlockIndex s + 1)) as [b|] eqn:Hb; [|reflexivity].
    assert (currentBlockIndex s + 1 <= currentBlockIndex s) by (apply Hkb; eauto). lia.
Qed.

(** *** The cache *)

Lemma unloadLoop_length (fuel : nat) (s : State) :
  (length (loadedBlocks s) <= fuel)%nat ->
  Z.of_nat (length (loadedBlocks (unloadLoop fuel s))) <= Z.max 0 (loadedBlocksCount s).
Proof.
  revert s. induction fuel as [|fuel IH]; intros s Hlen.
  - simpl. destruct (loadedBlocks s); simpl in *; lia.
  - cbn [unloadLoop]. destruct (loadedBlocks s) as [|index rest] eqn:Hlb.
    + rewrite Hlb. simpl. lia.
    + destruct (Z.gtb_spec (Z.of_nat (length (index :: rest))) (loadedBlocksCount s))
        as [Hgt|Hle]; [|rewrite Hlb; lia].
      simpl in Hlen.
      assert (Hrest : forall s1 : State,
                loadedBlocks s1 = rest -> loadedBlocksCount s1 = loadedBlocksCount s ->
                Z.of_nat (length (loadedBlocks (unloadLoop fuel s1)))
                <= Z.max 0 (loadedBlocksCount s)).
      { intros s1 H1 H2. rewrite <- H2. apply IH. rewrite H1. lia. }
      destruct (_ >=? _); [now apply Hrest|].
      destruct (blockList _ !! index); now apply Hrest.
Qed.

(** The loop changes the list of loaded blocks and the blocks, nothing
    else. *)
Lemma unloadLoop_frame {A} (f : State -> A) (fuel : nat) (s : State) :
  (forall g s0, f (set_loadedBlocks g s0) = f s0) ->
  (forall g s0, f (set_blockList g s0) = f s0) ->
  f (unloadLoop fuel s) = f s.
Proof.
  intros Hl Hb. revert s. induction fuel as [|fuel IH]; intros s; [reflexivity|].
  cbn [unloadLoop]. destruct (loadedBlocks s) as [|index rest]; [reflexivity|].
  destruct (_ >? _); [|reflexivity].
  destruct (_ >=? _); [now rewrite IH, Hl|].
  destruct (blockList _ !! index); now rewrite IH, ?Hb, Hl.
Qed.

(** X5.  When the unload timer fires, the list of loaded blocks is cut
    down to the cache size, the blocks that were created and are saved by
    now leave the list of new blocks, and the timer is cleared. *)
Theorem unload_cuts_to_cache_size (s : State) :
  exists s',
    unloadBlocksIfNeeded true s = Ok tt s'
    /\ Z.of_nat (length (loadedBlocks s')) <= Z.max 0 (loadedBlocksCount s)
    /\ (forall index, index ∈ newBlocks s' <->
          index ∈ newBlocks s /\ lastSavedBlockIndex s <= index)
    /\ unloadTimer s' = false.
Proof.
  unfold unloadBlocksIfNeeded. cbn [negb]. cbv beta iota delta [bind modify].
  eexists. split; [reflexivity|]. split; [|split].
  - match goal with
    | |- context [unloadLoop ?f ?s1] =>
        change (loadedBlocksCount s) with (loadedBlocksCount s1);
        apply (unloadLoop_length f s1)
    end.
    reflexivity.
  - intros index.
    rewrite (unloadLoop_frame newBlocks) by reflexivity. simpl.
    rewrite list_elem_of_filter. split; intros [? ?]; split; try assumption; lia.
  - rewrite (unloadLoop_frame unloadTimer) by reflexivity. reflexivity.
Qed.

(** *** Files *)

(** X6.  [loadFile] only reads: whatever it does, the state is as before;
    and it throws on a file that is missing or empty. *)
Theorem loadFile_reads_only {A} (parse : string -> option A) (p : string) (s : State) :
  final (loadFile parse p s) = s
  /\ (disk s !! p = None -> exists msg, loadFile parse p s = Throw msg s)
  /\ (disk s !! p = Some EmptyString ->
      loadFile parse p s = Throw "TableRowsFile: file is empty" s).
Proof.
  split; [apply loadFile_state|].
  unfold loadFile, bind, gets, throw. split; intros ->; eauto.
Qed.

(** X7.  What [writeFinal] writes, [loadFile] reads back: the data is what
    gets parsed (after a blank when it is not compressed), provided that
    [inflate] undoes [deflate]. *)
Theorem writeFinal_then_loadFile {A} (parse : string -> option A) (p data : string)
    (s : State) :
  (compressed s <> 0 -> inflate (deflate (compressed s) data) = Some data) ->
  exists s1,
    writeFinal p data s = Ok tt s1
    /\ loadFile parse p s1
       = match parse (if compressed s =? 0 then String " " data else data) with
         | Some result => Ok result s1
         | None => Throw "load failed" s1
         end.
Proof.
  intros Hcodec. unfold writeFinal, bind, gets.
  destruct (Z.eqb_spec (compressed s) 0) as [Hz|Hnz];
    cbv beta iota delta [modify]; eexists; (split; [reflexivity|]).
  - apply (loadFile_parses parse p _ "1" data); [apply lookup_insert_eq | reflexivity].
  - apply (loadFile_parses parse p _ "2" (deflate (compressed s) data));
      [apply lookup_insert_eq | exact (Hcodec Hnz)].
Qed.

(** *** Destruction *)

Lemma forEachWhile_stops {B} (l : list B) (body : B -> M State bool) (s : State) :
  (forall x, body x s = Ok false s) -> forEachWhile l body s = Ok tt s.
Proof.
  intros Hbody. destruct l as [|x l]; [reflexivity|].
  simpl. unfold bind. now rewrite Hbody.
Qed.

(** X8.  [destroy] closes the three descriptors, clears the timer and sets
    [destroyed]; from then on the finalization and defragmentation loops
    leave at once, without touching anything. *)
Theorem destroy_halts_background (s : State) (step : Z) :
  exists s',
    destroy s = Ok tt s'
    /\ destroyed s' = true /\ unloadTimer s' = false
    /\ fd_blockIndex (fd s') = None /\ fd_blockList (fd s') = None
    /\ fd_blockRows (fd s') = None
    /\ finalizeBlocks s' = Ok tt s'
    /\ defragment step s' = Ok tt s'.
Proof.
  eexists. split; [reflexivity|]. repeat split.
  - unfold finalizeBlocks. unfold bind at 1, gets at 1.
    apply forEachWhile_stops. intros index. reflexivity.
  - unfold defragment. unfold bind at 1, gets at 1.
    apply forEachWhile_stops. intros key. reflexivity.
Qed.

(** *** Recovery of an empty directory *)

(** X9.  [load] on a directory without index and block list files returns
    0 as the next id and leaves an engine with no row and no block, whatever
    it held before. *)
Theorem load_without_files (s : State) :
  (forall name, name ∈ ["/blockindex.0"; "/blockindex.1"; "/blocklist.0"; "/blocklist.1"]%string ->
     disk s !! String.append (tablePath s) name = None) ->
  exists s',
    load s = Ok 0 s'
    /\ blockIndex s' = ∅ /\ blockList s' = ∅
    /\ currentBlockIndex s' = 0 /\ lastSavedBlockIndex s' = 0
    /\ blocksNotFinalized s' = ∅ /\ disk s' = disk s.
Proof.
  intros Hmissing.
  assert (H0 : disk s !! String.append (tablePath s) "/blockindex.0" = None)
    by (apply Hmissing; repeat constructor).
  assert (H1 : disk s !! String.append (tablePath s) "/blockindex.1" = None)
    by (apply Hmissing; repeat constructor).
  assert (H2 : disk s !! String.append (tablePath s) "/blocklist.0" = None)
    by (apply Hmissing; repeat constructor).
  assert (H3 : disk s !! String.append (tablePath s) "/blocklist.1" = None)
    by (apply Hmissing; repeat constructor).
  unfold load, pathExists.
  assert (Hnone : bool_decide (is_Some (@None string)) = false)
    by (apply bool_decide_eq_false_2; intros [? ?]; discriminate).
  cbv beta iota zeta delta [bind gets modify when ret]. simpl.
  repeat first
    [ rewrite H0 | rewrite H1 | rewrite H2 | rewrite H3 | rewrite Hnone
    | rewrite lookup_empty | rewrite map_to_list_empty | progress simpl ].
  eexists. split; [reflexivity|]. repeat split.
Qed.

(** *** File names of blocks *)

(** X10.  Different block indexes (from 0 on) have different block rows
    files, below one million, from one million on, and across. *)
Theorem blockRowsFilePath_inj (tp : string) (i j : Z) :
  0 <= i -> 0 <= j -> i <> j -> blockRowsFilePath tp i <> blockRowsFilePath tp j.
Proof.
  intros Hi Hj Hne Heq0. apply Hne. revert Heq0. unfold blockRowsFilePath.
  destruct (Z.ltb_spec i 1000000) as [Hi6|Hi6], (Z.ltb_spec j 1000000) as [Hj6|Hj6];
    intros Heq;
    apply JsFacts.append_inj_l, JsFacts.append_inj_l, JsNames.append_inj_r in Heq.
  - apply (JsNames.padStart_toString_inj 6) in Heq; [assumption | lia | lia | lia].
  - apply (f_equal String.length) in Heq.
    rewrite !JsNames.length_padStart, !JsNames.length_toString in Heq by assumption.
    pose proof (JsFacts.numDigits_le 6 i ltac:(lia)
                  ltac:(change (10 ^ Z.of_nat 6) with 1000000; lia)). lia.
  - apply (f_equal String.length) in Heq.
    rewrite !JsNames.length_padStart, !JsNames.length_toString in Heq by assumption.
    pose proof (JsFacts.numDigits_le 6 j ltac:(lia)
                  ltac:(change (10 ^ Z.of_nat 6) with 1000000; lia)). lia.
  - apply (JsNames.padStart_toString_inj 12) in Heq; [assumption | lia | lia | lia].
Qed.


(** *** What a call records in its delta *)

(** The step has the pending delta [d]. *)
Definition pending (step : Z) (d : Delta Row) (s : State) : Prop :=
  deltas s !! step = Some d.

(** The delta of another step is [x]. *)
Definition otherDelta (step' : Z) (x : option (Delta Row)) (s : State) : Prop :=
  deltas s !! step' = x.

(** A step of a proof that the delta of [step'] is left alone by code that
    works on the delta of another step. *)
Ltac delta_step Hne :=
  first
    [ apply preserves_modify; let s := fresh "s" in intros s ?; destruct s; assumption
    | apply preserves_modify; intros ? ?; unfold otherDelta; cbn [deltas set_deltas];
      first [ rewrite lookup_insert_ne by exact Hne
            | rewrite lookup_alter_ne by exact Hne
            | rewrite lookup_delete_ne by exact Hne ]; assumption
    | preserves_step ].

Lemma getDelta_pending (step : Z) (x : option (Delta Row)) :
  triple (fun s : State => deltas s !! step = x) (getDelta step)
    (fun d s' => d = default emptyDelta x /\ pending step d s')
    (fun _ => False).
Proof.
  intros s Hs. unfold getDelta, bind, gets, pending. rewrite Hs.
  destruct x as [d|]; simpl; [auto|].
  split; [reflexivity | apply lookup_insert_eq].
Qed.

Lemma createNewBlock_pending (step : Z) (d : Delta Row) :
  preserves (pending step d) (@createNewBlock Row).
Proof. unfold createNewBlock. stable. Qed.

(** [addToCurrentBlock] appends the block and the row to the delta of its
    step. *)
Lemma addToCurrentBlock_records (id : RowId) (row : Row) (rowStr : string) (step : Z)
    (x : option (Delta Row)) :
  triple (fun s : State => deltas s !! step = x) (addToCurrentBlock id row rowStr step)
    (fun index =>
       pending step
         (push_d_blockRows (index, id, row)
            (push_d_blockList (index, 1) (default emptyDelta x))))
    (pending step (default emptyDelta x)).
Proof.
  set (d0 := default emptyDelta x). unfold addToCurrentBlock.
  eapply triple_bind with (Q := fun _ => pending step d0).
  { eapply triple_conseq;
      [apply getDelta_pending | intros ? H; exact H
      | intros ? ? [-> H]; exact H | intros ? []]. }
  intros _.
  apply triple_bind with (Q := fun _ => pending step d0); [apply preserves_gets|].
  intros cur.
  apply triple_bind with (Q := fun _ => pending step d0); [apply preserves_gets|].
  intros ob.
  apply triple_bind with (Q := fun _ => pending step d0).
  { destruct ob; [apply preserves_ret | apply createNewBlock_pending]. }
  intros block.
  apply triple_bind with (Q := fun _ => pending step d0).
  { destruct (_ >? _); [apply createNewBlock_pending | apply preserves_ret]. }
  intros block'.
  apply triple_bind with (Q := fun _ => pending step d0); [apply preserves_gets|].
  intros key.
  destruct (b_rows block') as [rows|]; [|intros s Hs; exact Hs].
  intros s Hs. unfold pending in *.
  cbv beta iota delta [bind modify modifyDelta ret].
  cbn [deltas set_deltas set_blockList b_index].
  now rewrite !lookup_alter_eq, Hs.
Qed.

Lemma addToCurrentBlock_otherDelta (id : RowId) (row : Row) (rowStr : string)
    (step step' : Z) (x : option (Delta Row)) :
  step <> step' ->
  preserves (otherDelta step' x) (addToCurrentBlock id row rowStr step).
Proof.
  intros Hne. unfold addToCurrentBlock, getDelta, createNewBlock, modifyDelta.
  repeat delta_step Hne.
Qed.

Lemma deleteRow_otherDelta (id : RowId) (step step' : Z) (x : option (Delta Row)) :
  step <> step' -> preserves (otherDelta step' x) (@deleteRow Row id step).
Proof.
  intros Hne. unfold deleteRow, getDelta, modifyBlock, modifyDelta.
  repeat delta_step Hne.
Qed.

Lemma setRow_otherDelta (id : RowId) (row : Row) (rowStr : string) (step step' : Z)
    (x : option (Delta Row)) :
  step <> step' -> preserves (otherDelta step' x) (setRow id row rowStr step).
Proof.
  intros Hne. unfold setRow, modifyDelta.
  repeat first
    [ apply deleteRow_otherDelta; exact Hne
    | apply addToCurrentBlock_otherDelta; exact Hne
    | progress unfold getDelta | delta_step Hne ].
Qed.

(** X25.  [setRow] writes ahead: when it returns, the delta of its step
    ends with the record of the id and its block for the index journal, the
    record of the row for the block rows file, and the record of the block
    for the block list journal; the deltas of the other steps are as they
    were. *)
Theorem setRow_journals (id : RowId) (row : Row) (rowStr : string) (step : Z)
    (s s' : State) :
  setRow id row rowStr step s = Ok tt s' ->
  exists d bi,
    deltas s' !! step = Some d
    /\ blockIndex s' !! id = Some bi
    /\ last (d_blockIndex d) = Some (id, bi)
    /\ last (d_blockRows d) = Some (bi, id, row)
    /\ last (d_blockList d) = Some (bi, 1)
    /\ forall step', step' <> step -> deltas s' !! step' = deltas s !! step'.
Proof.
  intros Hset.
  assert (Hiso : forall step', step' <> step -> deltas s' !! step' = deltas s !! step').
  { intros step' Hne.
    apply (preserves_Ok (otherDelta step' (deltas s !! step'))
             (setRow id row rowStr step) s s' tt); [|reflexivity | exact Hset].
    apply setRow_otherDelta. congruence. }
  destruct (setRow_clears id step s) as (s1 & _ & _ & Hpre).
  unfold setRow in Hset. rewrite Hpre in Hset. unfold bind at 1 in Hset.
  pose proof (addToCurrentBlock_records id row rowStr step (deltas s1 !! step) s1 eq_refl)
    as Hrec.
  destruct (addToCurrentBlock id row rowStr step s1) as [index s2|e s2]; [|discriminate].
  unfold pending in Hrec.
  cbv beta iota delta [bind modify modifyDelta] in Hset. injection Hset as <-.
  eexists _, index. cbn [deltas blockIndex set_deltas set_blockIndex].
  rewrite lookup_alter_eq, Hrec. cbn [fmap option_fmap option_map].
  split; [reflexivity|]. split; [apply lookup_insert_eq|].
  cbn [d_blockIndex d_blockRows d_blockList push_d_blockIndex push_d_blockRows
         push_d_blockList].
  rewrite !last_snoc. auto.
Qed.

(** X26.  [deleteRow] of a known id deletes logically: the delta of its
    step ends with the record [(id, 0)], which [load] reads as a deletion;
    the block the row was in counts one more deleted row, is marked for the
    defragmentation check and is recorded for the block list journal, and
    its rows are not touched; the deltas of the other steps are as they
    were. *)
Theorem deleteRow_journals (id : RowId) (step : Z) (s : State) (bi : Z) :
  blockIndex s !! id = Some bi ->
  exists s' d,
    deleteRow id step s = Ok tt s'
    /\ deltas s' !! step = Some d
    /\ last (d_blockIndex d) = Some (id, 0)
    /\ (forall step', step' <> step -> deltas s' !! step' = deltas s !! step')
    /\ forall b, blockList s !! bi = Some b ->
         exists b',
           blockList s' !! bi = Some b'
           /\ b_delCount b' = b_delCount b + 1
           /\ b_addCount b' = b_addCount b /\ b_rows b' = b_rows b
           /\ b_index b ∈ blockSetDefrag s'
           /\ last (d_blockList d) = Some (b_index b, 1).
Proof.
  intros Hbi.
  assert (Hiso : forall step', step' <> step ->
            deltas (final (deleteRow id step s)) !! step' = deltas s !! step').
  { intros step' Hne.
    apply (preserves_final (otherDelta step' (deltas s !! step')) (deleteRow id step) s);
      [|reflexivity].
    apply deleteRow_otherDelta. congruence. }
  revert Hiso. unfold deleteRow, getDelta.
  cbv beta iota delta [bind gets modify modifyBlock modifyDelta ret]. rewrite Hbi.
  destruct (deltas s !! step) as [d0|] eqn:Hd;
    cbn [blockList set_deltas]; destruct (blockList s !! bi) as [b|] eqn:Hb;
    cbn [final]; intros Hiso; eexists _, _; (split; [reflexivity|]);
    cbn [deltas blockList blockSetDefrag set_deltas set_blockList set_blockIndex
           set_blockSetDefrag];
    rewrite ?lookup_alter_eq, ?lookup_insert_eq, ?Hd; cbn [fmap option_fmap option_map];
    (split; [reflexivity|]);
    cbn [d_blockIndex d_blockList push_d_blockIndex push_d_blockList];
    rewrite ?last_snoc; (split; [reflexivity|]); (split; [exact Hiso|]);
    intros b0 [= <-]; rewrite ?Hb; cbn [fmap option_fmap option_map];
    eexists; (split; [reflexivity|]); cbn [b_delCount b_addCount b_rows];
    repeat split; set_solver.
Qed.

(** *** Steps do not touch each other's deltas *)

Lemma coreStable_otherDelta {A} (step' : Z) (x : option (Delta Row)) (m : M State A) :
  coreStable m -> preserves (otherDelta step' x) m.
Proof.
  intros Hm s Hs. specialize (Hm (core s) s eq_refl).
  assert (Hgo : forall s', core s' = core s -> otherDelta step' x s').
  { unfold core, otherDelta. intros s' Heq. injection Heq as _ _ _ ->. exact Hs. }
  destruct (m s); apply Hgo, Hm.
Qed.

Lemma loadBlock_otherDelta (step' : Z) (x : option (Delta Row)) (key : Z) :
  preserves (otherDelta step' x) (@loadBlock Row codec key).
Proof. unfold loadBlock, loadFile, modifyBlock. stable. Qed.

Lemma unloadBlocksIfNeeded_otherDelta (step' : Z) (x : option (Delta Row))
    (fromTimer : bool) :
  preserves (otherDelta step' x) (@unloadBlocksIfNeeded Row fromTimer).
Proof.
  unfold unloadBlocksIfNeeded. destruct fromTimer; cbn [negb]; [|stable].
  repeat first
    [ apply preserves_modify; intros s0 Hs0; unfold otherDelta;
      rewrite (unloadLoop_frame deltas) by reflexivity; exact Hs0
    | apply preserves_modify; let s := fresh "s" in intros s ?; destruct s; assumption
    | preserves_step ].
Qed.

Lemma finalizeBlocks_otherDelta (step' : Z) (x : option (Delta Row)) :
  preserves (otherDelta step' x) (@finalizeBlocks Row codec).
Proof.
  unfold finalizeBlocks, loadFile, writeFinal, fsRename, fdWrite. stable.
Qed.

Lemma defragment_otherDelta (step step' : Z) (x : option (Delta Row)) :
  step <> step' -> preserves (otherDelta step' x) (@defragment Row codec step).
Proof.
  intros Hne. unfold defragment, defragBlock, modifyDelta.
  repeat first
    [ apply loadBlock_otherDelta | apply addToCurrentBlock_otherDelta; exact Hne
    | delta_step Hne ].
Qed.

Lemma writeBlockRows_otherDelta (step' : Z) (x : option (Delta Row))
    (recs : list (Z * RowId * Row)) (buf : list string) :
  preserves (otherDelta step' x) (writeBlockRows recs buf).
Proof.
  revert buf. induction recs as [|[[index id] row] recs IH]; intros buf; simpl.
  - apply preserves_ret.
  - repeat first
      [ apply IH
      | apply coreStable_otherDelta, writeJoined_coreStable
      | apply coreStable_otherDelta, closeFd_coreStable
      | apply coreStable_otherDelta, openFd_coreStable
      | apply preserves_modify; let s := fresh "s" in intros s ?; destruct s; assumption
      | preserves_step ].
Qed.

Lemma saveDelta_otherDelta (step step' : Z) (x : option (Delta Row)) :
  step <> step' -> preserves (otherDelta step' x) (@saveDelta Row codec step).
Proof.
  intros Hne. unfold saveDelta, collectDefragCandidates.
  repeat first
    [ apply defragment_otherDelta; exact Hne
    | apply writeBlockRows_otherDelta
    | apply finalizeBlocks_otherDelta
    | apply unloadBlocksIfNeeded_otherDelta
    | apply coreStable_otherDelta, dumpMaps_coreStable
    | apply coreStable_otherDelta, writeJoined_coreStable
    | apply coreStable_otherDelta, openFd_coreStable
    | apply coreStable_otherDelta, fsUnlink_coreStable
    | progress unfold getDelta | delta_step Hne ].
Qed.

(** [saveDelta] ends by forgetting the delta of its step. *)
Lemma saveDelta_forgets (step : Z) :
  triple (fun _ => True) (@saveDelta Row codec step)
    (fun _ s' => deltas s' !! step = None) (fun _ => True).
Proof.
  unfold saveDelta.
  repeat (eapply triple_bind with (Q := fun _ _ => True);
          [intros s0 _; match goal with |- match ?r with _ => _ end => destruct r end;
           exact I
          | intros ?]).
  intros s0 _. apply lookup_delete_eq.
Qed.

(** X27.  Steps are isolated: committing or cancelling one step leaves the
    deltas of every other step as they were, whether [saveDelta] returns or
    throws (its defragmentation records what it moves in the delta of its
    own step); when [saveDelta] returns its step has no delta any more.
    [cancelDelta] forgets the delta and nothing else: rows set in that step
    stay in the index and in their blocks. *)
Theorem delta_steps_isolated (step step' : Z) (s : State) :
  step' <> step ->
  deltas (final (saveDelta step s)) !! step' = deltas s !! step'
  /\ (forall s', saveDelta step s = Ok tt s' -> deltas s' !! step = None)
  /\ exists s',
       cancelDelta step s = Ok tt s'
       /\ deltas s' !! step = None /\ deltas s' !! step' = deltas s !! step'
       /\ blockIndex s' = blockIndex s /\ blockList s' = blockList s
       /\ disk s' = disk s.
Proof.
  intros Hne. split; [|split].
  - apply (preserves_final (otherDelta step' (deltas s !! step')) (saveDelta step) s);
      [|reflexivity].
    apply saveDelta_otherDelta. congruence.
  - intros s' Hsave. pose proof (saveDelta_forgets step s I) as H.
    now rewrite Hsave in H.
  - eexists. split; [reflexivity|]. cbn [deltas blockIndex blockList disk set_deltas].
    rewrite lookup_delete_eq, lookup_delete_ne by congruence. auto.
Qed.

(** *** Finalization *)

(** A loop that goes through all of its list: the invariant follows the
    elements gone through. *)
Lemma forEachWhile_all {A} (I : list A -> State -> Prop) (l : list A)
    (body : A -> M State bool) :
  (forall done x rest, l = done ++ x :: rest ->
     triple (I done) (body x) (fun go s' => go = true /\ I (done ++ [x]) s')
       (fun _ => True)) ->
  triple (I []) (forEachWhile l body) (fun _ => I l) (fun _ => True).
Proof.
  intros Hbody.
  assert (Hgo : forall rest done, l = done ++ rest ->
            triple (I done) (forEachWhile rest body) (fun _ => I l) (fun _ => True)).
  { induction rest as [|x rest IH]; intros done Hl.
    - rewrite app_nil_r in Hl. subst done. intros s Hs. exact Hs.
    - cbn [forEachWhile]. eapply triple_bind; [apply (Hbody done x rest Hl)|].
      intros go s [-> Hs]. apply (IH (done ++ [x])); [|exact Hs].
      now rewrite <- app_assoc. }
  apply (Hgo l []). reflexivity.
Qed.

Lemma preserves_weaken {A} (I : State -> Prop) (m : M State A) :
  preserves I m -> triple I m (fun _ => I) (fun _ => True).
Proof. intros Hm s Hs. specialize (Hm s Hs). destruct (m s); [exact Hm | exact Logic.I]. Qed.

(** What [finalizeBlocks] has done to the engine [s] once it went through
    the indexes [done]; at [x], if any, the block is already rewritten. *)
Definition finalizedUpTo (s : State) (done : list Z) (x : option Z) (s0 : State) : Prop :=
  destroyed s0 = false
  /\ lastSavedBlockIndex s0 = lastSavedBlockIndex s
  /\ blockIndex s0 = blockIndex s
  /\ (forall i, i ∈ blocksNotFinalized s0 <->
        i ∈ blocksNotFinalized s /\ ~ (i ∈ done /\ i < lastSavedBlockIndex s))
  /\ (forall i, i ∈ done -> i < lastSavedBlockIndex s -> i ∈ blockSetDefrag s0)
  /\ (forall i b, i ∈ done \/ Some i = x -> i < lastSavedBlockIndex s ->
        blockList s !! i = Some b ->
        exists b', blockList s0 !! i = Some b' /\ b_final b' = true
                   /\ b_index b' = b_index b /\ b_rows b' = b_rows b)
  /\ (forall i, i ∉ done -> Some i <> x -> blockList s0 !! i = blockList s !! i).

Lemma finalizedUpTo_skip (s : State) (done : list Z) (x : Z) (s0 : State) :
  lastSavedBlockIndex s <= x ->
  finalizedUpTo s done None s0 -> finalizedUpTo s (done ++ [x]) None s0.
Proof.
  intros Hx (Hd & Hl & Hbi & Hnf & Hdf & Hfin & Hkeep).
  split; [exact Hd|]. split; [exact Hl|]. split; [exact Hbi|]. split; [|split; [|split]].
  - intros i. rewrite Hnf, elem_of_app, list_elem_of_singleton.
    split; intros [Hi Hn]; (split; [exact Hi|]); intros [Hin Hlt]; apply Hn.
    + destruct Hin as [Hin| ->]; [auto | lia].
    + auto.
  - intros i Hin Hlt. apply elem_of_app in Hin as [Hin|Hin]; [now apply Hdf|].
    apply list_elem_of_singleton in Hin. lia.
  - intros i b [Hin|Hin] Hlt Hb; [|discriminate].
    apply elem_of_app in Hin as [Hin|Hin]; [apply (Hfin i b); auto|].
    apply list_elem_of_singleton in Hin. lia.
  - intros i Hin _. apply Hkeep; [|discriminate].
    intros Hi. apply Hin, elem_of_app. now left.
Qed.

(** The end of one round: the index leaves [blocksNotFinalized] and is
    marked for the defragmentation check. *)
Lemma finalizedUpTo_round (s : State) (done : list Z) (x : Z) (s0 : State) :
  x < lastSavedBlockIndex s ->
  finalizedUpTo s done (Some x) s0 ->
  finalizedUpTo s (done ++ [x]) None
    (set_blockSetDefrag (fun d => {[x]} ∪ d)
       (set_blocksNotFinalized (fun n => n ∖ {[x]}) s0)).
Proof.
  intros Hx (Hd & Hl & Hbi & Hnf & Hdf & Hfin & Hkeep).
  split; [exact Hd|]. split; [exact Hl|]. split; [exact Hbi|]. split; [|split; [|split]].
  - intros i. cbn [blocksNotFinalized set_blockSetDefrag set_blocksNotFinalized].
    rewrite elem_of_difference, elem_of_singleton, Hnf, elem_of_app,
      list_elem_of_singleton.
    split.
    + intros [[Hi Hn] Hne]. split; [exact Hi|]. intros [[Hin| ->] Hlt]; auto.
    + intros [Hi Hn]. split; [split; [exact Hi|]|].
      * intros [Hin Hlt]. apply Hn. auto.
      * intros ->. apply Hn. auto.
  - intros i Hin Hlt. cbn [blockSetDefrag set_blockSetDefrag set_blocksNotFinalized].
    apply elem_of_app in Hin as [Hin|Hin].
    + apply elem_of_union_r. now apply Hdf.
    + apply list_elem_of_singleton in Hin as ->. apply elem_of_union_l.
      now apply elem_of_singleton.
  - intros i b [Hin|Hin] Hlt Hb; [|discriminate].
    cbn [blockList set_blockSetDefrag set_blocksNotFinalized].
    apply elem_of_app in Hin as [Hin|Hin]; [apply (Hfin i b); auto|].
    apply list_elem_of_singleton in Hin as ->. apply (Hfin x b); auto.
  - intros i Hin _. cbn [blockList set_blockSetDefrag set_blocksNotFinalized].
    apply Hkeep.
    + intros Hi. apply Hin, elem_of_app. now left.
    + intros [= ->]. apply Hin, elem_of_app. right. now apply list_elem_of_singleton.
Qed.

(** The block at [x] is rewritten as final. *)
Lemma finalizedUpTo_rewrite (s : State) (done : list Z) (x : Z) (block block' : Block Row)
    (s0 : State) :
  x ∉ done -> blockList s !! x = Some block ->
  b_final block' = true -> b_index block' = b_index block -> b_rows block' = b_rows block ->
  finalizedUpTo s done None s0 ->
  finalizedUpTo s done (Some x) (set_blockList <[x := block']> s0).
Proof.
  intros Hx Hb Hf Hi Hr (Hd & Hl & Hbi & Hnf & Hdf & Hfin & Hkeep).
  split; [exact Hd|]. split; [exact Hl|]. split; [exact Hbi|]. split; [exact Hnf|].
  split; [exact Hdf|]. split.
  - intros i b [Hin|[= ->]] Hlt Hbi'; cbn [blockList set_blockList].
    + rewrite lookup_insert_ne by (intros ->; contradiction). apply (Hfin i b); auto.
    + rewrite lookup_insert_eq. rewrite Hb in Hbi'. injection Hbi' as <-. eauto.
  - intros i Hin Hne. cbn [blockList set_blockList].
    rewrite lookup_insert_ne by congruence. apply Hkeep; [exact Hin | discriminate].
Qed.

Lemma finalizedUpTo_none (s : State) (done : list Z) (x : Z) (s0 : State) :
  blockList s !! x = None ->
  finalizedUpTo s done None s0 -> finalizedUpTo s done (Some x) s0.
Proof.
  intros Hb (Hd & Hl & Hbi & Hnf & Hdf & Hfin & Hkeep).
  split; [exact Hd|]. split; [exact Hl|]. split; [exact Hbi|]. split; [exact Hnf|].
  split; [exact Hdf|]. split.
  - intros i b [Hin|[= ->]] Hlt Hbi'; [apply (Hfin i b); auto | congruence].
  - intros i Hin _. apply Hkeep; [exact Hin | discriminate].
Qed.

Lemma triple_gets_eq {A B} (P : State -> Prop) (f : State -> A) (v : A)
    (k : A -> M State B) (Q : B -> State -> Prop) (E : State -> Prop) :
  (forall s, P s -> f s = v) -> triple P (k v) Q E -> triple P (bind (gets f) k) Q E.
Proof. intros Hf Hk s Hs. unfold bind, gets. rewrite (Hf s Hs). apply Hk, Hs. Qed.

(** X30.  [finalizeBlocks] on an engine that is not destroyed, when it
    returns: the blocks left in [blocksNotFinalized] are those at or above
    the last saved block index; every block below it that was not final is
    now final, with its index and its loaded rows as before, and is marked
    for the defragmentation check; the other blocks and the index of the
    rows are untouched. *)
Theorem finalizeBlocks_finalizes (s s' : State) :
  destroyed s = false -> finalizeBlocks s = Ok tt s' ->
  (forall i, i ∈ blocksNotFinalized s' <->
     i ∈ blocksNotFinalized s /\ lastSavedBlockIndex s <= i)
  /\ (forall i b, i ∈ blocksNotFinalized s -> i < lastSavedBlockIndex s ->
        blockList s !! i = Some b ->
        exists b', blockList s' !! i = Some b' /\ b_final b' = true
                   /\ b_index b' = b_index b /\ b_rows b' = b_rows b)
  /\ (forall i, i ∈ blocksNotFinalized s -> i < lastSavedBlockIndex s ->
        i ∈ blockSetDefrag s')
  /\ (forall i, i ∉ blocksNotFinalized s -> blockList s' !! i = blockList s !! i)
  /\ blockIndex s' = blockIndex s
  /\ lastSavedBlockIndex s' = lastSavedBlockIndex s.
Proof.
  intros Hd Hrun. unfold finalizeBlocks in Hrun. unfold bind at 1, gets at 1 in Hrun.
  assert (Hinit : finalizedUpTo s [] None s).
  { split; [exact Hd|]. split; [reflexivity|]. split; [reflexivity|].
    split; [|split; [|split]].
    - intros i. split; [intros Hi; split; [exact Hi|] | tauto].
      intros [Hin _]. apply elem_of_nil in Hin. contradiction.
    - intros i Hin. apply elem_of_nil in Hin. contradiction.
    - intros i b [Hin|Hin]; [apply elem_of_nil in Hin; contradiction | discriminate].
    - reflexivity. }
  match type of Hrun with
  | forEachWhile ?l ?body s = _ =>
      pose proof (forEachWhile_all (fun done => finalizedUpTo s done None) l body) as Hloop
  end.
  lapply Hloop; [clear Hloop; intros Hloop|].
  - specialize (Hloop s Hinit). rewrite Hrun in Hloop.
    destruct Hloop as (_ & Hl' & Hbi' & Hnf & Hdf & Hfin & Hkeep).
    split; [|split; [|split; [|split; [|split]]]].
    + intros i. rewrite Hnf. split; intros [Hi Hn]; (split; [exact Hi|]).
      * destruct (Z.le_gt_cases (lastSavedBlockIndex s) i) as [Hle|Hgt]; [exact Hle|].
        exfalso. apply Hn. split; [now apply elem_of_elements | exact Hgt].
      * intros [_ Hlt]. lia.
    + intros i b Hi. apply Hfin. left. now apply elem_of_elements.
    + intros i Hi. apply Hdf. now apply elem_of_elements.
    + intros i Hi. apply Hkeep; [|discriminate]. intros Hin. apply Hi.
      now apply elem_of_elements in Hin.
    + exact Hbi'.
    + exact Hl'.
  - clear Hloop Hrun Hinit. intros done x rest Hl.
    assert (Hx : x ∉ done).
    { pose proof (NoDup_elements (blocksNotFinalized s)) as Hnd. rewrite Hl in Hnd.
      apply NoDup_app in Hnd as (_ & Hnd & _). intros Hin.
      apply (Hnd x Hin), list_elem_of_here. }
    apply triple_gets_eq with (v := false); [intros s0 H; apply H|]. cbv iota.
    apply triple_gets_eq with (v := lastSavedBlockIndex s); [intros s0 H; apply H|].
    destruct (Z.geb_spec x (lastSavedBlockIndex s)) as [Hge|Hlt].
    { intros s0 Hs0. split; [reflexivity|]. apply finalizedUpTo_skip; [lia | exact Hs0]. }
    apply triple_gets_eq with (v := blockList s !! x).
    { intros s0 (_ & _ & _ & _ & _ & _ & Hkeep). apply Hkeep; [exact Hx | discriminate]. }
    apply triple_bind with (Q := fun _ => finalizedUpTo s done (Some x)).
    + destruct (blockList s !! x) as [block|] eqn:Hb;
        [|intros s0 Hs0; now apply finalizedUpTo_none].
      destruct (b_final block) eqn:Hf; [intros s0 _; exact Logic.I|].
      apply triple_bind with (Q := fun _ => finalizedUpTo s done None);
        [apply preserves_weaken, preserves_gets|].
      intros path.
      apply triple_bind with (Q := fun _ => finalizedUpTo s done None);
        [apply preserves_weaken; unfold loadFile; stable|].
      intros arr.
      apply triple_bind with (Q := fun _ => finalizedUpTo s done None);
        [apply preserves_weaken; unfold writeFinal; stable|].
      intros _.
      apply triple_bind with (Q := fun _ => finalizedUpTo s done None);
        [apply preserves_weaken; unfold fsRename; stable|].
      intros _.
      apply triple_bind with (Q := fun _ => finalizedUpTo s done (Some x)).
      { intros s0 Hs0. now apply finalizedUpTo_rewrite with (block := block). }
      intros _. apply preserves_weaken. unfold fdWrite. stable.
    + intros _ s0 Hs0. cbv beta iota delta [bind modify ret].
      split; [reflexivity|]. now apply finalizedUpTo_round.
Qed.
End Props.

(** *** Examples *)

#[local] Existing Instance demoCodec.

Lemma setRow_then_getRow_witness :
  exists s',
    @setRow string demoCodec (IdNum 1) "{}" "{}" 1 demoNew = Ok tt s'
    /\ hasRow (IdNum 1) s' = true
    /\ @getRow string demoCodec (IdNum 1) s' = Ok (Some "{}"%string) s'.
Proof.
  apply (@setRow_then_getRow string demoCodec (IdNum 1) "{}" "{}" 1 demoNew).
  - intros k b Hb. vm_compute in Hb. discriminate.
  - intros b Hb. vm_compute in Hb. discriminate.
Defined.

Lemma setRow_other_rows_witness :
  (forall id', id' <> IdNum 1 ->
     blockIndex (final (@setRow string demoCodec (IdNum 1) "{}" "{}" 1 demoNew)) !! id'
     = blockIndex demoNew !! id')
  /\ getAllIdsSize (final (@setRow string demoCodec (IdNum 1) "{}" "{}" 1 demoNew))
     = (if hasRow (IdNum 1) demoNew then getAllIdsSize demoNew
        else getAllIdsSize demoNew + 1).
Proof.
  apply (@setRow_other_rows string demoCodec (IdNum 1) "{}" "{}" 1 demoNew).
  vm_compute. reflexivity.
Defined.

Lemma reachable_block_indexes_witness :
  (forall k b, blockList demoDeleted !! k = Some b ->
     b_index b = k /\ k <= currentBlockIndex demoDeleted)
  /\ lastSavedBlockIndex demoDeleted <= currentBlockIndex demoDeleted
  /\ 0 <= currentBlockIndex demoDeleted
  /\ blockList demoDeleted !! (currentBlockIndex demoDeleted + 1) = None.
Proof.
  apply (@reachable_block_indexes string demoCodec).
  apply (@reach_step string demoCodec _ (OpDeleteRow (IdNum 1) 1)).
  apply (@reach_step string demoCodec _ (OpSetRow (IdNum 1) "{}" "{}" 1)).
  apply reach_new.
Defined.

Lemma writeFinal_then_loadFile_witness :
  exists s1,
    @writeFinal string demoCodec "t/blockindex.0" "[]" demoNew = Ok tt s1
    /\ @loadFile string demoCodec _ JSON_parse_index "t/blockindex.0" s1
       = match JSON_parse_index (if compressed demoNew =? 0 then String " " "[]" else "[]") with
         | Some result => Ok result s1
         | None => Throw "load failed" s1
         end.
Proof.
  apply (@writeFinal_then_loadFile string demoCodec _ JSON_parse_index
           "t/blockindex.0" "[]" demoNew).
  intros _. reflexivity.
Defined.

Lemma load_without_files_witness :
  exists s',
    @load string demoCodec demoNew = Ok 0 s'
    /\ blockIndex s' = ∅ /\ blockList s' = ∅
    /\ currentBlockIndex s' = 0 /\ lastSavedBlockIndex s' = 0
    /\ blocksNotFinalized s' = ∅ /\ disk s' = disk demoNew.
Proof.
  apply (@load_without_files string demoCodec demoNew).
  intros name _. reflexivity.
Defined.

Lemma blockRowsFilePath_inj_witness :
  blockRowsFilePath "t" 999999 <> blockRowsFilePath "t" 1000000.
Proof.
  apply (blockRowsFilePath_inj "t" 999999 1000000); lia.
Defined.

(** An engine holding one row, set in step 1 and not committed yet. *)
Definition demoRow : @State string :=
  final (@setRow string demoCodec (IdNum 1) "{}" "{}" 1 demoNew).

Lemma setRow_journals_witness :
  exists d bi,
    deltas demoRow !! 1 = Some d
    /\ blockIndex demoRow !! IdNum 1 = Some bi
    /\ last (d_blockIndex d) = Some (IdNum 1, bi)
    /\ last (d_blockRows d) = Some (bi, IdNum 1, "{}"%string)
    /\ last (d_blockList d) = Some (bi, 1)
    /\ forall step', step' <> 1 -> deltas demoRow !! step' = deltas demoNew !! step'.
Proof.
  apply (@setRow_journals string demoCodec (IdNum 1) "{}" "{}" 1 demoNew demoRow).
  vm_compute. reflexivity.
Defined.

Lemma deleteRow_journals_witness :
  exists s' d,
    @deleteRow string (IdNum 1) 2 demoRow = Ok tt s'
    /\ deltas s' !! 2 = Some d
    /\ last (d_blockIndex d) = Some (IdNum 1, 0)
    /\ (forall step', step' <> 2 -> deltas s' !! step' = deltas demoRow !! step')
    /\ forall b, blockList demoRow !! 1 = Some b ->
         exists b',
           blockList s' !! 1 = Some b'
           /\ b_delCount b' = b_delCount b + 1
           /\ b_addCount b' = b_addCount b /\ b_rows b' = b_rows b
           /\ b_index b ∈ blockSetDefrag s'
           /\ last (d_blockList d) = Some (b_index b, 1).
Proof.
  apply (@deleteRow_journals string (IdNum 1) 2 demoRow 1).
  vm_compute. reflexivity.
Defined.

Lemma delta_steps_isolated_witness :
  deltas (final (@saveDelta string demoCodec 2 demoRow)) !! 1 = deltas demoRow !! 1
  /\ (forall s', @saveDelta string demoCodec 2 demoRow = Ok tt s' -> deltas s' !! 2 = None)
  /\ exists s',
       @cancelDelta string 2 demoRow = Ok tt s'
       /\ deltas s' !! 2 = None /\ deltas s' !! 1 = deltas demoRow !! 1
       /\ blockIndex s' = blockIndex demoRow /\ blockList s' = blockList demoRow
       /\ disk s' = disk demoRow.
Proof.
  apply (@delta_steps_isolated string demoCodec 2 1 demoRow). lia.
Defined.

(** An engine whose block 1 is not final, has a rows file without records
    and lies below the last saved block index; the block list journal is
    open. *)
Definition demoUnfinalized : @State string :=
  set_lastSavedBlockIndex (fun _ => 2)
    (final (@openFd string FdBlockList "t/blocklist.1"
       (final (@openFd string FdBlockRows (blockRowsFilePath "t" 1) demoRow)))).

Definition demoFinalized : @State string :=
  final (@finalizeBlocks string demoCodec demoUnfinalized).

Lemma finalizeBlocks_finalizes_witness :
  (forall i, i ∈ blocksNotFinalized demoFinalized <->
     i ∈ blocksNotFinalized demoUnfinalized /\ lastSavedBlockIndex demoUnfinalized <= i)
  /\ (forall i b, i ∈ blocksNotFinalized demoUnfinalized ->
        i < lastSavedBlockIndex demoUnfinalized ->
        blockList demoUnfinalized !! i = Some b ->
        exists b', blockList demoFinalized !! i = Some b' /\ b_final b' = true
                   /\ b_index b' = b_index b /\ b_rows b' = b_rows b)
  /\ (forall i, i ∈ blocksNotFinalized demoUnfinalized ->
        i < lastSavedBlockIndex demoUnfinalized -> i ∈ blockSetDefrag demoFinalized)
  /\ (forall i, i ∉ blocksNotFinalized demoUnfinalized ->
        blockList demoFinalized !! i = blockList demoUnfinalized !! i)
  /\ blockIndex demoFinalized = blockIndex demoUnfinalized
  /\ lastSavedBlockIndex demoFinalized = lastSavedBlockIndex demoUnfinalized.
Proof.
  apply (@finalizeBlocks_finalizes string demoCodec demoUnfinalized demoFinalized).
  - reflexivity.
  - vm_compute. reflexivity.
Defined.

End EngineProps.
(** ** More about the sharded table coordinator *)

Module CoordinatorProps.
Import Exec ExecFacts ShardedTable ShardedTableFacts.

Section Props.
Context {Table Data : Type} {basicTable : BasicTable Table Data}.
Abbreviation State := (@State Table).

(** A loop keeps what its body keeps on the elements it runs over. *)
Lemma preserves_forEachWhile_elem {A} (I : State -> Prop) (l : list A)
    (body : A -> M State bool) :
  (forall x, x ∈ l -> preserves I (body x)) -> preserves I (forEachWhile l body).
Proof.
  induction l as [|x l IH]; intros Hb; simpl.
  - apply preserves_ret.
  - apply preserves_bind; [apply Hb, list_elem_of_here|].
    intros [|]; [|apply preserves_ret].
    apply IH. intros y Hy. apply Hb, list_elem_of_further, Hy.
Qed.

(** [_checkCachedShardLock] and [_checkTables] keep what does not depend on
    the fields they set. *)
Lemma checkCachedShardLock_frame (P : State -> Prop) :
  (forall q s, P s -> P (set_cachedShardLock (fun _ => q) s)) ->
  preserves P _checkCachedShardLock.
Proof.
  intros HP s Hs. destruct (checkCachedShardLock_final s) as [q Hq].
  destruct (_checkCachedShardLock s); simpl in Hq; subst; now apply HP.
Qed.

Lemma checkTables_frame (P : State -> Prop) :
  (forall b s, P s -> P (set_needCheckTables (fun _ => b) s)) ->
  (forall b s, P s -> P (set_checkingTables (fun _ => b) s)) ->
  preserves P _checkTables.
Proof.
  intros Hn Hc s Hs. unfold _checkTables, bind, modify, gets, ret.
  cbn [checkingTables set_needCheckTables].
  destruct (checkingTables s); [now apply Hn|].
  pose proof (checkErrors_state (set_needCheckTables (fun _ => true) s)) as He.
  destruct (_checkErrors _) as [[] s1|e s1]; simpl in He; subst s1.
  - now apply Hc, Hn.
  - now apply Hn.
Qed.

(** *** Opened shards first *)

(** X11.  [_getOpenedShardsFirst] returns the shards it is given, each as
    often as it occurs, the opened ones before the others; it changes
    nothing. *)
Theorem getOpenedShardsFirst_order (shards : list string) (s : State) :
  exists l,
    _getOpenedShardsFirst shards s = Ok l s
    /\ l ≡ₚ shards
    /\ forall i j x y,
         l !! i = Some x -> l !! j = Some y -> (i < j)%nat ->
         y ∈ openedShardNames s -> x ∈ openedShardNames s.
Proof.
  eexists. split; [reflexivity|]. split.
  - apply (filter_app_complement (fun shard => shard ∈ openedShardNames s)).
  - intros i j x y Hi Hj Hij Hy.
    set (front := filter (fun shard => shard ∈ openedShardNames s) shards) in *.
    destruct (Nat.lt_ge_cases j (length front)) as [Hfront|Hback].
    + rewrite lookup_app_l in Hi by lia.
      apply list_elem_of_lookup_2, list_elem_of_filter in Hi. tauto.
    + rewrite lookup_app_r in Hj by assumption.
      apply list_elem_of_lookup_2, list_elem_of_filter in Hj. tauto.
Qed.

(** *** Directories of shards *)

Lemma shardTablePath_same (path : string) (n m : Z) :
  0 <= n -> 0 <= m -> _shardTablePath path n = _shardTablePath path m -> n = m.
Proof.
  intros Hn Hm. unfold _shardTablePath.
  destruct (Z.ltb_spec n 1000000) as [Hn6|Hn6], (Z.ltb_spec m 1000000) as [Hm6|Hm6];
    intros Heq; apply JsFacts.append_inj_l, JsFacts.append_inj_l in Heq.
  - apply (JsNames.padStart_toString_inj 6) in Heq; [assumption | lia | lia | lia].
  - apply (f_equal String.length) in Heq.
    rewrite !JsNames.length_padStart, !JsNames.length_toString in Heq by assumption.
    pose proof (JsFacts.numDigits_le 6 n ltac:(lia)
                  ltac:(change (10 ^ Z.of_nat 6) with 1000000; lia)). lia.
  - apply (f_equal String.length) in Heq.
    rewrite !JsNames.length_padStart, !JsNames.length_toString in Heq by assumption.
    pose proof (JsFacts.numDigits_le 6 m ltac:(lia)
                  ltac:(change (10 ^ Z.of_nat 6) with 1000000; lia)). lia.
  - apply (JsNames.padStart_toString_inj 12) in Heq; [assumption | lia | lia | lia].
Qed.

(** X12.  Different shard numbers (from 0 on) have different directories,
    below one million, from one million on, and across. *)
Theorem shardTablePath_inj (path : string) (n m : Z) :
  0 <= n -> 0 <= m -> n <> m -> _shardTablePath path n <> _shardTablePath path m.
Proof. intros Hn Hm Hne Heq. apply Hne. now apply (shardTablePath_same path). Qed.

(** *** A table that cannot be used *)

(** X13.  [insert] on a table with a file error, closed, or not opened
    throws the error of [_checkErrors] -- the file error first, then
    ['Table closed'], then ['Table has not been opened yet'] -- and leaves
    the coordinator exactly as it was. *)
Theorem insert_unusable_table (query : InsertQuery) (s : State) :
  (fileError s <> EmptyString -> insert query s = Throw (fileError s) s)
  /\ (fileError s = EmptyString -> closed s = true ->
      insert query s = Throw "Table closed" s)
  /\ (fileError s = EmptyString -> closed s = false -> opened s = false ->
      insert query s = Throw "Table has not been opened yet" s).
Proof.
  unfold insert. unfold bind at 1. unfold _checkErrors.
  cbv beta iota delta [bind gets]. repeat split.
  - intros Herr. now rewrite (bool_decide_eq_false_2 _ Herr).
  - intros Herr Hc. rewrite (bool_decide_eq_true_2 _ Herr). cbn [negb]. now rewrite Hc.
  - intros Herr Hc Ho. rewrite (bool_decide_eq_true_2 _ Herr). cbn [negb].
    rewrite Hc, Ho. reflexivity.
Qed.

(** *** Closing the shards *)

(** The loop of [_closeShards(true)] over the entries [l]. *)
Lemma closeAll_loop (l : list (string * string)) (s : State) :
  exists s',
    forEach l (fun entry : string * string =>
      modify (set_tables (alter bt_close entry.2)) ;;
      modify (set_openedShardTables (delete entry.1)) ;;
      modify (set_openedShardNames (fun x => x ∖ {[entry.1]}))) s = Ok tt s'
    /\ (forall k, openedShardTables s' !! k
                  = if bool_decide (k ∈ l.*1) then None else openedShardTables s !! k)
    /\ (forall k, k ∈ openedShardNames s' <-> k ∈ openedShardNames s /\ k ∉ l.*1)
    /\ shardList s' = shardList s /\ shardLockList s' = shardLockList s
    /\ closableShardNames s' = closableShardNames s.
Proof.
  revert s. induction l as [|[shard p] l IH]; intros s.
  - exists s. split; [reflexivity|]. repeat split; try tauto.
    intros Hin. apply elem_of_nil in Hin. contradiction.
  - cbn [forEach]. cbv beta iota delta [bind modify].
    destruct (IH (set_openedShardNames (fun x => x ∖ {[shard]})
                    (set_openedShardTables (delete shard)
                       (set_tables (alter bt_close p) s))))
      as (s' & Hrun & Htab & Hnames & Hsl & Hll & Hcl).
    change (((shard, p) :: l).*1) with (shard :: l.*1).
    exists s'. split; [exact Hrun|]. split; [|split; [|auto]].
    + intros k. rewrite Htab. simpl.
      destruct (decide (k = shard)) as [->|Hne].
      * rewrite lookup_delete_eq.
        rewrite (bool_decide_eq_true_2 (shard ∈ shard :: l.*1)) by apply list_elem_of_here.
        now destruct (bool_decide _).
      * rewrite lookup_delete_ne by congruence.
        destruct (decide (k ∈ l.*1)) as [Hin|Hnin].
        -- rewrite (bool_decide_eq_true_2 _ Hin).
           now rewrite (bool_decide_eq_true_2 (k ∈ shard :: l.*1))
             by apply list_elem_of_further, Hin.
        -- rewrite (bool_decide_eq_false_2 _ Hnin).
           rewrite (bool_decide_eq_false_2 (k ∈ shard :: l.*1)); [reflexivity|].
           rewrite elem_of_cons. tauto.
    + intros k. rewrite Hnames. simpl. rewrite elem_of_difference, elem_of_singleton.
      rewrite elem_of_cons. tauto.
Qed.

(** X14.  [_closeShards(true)] returns and leaves no shard opened: the map
    of opened tables is empty and none of its shards is among the opened
    names; the shard records, the lock counters and the closable set are
    as before. *)
Theorem closeShards_all (s : State) :
  exists s',
    _closeShards true s = Ok tt s'
    /\ openedShardTables s' = ∅
    /\ (forall shard, is_Some (openedShardTables s !! shard) ->
          shard ∉ openedShardNames s')
    /\ shardList s' = shardList s /\ shardLockList s' = shardLockList s
    /\ closableShardNames s' = closableShardNames s.
Proof.
  unfold _closeShards. unfold bind at 1, gets at 1.
  destruct (closeAll_loop (map_to_list (openedShardTables s)) s)
    as (s' & Hrun & Htab & Hnames & Hrest).
  assert (Hkeys : forall k, k ∈ (map_to_list (openedShardTables s)).*1
                            <-> is_Some (openedShardTables s !! k)).
  { intros k. rewrite list_elem_of_fmap. split.
    - intros ([k' p] & -> & Hin). apply elem_of_map_to_list in Hin. eauto.
    - intros [p Hp]. exists (k, p). split; [reflexivity|]. now apply elem_of_map_to_list. }
  exists s'. split; [exact Hrun|]. split; [|split; [|exact Hrest]].
  - apply map_eq. intros k. rewrite Htab, lookup_empty.
    destruct (decide (k ∈ (map_to_list (openedShardTables s)).*1)) as [Hin|Hnin].
    + now rewrite (bool_decide_eq_true_2 _ Hin).
    + rewrite (bool_decide_eq_false_2 _ Hnin).
      destruct (openedShardTables s !! k) eqn:Hk; [|reflexivity].
      exfalso. apply Hnin, Hkeys. eauto.
  - intros shard Hs Hin. apply Hnames in Hin as [_ Hnin]. apply Hnin, Hkeys, Hs.
Qed.

(** *** Pinned shards *)

(** Only shards whose two counters are 0 are closable. *)
Definition closableSound (s : State) : Prop :=
  forall shard, shard ∈ closableShardNames s ->
    exists rec, shardLockList s !! shard = Some rec /\ lock rec = 0 /\ pers rec = 0.

(** A step of a proof that [closableSound] is kept by code that changes
    other fields. *)
Ltac sound_step :=
  first
    [ apply preserves_modify; let s := fresh "s" in intros s ?; destruct s; assumption
    | apply checkCachedShardLock_frame; let s := fresh "s" in intros ? s ?; destruct s; assumption
    | apply checkTables_frame; let s := fresh "s" in intros ? s ?; destruct s; assumption
    | preserves_step ].

Lemma updateShardLockList_sound (shard : string) (lockN persN : Z) :
  preserves closableSound (_updateShardLockList shard lockN persN).
Proof.
  intros s Hs.
  destruct (updateShardLockList_final shard lockN persN s) as [Hl Hc].
  assert (Hfin : closableSound (final (_updateShardLockList shard lockN persN s))).
  { intros x Hx. rewrite Hl. rewrite Hc in Hx.
    set (rec := mkLockRec _ _) in *.
    destruct (decide (x = shard)) as [->|Hne].
    - rewrite lookup_insert_eq. exists rec. split; [reflexivity|].
      destruct (Z.eqb_spec (pers rec) 0) as [Hp|Hp], (Z.eqb_spec (lock rec) 0) as [Hk|Hk];
        cbn [andb] in Hx; try (apply elem_of_orderedDelete in Hx; tauto).
      auto.
    - rewrite lookup_insert_ne by congruence. apply Hs.
      destruct (_ && _).
      + apply elem_of_orderedAdd in Hx. tauto.
      + apply elem_of_orderedDelete in Hx. tauto. }
  destruct (_updateShardLockList shard lockN persN s); exact Hfin.
Qed.

Lemma orderedDelete_sound (shard : string) (s : State) :
  closableSound s -> closableSound (set_closableShardNames (orderedDelete shard) s).
Proof.
  intros Hs x Hx. simpl in *. apply elem_of_orderedDelete in Hx as [_ Hx]. now apply Hs.
Qed.

Lemma closeShards_sound (closeAll : bool) :
  preserves closableSound (_closeShards closeAll).
Proof.
  unfold _closeShards, closeTable. destruct closeAll.
  - repeat sound_step.
  - repeat first
      [ apply preserves_modify; intros ? ?; apply orderedDelete_sound; assumption
      | sound_step ].
Qed.

Lemma getFreeShardNum_sound : preserves closableSound _getFreeShardNum.
Proof. unfold _getFreeShardNum. repeat sound_step. Qed.

Lemma saveShardRec_sound (rec : ShardRec) : preserves closableSound (_saveShardRec rec).
Proof. unfold _saveShardRec. repeat sound_step. Qed.

Lemma lockShard_sound (shard : string) : preserves closableSound (_lockShard shard).
Proof.
  unfold _lockShard.
  repeat first
    [ apply updateShardLockList_sound | apply getFreeShardNum_sound
    | apply saveShardRec_sound | sound_step ].
Qed.

Lemma unlockShard_sound (shard : string) : preserves closableSound (_unlockShard shard).
Proof.
  unfold _unlockShard.
  apply preserves_bind; [apply updateShardLockList_sound | intros _; apply closeShards_sound].
Qed.

Lemma genAutoShard_sound (fuel : nat) : preserves closableSound (genAutoShard fuel).
Proof.
  induction fuel as [|fuel IH]; simpl.
  - apply preserves_throw.
  - apply preserves_bind.
    + intros s Hs. destruct s; exact Hs.
    + intros [shard|]; [apply preserves_ret|]. repeat first [exact IH | sound_step].
Qed.

Lemma checkRows_sound shardGen (rows : list (Row Data)) acc :
  preserves closableSound (checkRows shardGen rows acc).
Proof.
  revert acc. induction rows as [|row rows IH]; intros acc; simpl.
  - apply preserves_ret.
  - apply preserves_bind; [|intros ?; apply IH].
    unfold checkRow, _genAutoShard.
    repeat first [apply genAutoShard_sound | sound_step].
Qed.

Lemma tryFinally_preserves {A} (I : State -> Prop) (m : M State A) (fin : M State unit) :
  preserves I m -> preserves I fin -> preserves I (tryFinally m fin).
Proof.
  intros Hm Hf s Hs. unfold tryFinally. specialize (Hm s Hs).
  destruct (m s) as [a s1|e s1]; specialize (Hf s1 Hm); destruct (fin s1); exact Hf.
Qed.

Lemma insertIntoShards_sound shardedRows (shards : list string) (count : Z) :
  preserves closableSound
    (insertIntoShards (Data := Data) shardedRows shards count).
Proof.
  revert count. induction shards as [|shard shards IH]; intros count; simpl.
  - apply preserves_ret.
  - apply preserves_bind; [|intros ?; apply IH].
    unfold insertIntoShard.
    repeat first
      [ apply lockShard_sound | apply unlockShard_sound | apply saveShardRec_sound
      | apply tryFinally_preserves | sound_step ].
Qed.

(** X15.  Along [insert], [_lockShard], [_unlockShard],
    [_updateShardLockList] and [_closeShards], starting from a new
    coordinator, a shard is closable only if its lock and pers counters are
    both 0: each of these calls keeps that, whether it returns or throws. *)
Theorem closable_only_unpinned (path : string) (query : InsertQuery) (shard : string)
    (lockN persN : Z) (closeAll : bool) :
  closableSound (constructor path)
  /\ preserves closableSound (insert query)
  /\ preserves closableSound (_lockShard shard)
  /\ preserves closableSound (_unlockShard shard)
  /\ preserves closableSound (_updateShardLockList shard lockN persN)
  /\ preserves closableSound (_closeShards closeAll).
Proof.
  split; [intros x Hx; simpl in Hx; apply elem_of_nil in Hx; contradiction|].
  split; [|auto using lockShard_sound, unlockShard_sound, updateShardLockList_sound,
                      closeShards_sound].
  unfold insert. apply preserves_bind; [apply preserves_final_eq, checkErrors_state|].
  intros _. apply tryFinally_preserves.
  - destruct (q_rows query); [|apply preserves_throw].
    unfold _getOpenedShardsFirst.
    repeat first [apply checkRows_sound | apply insertIntoShards_sound | sound_step].
  - apply checkTables_frame; intros ? s ?; destruct s; assumption.
Qed.

(** X16.  [_closeShards()] closes no pinned shard: when only unpinned
    shards are closable, a shard whose lock or pers counter is positive
    keeps its opened table and stays among the opened names, whether the
    call returns or throws; the counters are not touched. *)
Theorem closeShards_spares_pinned (shard : string) (rec : LockRec) (s : State) :
  closableSound s ->
  shardLockList s !! shard = Some rec -> (0 < lock rec \/ 0 < pers rec) ->
  openedShardTables (final (_closeShards false s)) !! shard = openedShardTables s !! shard
  /\ (shard ∈ openedShardNames (final (_closeShards false s))
      <-> shard ∈ openedShardNames s)
  /\ shardLockList (final (_closeShards false s)) = shardLockList s.
Proof.
  intros Hsound Hrec Hpinned.
  assert (Hnot : shard ∉ closableShardNames s).
  { intros Hin. destruct (Hsound shard Hin) as (rec' & Hrec' & Hl & Hp).
    rewrite Hrec in Hrec'. injection Hrec' as <-. lia. }
  set (I := fun s' : State =>
              openedShardTables s' !! shard = openedShardTables s !! shard
              /\ (shard ∈ openedShardNames s' <-> shard ∈ openedShardNames s)
              /\ shardLockList s' = shardLockList s
              /\ shard ∉ closableShardNames s').
  assert (HI : I s) by (repeat split; tauto).
  assert (Hkeep : preserves I (_closeShards false)).
  { clear HI. unfold _closeShards.
    apply preserves_bind; [apply preserves_gets | intros cached].
    apply preserves_bind; [apply preserves_gets | intros limit].
    destruct (cached <=? limit); [apply preserves_ret|].
    apply preserves_bind_gets. intros closable s0 [Hs0 Hcl].
    assert (Hnotin : shard ∉ closable) by (rewrite Hcl; apply Hs0).
    clear Hcl. revert s0 Hs0.
    apply preserves_forEachWhile_elem. intros x Hx.
    assert (Hne : x <> shard) by (intros ->; contradiction).
    unfold closeTable.
    repeat first
      [ apply preserves_modify; let s1 := fresh "s" in intros s1 ?; destruct s1; assumption
      | apply checkCachedShardLock_frame;
        let s1 := fresh "s" in intros ? s1 ?; destruct s1; assumption
      | apply preserves_modify; intros s1 (H1 & H2 & H3 & H4); repeat split; simpl;
        [ rewrite lookup_delete_ne by assumption; exact H1
        | intros ?; apply H2; assumption | intros ?; apply H2; assumption
        | exact H3 | exact H4 ]
      | apply preserves_modify; intros s1 (H1 & H2 & H3 & H4); repeat split; simpl;
        [ exact H1
        | rewrite elem_of_difference, elem_of_singleton; intros [? _]; apply H2; assumption
        | rewrite elem_of_difference, elem_of_singleton; intros ?;
          split; [apply H2; assumption | congruence]
        | exact H3 | exact H4 ]
      | apply preserves_modify; intros s1 (H1 & H2 & H3 & H4); repeat split; simpl;
        [ exact H1 | apply H2 | apply H2 | exact H3
        | rewrite elem_of_orderedDelete; tauto ]
      | preserves_step ]. }
  pose proof (preserves_final I (_closeShards false) s Hkeep HI) as (H1 & H2 & H3 & _).
  auto.
Qed.

(** *** Locking a shard *)

Lemma checkCachedShardLock_returns (s : State) :
  _checkCachedShardLock s = Ok tt (final (_checkCachedShardLock s)).
Proof.
  unfold _checkCachedShardLock, bind, gets, when, modify, ret.
  destruct (_ <=? _); [reflexivity|]. destruct (freed _); reflexivity.
Qed.

Lemma updateShardLockList_returns (shard : string) (lockN persN : Z) (s : State) :
  _updateShardLockList shard lockN persN s
  = Ok tt (final (_updateShardLockList shard lockN persN s)).
Proof.
  unfold _updateShardLockList. cbv beta iota zeta delta [bind gets modify].
  destruct (_ >? _).
  - rewrite checkCachedShardLock_returns. reflexivity.
  - destruct (_ >? _); rewrite checkCachedShardLock_returns; reflexivity.
Qed.

(** An update of the counters leaves alone what does not depend on the
    counters, the closable and cached sets and the gate. *)
Lemma updateShardLockList_frame {A} (f : State -> A) (shard : string) (lockN persN : Z)
    (s : State) :
  (forall g s0, f (set_shardLockList g s0) = f s0) ->
  (forall g s0, f (set_closableShardNames g s0) = f s0) ->
  (forall g s0, f (set_cachedShardNames g s0) = f s0) ->
  (forall g s0, f (set_cachedShardLock g s0) = f s0) ->
  f (final (_updateShardLockList shard lockN persN s)) = f s.
Proof.
  intros H1 H2 H3 H4. unfold _updateShardLockList.
  cbv beta iota zeta delta [bind gets modify].
  destruct (_ >? _); [|destruct (_ >? _)].
  all: match goal with |- context [_checkCachedShardLock ?st] =>
         destruct (checkCachedShardLock_final st) as (q & Hq) end.
  all: destruct (_checkCachedShardLock _); simpl in Hq; subst; simpl.
  all: now rewrite H4, H3, H2, H1.
Qed.

(** The lock counter of a shard is not negative. *)
Definition lockNonNeg (shard : string) (s : State) : Prop :=
  forall rec, shardLockList s !! shard = Some rec -> 0 <= lock rec.

(** One more lock on a shard: it is not closable. *)
Lemma updateShardLockList_lock (shard : string) (s : State) :
  lockNonNeg shard s ->
  exists s',
    _updateShardLockList shard 1 0 s = Ok tt s'
    /\ openedShardNames s' = openedShardNames s
    /\ openedShardTables s' = openedShardTables s
    /\ (shard ∉ closableShardNames s')
    /\ exists rec,
         shardLockList s' !! shard = Some rec
         /\ lock rec = lock (default (mkLockRec 0 0) (shardLockList s !! shard)) + 1.
Proof.
  intros Hnn. exists (final (_updateShardLockList shard 1 0 s)).
  split; [apply updateShardLockList_returns|].
  split; [apply (updateShardLockList_frame openedShardNames); reflexivity|].
  split; [apply (updateShardLockList_frame openedShardTables); reflexivity|].
  destruct (updateShardLockList_final shard 1 0 s) as [Hl Hc].
  set (old := default (mkLockRec 0 0) (shardLockList s !! shard)) in *.
  assert (Hold : 0 <= lock old).
  { unfold old. destruct (shardLockList s !! shard) as [r|] eqn:Hr; simpl; [|lia].
    now apply Hnn. }
  assert (Hclamp : clampLow (lock old + 1) = lock old + 1).
  { unfold clampLow. destruct (Z.ltb_spec (lock old + 1) 0); [lia | reflexivity]. }
  split.
  - rewrite Hc. cbn [lock pers]. rewrite Hclamp.
    destruct (Z.eqb_spec (lock old + 1) 0); [lia|].
    rewrite andb_false_r. rewrite elem_of_orderedDelete. tauto.
  - eexists. rewrite Hl, lookup_insert_eq. split; [reflexivity|]. exact Hclamp.
Qed.

Lemma lockShard_prefix_lock (shard : string) (known : option ShardRec) :
  preserves (lockNonNeg shard)
    (match known with
     | Some r => ret r
     | None =>
         num <- _getFreeShardNum ;;
         let r := mkShardRec shard num 0 in
         _saveShardRec r ;;
         modify (set_shardList <[shard := r]>) ;;
         ret r
     end).
Proof.
  destruct known; [apply preserves_ret|].
  unfold _getFreeShardNum, _saveShardRec. repeat sound_step.
Qed.

(** X17.  When [_lockShard] returns, the shard is opened, the table
    returned is its opened table, its lock counter is one more than before,
    and it is not closable (the counter before being not negative, as it is
    after every update). *)
Theorem lockShard_pins (shard : string) (s s' : State) (p : option string) :
  lockNonNeg shard s ->
  _lockShard shard s = Ok p s' ->
  shard ∈ openedShardNames s'
  /\ p = openedShardTables s' !! shard
  /\ (shard ∉ closableShardNames s')
  /\ exists rec,
       shardLockList s' !! shard = Some rec
       /\ lock rec = lock (default (mkLockRec 0 0) (shardLockList s !! shard)) + 1.
Proof.
  intros Hnn. unfold _lockShard. unfold bind at 1, gets at 1.
  destruct (decide (shard ∈ openedShardNames s)) as [Hop|Hop].
  - rewrite (bool_decide_eq_true_2 _ Hop). unfold bind at 1.
    destruct (updateShardLockList_lock shard s Hnn) as (s1 & -> & Hn & Ht & Hc & Hrec).
    unfold gets. intros [= <- <-]. rewrite Hn. auto.
  - rewrite (bool_decide_eq_false_2 _ Hop). unfold bind at 1, gets at 1.
    destruct (freed (cachedShardLock s)); [|discriminate]. cbn [negb].
    unfold bind at 1, gets at 1.
    set (known := shardList s !! shard). unfold bind at 1.
    pose proof (lockShard_prefix_lock shard known s Hnn) as Hpre.
    assert (Hlist : forall a s1,
              match known with
              | Some r => ret r
              | None =>
                  num <- _getFreeShardNum ;;
                  let r := mkShardRec shard num 0 in
                  _saveShardRec r ;;
                  modify (set_shardList <[shard := r]>) ;;
                  ret r
              end s = Ok a s1 -> shardLockList s1 = shardLockList s).
    { intros a s1 Hrun.
      assert (Hk : preserves (fun s0 : State => shardLockList s0 = shardLockList s)
                     (match known with
                      | Some r => ret r
                      | None =>
                          num <- _getFreeShardNum ;;
                          let r := mkShardRec shard num 0 in
                          _saveShardRec r ;;
                          modify (set_shardList <[shard := r]>) ;;
                          ret r
                      end)).
      { destruct known; [apply preserves_ret|].
        unfold _getFreeShardNum, _saveShardRec. repeat sound_step. }
      specialize (Hk s eq_refl). now rewrite Hrun in Hk. }
    destruct (match known with
              | Some r => ret r
              | None => _
              end s) as [shardRec s1|e s1] eqn:Hrun; [|discriminate].
    specialize (Hlist _ _ eq_refl).
    unfold bind at 1, gets at 1. unfold bind at 1, gets at 1.
    destruct (bt_open _) as [newTable|]; [|discriminate].
    cbv beta iota zeta delta [bind modify].
    match goal with
    | |- context [_updateShardLockList shard 1 0 ?st] =>
        destruct (updateShardLockList_lock shard st) as (s2 & -> & Hn & Ht & Hc & Hrec)
    end.
    { intros rec Hrec. simpl in Hrec. apply Hpre. exact Hrec. }
    unfold ret. intros [= <- <-]. rewrite Hn, Ht. simpl in *.
    rewrite lookup_insert_eq. rewrite Hlist in Hrec.
    split; [set_solver|]. auto.
Qed.

(** *** Free shard numbers and names *)

(** Among [k + n] different candidates at most [n] are taken by a set of
    [n] elements, so at least [k] are free. *)
Lemma free_candidates {K} `{Countable K} (f : Z -> K) (used : gset K) (l : list Z)
    (k n : nat) :
  NoDup l -> (forall i j, i ∈ l -> j ∈ l -> f i = f j -> i = j) ->
  (size used <= n)%nat -> length l = (k + n)%nat ->
  (k <= length (filter (fun i => f i ∉ used) l))%nat.
Proof.
  intros Hnd Hinj Hsize Hlen.
  pose proof (filter_app_complement (fun i => f i ∈ used) l) as Hperm.
  apply Permutation_length in Hperm. rewrite length_app in Hperm.
  assert (Htaken : (length (filter (fun i => f i ∈ used) l) <= size used)%nat).
  { set (taken := filter (fun i => f i ∈ used) l).
    assert (Hnd' : NoDup (f <$> taken)).
    { apply NoDup_fmap_2_strong; [|apply NoDup_filter, Hnd].
      intros i j Hi Hj. apply Hinj.
      - apply list_elem_of_filter in Hi. tauto.
      - apply list_elem_of_filter in Hj. tauto. }
    rewrite <- (length_fmap f taken), <- (size_list_to_set (C := gset K)) by exact Hnd'.
    apply subseteq_size. intros x Hx. apply elem_of_list_to_set in Hx.
    apply list_elem_of_fmap in Hx as (i & -> & Hi).
    apply list_elem_of_filter in Hi. tauto. }
  lia.
Qed.

Lemma size_list_to_set_le {K} `{Countable K} (l : list K) :
  (size (list_to_set (C := gset K) l) <= length l)%nat.
Proof.
  induction l as [|x l IH].
  - rewrite list_to_set_nil, size_empty. simpl. lia.
  - rewrite list_to_set_cons, size_union_alt, size_singleton. simpl.
    pose proof (subseteq_size (list_to_set (C := gset K) l ∖ {[x]}) (list_to_set l)
                  ltac:(set_solver)).
    lia.
Qed.

(** The numbers of the shards. *)
Definition shardNums (s : State) : gset Z :=
  list_to_set (map (fun e : string * ShardRec => sr_num e.2) (map_to_list (shardList s))).

Lemma elem_of_shardNums (s : State) (n : Z) :
  n ∈ shardNums s <-> exists shard r, shardList s !! shard = Some r /\ sr_num r = n.
Proof.
  unfold shardNums. rewrite elem_of_list_to_set, list_elem_of_fmap. split.
  - intros ([shard r] & -> & Hin). apply elem_of_map_to_list in Hin. eauto.
  - intros (shard & r & Hr & <-). exists (shard, r). split; [reflexivity|].
    now apply elem_of_map_to_list.
Qed.

(** [freeNums] gives [maxFreeShardNumsLength] numbers, all different, not
    negative and not used. *)
Lemma freeNums_spec (used : gset Z) (shards : nat) :
  (size used <= shards)%nat ->
  length (freeNums used shards) = maxFreeShardNumsLength
  /\ NoDup (freeNums used shards)
  /\ forall n, n ∈ freeNums used shards -> 0 <= n /\ n ∉ used.
Proof.
  intros Hsize. unfold freeNums.
  set (l := seqZ 0 (Z.of_nat (maxFreeShardNumsLength + shards))).
  pose proof (free_candidates (fun i => i) used l maxFreeShardNumsLength shards
                (NoDup_seqZ _ _) ltac:(auto) Hsize
                ltac:(unfold l; rewrite length_seqZ; lia)) as Hfree.
  cbv beta in Hfree.
  split; [rewrite length_take; lia|]. split.
  - apply (sublist_NoDup _ (filter (fun i => i ∉ used) l));
      [apply NoDup_filter, NoDup_seqZ | apply sublist_take].
  - intros n Hn. apply elem_of_take in Hn as (i & Hn & _).
    apply list_elem_of_lookup_2, list_elem_of_filter in Hn as [Hfree' Hin].
    apply elem_of_seqZ in Hin. split; [lia | exact Hfree'].
Qed.

Lemma size_shardNums (s : State) : (size (shardNums s) <= size (shardList s))%nat.
Proof.
  unfold shardNums.
  etransitivity; [apply size_list_to_set_le|].
  now rewrite length_map, length_map_to_list.
Qed.

(** The free numbers kept for later are different, not negative and not
    used; different shards have different numbers, none negative. *)
Definition freeFresh (s : State) : Prop :=
  NoDup (freeShardNums s)
  /\ (forall n, n ∈ freeShardNums s -> 0 <= n /\ n ∉ shardNums s).

Definition numsDistinct (s : State) : Prop :=
  (forall a b ra rb,
     shardList s !! a = Some ra -> shardList s !! b = Some rb ->
     sr_num ra = sr_num rb -> a = b)
  /\ (forall a r, shardList s !! a = Some r -> 0 <= sr_num r).

Definition freshNums (s : State) : Prop := freeFresh s /\ numsDistinct s.

(** What depends on the shard records and the free numbers only. *)
Definition numbersOf (s : State) : gmap string ShardRec * list Z :=
  (shardList s, freeShardNums s).

Lemma freshNums_numbersOf (s s' : State) :
  numbersOf s' = numbersOf s -> freshNums s -> freshNums s'.
Proof.
  unfold numbersOf, freshNums, freeFresh, numsDistinct, shardNums.
  intros [= -> ->]. tauto.
Qed.

(** [_getFreeShardNum] returns a number that no shard has and that is not
    kept for later. *)
Lemma getFreeShardNum_spec (s : State) :
  freshNums s ->
  exists num s',
    _getFreeShardNum s = Ok num s'
    /\ 0 <= num /\ (num ∉ shardNums s') /\ (num ∉ freeShardNums s')
    /\ freshNums s' /\ shardList s' = shardList s.
Proof.
  intros [[Hnd Hfree] Hdist]. unfold _getFreeShardNum.
  unfold bind at 1, gets at 1.
  destruct (freeShardNums s) as [|num rest] eqn:Hlist.
  - rewrite bool_decide_eq_true_2 by reflexivity.
    cbv beta iota delta [when bind modify gets]. cbn [freeShardNums set_freeShardNums].
    destruct (freeNums_spec (shardNums s) (size (shardList s)) (size_shardNums s))
      as (Hlen & Hnd' & Hfree').
    fold (shardNums s).
    destruct (freeNums (shardNums s) (size (shardList s))) as [|num rest] eqn:Hnums;
      [discriminate|].
    exists num. eexists. split; [reflexivity|].
    apply NoDup_cons in Hnd' as [Hnotin Hnd''].
    destruct (Hfree' num ltac:(apply list_elem_of_here)) as [Hpos Hunused].
    split; [exact Hpos|]. split; [exact Hunused|]. split; [exact Hnotin|].
    split; [|reflexivity]. split; [|exact Hdist]. split; [exact Hnd''|].
    intros n Hn. apply (Hfree' n), list_elem_of_further, Hn.
  - rewrite bool_decide_eq_false_2 by discriminate.
    cbv beta iota delta [when bind modify gets ret]. rewrite Hlist.
    exists num. eexists. split; [reflexivity|].
    apply NoDup_cons in Hnd as [Hnotin Hnd''].
    destruct (Hfree num ltac:(apply list_elem_of_here)) as [Hpos Hunused].
    split; [exact Hpos|]. split; [exact Hunused|]. split; [exact Hnotin|].
    split; [|reflexivity]. split; [|exact Hdist]. split; [exact Hnd''|].
    intros n Hn. apply (Hfree n), list_elem_of_further, Hn.
Qed.

(** Registering a new shard under a number that is neither used nor kept
    for later. *)
Lemma insert_shard_fresh (shard : string) (num : Z) (s : State) :
  freshNums s -> shardList s !! shard = None ->
  0 <= num -> num ∉ shardNums s -> num ∉ freeShardNums s ->
  freshNums (set_shardList <[shard := mkShardRec shard num 0]> s).
Proof.
  intros [[Hnd Hfree] [Hdist Hpos]] Hnew Hnum Hunused Hnotfree.
  assert (Hnums : forall n, n ∈ shardNums (set_shardList <[shard := mkShardRec shard num 0]> s)
                            <-> n = num \/ n ∈ shardNums s).
  { intros n. rewrite !elem_of_shardNums. simpl. split.
    - intros (a & r & Hr & <-).
      destruct (decide (shard = a)) as [->|Hne].
      + rewrite lookup_insert_eq in Hr. injection Hr as <-. now left.
      + rewrite lookup_insert_ne in Hr by assumption. right. eauto.
    - intros [->|(a & r & Hr & <-)].
      + exists shard, (mkShardRec shard num 0). now rewrite lookup_insert_eq.
      + exists a, r. split; [|reflexivity].
        rewrite lookup_insert_ne; [exact Hr|]. intros <-. congruence. }
  repeat split.
  - exact Hnd.
  - now apply Hfree.
  - intros Hin. apply Hnums in Hin as [->|Hin]; [contradiction|].
    now apply (Hfree n).
  - intros a b ra rb Ha Hb Heq. simpl in Ha, Hb.
    destruct (decide (shard = a)) as [<-|Hna], (decide (shard = b)) as [<-|Hnb].
    + reflexivity.
    + rewrite lookup_insert_eq in Ha. rewrite lookup_insert_ne in Hb by assumption.
      injection Ha as <-. exfalso. apply Hunused, elem_of_shardNums. simpl in Heq. eauto.
    + rewrite lookup_insert_eq in Hb. rewrite lookup_insert_ne in Ha by assumption.
      injection Hb as <-. exfalso. apply Hunused, elem_of_shardNums. simpl in Heq. eauto.
    + rewrite lookup_insert_ne in Ha by assumption.
      rewrite lookup_insert_ne in Hb by assumption. eapply Hdist; eauto.
  - intros a r Ha. simpl in Ha.
    destruct (decide (shard = a)) as [<-|Hna].
    + rewrite lookup_insert_eq in Ha. injection Ha as <-. exact Hnum.
    + rewrite lookup_insert_ne in Ha by assumption. eapply Hpos; eauto.
Qed.

(** A step of a proof that code which leaves the shard records and the
    free numbers alone keeps what depends on them only. *)
Ltac numbers_step :=
  first
    [ apply preserves_modify; let s := fresh "s" in intros s ?; destruct s; assumption
    | apply checkCachedShardLock_frame; let s := fresh "s" in intros ? s ?; destruct s; assumption
    | apply checkTables_frame; let s := fresh "s" in intros ? s ?; destruct s; assumption
    | progress cbv zeta
    | preserves_step ].

Lemma saveShardRec_numbers (P : gmap string ShardRec * list Z -> Prop) (rec : ShardRec) :
  preserves (fun s : State => P (numbersOf s)) (_saveShardRec rec).
Proof. unfold _saveShardRec. repeat numbers_step. Qed.

Lemma updateShardLockList_numbers (P : gmap string ShardRec * list Z -> Prop)
    (shard : string) (lockN persN : Z) :
  preserves (fun s : State => P (numbersOf s)) (_updateShardLockList shard lockN persN).
Proof. unfold _updateShardLockList. repeat numbers_step. Qed.

Lemma lockShard_freshNums (shard : string) : preserves freshNums (_lockShard shard).
Proof.
  assert (Hframe : forall A (m : M State A),
            (forall P, preserves (fun s : State => P (numbersOf s)) m) ->
            preserves freshNums m).
  { intros A m Hm s Hs. specialize (Hm (fun x => x = numbersOf s) s eq_refl).
    destruct (m s); simpl in Hm; eapply freshNums_numbersOf; eauto. }
  unfold _lockShard.
  apply preserves_bind; [apply preserves_gets | intros isOpened].
  destruct isOpened.
  { apply Hframe. intros P.
    apply preserves_bind; [apply updateShardLockList_numbers | intros ?; apply preserves_gets]. }
  apply preserves_bind; [apply preserves_gets | intros free].
  destruct free; [|apply preserves_throw]. cbn [negb].
  apply preserves_bind_gets. intros known.
  eapply triple_bind with (Q := fun _ => freshNums).
  - destruct known as [r|]; [intros s [Hs _]; exact Hs|].
    intros s [Hs Hknown].
    destruct (getFreeShardNum_spec s Hs) as (num & s1 & Hrun & Hpos & Hunused & Hnotfree & Hs1 & Hsl).
    unfold bind at 1. rewrite Hrun. cbv zeta. unfold bind at 1.
    pose proof (saveShardRec_numbers (fun x => x = numbersOf s1) (mkShardRec shard num 0)
                  s1 eq_refl) as Hsave.
    destruct (_saveShardRec _ s1) as [[] s2|e s2]; simpl in Hsave.
    + cbv beta iota delta [bind modify ret].
      unfold numbersOf in Hsave. injection Hsave as Hsl2 Hfr2.
      apply insert_shard_fresh.
      * eapply freshNums_numbersOf; [|exact Hs1]. unfold numbersOf. congruence.
      * rewrite Hsl2, Hsl. congruence.
      * exact Hpos.
      * unfold shardNums. rewrite Hsl2. exact Hunused.
      * rewrite Hfr2. exact Hnotfree.
    + eapply freshNums_numbersOf; [exact Hsave | exact Hs1].
  - intros shardRec. apply Hframe. intros P.
    repeat first [apply updateShardLockList_numbers | numbers_step].
Qed.

(** Recording the row count of a shard keeps its number. *)
Lemma replace_count_fresh (shard : string) (r : ShardRec) (count : Z) (s : State) :
  freshNums s -> shardList s !! shard = Some r ->
  freshNums (set_shardList <[shard := mkShardRec (sr_id r) (sr_num r) count]> s).
Proof.
  intros [[Hnd Hfree] [Hdist Hpos]] Hr.
  assert (Hlk : forall a ra,
            <[shard := mkShardRec (sr_id r) (sr_num r) count]> (shardList s) !! a = Some ra ->
            exists ra', shardList s !! a = Some ra' /\ sr_num ra' = sr_num ra).
  { intros a ra Ha. destruct (decide (shard = a)) as [<-|Hne].
    - rewrite lookup_insert_eq in Ha. injection Ha as <-. eauto.
    - rewrite lookup_insert_ne in Ha by assumption. eauto. }
  assert (Hnums : forall n, n ∈ shardNums (set_shardList
                                 <[shard := mkShardRec (sr_id r) (sr_num r) count]> s)
                            -> n ∈ shardNums s).
  { intros n. rewrite !elem_of_shardNums. simpl. intros (a & ra & Ha & <-).
    destruct (Hlk a ra Ha) as (ra' & Ha' & Heq). eauto. }
  split; split.
  - exact Hnd.
  - intros n Hn. split; [now apply Hfree|]. intros Hin. now apply (Hfree n Hn), Hnums.
  - intros a b ra rb Ha Hb Heq. simpl in Ha, Hb.
    destruct (Hlk a ra Ha) as (ra' & Ha' & Heqa), (Hlk b rb Hb) as (rb' & Hb' & Heqb).
    eapply Hdist; eauto. congruence.
  - intros a ra Ha. simpl in Ha. destruct (Hlk a ra Ha) as (ra' & Ha' & <-). eauto.
Qed.

Lemma frame_freshNums {A} (m : M State A) :
  (forall P, preserves (fun s : State => P (numbersOf s)) m) -> preserves freshNums m.
Proof.
  intros Hm s Hs. specialize (Hm (fun x => x = numbersOf s) s eq_refl).
  destruct (m s); simpl in Hm; eapply freshNums_numbersOf; eauto.
Qed.

Lemma closeShards_numbers (P : gmap string ShardRec * list Z -> Prop) (closeAll : bool) :
  preserves (fun s : State => P (numbersOf s)) (_closeShards closeAll).
Proof. unfold _closeShards, closeTable. destruct closeAll; repeat numbers_step. Qed.

Lemma genAutoShard_numbers (P : gmap string ShardRec * list Z -> Prop) (fuel : nat) :
  preserves (fun s : State => P (numbersOf s)) (genAutoShard fuel).
Proof.
  induction fuel as [|fuel IH]; simpl.
  - apply preserves_throw.
  - apply preserves_bind.
    + intros s Hs. destruct s; exact Hs.
    + intros [shard|]; [apply preserves_ret|]. repeat first [exact IH | numbers_step].
Qed.

Lemma checkRows_numbers (P : gmap string ShardRec * list Z -> Prop) shardGen
    (rows : list (Row Data)) acc :
  preserves (fun s : State => P (numbersOf s)) (checkRows shardGen rows acc).
Proof.
  revert acc. induction rows as [|row rows IH]; intros acc; simpl.
  - apply preserves_ret.
  - apply preserves_bind; [|intros ?; apply IH].
    unfold checkRow, _genAutoShard.
    repeat first [apply genAutoShard_numbers | numbers_step].
Qed.

Lemma insertIntoShard_freshNums shardedRows (shard : string) (count : Z) :
  preserves freshNums (insertIntoShard (Data := Data) shardedRows shard count).
Proof.
  unfold insertIntoShard. cbv zeta.
  apply preserves_bind; [apply lockShard_freshNums | intros table].
  apply preserves_bind.
  { apply frame_freshNums. intros P. unfold _unlockShard.
    repeat first
      [ apply tryFinally_preserves | apply updateShardLockList_numbers
      | apply closeShards_numbers | numbers_step ]. }
  intros done. apply preserves_bind_gets. intros known.
  destruct known as [shardRec|]; [|intros s [Hs _]; exact Hs].
  intros s [Hs Hknown]. unfold bind at 1, modify at 1. unfold bind at 1, modify at 1.
  unfold bind at 1, modify at 1.
  match goal with
  | |- match ?m ?st with _ => _ end =>
      assert (Hst : freshNums st);
      [|assert (Hm : preserves freshNums m);
        [|exact (Hm st Hst)]]
  end.
  - eapply freshNums_numbersOf;
      [|apply (replace_count_fresh shard shardRec done.2 s Hs); now rewrite <- Hknown].
    reflexivity.
  - apply frame_freshNums. intros P.
    repeat first [apply saveShardRec_numbers | numbers_step].
Qed.

Lemma insertIntoShards_freshNums shardedRows (shards : list string) (count : Z) :
  preserves freshNums (insertIntoShards (Data := Data) shardedRows shards count).
Proof.
  revert count. induction shards as [|shard shards IH]; intros count; simpl.
  - apply preserves_ret.
  - apply preserves_bind; [apply insertIntoShard_freshNums | intros ?; apply IH].
Qed.

Lemma insert_freshNums (query : InsertQuery) : preserves freshNums (insert query).
Proof.
  unfold insert. apply preserves_bind; [apply preserves_final_eq, checkErrors_state|].
  intros _. apply tryFinally_preserves.
  - destruct (q_rows query); [|apply preserves_throw].
    apply preserves_bind; [apply frame_freshNums; intros P; apply checkRows_numbers|].
    intros shardedRows.
    apply preserves_bind; [unfold _getOpenedShardsFirst; repeat numbers_step|].
    intros shards.
    apply preserves_bind; [apply insertIntoShards_freshNums | intros ?; apply preserves_ret].
  - apply frame_freshNums. intros P.
    apply checkTables_frame; intros ? s ?; destruct s; assumption.
Qed.

(** X18.  Shards get numbers of their own: on a new coordinator no two
    shards share a number and no number is negative; [_lockShard], which
    creates the shards, and [insert] keep that, whether they return or
    throw; and so two different shards of the shard list have different
    directories. *)
Theorem shards_have_own_directories (path shard : string) (query : InsertQuery) :
  freshNums (constructor path)
  /\ preserves freshNums (_lockShard shard)
  /\ preserves freshNums (insert query)
  /\ forall s a b ra rb,
       freshNums s -> shardList s !! a = Some ra -> shardList s !! b = Some rb ->
       a <> b ->
       _shardTablePath (tablePath s) (sr_num ra) <> _shardTablePath (tablePath s) (sr_num rb).
Proof.
  split; [|split; [apply lockShard_freshNums|split; [apply insert_freshNums|]]].
  - split; split.
    + apply NoDup_nil_2.
    + intros n Hn. simpl in Hn. apply elem_of_nil in Hn. contradiction.
    + intros a b ra rb Ha. simpl in Ha. rewrite lookup_empty in Ha. discriminate.
    + intros a r Ha. simpl in Ha. rewrite lookup_empty in Ha. discriminate.
  - intros s a b ra rb [_ [Hdist Hpos]] Ha Hb Hne Heq. apply Hne.
    apply shardTablePath_same in Heq; eauto.
Qed.

(** *** Auto-sharding *)

(** The shard can take rows: it is new, or holds fewer rows than
    [autoShardSize]. *)
Definition notFull (shards : gmap string ShardRec) (limit : Z) (shard : string) : Prop :=
  match shards !! shard with
  | None => True
  | Some r => sr_count r < limit
  end.

Lemma autoShardFromList_notFull (fuel : nat) (shards : gmap string ShardRec) (limit : Z)
    (l : list AutoRec) (shard : string) :
  (autoShardFromList fuel shards limit l).1 = Some shard -> notFull shards limit shard.
Proof.
  revert l. induction fuel as [|fuel IH]; intros l; cbn [autoShardFromList].
  - discriminate.
  - destruct (last l) as [lastRec|]; [|discriminate]. cbv zeta.
    unfold notFull.
    destruct (shards !! ar_shard lastRec) as [r|] eqn:Hr.
    + destruct (Z.ltb_spec (sr_count r) limit) as [Hlt|Hge].
      * intros [= <-]. now rewrite Hr.
      * apply IH.
    + intros [= <-]. now rewrite Hr.
Qed.

(** With fuel for every entry, the loop ends on a shard or on an empty
    list. *)
Lemma autoShardFromList_exhausts (fuel : nat) (shards : gmap string ShardRec) (limit : Z)
    (l : list AutoRec) :
  (length l <= fuel)%nat ->
  (autoShardFromList fuel shards limit l).1 = None ->
  (autoShardFromList fuel shards limit l).2 = [].
Proof.
  revert l. induction fuel as [|fuel IH]; intros l Hlen; cbn [autoShardFromList].
  - intros _. destruct l; [reflexivity | simpl in Hlen; lia].
  - destruct (last l) as [lastRec|] eqn:Hlast.
    + cbv zeta. destruct (shards !! ar_shard lastRec) as [r|]; [|discriminate].
      destruct (sr_count r <? limit); [discriminate|].
      apply IH. rewrite length_take. lia.
    + intros _. apply last_None in Hlast. now subst.
Qed.

(** The loop returns the last entry when its shard can take rows. *)
Lemma autoShardFromList_last (fuel : nat) (shards : gmap string ShardRec) (limit : Z)
    (l : list AutoRec) (lastRec : AutoRec) :
  last l = Some lastRec -> notFull shards limit (ar_shard lastRec) ->
  (autoShardFromList (S fuel) shards limit l).1 = Some (ar_shard lastRec).
Proof.
  intros Hlast Hnf. cbn [autoShardFromList]. rewrite Hlast. cbv zeta.
  unfold notFull in Hnf. destruct (shards !! ar_shard lastRec) as [r|]; [|reflexivity].
  apply Z.ltb_lt in Hnf. now rewrite Hnf.
Qed.

Lemma autoShardExisting_notFull (shards : gmap string ShardRec) (names : gset string)
    (limit : Z) (rec : AutoRec) :
  rec ∈ autoShardExisting shards names limit -> notFull shards limit (ar_shard rec).
Proof.
  unfold autoShardExisting. cbv zeta. rewrite elem_of_app, !list_elem_of_fmap.
  intros [([shard r] & -> & Hin)|([shard r] & -> & Hin)];
    apply list_elem_of_filter in Hin as [_ Hin];
    apply list_elem_of_filter in Hin as [Hlt Hin];
    apply elem_of_map_to_list in Hin; unfold notFull; simpl in *; now rewrite Hin.
Qed.

Lemma elem_of_rev_1 {A} (x : A) (l : list A) : x ∈ rev l -> x ∈ l.
Proof.
  induction l as [|y l IH]; simpl; [auto|].
  rewrite elem_of_app, list_elem_of_singleton, elem_of_cons. tauto.
Qed.

Lemma autoName_inj (i j : Z) : 0 <= i -> 0 <= j -> autoName i = autoName j -> i = j.
Proof.
  intros Hi Hj Heq. unfold autoName in Heq.
  apply JsFacts.append_inj_l in Heq. now apply JsNames.toString_inj.
Qed.

(** There are always new names: [autoShardNew] is not empty, and none of
    its names is a shard. *)
Lemma autoShardNew_spec (shards : gmap string ShardRec) (limit : Z) :
  autoShardNew shards limit <> []
  /\ forall rec, rec ∈ autoShardNew shards limit -> shards !! ar_shard rec = None.
Proof.
  unfold autoShardNew.
  set (l := seqZ 1 (Z.of_nat (maxAutoShardListLength + size shards))).
  set (free := filter (fun i => shards !! autoName i = None) l).
  assert (Hfree : (maxAutoShardListLength <= length free)%nat).
  { unfold free.
    rewrite (list_filter_iff _ (fun i => autoName i ∉ dom shards))
      by (intros i; symmetry; apply not_elem_of_dom).
    apply (free_candidates autoName (dom shards) l maxAutoShardListLength (size shards)).
    - apply NoDup_seqZ.
    - intros i j Hi Hj. apply elem_of_seqZ in Hi, Hj. apply autoName_inj; lia.
    - now rewrite size_dom.
    - unfold l. rewrite length_seqZ. lia. }
  split.
  - intros Hnil. apply (f_equal (@length _)) in Hnil.
    rewrite length_rev, length_map, length_take in Hnil. cbn [length] in Hnil.
    assert (maxAutoShardListLength = 1000%nat) by reflexivity. lia.
  - intros rec Hin. apply elem_of_rev_1, list_elem_of_fmap in Hin as (i & -> & Hin).
    apply elem_of_take in Hin as (k & Hin & _).
    apply list_elem_of_lookup_2, list_elem_of_filter in Hin as [Hnone _]. exact Hnone.
Qed.

Lemma last_elem_of {A} (l : list A) : l <> [] -> exists x, last l = Some x /\ x ∈ l.
Proof.
  intros Hne. destruct (last l) as [x|] eqn:Hlast.
  - exists x. split; [reflexivity|]. apply last_Some in Hlast as [l' ->].
    apply elem_of_app. right. apply list_elem_of_here.
  - apply last_None in Hlast. contradiction.
Qed.

(** A call on a list, not empty, of shards that can take rows returns at
    once. *)
Lemma genAutoShard_ready (fuel : nat) (s : State) :
  autoShard_list s <> [] ->
  (forall rec, rec ∈ autoShard_list s ->
     notFull (shardList s) (autoShardSize s) (ar_shard rec)) ->
  exists shard s',
    genAutoShard (S fuel) s = Ok shard s'
    /\ notFull (shardList s) (autoShardSize s) shard
    /\ shardList s' = shardList s /\ autoShard_step s' = autoShard_step s.
Proof.
  intros Hne Hall. destruct (last_elem_of _ Hne) as (lastRec & Hlast & Hin).
  cbn [genAutoShard]. unfold bind at 1. cbv zeta.
  destruct (length (autoShard_list s)) as [|n] eqn:Hlen;
    [destruct (autoShard_list s); [contradiction | discriminate]|].
  rewrite (autoShardFromList_last n _ _ _ lastRec Hlast (Hall _ Hin)).
  eexists _, _. split; [reflexivity|]. split; [apply Hall, Hin|]. split; reflexivity.
Qed.

Lemma genAutoShard_unfold (fuel : nat) :
  genAutoShard (S fuel)
  = (found <- (fun s : State =>
        let r := autoShardFromList (length (autoShard_list s)) (shardList s)
                   (autoShardSize s) (autoShard_list s) in
        Ok r.1 (set_autoShard_list (fun _ => r.2) s)) ;;
     match found with
     | Some shard => ret shard
     | None =>
         step <- gets autoShard_step ;;
         l <- gets autoShard_list ;;
         when ((step =? 0) && bool_decide (l = [])) (
           modify (fun s =>
             set_autoShard_list
               (fun l => l ++ autoShardExisting (shardList s) (openedShardNames s)
                                (autoShardSize s)) s) ;;
           modify (set_autoShard_step (fun i => i + 1))) ;;
         step <- gets autoShard_step ;;
         l <- gets autoShard_list ;;
         when ((step =? 1) && bool_decide (l = [])) (
           modify (fun s =>
             set_autoShard_list (fun _ => autoShardNew (shardList s) (autoShardSize s)) s)) ;;
         genAutoShard fuel
     end).
Proof. reflexivity. Qed.

(** The two refill steps on an empty list: the list that comes out is not
    empty and holds shards that can take rows. *)
Lemma genAutoShard_refill (s0 : State) :
  autoShard_list s0 = [] -> (autoShard_step s0 = 0 \/ autoShard_step s0 = 1) ->
  exists st,
    (forall B (k : M State B),
       (step <- gets autoShard_step ;;
        l <- gets autoShard_list ;;
        when ((step =? 0) && bool_decide (l = [])) (
          modify (fun s =>
            set_autoShard_list
              (fun l => l ++ autoShardExisting (shardList s) (openedShardNames s)
                               (autoShardSize s)) s) ;;
          modify (set_autoShard_step (fun i => i + 1))) ;;
        step <- gets autoShard_step ;;
        l <- gets autoShard_list ;;
        when ((step =? 1) && bool_decide (l = [])) (
          modify (fun s =>
            set_autoShard_list (fun _ => autoShardNew (shardList s) (autoShardSize s)) s)) ;;
        k) s0 = k st)
    /\ shardList st = shardList s0 /\ autoShardSize st = autoShardSize s0
    /\ autoShard_step st = 1
    /\ autoShard_list st <> []
    /\ forall rec, rec ∈ autoShard_list st ->
         notFull (shardList s0) (autoShardSize s0) (ar_shard rec).
Proof.
  intros Hnil Hstep.
  destruct (autoShardNew_spec (shardList s0) (autoShardSize s0)) as [Hnew Hnone].
  assert (Hnil' : bool_decide (@nil AutoRec = []) = true)
    by (apply bool_decide_eq_true_2; reflexivity).
  assert (Hnew' : forall rec, rec ∈ autoShardNew (shardList s0) (autoShardSize s0) ->
                    notFull (shardList s0) (autoShardSize s0) (ar_shard rec)).
  { intros rec Hin. unfold notFull. now rewrite (Hnone rec Hin). }
  destruct Hstep as [H0|H1].
  - destruct (autoShardExisting (shardList s0) (openedShardNames s0) (autoShardSize s0))
      as [|e rest] eqn:Hex.
    + eexists. split.
      { intros B k. cbv beta iota delta [bind gets].
        rewrite H0, Hnil, Hnil'. cbn [Z.eqb andb when].
        cbv beta iota delta [bind modify].
        cbn [autoShard_step autoShard_list set_autoShard_list set_autoShard_step
             shardList autoShardSize openedShardNames].
        rewrite H0, Hnil, Hex. cbn [app Z.add Z.eqb Pos.eqb andb].
        rewrite Hnil'. cbn [andb when]. cbv beta iota delta [modify]. reflexivity. }
      cbn [autoShard_step autoShard_list set_autoShard_list set_autoShard_step
           shardList autoShardSize openedShardNames].
      rewrite H0. repeat split; assumption.
    + eexists. split.
      { intros B k. cbv beta iota delta [bind gets].
        rewrite H0, Hnil, Hnil'. cbn [Z.eqb andb when].
        cbv beta iota delta [bind modify].
        cbn [autoShard_step autoShard_list set_autoShard_list set_autoShard_step
             shardList autoShardSize openedShardNames].
        rewrite H0, Hnil, Hex. cbn [app Z.add Z.eqb Pos.eqb andb].
        rewrite (bool_decide_eq_false_2 (e :: rest = [])) by discriminate.
        cbn [andb when]. cbv beta iota delta [ret]. reflexivity. }
      cbn [autoShard_step autoShard_list set_autoShard_list set_autoShard_step
           shardList autoShardSize openedShardNames].
      rewrite H0, Hnil. cbn [app]. repeat split; try reflexivity; try discriminate.
      intros rec Hin. rewrite <- Hex in Hin. now apply autoShardExisting_notFull in Hin.
  - eexists. split.
    { intros B k. cbv beta iota delta [bind gets].
      rewrite H1, Hnil, Hnil'. cbn [Z.eqb Pos.eqb andb when].
      cbv beta iota delta [ret].
      rewrite H1, Hnil, Hnil'. cbn [Z.eqb Pos.eqb andb when].
      cbv beta iota delta [modify]. reflexivity. }
    cbn [autoShard_step autoShard_list set_autoShard_list set_autoShard_step
         shardList autoShardSize openedShardNames].
    repeat split; assumption.
Qed.

(** X19.  [_genAutoShard] returns, with the step it is in being 0 or 1 as
    it always is, and the shard it returns can take rows: it is not among
    the shards, or holds fewer rows than [autoShardSize].  The shards are as
    before. *)
Theorem genAutoShard_returns_free_shard (s : State) :
  (autoShard_step s = 0 \/ autoShard_step s = 1) ->
  exists shard s',
    _genAutoShard s = Ok shard s'
    /\ notFull (shardList s) (autoShardSize s) shard
    /\ shardList s' = shardList s
    /\ (autoShard_step s' = 0 \/ autoShard_step s' = 1).
Proof.
  intros Hstep. unfold _genAutoShard. rewrite (genAutoShard_unfold 2).
  unfold bind at 1. cbv zeta.
  pose proof (autoShardFromList_notFull (length (autoShard_list s)) (shardList s)
                (autoShardSize s) (autoShard_list s)) as Hnf0.
  pose proof (autoShardFromList_exhausts (length (autoShard_list s)) (shardList s)
                (autoShardSize s) (autoShard_list s) (Nat.le_refl _)) as Hnil0.
  destruct (autoShardFromList _ _ _ _) as [found l1]. cbn [fst snd] in *.
  destruct found as [shard|].
  - exists shard. eexists. split; [reflexivity|].
    split; [now apply Hnf0|]. split; [reflexivity | exact Hstep].
  - specialize (Hnil0 eq_refl). subst l1.
    destruct (genAutoShard_refill (set_autoShard_list (fun _ => []) s) eq_refl Hstep)
      as (st & Hrun & Hsl & Hsz & Hst & Hne & Hall).
    cbn [shardList autoShardSize set_autoShard_list] in Hsl, Hsz, Hall.
    rewrite Hrun.
    destruct (genAutoShard_ready 1 st Hne) as (shard & s' & Hret & Hnf & Hsl' & Hst').
    { intros rec Hin. rewrite Hsl, Hsz. now apply Hall. }
    exists shard, s'. split; [exact Hret|]. rewrite Hsl, Hsz in Hnf.
    split; [exact Hnf|]. split; [congruence|]. right. congruence.
Qed.

(** *** Rows by shard *)

Lemma addShardedRow_keys (shard : string) (row : Row Data)
    (m : list (string * list (Row Data))) :
  (addShardedRow shard row m).*1
  = if bool_decide (shard ∈ m.*1) then m.*1 else m.*1 ++ [shard].
Proof.
  induction m as [|[k rs] m IH]; cbn [addShardedRow].
  - rewrite bool_decide_eq_false_2 by apply not_elem_of_nil. reflexivity.
  - change (((k, rs) :: m).*1) with (k :: m.*1).
    destruct (decide (k = shard)) as [->|Hne].
    + rewrite (bool_decide_eq_true_2 (shard = shard)) by reflexivity.
      now rewrite (bool_decide_eq_true_2 (shard ∈ shard :: m.*1)) by apply list_elem_of_here.
    + rewrite (bool_decide_eq_false_2 _ Hne).
      change (((k, rs) :: addShardedRow shard row m).*1)
        with (k :: (addShardedRow shard row m).*1).
      rewrite IH. destruct (decide (shard ∈ m.*1)) as [Hin|Hnin].
      * rewrite (bool_decide_eq_true_2 _ Hin).
        now rewrite (bool_decide_eq_true_2 (shard ∈ k :: m.*1))
          by apply list_elem_of_further, Hin.
      * rewrite (bool_decide_eq_false_2 _ Hnin).
        rewrite (bool_decide_eq_false_2 (shard ∈ k :: m.*1)); [reflexivity|].
        rewrite elem_of_cons. intros [?|?]; [congruence | contradiction].
Qed.

Lemma addShardedRow_NoDup (shard : string) (row : Row Data)
    (m : list (string * list (Row Data))) :
  NoDup m.*1 -> NoDup (addShardedRow shard row m).*1.
Proof.
  intros Hnd. rewrite addShardedRow_keys.
  destruct (decide (shard ∈ m.*1)) as [Hin|Hnin].
  - now rewrite (bool_decide_eq_true_2 _ Hin).
  - rewrite (bool_decide_eq_false_2 _ Hnin). apply NoDup_app. split; [exact Hnd|].
    split; [|apply NoDup_singleton].
    intros x Hx Hx'. apply list_elem_of_singleton in Hx'. now subst.
Qed.

Lemma addShardedRow_rows (shard : string) (row : Row Data)
    (m : list (string * list (Row Data))) :
  concat (addShardedRow shard row m).*2 ≡ₚ row :: concat m.*2.
Proof.
  induction m as [|[k rs] m IH]; cbn [addShardedRow].
  - reflexivity.
  - destruct (bool_decide (k = shard)).
    + change (concat ((k, rs ++ [row]) :: m).*2) with ((rs ++ [row]) ++ concat m.*2).
      change (concat ((k, rs) :: m).*2) with (rs ++ concat m.*2).
      rewrite <- app_assoc. cbn [app].
      now rewrite <- Permutation_middle.
    + change (concat ((k, rs) :: addShardedRow shard row m).*2)
        with (rs ++ concat (addShardedRow shard row m).*2).
      change (concat ((k, rs) :: m).*2) with (rs ++ concat m.*2).
      rewrite IH. now rewrite <- Permutation_middle.
Qed.

(** Every group in [m] has rows, all of them of its shard and without id. *)
Definition grouped (m : list (string * list (Row Data))) : Prop :=
  forall k rs, (k, rs) ∈ m ->
    rs <> [] /\ forall r, r ∈ rs -> row_shard r = Some (VStr k) /\ row_id r = None.

Lemma addShardedRow_grouped (shard : string) (row : Row Data)
    (m : list (string * list (Row Data))) :
  row_shard row = Some (VStr shard) -> row_id row = None ->
  grouped m -> grouped (addShardedRow shard row m).
Proof.
  intros Hs Hi. induction m as [|[k rs] m IH]; intros Hm k' rs' Hin; cbn [addShardedRow] in Hin.
  - apply list_elem_of_singleton in Hin. injection Hin as -> ->.
    split; [discriminate|]. intros r Hr. apply list_elem_of_singleton in Hr. now subst.
  - destruct (decide (k = shard)) as [->|Hne].
    + rewrite (bool_decide_eq_true_2 (shard = shard)) in Hin by reflexivity.
      apply elem_of_cons in Hin as [Heq|Hin].
      * injection Heq as -> ->. split; [now destruct rs|].
        intros r Hr. apply elem_of_app in Hr as [Hr|Hr].
        -- apply (Hm shard rs); [apply list_elem_of_here | exact Hr].
        -- apply list_elem_of_singleton in Hr. now subst.
      * apply Hm, list_elem_of_further, Hin.
    + rewrite (bool_decide_eq_false_2 _ Hne) in Hin.
      apply elem_of_cons in Hin as [Heq|Hin].
      * injection Heq as -> ->. apply Hm, list_elem_of_here.
      * apply IH; [|exact Hin]. intros k0 rs0 H0. apply Hm, list_elem_of_further, H0.
Qed.

(** A row that passes the checks joins the group of a shard, as it is but
    for its [shard]. *)
Lemma checkRow_Ok shardGen (row : Row Data) acc (s s' : State) m :
  checkRow shardGen row acc s = Ok m s' ->
  exists shard,
    row_id row = None
    /\ m = addShardedRow shard (mkRow None (Some (VStr shard)) (row_data row)) acc.
Proof.
  unfold checkRow. destruct (row_id row) as [i|] eqn:Hid.
  - rewrite bool_decide_eq_true_2 by eauto. discriminate.
  - rewrite bool_decide_eq_false_2 by (intros [? ?]; discriminate).
    unfold bind at 1.
    assert (Hgo : forall row' : Row Data,
              row_id row' = None -> row_data row' = row_data row ->
              forall s0,
                match row_shard row' with
                | Some (VStr shard) =>
                    if bool_decide (shard = EmptyString)
                    then throw "Wrong row.shard field value"
                    else
                      shard <- (if bool_decide (shard = autoShardName) then _genAutoShard
                                else ret shard) ;;
                      let row := mkRow (row_id row') (Some (VStr shard)) (row_data row') in
                      ret (addShardedRow shard row acc)
                | _ => throw "Wrong row.shard field value"
                end s0 = Ok m s' ->
                exists shard,
                  None = @None JsVal
                  /\ m = addShardedRow shard (mkRow None (Some (VStr shard)) (row_data row))
                           acc).
    { intros row' Hid' Hdata s0. destruct (row_shard row') as [[shard| |]|]; try discriminate.
      destruct (bool_decide (shard = EmptyString)); [discriminate|].
      unfold bind. rewrite Hid', Hdata.
      destruct ((if bool_decide (shard = autoShardName) then _genAutoShard else ret shard) s0)
        as [found s1|e s1]; cbv beta iota zeta; [|discriminate].
      unfold ret. intros [= <- <-]. eauto. }
    destruct (row_shard row) as [v|] eqn:Hshard.
    + unfold ret at 1. intros Hrun. apply (Hgo row Hid eq_refl s). exact Hrun.
    + destruct shardGen as [gen|]; [|discriminate].
      unfold ret at 1. intros Hrun.
      apply (Hgo (mkRow None (Some (gen row)) (row_data row)) eq_refl eq_refl s).
      exact Hrun.
Qed.

Lemma checkRows_groups_from shardGen (rows : list (Row Data)) acc (s s' : State) m :
  checkRows shardGen rows acc s = Ok m s' ->
  NoDup acc.*1 -> grouped acc ->
  NoDup m.*1 /\ grouped m
  /\ row_data <$> concat m.*2 ≡ₚ (row_data <$> concat acc.*2) ++ (row_data <$> rows).
Proof.
  revert acc s. induction rows as [|row rows IH]; intros acc s; cbn [checkRows].
  - unfold ret. intros [= <- <-] Hnd Hg. rewrite app_nil_r. auto.
  - unfold bind at 1.
    destruct (checkRow shardGen row acc s) as [acc1 s1|e s1] eqn:Hrow; [|discriminate].
    intros Hrest Hnd Hg.
    destruct (checkRow_Ok _ _ _ _ _ _ Hrow) as (shard & Hid & ->).
    destruct (IH _ _ Hrest) as (Hnd' & Hg' & Hperm).
    { now apply addShardedRow_NoDup. }
    { now apply addShardedRow_grouped. }
    split; [exact Hnd'|]. split; [exact Hg'|].
    rewrite Hperm, addShardedRow_rows, !fmap_cons. cbn [row_data app].
    now rewrite <- Permutation_middle.
Qed.

(** X20.  When the checks of [insert] pass, every row is in the group of
    exactly one shard: the groups have different shards, none is empty,
    each row in a group has the shard of the group and no id, and the rows
    of all groups together are the rows given, as far as their data goes. *)
Theorem checkRows_groups shardGen (rows : list (Row Data)) (s s' : State)
    (m : list (string * list (Row Data))) :
  checkRows shardGen rows [] s = Ok m s' ->
  NoDup m.*1
  /\ (forall k rs, (k, rs) ∈ m ->
        rs <> [] /\ forall r, r ∈ rs -> row_shard r = Some (VStr k) /\ row_id r = None)
  /\ row_data <$> concat m.*2 ≡ₚ row_data <$> rows.
Proof.
  intros Hrun.
  destruct (checkRows_groups_from _ _ _ _ _ _ Hrun) as (Hnd & Hg & Hperm).
  - apply NoDup_nil_2.
  - intros k rs Hin. apply elem_of_nil in Hin. contradiction.
  - auto.
Qed.


(** *** Locks are given back *)

(** The counters of a shard; a shard without a record has none set. *)
Definition countersOf (s : State) (shard : string) : LockRec :=
  default (mkLockRec 0 0) (shardLockList s !! shard).

Definition countersNonNeg (s : State) : Prop :=
  forall shard, 0 <= lock (countersOf s shard) /\ 0 <= pers (countersOf s shard).

(** The counters are those of [c]. *)
Definition locksAre (c : string -> LockRec) (s : State) : Prop :=
  forall x, countersOf s x = c x.

(** [c] with one more lock on [shard]. *)
Definition locked (c : string -> LockRec) (shard : string) (x : string) : LockRec :=
  if decide (x = shard) then mkLockRec (lock (c x) + 1) (pers (c x)) else c x.

Lemma updateShardLockList_counters (shard : string) (lockN persN : Z) (s : State)
    (x : string) :
  countersOf (final (_updateShardLockList shard lockN persN s)) x
  = if decide (x = shard)
    then mkLockRec (clampLow (lock (countersOf s x) + lockN))
           (clampLow (pers (countersOf s x) + persN))
    else countersOf s x.
Proof.
  destruct (updateShardLockList_final shard lockN persN s) as [Hl _].
  unfold countersOf. rewrite Hl.
  destruct (decide (x = shard)) as [->|Hne].
  - now rewrite lookup_insert_eq.
  - now rewrite lookup_insert_ne by congruence.
Qed.

Lemma updateShardLockList_triple (P Q E : State -> Prop) (shard : string)
    (lockN persN : Z) :
  (forall s, P s -> Q (final (_updateShardLockList shard lockN persN s))) ->
  triple P (_updateShardLockList shard lockN persN) (fun _ => Q) E.
Proof. intros H s Hs. rewrite updateShardLockList_returns. apply H, Hs. Qed.

Lemma clampLow_id (n : Z) : 0 <= n -> clampLow n = n.
Proof. intros Hn. unfold clampLow. destruct (Z.ltb_spec n 0); [lia | reflexivity]. Qed.

Lemma lock_counters (c : string -> LockRec) (shard : string) (E : State -> Prop) :
  0 <= lock (c shard) -> 0 <= pers (c shard) ->
  triple (locksAre c) (_updateShardLockList shard 1 0)
    (fun _ => locksAre (locked c shard)) E.
Proof.
  intros Hl Hp. apply updateShardLockList_triple. intros s Hs x.
  rewrite updateShardLockList_counters. unfold locked. rewrite Hs.
  destruct (decide (x = shard)) as [->|]; [|reflexivity].
  rewrite !clampLow_id by lia. now rewrite Z.add_0_r.
Qed.

Lemma unlock_counters (c : string -> LockRec) (shard : string) (E : State -> Prop) :
  0 <= lock (c shard) -> 0 <= pers (c shard) ->
  triple (locksAre (locked c shard)) (_updateShardLockList shard (-1) 0)
    (fun _ => locksAre c) E.
Proof.
  intros Hl Hp. apply updateShardLockList_triple. intros s Hs x.
  rewrite updateShardLockList_counters. rewrite Hs. unfold locked.
  destruct (decide (x = shard)) as [->|]; [|reflexivity].
  cbn [lock pers]. rewrite !clampLow_id by lia.
  destruct (c shard) as [l p]. cbn [lock pers]. f_equal; lia.
Qed.

(** Reads a goal [triple I m (fun _ => I) I] as [preserves I m]. *)
Ltac as_preserves :=
  match goal with |- triple ?P ?m _ _ => change (preserves P m) end.

Lemma closeShards_locks (c : string -> LockRec) (closeAll : bool) :
  preserves (locksAre c) (_closeShards closeAll).
Proof. unfold _closeShards, closeTable. destruct closeAll; repeat sound_step. Qed.

Lemma getFreeShardNum_locks (c : string -> LockRec) :
  preserves (locksAre c) _getFreeShardNum.
Proof. unfold _getFreeShardNum. repeat sound_step. Qed.

Lemma saveShardRec_locks (c : string -> LockRec) (rec : ShardRec) :
  preserves (locksAre c) (_saveShardRec rec).
Proof. unfold _saveShardRec. repeat sound_step. Qed.

Lemma genAutoShard_locks (c : string -> LockRec) (fuel : nat) :
  preserves (locksAre c) (genAutoShard fuel).
Proof.
  induction fuel as [|fuel IH]; simpl.
  - apply preserves_throw.
  - apply preserves_bind.
    + intros s Hs. destruct s; exact Hs.
    + intros [shard|]; [apply preserves_ret|]. repeat first [exact IH | sound_step].
Qed.

Lemma checkRows_locks (c : string -> LockRec) shardGen (rows : list (Row Data)) acc :
  preserves (locksAre c) (checkRows shardGen rows acc).
Proof.
  revert acc. induction rows as [|row rows IH]; intros acc; simpl.
  - apply preserves_ret.
  - apply preserves_bind; [|intros ?; apply IH].
    unfold checkRow, _genAutoShard.
    repeat first [apply genAutoShard_locks | sound_step].
Qed.

(** [_lockShard] adds one lock when it returns and none when it throws. *)
Lemma lockShard_locks (c : string -> LockRec) (shard : string) :
  0 <= lock (c shard) -> 0 <= pers (c shard) ->
  triple (locksAre c) (_lockShard shard) (fun _ => locksAre (locked c shard)) (locksAre c).
Proof.
  intros Hl Hp. unfold _lockShard.
  apply triple_bind with (Q := fun _ => locksAre c); [apply preserves_gets|].
  intros [|].
  - apply triple_bind with (Q := fun _ => locksAre (locked c shard));
      [now apply lock_counters|].
    intros _ s Hs. exact Hs.
  - apply triple_bind with (Q := fun _ => locksAre c); [apply preserves_gets|].
    intros free. destruct free; cbn [negb]; [|intros s Hs; exact Hs].
    apply triple_bind with (Q := fun _ => locksAre c); [apply preserves_gets|].
    intros known.
    apply triple_bind with (Q := fun _ => locksAre c).
    { destruct known; [apply preserves_ret|].
      as_preserves.
      repeat first
        [ apply getFreeShardNum_locks | apply saveShardRec_locks | sound_step ]. }
    intros shardRec.
    apply triple_bind with (Q := fun _ => locksAre c); [apply preserves_gets|].
    intros path.
    apply triple_bind with (Q := fun _ => locksAre c); [apply preserves_gets|].
    intros onDisk.
    destruct (bt_open onDisk) as [newTable|]; [|intros s Hs; exact Hs].
    do 3 (apply triple_bind with (Q := fun _ => locksAre c); [sound_step | intros _]).
    apply triple_bind with (Q := fun _ => locksAre (locked c shard));
      [now apply lock_counters|].
    intros _ s Hs. exact Hs.
Qed.

(** [_unlockShard] takes the lock back, whether it returns or throws. *)
Lemma unlockShard_locks (c : string -> LockRec) (shard : string) :
  0 <= lock (c shard) -> 0 <= pers (c shard) ->
  triple (locksAre (locked c shard)) (_unlockShard shard) (fun _ => locksAre c) (locksAre c).
Proof.
  intros Hl Hp. unfold _unlockShard.
  apply triple_bind with (Q := fun _ => locksAre c); [now apply unlock_counters|].
  intros _. apply closeShards_locks.
Qed.

Lemma tryFinally_triple {A} (P Q : State -> Prop) (m : M State A) (fin : M State unit) :
  preserves P m -> triple P fin (fun _ => Q) Q ->
  triple P (tryFinally m fin) (fun _ => Q) Q.
Proof.
  intros Hm Hf s Hs. unfold tryFinally. specialize (Hm s Hs).
  destruct (m s) as [a s1|e s1]; specialize (Hf s1 Hm); destruct (fin s1); exact Hf.
Qed.

Lemma insertIntoShards_locks (c : string -> LockRec) shardedRows (shards : list string)
    (count : Z) :
  (forall x, 0 <= lock (c x) /\ 0 <= pers (c x)) ->
  preserves (locksAre c) (insertIntoShards (Data := Data) shardedRows shards count).
Proof.
  intros Hnn. revert count. induction shards as [|shard shards IH]; intros count; simpl.
  - apply preserves_ret.
  - apply preserves_bind; [|intros ?; apply IH].
    destruct (Hnn shard) as [Hl Hp]. unfold insertIntoShard.
    apply triple_bind with (Q := fun _ => locksAre (locked c shard));
      [now apply lockShard_locks|].
    intros table.
    apply triple_bind with (Q := fun _ => locksAre c).
    { apply tryFinally_triple; [|now apply unlockShard_locks].
      repeat sound_step. }
    intros done. as_preserves.
    repeat first [apply saveShardRec_locks | sound_step].
Qed.

(** X28.  [insert] leaks no lock: with the counters not negative, every
    shard has the lock and pers counters after [insert] that it had before,
    whether [insert] returns or throws and whichever shards it opened; a
    shard that had no counters has them at 0. *)
Theorem insert_releases_locks (query : InsertQuery) (s : State) (shard : string) :
  countersNonNeg s ->
  countersOf (final (insert query s)) shard = countersOf s shard.
Proof.
  intros Hnn. revert shard.
  apply (preserves_final (locksAre (countersOf s)) (insert query) s); [|intros x; reflexivity].
  unfold insert. apply preserves_bind; [apply preserves_final_eq, checkErrors_state|].
  intros _. apply tryFinally_preserves.
  - destruct (q_rows query); [|apply preserves_throw].
    unfold _getOpenedShardsFirst.
    repeat first
      [ apply checkRows_locks | apply insertIntoShards_locks; exact Hnn | sound_step ].
  - apply checkTables_frame; intros ? s0 ?; destruct s0; assumption.
Qed.

(** *** Eviction goes as far as it can *)

(** The closing of one closable shard in [_closeShards] leaves the closable
    names and the cache size limit alone. *)
Lemma closeOne_closable (shard : string) (C : list string) :
  preserves (fun s : State => closableShardNames s = C)
    (closeTable shard ;;
     modify (set_openedShardTables (delete shard)) ;;
     modify (set_openedShardNames (fun x => x ∖ {[shard]})) ;;
     modify (set_cachedShardNames (fun x => x ∖ {[shard]})) ;;
     _checkCachedShardLock).
Proof. unfold closeTable. repeat sound_step. Qed.

Lemma evictLoop_spec (limit : Z) (l : list string) (s s' : State) :
  (forall x, x ∈ closableShardNames s -> x ∈ l) ->
  forEachWhile l (fun shard =>
    cached <- gets (fun s => Z.of_nat (size (cachedShardNames s))) ;;
    if cached >? limit then
      isClosable <- gets (fun s => bool_decide (shard ∈ closableShardNames s)) ;;
      isOpened <- gets (fun s => bool_decide (shard ∈ openedShardNames s)) ;;
      when (isClosable && isOpened) (
        closeTable shard ;;
        modify (set_openedShardTables (delete shard)) ;;
        modify (set_openedShardNames (fun x => x ∖ {[shard]})) ;;
        modify (set_cachedShardNames (fun x => x ∖ {[shard]})) ;;
        _checkCachedShardLock) ;;
      modify (set_closableShardNames (orderedDelete shard)) ;;
      ret true
    else ret false) s = Ok tt s' ->
  Z.of_nat (size (cachedShardNames s')) <= limit \/ closableShardNames s' = [].
Proof.
  revert s. induction l as [|shard l IH]; intros s Hsub.
  - intros [= <-]. right. destruct (closableShardNames s) as [|x rest]; [reflexivity|].
    specialize (Hsub x (list_elem_of_here _ _)). apply elem_of_nil in Hsub. contradiction.
  - cbn [forEachWhile]. unfold bind at 1. unfold bind at 1, gets at 1.
    destruct (Z.gtb_spec (Z.of_nat (size (cachedShardNames s))) limit)
      as [Hgt|Hle]; [|intros [= <-]; now left].
    unfold bind at 1, gets at 1. unfold bind at 1, gets at 1. unfold bind at 1.
    pose proof (preserves_when _ (bool_decide (shard ∈ closableShardNames s)
                                  && bool_decide (shard ∈ openedShardNames s)) _
                  (closeOne_closable shard (closableShardNames s)) s eq_refl) as Hkeep.
    destruct (when _ _ s) as [[] s1|e s1]; [|discriminate].
    cbv beta iota delta [bind modify ret]. apply IH.
    intros x Hx. cbn [closableShardNames set_closableShardNames] in Hx.
    apply elem_of_orderedDelete in Hx as [Hne Hx]. rewrite Hkeep in Hx.
    apply Hsub in Hx. apply elem_of_cons in Hx as [->|Hx]; [contradiction | exact Hx].
Qed.

(** X29.  Eviction goes as far as it can: when [_closeShards()] returns,
    the cached shards are within the limit [cacheShards], or no shard is
    closable any more (the others are pinned). *)
Theorem closeShards_evicts (s s' : State) :
  _closeShards false s = Ok tt s' ->
  Z.of_nat (size (cachedShardNames s')) <= cacheShards s' \/ closableShardNames s' = [].
Proof.
  intros Hrun.
  assert (Hlimit : cacheShards s' = cacheShards s).
  { apply (preserves_Ok (fun s0 : State => cacheShards s0 = cacheShards s)
             (_closeShards false) s s' tt); [|reflexivity | exact Hrun].
    unfold _closeShards, closeTable. repeat sound_step. }
  rewrite Hlimit. revert Hrun.
  unfold _closeShards. unfold bind at 1, gets at 1. unfold bind at 1, gets at 1.
  destruct (Z.leb_spec (Z.of_nat (size (cachedShardNames s))) (cacheShards s)) as [Hle|Hgt].
  - intros [= <-]. now left.
  - unfold bind at 1, gets at 1. apply evictLoop_spec. auto.
Qed.
End Props.

(** *** Examples *)

#[local] Existing Instance demoTable.

Lemma shardTablePath_inj_witness :
  _shardTablePath "t" 999999 <> _shardTablePath "t" 1000000.
Proof.
  apply (shardTablePath_inj "t" 999999 1000000); lia.
Defined.

(** The shard [a] opened and locked, the shard [b] opened and unlocked: one
    more is cached than [cacheShards] allows, [b] is closable, [a] is
    pinned. *)
Definition demoPinned : @State (list (Row unit) * Z) :=
  final (_updateShardLockList "b" (-1) 0
    (final (_lockShard "b" (final (_lockShard "a" demoSharded))))).

Lemma closeShards_spares_pinned_witness :
  openedShardTables (final (_closeShards false demoPinned)) !! "a"%string
  = openedShardTables demoPinned !! "a"%string
  /\ ("a"%string ∈ openedShardNames (final (_closeShards false demoPinned))
      <-> "a"%string ∈ openedShardNames demoPinned)
  /\ shardLockList (final (_closeShards false demoPinned)) = shardLockList demoPinned.
Proof.
  apply (@closeShards_spares_pinned _ unit demoTable "a" (mkLockRec 1 0) demoPinned).
  - intros shard Hin. vm_compute in Hin. apply list_elem_of_singleton in Hin as ->.
    exists (mkLockRec 0 0). vm_compute. auto.
  - vm_compute. reflexivity.
  - left. simpl. lia.
Defined.

Lemma lockShard_pins_witness :
  "a"%string ∈ openedShardNames (final (_lockShard "a" demoSharded))
  /\ Some "t/s000000"%string
     = openedShardTables (final (_lockShard "a" demoSharded)) !! "a"%string
  /\ ("a"%string ∉ closableShardNames (final (_lockShard "a" demoSharded)))
  /\ exists rec,
       shardLockList (final (_lockShard "a" demoSharded)) !! "a"%string = Some rec
       /\ lock rec
          = lock (default (mkLockRec 0 0) (shardLockList demoSharded !! "a"%string)) + 1.
Proof.
  apply (@lockShard_pins _ unit demoTable "a" demoSharded
           (final (_lockShard "a" demoSharded)) (Some "t/s000000"%string)).
  - intros rec Hrec. vm_compute in Hrec. discriminate.
  - vm_compute. reflexivity.
Defined.

Lemma genAutoShard_returns_free_shard_witness :
  exists shard s',
    _genAutoShard demoSharded = Ok shard s'
    /\ notFull (shardList demoSharded) (autoShardSize demoSharded) shard
    /\ shardList s' = shardList demoSharded
    /\ (autoShard_step s' = 0 \/ autoShard_step s' = 1).
Proof.
  apply (@genAutoShard_returns_free_shard _ demoSharded). left. reflexivity.
Defined.

(** Two rows for the shards [a] and [b]. *)
Definition demoRows : list (Row unit) :=
  [mkRow None (Some (VStr "a")) tt; mkRow None (Some (VStr "b")) tt].

Lemma checkRows_groups_witness :
  NoDup [("a"%string, [mkRow None (Some (VStr "a")) tt]);
         ("b"%string, [mkRow None (Some (VStr "b")) tt])].*1
  /\ (forall k rs,
        (k, rs) ∈ [("a"%string, [mkRow None (Some (VStr "a")) tt]);
                   ("b"%string, [mkRow None (Some (VStr "b")) tt])] ->
        rs <> [] /\ forall r, r ∈ rs -> row_shard r = Some (VStr k) /\ row_id r = None)
  /\ row_data <$> concat [("a"%string, [mkRow None (Some (VStr "a")) tt]);
                          ("b"%string, [mkRow None (Some (VStr "b")) tt])].*2
     ≡ₚ row_data <$> demoRows.
Proof.
  apply (@checkRows_groups _ unit None demoRows demoSharded demoSharded).
  reflexivity.
Defined.

Lemma insert_releases_locks_witness :
  countersOf (final (insert (mkInsertQuery (Some demoRows) None) demoSharded)) "a"
  = countersOf demoSharded "a".
Proof.
  apply (@insert_releases_locks _ unit demoTable (mkInsertQuery (Some demoRows) None)
           demoSharded "a").
  intros x. unfold countersOf.
  replace (shardLockList demoSharded !! x) with (@None LockRec)
    by (symmetry; apply lookup_empty).
  simpl. lia.
Defined.

(** The shards [a] and [b] opened one after the other and unlocked: one
    more is cached than [cacheShards] allows. *)
Definition demoTwo : @State (list (Row unit) * Z) :=
  final (_updateShardLockList "b" (-1) 0
    (final (_lockShard "b"
      (final (_updateShardLockList "a" (-1) 0 (final (_lockShard "a" demoSharded))))))).

Lemma closeShards_evicts_witness :
  Z.of_nat (size (cachedShardNames (final (_closeShards false demoTwo))))
  <= cacheShards (final (_closeShards false demoTwo))
  \/ closableShardNames (final (_closeShards false demoTwo)) = [].
Proof.
  apply (@closeShards_evicts _ unit demoTable demoTwo (final (_closeShards false demoTwo))).
  vm_compute. reflexivity.
Defined.

End CoordinatorProps.

(** ** More about the database directory *)

Module DatabaseProps.
Import Exec ExecFacts JembaDb JembaDbFacts.

Section Props.
Context {Options : Type} {tableImpl : TableImpl Options}.
Abbreviation State := (@State Options).

(** *** A database that is not opened *)

(** X21.  On a database that is not opened (not locked yet, or unlocked),
    [open], [close] and [tableExists] throw that the database is closed and
    change nothing. *)
Theorem closed_database_throws (query : Query Options) (name : string) (s : State) :
  opened s = false ->
  open query s = Throw "Database closed. Use 'db.lock' to lock & open database." s
  /\ close name s = Throw "Database closed. Use 'db.lock' to lock & open database." s
  /\ tableExists name s
     = Throw "Database closed. Use 'db.lock' to lock & open database." s.
Proof.
  intros Ho. unfold open, close, tableExists.
  unfold bind at 1. unfold bind at 2. unfold bind at 3.
  unfold _checkOpened, bind, gets. rewrite Ho. auto.
Qed.

(** *** Opening twice *)

Lemma open_Ok_opened (query : Query Options) (s s' : State) :
  open query s = Ok tt s' -> opened s = true /\ q_table query <> EmptyString.
Proof.
  unfold open. unfold bind at 1. unfold _checkOpened. unfold bind at 1, gets at 1.
  destruct (opened s); [|discriminate]. cbn [negb]. unfold ret at 1.
  destruct (decide (q_table query = EmptyString)) as [Heq|Hne].
  - rewrite (bool_decide_eq_true_2 _ Heq). discriminate.
  - auto.
Qed.

Lemma instanceOpen_Ok (name : string) (query : Query Options) (s s' : State) :
  instanceOpen name query s = Ok tt s' ->
  opened s' = opened s
  /\ exists i, table s' !! name = Some i /\ inst_opened i = true.
Proof.
  unfold instanceOpen. unfold bind at 1, gets at 1.
  destruct (table s !! name) as [i|]; [|discriminate].
  destruct (table_open _ _ _ _ _) as [[msg|] d]; cbn [fst snd]; [discriminate|].
  intros [= <-]. split; [reflexivity|]. simpl. rewrite lookup_insert_eq. eauto.
Qed.

Lemma getTableType_state (name : string) (s : State) :
  final (_getTableType name s) = s.
Proof.
  destruct (typeOnDisk name s) as [type|] eqn:Ht.
  - now rewrite (getTableType_Ok name s type Ht).
  - destruct (getTableType_Throw name s Ht) as (msg & ->). reflexivity.
Qed.

(** X22.  After an [open] that returned, the table has an opened instance
    and a second [open] of it, with whatever type and options, returns
    without changing anything. *)
Theorem open_twice (query query' : Query Options) (s s' : State) :
  open query s = Ok tt s' -> q_table query' = q_table query ->
  (exists i, table s' !! q_table query = Some i /\ inst_opened i = true)
  /\ open query' s' = Ok tt s'.
Proof.
  intros Hopen Hname. destruct (open_Ok_opened query s s' Hopen) as [Ho Hne].
  assert (Hafter : opened s' = true
                   /\ exists i, table s' !! q_table query = Some i /\ inst_opened i = true).
  { destruct (existsNow (q_table query) s) eqn:Hex.
    - rewrite (open_existing_eq query s Ho Hne Hex) in Hopen.
      unfold needsInstance in Hopen.
      destruct (table s !! q_table query) as [[c [|]]|] eqn:Hi; cbn [negb inst_opened] in Hopen.
      + injection Hopen as <-. eauto.
      + pose proof (getTableType_state (q_table query) s) as Hst.
        destruct (_getTableType (q_table query) s) as [type s1|e s1];
          simpl in Hst; subst s1; [|discriminate].
        apply instanceOpen_Ok in Hopen as [Ho' Hi']. simpl in Ho'. split; congruence.
      + pose proof (getTableType_state (q_table query) s) as Hst.
        destruct (_getTableType (q_table query) s) as [type s1|e s1];
          simpl in Hst; subst s1; [|discriminate].
        apply instanceOpen_Ok in Hopen as [Ho' Hi']. simpl in Ho'. split; congruence.
    - rewrite (open_new_eq query s Ho Hne Hex) in Hopen.
      destruct (q_create query); [|discriminate].
      apply instanceOpen_Ok in Hopen as [Ho' Hi']. simpl in Ho'. split; congruence. }
  destruct Hafter as (Ho' & i & Hi & Hio). split; [eauto|].
  assert (Hne' : q_table query' <> EmptyString) by congruence.
  assert (Hex' : existsNow (q_table query') s' = true).
  { unfold existsNow. rewrite Hname, bool_decide_eq_true_2 by eauto. reflexivity. }
  rewrite (open_existing_eq query' s' Ho' Hne' Hex').
  unfold needsInstance. now rewrite Hname, Hi, Hio.
Qed.

(** *** Closing *)

Lemma close_eq (name : string) (s : State) :
  opened s = true -> name <> EmptyString ->
  close name s
  = if existsNow name s then
      (tableInstance <- gets (fun s => table s !! name) ;;
       match tableInstance with
       | Some i => instanceClose name i
       | None => ret tt
       end ;;
       modify (set_table (delete name))) s
    else Throw "Table does not exist" s.
Proof.
  intros Ho Hne. unfold close. unfold bind at 1. rewrite (checkOpened_Ok s Ho).
  rewrite (bool_decide_eq_false_2 _ Hne). unfold bind at 1.
  rewrite (tableExists_Ok name s Ho Hne). destruct (existsNow name s); reflexivity.
Qed.

(** X23.  [close] on an opened database: for a table that exists (in the
    table map or as a directory) it returns, and afterwards the table has
    no instance, the other tables have theirs, and the table still exists
    exactly when its directory is there; for a table that does not exist it
    throws and changes nothing. *)
Theorem close_forgets_instance (name : string) (s : State) :
  opened s = true -> name <> EmptyString ->
  (existsNow name s = true ->
   exists s',
     close name s = Ok tt s'
     /\ table s' !! name = None
     /\ (forall other, other <> name -> table s' !! other = table s !! other)
     /\ opened s' = true /\ dbPath s' = dbPath s
     /\ existsNow name s' = bool_decide (is_Some (disk s' !! tableDir s' name)))
  /\ (existsNow name s = false -> exists msg, close name s = Throw msg s).
Proof.
  intros Ho Hne. rewrite (close_eq name s Ho Hne). split; intros Hex; rewrite Hex.
  - unfold bind at 1. unfold bind at 1, gets at 1.
    destruct (table s !! name) as [i|] eqn:Hi.
    + unfold instanceClose. cbv beta iota delta [bind modify].
      eexists. split; [reflexivity|]. simpl.
      rewrite lookup_delete_eq. split; [reflexivity|]. split.
      * intros other Hother. rewrite lookup_delete_ne by congruence.
        now rewrite lookup_insert_ne by congruence.
      * repeat split; try assumption. unfold existsNow. simpl.
        rewrite lookup_delete_eq.
        rewrite (bool_decide_eq_false_2 (is_Some None)) by (intros [? ?]; discriminate).
        reflexivity.
    + cbv beta iota delta [bind modify ret].
      eexists. split; [reflexivity|]. simpl.
      rewrite lookup_delete_eq. split; [reflexivity|]. split.
      * intros other Hother. now rewrite lookup_delete_ne by congruence.
      * repeat split; try assumption. unfold existsNow. simpl.
        rewrite lookup_delete_eq.
        rewrite (bool_decide_eq_false_2 (is_Some None)) by (intros [? ?]; discriminate).
        reflexivity.
  - eauto.
Qed.

(** *** Rows of a table that is not opened *)

Lemma checkTable_throws {A} (name : string) (s : State) :
  opened s = true -> name <> EmptyString ->
  JembaDbRows._checkTable (A := A) name s
  = Throw (if existsNow name s
           then String.append "Table '" (String.append name "' closed")
           else String.append "Table '" (String.append name "' does not exist")) s.
Proof.
  intros Ho Hne. unfold JembaDbRows._checkTable. unfold bind.
  rewrite (tableExists_Ok name s Ho Hne). destruct (existsNow name s); reflexivity.
Qed.

(** X24.  [insert], [update] and [delete] on a table that has no instance
    in the table map throw and change nothing: the table is reported as
    closed when its directory is there and as not existing otherwise; the
    call never reaches a table. *)
Theorem rows_call_without_instance {Result : Type}
    (instanceInsert instanceUpdate instanceDelete :
       Instance -> Query Options -> M State Result)
    (query : Query Options) (s : State) :
  opened s = true -> q_table query <> EmptyString ->
  table s !! q_table query = None ->
  JembaDbRows.insert instanceInsert query s
  = Throw (if bool_decide (is_Some (disk s !! tableDir s (q_table query)))
           then String.append "Table '" (String.append (q_table query) "' closed")
           else String.append "Table '" (String.append (q_table query) "' does not exist"))
      s
  /\ JembaDbRows.update instanceUpdate query s
     = JembaDbRows.insert instanceInsert query s
  /\ JembaDbRows.delete instanceDelete query s
     = JembaDbRows.insert instanceInsert query s.
Proof.
  intros Ho Hne Hnone.
  assert (Hex : existsNow (q_table query) s
                = bool_decide (is_Some (disk s !! tableDir s (q_table query)))).
  { unfold existsNow. rewrite Hnone.
    rewrite (bool_decide_eq_false_2 (is_Some None)) by (intros [? ?]; discriminate).
    reflexivity. }
  unfold JembaDbRows.insert, JembaDbRows.update, JembaDbRows.delete.
  unfold bind at 1. unfold bind at 2. unfold bind at 3. unfold bind at 4. unfold bind at 5.
  rewrite (checkOpened_Ok s Ho), (bool_decide_eq_false_2 _ Hne).
  cbv beta iota delta [bind gets]. rewrite Hnone.
  rewrite !(checkTable_throws _ s Ho Hne), Hex. auto.
Qed.

End Props.

(** *** Examples *)

#[local] Existing Instance demoImpl.

(** A database that was unlocked. *)
Definition demoClosed : @State unit :=
  mkState false "db" ∅ tt {[ "db"%string := Dir ]}.

Lemma closed_database_throws_witness :
  open demoQuery demoClosed
  = Throw "Database closed. Use 'db.lock' to lock & open database." demoClosed
  /\ close "t" demoClosed
     = Throw "Database closed. Use 'db.lock' to lock & open database." demoClosed
  /\ tableExists "t" demoClosed
     = Throw "Database closed. Use 'db.lock' to lock & open database." demoClosed.
Proof.
  apply (@closed_database_throws unit demoImpl demoQuery "t" demoClosed). reflexivity.
Defined.

Lemma open_twice_witness :
  (exists i, table (final (open demoQuery demoOnDisk)) !! q_table demoQuery = Some i
             /\ inst_opened i = true)
  /\ open (mkQuery "t" true (Some "basic"%string) tt) (final (open demoQuery demoOnDisk))
     = Ok tt (final (open demoQuery demoOnDisk)).
Proof.
  apply (@open_twice unit demoImpl demoQuery (mkQuery "t" true (Some "basic"%string) tt)
           demoOnDisk (final (open demoQuery demoOnDisk))).
  - vm_compute. reflexivity.
  - reflexivity.
Defined.

Lemma close_forgets_instance_witness :
  (existsNow "t" demoOnDisk = true ->
   exists s',
     close "t" demoOnDisk = Ok tt s'
     /\ table s' !! "t"%string = None
     /\ (forall other, other <> "t"%string -> table s' !! other = table demoOnDisk !! other)
     /\ opened s' = true /\ dbPath s' = dbPath demoOnDisk
     /\ existsNow "t" s' = bool_decide (is_Some (disk s' !! tableDir s' "t")))
  /\ (existsNow "t" demoOnDisk = false -> exists msg, close "t" demoOnDisk = Throw msg demoOnDisk).
Proof.
  apply (@close_forgets_instance unit demoImpl "t" demoOnDisk).
  - reflexivity.
  - discriminate.
Defined.

Lemma rows_call_without_instance_witness :
  JembaDbRows.insert (fun _ _ => ret 0) demoQuery demoOnDisk
  = Throw (if bool_decide (is_Some (disk demoOnDisk !! tableDir demoOnDisk (q_table demoQuery)))
           then String.append "Table '" (String.append (q_table demoQuery) "' closed")
           else String.append "Table '" (String.append (q_table demoQuery) "' does not exist"))
      demoOnDisk
  /\ JembaDbRows.update (fun _ _ => ret 0) demoQuery demoOnDisk
     = JembaDbRows.insert (fun _ _ => ret 0) demoQuery demoOnDisk
  /\ JembaDbRows.delete (fun _ _ => ret 0) demoQuery demoOnDisk
     = JembaDbRows.insert (fun _ _ => ret 0) demoQuery demoOnDisk.
Proof.
  apply (@rows_call_without_instance unit Z
           (fun _ _ => ret 0) (fun _ _ => ret 0) (fun _ _ => ret 0) demoQuery demoOnDisk).
  - reflexivity.
  - discriminate.
  - reflexivity.
Defined.

End DatabaseProps.

